(** * The cancellation-propagation tree of package [context]

    A shallow embedding of [WithCancel], [WithDeadline], [WithTimeout],
    [WithValue], [propagateCancel], [parentCancelCtx], [removeChild] and the
    methods of [emptyCtx], [valueCtx], [cancelCtx] and [timerCtx], over an
    explicit store of context objects, followed by the properties of the
    design document that the code is checked against.

    Modelling conventions.
    - A pointer is the address (index) of an object in the store; a new object
      is allocated at the end of the store.  A [Context] interface value is
      [option ptr], [None] being the nil interface.
    - A [chan struct{}] is an identity; the set of closed channels is part of
      the world.  Nothing is ever sent on these channels, so a receive
      succeeds exactly when the channel is closed.
    - A [sync.Mutex] is the boolean [cc_mu]; locking a held mutex is reported
      as [Deadlock]; every [Lock]/[Unlock] is also appended to the world's
      trace, which records the order of the synchronisation actions.
    - The [children] map is kept as an option (nil map or not) of a list
      without a fixed meaning of order: [range] visits the list in order, and
      every statement below quantifies over all worlds, hence over all orders.
    - [time.Time] and [time.Duration] are integers (nanoseconds).  Armed
      timers are entries of [timers]; their callback is always
      [c.cancel(true, DeadlineExceeded)] for the recorded context [c].
    - The goroutine started by [propagateCancel] is recorded in [spawned];
      running it is left to the scheduler and is outside this development.
    - Loops and dynamic dispatch through parent pointers take a fuel bound.

    The development goes on with the rest of the source file: the
    environment variables of package [syscall], [Unwrap], [Is] and [As] of
    package [errors], and the [fdMutex] of package [poll]. *)

From stdpp Require Import base tactics option list numbers strings gmap.
From Stdlib Require Import ZArith Lia Ascii.


(** ** Values *)

Abbreviation ptr := nat (only parsing).
Abbreviation chan := nat (only parsing).
Abbreviation timer_id := nat (only parsing).

(** [closedchan] is the reusable closed channel, closed by [init]. *)
Definition closedchan : chan := 0.

(** The non-nil values of the [error] interface; nil is [None]. *)
Inductive error : Type :=
| Canceled
| DeadlineExceeded
| errorString (s : string).

#[global] Instance error_eq_dec : EqDecision error.
Proof. solve_decision. Defined.

(** Values of type [any].  [cancelCtxKey_addr] is [&cancelCtxKey];
    [cancelCtx_ptr p] is a [*cancelCtx] (for a [timerCtx] at [p], the address
    of its embedded [cancelCtx]); [nan_any] is the [float64] NaN;
    [struct_any v] is a value of the type [struct{ v any }], whose field
    holds [v]. *)
Inductive any : Type :=
| nil_any
| int_any (n : Z)
| string_any (s : string)
| slice_any (l : list Z)
| cancelCtxKey_addr
| cancelCtx_ptr (p : ptr)
| nan_any
| struct_any (v : any).

#[global] Instance any_eq_dec : EqDecision any.
Proof. solve_decision. Defined.

(** Modelled from the spec: [reflectlite.TypeOf(key).Comparable()] is not part
    of the sources at hand; the design document asks that the key be "a value
    type admitting equality comparison".  Of the dynamic types above only the
    slice does not admit [==]; the answer depends on the type alone, so that
    a [struct{ v any }] is comparable whatever its field holds. *)
Definition Comparable (key : any) : bool :=
  match key with
  | slice_any _ => false
  | _ => true
  end.

(** ** Results *)

Inductive res (A : Type) : Type :=
| Ok (a : A)
| Panic (msg : string)
| Deadlock
| OutOfFuel.
Arguments Ok {A} a.
Arguments Panic {A} msg%_string.
Arguments Deadlock {A}.
Arguments OutOfFuel {A}.

Definition res_bind {A B} (m : res A) (k : A -> res B) : res B :=
  match m with
  | Ok a => k a
  | Panic s => Panic s
  | Deadlock => Deadlock
  | OutOfFuel => OutOfFuel
  end.

(** Go's [==] on two interface values: a run-time panic when both hold the
    same uncomparable dynamic type, the comparison of the values otherwise.
    NaN is equal to nothing, itself included; two structs are equal when
    their fields are, and comparing the fields, which are interface values,
    panics as above. *)
Fixpoint iface_eq (a b : any) : res bool :=
  match a, b with
  | slice_any _, slice_any _ => Panic "runtime error: comparing uncomparable type []int"
  | nan_any, nan_any => Ok false
  | struct_any x, struct_any y => iface_eq x y
  | _, _ => Ok (bool_decide (a = b))
  end.

(** ** Objects *)

Record cancelCtx : Type := mkCancelCtx {
  cc_Context : ptr;
  cc_mu : bool;
  cc_done : option chan;
  cc_children : option (list ptr);
  cc_err : option error
}.

Record timerCtx : Type := mkTimerCtx {
  tc_cancelCtx : cancelCtx;
  tc_timer : option timer_id;
  tc_deadline : Z
}.

(** A [Context] implemented outside the package, seen through its four
    methods. *)
Record customCtx : Type := mkCustomCtx {
  x_Deadline : Z * bool;
  x_Done : option chan;
  x_Err : option error;
  x_Value : any -> any
}.

Inductive object : Type :=
| emptyCtx
| valueCtx (parent : ptr) (key val : any)
| cancelCtxObj (c : cancelCtx)
| timerCtxObj (t : timerCtx)
| customCtxObj (x : customCtx).

Definition set_mu (b : bool) (c : cancelCtx) : cancelCtx :=
  mkCancelCtx (cc_Context c) b (cc_done c) (cc_children c) (cc_err c).
Definition set_done (d : option chan) (c : cancelCtx) : cancelCtx :=
  mkCancelCtx (cc_Context c) (cc_mu c) d (cc_children c) (cc_err c).
Definition set_children (ks : option (list ptr)) (c : cancelCtx) : cancelCtx :=
  mkCancelCtx (cc_Context c) (cc_mu c) (cc_done c) ks (cc_err c).
Definition set_err (e : option error) (c : cancelCtx) : cancelCtx :=
  mkCancelCtx (cc_Context c) (cc_mu c) (cc_done c) (cc_children c) e.

(** [newCancelCtx] returns an initialized [cancelCtx]. *)
Definition newCancelCtx (parent : ptr) : cancelCtx :=
  mkCancelCtx parent false None None None.

(** The embedded [cancelCtx] of a canceler object, and its update in place. *)
Definition cancelCtx_of (o : object) : option cancelCtx :=
  match o with
  | cancelCtxObj c => Some c
  | timerCtxObj t => Some (tc_cancelCtx t)
  | _ => None
  end.

Definition with_cancelCtx (f : cancelCtx -> cancelCtx) (o : object) : object :=
  match o with
  | cancelCtxObj c => cancelCtxObj (f c)
  | timerCtxObj t => timerCtxObj (mkTimerCtx (f (tc_cancelCtx t)) (tc_timer t) (tc_deadline t))
  | _ => o
  end.

Definition with_timer (tm : option timer_id) (o : object) : object :=
  match o with
  | timerCtxObj t => timerCtxObj (mkTimerCtx (tc_cancelCtx t) tm (tc_deadline t))
  | _ => o
  end.

(** ** The world *)

Inductive event : Type :=
| EvLock (p : ptr)
| EvUnlock (p : ptr).

#[global] Instance event_eq_dec : EqDecision event.
Proof. solve_decision. Defined.

(** An armed timer: its identity, the instant it fires and the context whose
    [cancel(true, DeadlineExceeded)] it runs. *)
Record armed : Type := mkArmed {
  a_id : timer_id;
  a_when : Z;
  a_ctx : ptr
}.

Record world : Type := mkWorld {
  heap : list object;
  closed : list chan;
  nchan : chan;
  timers : list armed;
  ntimer : timer_id;
  now : Z;
  goroutines : Z;
  spawned : list (ptr * ptr);
  trace : list event
}.

Definition set_heap (h : list object) (w : world) : world :=
  mkWorld h (closed w) (nchan w) (timers w) (ntimer w) (now w) (goroutines w) (spawned w) (trace w).
Definition set_closed (cl : list chan) (w : world) : world :=
  mkWorld (heap w) cl (nchan w) (timers w) (ntimer w) (now w) (goroutines w) (spawned w) (trace w).
Definition set_nchan (n : chan) (w : world) : world :=
  mkWorld (heap w) (closed w) n (timers w) (ntimer w) (now w) (goroutines w) (spawned w) (trace w).
Definition set_timers (ts : list armed) (w : world) : world :=
  mkWorld (heap w) (closed w) (nchan w) ts (ntimer w) (now w) (goroutines w) (spawned w) (trace w).
Definition set_ntimer (n : timer_id) (w : world) : world :=
  mkWorld (heap w) (closed w) (nchan w) (timers w) n (now w) (goroutines w) (spawned w) (trace w).
Definition set_now (t : Z) (w : world) : world :=
  mkWorld (heap w) (closed w) (nchan w) (timers w) (ntimer w) t (goroutines w) (spawned w) (trace w).
Definition set_goroutines (n : Z) (w : world) : world :=
  mkWorld (heap w) (closed w) (nchan w) (timers w) (ntimer w) (now w) n (spawned w) (trace w).
Definition set_spawned (l : list (ptr * ptr)) (w : world) : world :=
  mkWorld (heap w) (closed w) (nchan w) (timers w) (ntimer w) (now w) (goroutines w) l (trace w).
Definition set_trace (t : list event) (w : world) : world :=
  mkWorld (heap w) (closed w) (nchan w) (timers w) (ntimer w) (now w) (goroutines w) (spawned w) t.

(** [background] and [todo] are the two preallocated empty contexts. *)
Definition background : ptr := 0.
Definition todo : ptr := 1.

Definition init_world : world :=
  mkWorld [emptyCtx; emptyCtx] [closedchan] 1 [] 0 0 0 [] [].

(** ** The state and error monad *)

Definition M (A : Type) : Type := world -> res (A * world).

Definition ret {A} (a : A) : M A := fun w => Ok (a, w).

Definition bind {A B} (m : M A) (k : A -> M B) : M B := fun w =>
  match m w with
  | Ok (a, w') => k a w'
  | Panic s => Panic s
  | Deadlock => Deadlock
  | OutOfFuel => OutOfFuel
  end.

Definition panic {A} (msg : string) : M A := fun _ => Panic msg.
Arguments panic {A} msg%_string.
Definition out_of_fuel {A} : M A := fun _ => OutOfFuel.

(** Runs a computation that only reads the world. *)
Definition read {A} (f : world -> res A) : M A := fun w =>
  match f w with
  | Ok a => Ok (a, w)
  | Panic s => Panic s
  | Deadlock => Deadlock
  | OutOfFuel => OutOfFuel
  end.

Notation "x <- m ;; k" := (bind m (fun x => k))
  (at level 100, m at next level, right associativity).
Notation "m ;; k" := (bind m (fun _ => k))
  (at level 100, right associativity).

Definition nil_deref : string :=
  "runtime error: invalid memory address or nil pointer dereference"%string.

(** ** Memory, channels, mutexes and timers *)

Definition load (p : ptr) : M object := fun w =>
  match heap w !! p with
  | Some o => Ok (o, w)
  | None => Panic nil_deref
  end.

Definition alloc (o : object) : M ptr := fun w =>
  Ok (length (heap w), set_heap (heap w ++ [o]) w).

Definition load_cancelCtx (p : ptr) : M cancelCtx := fun w =>
  match heap w !! p with
  | Some o =>
      match cancelCtx_of o with
      | Some c => Ok (c, w)
      | None => Panic "interface conversion: not a canceler"
      end
  | None => Panic nil_deref
  end.

Definition modify (p : ptr) (f : object -> object) : M unit := fun w =>
  match heap w !! p with
  | Some o => Ok (tt, set_heap (<[p := f o]> (heap w)) w)
  | None => Panic nil_deref
  end.

Definition modify_cancelCtx (p : ptr) (f : cancelCtx -> cancelCtx) : M unit :=
  modify p (with_cancelCtx f).

Definition log (ev : event) : M unit := fun w =>
  Ok (tt, set_trace (trace w ++ [ev]) w).

Definition Lock (p : ptr) : M unit :=
  c <- load_cancelCtx p ;;
  if cc_mu c then (fun _ => Deadlock)
  else modify_cancelCtx p (set_mu true) ;; log (EvLock p).

Definition Unlock (p : ptr) : M unit :=
  c <- load_cancelCtx p ;;
  if cc_mu c then modify_cancelCtx p (set_mu false) ;; log (EvUnlock p)
  else panic "fatal error: sync: unlock of unlocked mutex".

Definition make_chan : M chan := fun w =>
  Ok (nchan w, set_nchan (S (nchan w)) w).

Definition is_closed (d : chan) (w : world) : bool := bool_decide (d ∈ closed w).

Definition close (d : chan) : M unit := fun w =>
  if is_closed d w then Panic "close of closed channel"
  else Ok (tt, set_closed (d :: closed w) w).

(** [time.AfterFunc(dur, func() { c.cancel(true, DeadlineExceeded) })]. *)
Definition AfterFunc (dur : Z) (c : ptr) : M timer_id := fun w =>
  Ok (ntimer w,
      set_ntimer (S (ntimer w))
        (set_timers (timers w ++ [mkArmed (ntimer w) (now w + dur)%Z c]) w)).

Definition Stop (t : timer_id) : M unit := fun w =>
  Ok (tt, set_timers (filter (fun a => a_id a ≠ t) (timers w)) w).

(** [time.Until(d)]. *)
Definition Until (d : Z) : M Z := fun w => Ok ((d - now w)%Z, w).

(** ** Methods of the context types *)

(** [Deadline()]: [emptyCtx] has none, [timerCtx] reports its own, [valueCtx]
    and [cancelCtx] promote the method of the embedded [Context]. *)
Fixpoint Deadline (fuel : nat) (c : ptr) (w : world) : res (Z * bool) :=
  match fuel with
  | 0 => OutOfFuel
  | S fuel =>
      match heap w !! c with
      | None => Panic nil_deref
      | Some emptyCtx => Ok (0%Z, false)
      | Some (valueCtx parent _ _) => Deadline fuel parent w
      | Some (cancelCtxObj cc) => Deadline fuel (cc_Context cc) w
      | Some (timerCtxObj t) => Ok (tc_deadline t, true)
      | Some (customCtxObj x) => Ok (x_Deadline x)
      end
  end.

(** The loop of function [value]. *)
Fixpoint value (fuel : nat) (c : ptr) (key : any) (w : world) : res any :=
  match fuel with
  | 0 => OutOfFuel
  | S fuel =>
      match heap w !! c with
      | None => Panic nil_deref
      | Some (valueCtx parent k v) =>
          res_bind (iface_eq key k) (fun same =>
          if same then Ok v else value fuel parent key w)
      | Some (cancelCtxObj cc) =>
          res_bind (iface_eq key cancelCtxKey_addr) (fun same =>
          if same then Ok (cancelCtx_ptr c) else value fuel (cc_Context cc) key w)
      | Some (timerCtxObj t) =>
          res_bind (iface_eq key cancelCtxKey_addr) (fun same =>
          if same then Ok (cancelCtx_ptr c)
          else value fuel (cc_Context (tc_cancelCtx t)) key w)
      | Some emptyCtx => Ok nil_any
      | Some (customCtxObj x) => Ok (x_Value x key)
      end
  end.

(** [Value(key)], dispatched on the dynamic type of [c]. *)
Definition Value (fuel : nat) (c : ptr) (key : any) (w : world) : res any :=
  match heap w !! c with
  | None => Panic nil_deref
  | Some emptyCtx => Ok nil_any
  | Some (valueCtx parent k v) =>
      res_bind (iface_eq k key) (fun same =>
      if same then Ok v else value fuel parent key w)
  | Some (cancelCtxObj cc) =>
      res_bind (iface_eq key cancelCtxKey_addr) (fun same =>
      if same then Ok (cancelCtx_ptr c) else value fuel (cc_Context cc) key w)
  | Some (timerCtxObj t) =>
      res_bind (iface_eq key cancelCtxKey_addr) (fun same =>
      if same then Ok (cancelCtx_ptr c)
      else value fuel (cc_Context (tc_cancelCtx t)) key w)
  | Some (customCtxObj x) => Ok (x_Value x key)
  end.

(** [cancelCtx.Done]: the channel is created lazily, under the lock. *)
Definition cancelCtx_Done (c : ptr) : M (option chan) :=
  cc <- load_cancelCtx c ;;
  match cc_done cc with
  | Some d => ret (Some d)
  | None =>
      Lock c ;;
      cc <- load_cancelCtx c ;;
      d <- match cc_done cc with
           | Some d => ret d
           | None => d <- make_chan ;; modify_cancelCtx c (set_done (Some d)) ;; ret d
           end ;;
      Unlock c ;;
      ret (Some d)
  end.

Fixpoint Done (fuel : nat) (c : ptr) : M (option chan) :=
  match fuel with
  | 0 => out_of_fuel
  | S fuel =>
      o <- load c ;;
      match o with
      | emptyCtx => ret None
      | valueCtx parent _ _ => Done fuel parent
      | cancelCtxObj _ | timerCtxObj _ => cancelCtx_Done c
      | customCtxObj x => ret (x_Done x)
      end
  end.

(** [cancelCtx.Err]. *)
Definition cancelCtx_Err (c : ptr) : M (option error) :=
  Lock c ;;
  cc <- load_cancelCtx c ;;
  Unlock c ;;
  ret (cc_err cc).

Fixpoint Err (fuel : nat) (c : ptr) : M (option error) :=
  match fuel with
  | 0 => out_of_fuel
  | S fuel =>
      o <- load c ;;
      match o with
      | emptyCtx => ret None
      | valueCtx parent _ _ => Err fuel parent
      | cancelCtxObj _ | timerCtxObj _ => cancelCtx_Err c
      | customCtxObj x => ret (x_Err x)
      end
  end.

(** ** Linking a child to its parent *)

(** [parentCancelCtx] returns the underlying [*cancelCtx] for [parent]. *)
Definition parentCancelCtx (fuel : nat) (parent : ptr) : M (option ptr) :=
  done <- Done fuel parent ;;
  if bool_decide (done = Some closedchan) || bool_decide (done = None) then ret None
  else
    v <- read (Value fuel parent cancelCtxKey_addr) ;;
    match v with
    | cancelCtx_ptr p =>
        pc <- load_cancelCtx p ;;
        if bool_decide (cc_done pc = done) then ret (Some p) else ret None
    | _ => ret None
    end.

(** [removeChild] removes a context from its parent. *)
Definition removeChild (fuel : nat) (parent : ptr) (child : ptr) : M unit :=
  r <- parentCancelCtx fuel parent ;;
  match r with
  | None => ret tt
  | Some p =>
      Lock p ;;
      pc <- load_cancelCtx p ;;
      match cc_children pc with
      | Some ks => modify_cancelCtx p (set_children (Some (filter (fun k => k ≠ child) ks)))
      | None => ret tt
      end ;;
      Unlock p
  end.

(** [for child := range children { body }]. *)
Fixpoint range (children : list ptr) (body : ptr -> M unit) : M unit :=
  match children with
  | [] => ret tt
  | child :: rest => body child ;; range rest body
  end.

(** [cancelCtx.cancel]; [rec] is the dynamic dispatch [child.cancel]. *)
Definition cancelCtx_cancel (rec : ptr -> bool -> option error -> M unit)
    (fuel : nat) (c : ptr) (removeFromParent : bool) (err : option error) : M unit :=
  match err with
  | None => panic "context: internal error: missing cancel error"
  | Some _ =>
      Lock c ;;
      cc <- load_cancelCtx c ;;
      match cc_err cc with
      | Some _ => Unlock c
      | None =>
          modify_cancelCtx c (set_err err) ;;
          match cc_done cc with
          | None => modify_cancelCtx c (set_done (Some closedchan))
          | Some d => close d
          end ;;
          range (default [] (cc_children cc)) (fun child => rec child false err) ;;
          modify_cancelCtx c (set_children None) ;;
          Unlock c ;;
          if removeFromParent then removeChild fuel (cc_Context cc) c else ret tt
      end
  end.

(** [timerCtx.cancel]. *)
Definition timerCtx_cancel (rec : ptr -> bool -> option error -> M unit)
    (fuel : nat) (c : ptr) (removeFromParent : bool) (err : option error) : M unit :=
  cancelCtx_cancel rec fuel c false err ;;
  cc <- load_cancelCtx c ;;
  (if removeFromParent then removeChild fuel (cc_Context cc) c else ret tt) ;;
  Lock c ;;
  o <- load c ;;
  match o with
  | timerCtxObj t =>
      match tc_timer t with
      | Some tm => Stop tm ;; modify c (with_timer None)
      | None => ret tt
      end
  | _ => ret tt
  end ;;
  Unlock c.

(** [child.cancel(removeFromParent, err)] on a [canceler]. *)
Fixpoint cancel (fuel : nat) (c : ptr) (removeFromParent : bool) (err : option error) : M unit :=
  match fuel with
  | 0 => out_of_fuel
  | S fuel =>
      o <- load c ;;
      match o with
      | cancelCtxObj _ => cancelCtx_cancel (cancel fuel) fuel c removeFromParent err
      | timerCtxObj _ => timerCtx_cancel (cancel fuel) fuel c removeFromParent err
      | _ => panic "interface conversion: not a canceler"
      end
  end.

(** [p.children[child] = struct{}{}]. *)
Definition add_child (child : ptr) (ks : list ptr) : list ptr :=
  if bool_decide (child ∈ ks) then ks else ks ++ [child].

(** The statement of [propagateCancel] that follows its [select]: register
    [child] with the [*cancelCtx] of [parent], or cancel it when that one
    turns out to be cancelled already, or start the goroutine that watches
    a parent of another implementation. *)
Definition propagateCancel_link (fuel : nat) (parent : ptr) (child : ptr) : M unit :=
  r <- parentCancelCtx fuel parent ;;
  match r with
  | Some p =>
      Lock p ;;
      pc <- load_cancelCtx p ;;
      match cc_err pc with
      | Some e => cancel fuel child false (Some e)
      | None =>
          modify_cancelCtx p
            (set_children (Some (add_child child (default [] (cc_children pc)))))
      end ;;
      Unlock p
  | None =>
      fun w => Ok (tt, set_spawned (spawned w ++ [(parent, child)])
                         (set_goroutines (goroutines w + 1)%Z w))
  end.

(** [propagateCancel] arranges for [child] to be canceled when [parent] is. *)
Definition propagateCancel (fuel : nat) (parent : ptr) (child : ptr) : M unit :=
  done <- Done fuel parent ;;
  match done with
  | None => ret tt
  | Some d =>
      ready <- read (fun w => Ok (is_closed d w)) ;;
      if ready then
        e <- Err fuel parent ;;
        cancel fuel child false e
      else propagateCancel_link fuel parent child
  end.

(** ** The exported constructors *)

(** A [CancelFunc] is always a closure [func() { c.cancel(r, Canceled) }]; it
    is kept as the data the closure captures. *)
Record CancelFunc : Type := mkCancelFunc {
  cf_ctx : ptr;
  cf_removeFromParent : bool;
  cf_err : error
}.

Definition call (fuel : nat) (f : CancelFunc) : M unit :=
  cancel fuel (cf_ctx f) (cf_removeFromParent f) (Some (cf_err f)).

Definition WithCancel (fuel : nat) (parent : option ptr) : M (ptr * CancelFunc) :=
  match parent with
  | None => panic "cannot create context from nil parent"
  | Some parent =>
      c <- alloc (cancelCtxObj (newCancelCtx parent)) ;;
      propagateCancel fuel parent c ;;
      ret (c, mkCancelFunc c true Canceled)
  end.

Definition WithDeadline (fuel : nat) (parent : option ptr) (d : Z) : M (ptr * CancelFunc) :=
  match parent with
  | None => panic "cannot create context from nil parent"
  | Some parent =>
      cur <- read (Deadline fuel parent) ;;
      if snd cur && (fst cur <? d)%Z then WithCancel fuel (Some parent)
      else
        c <- alloc (timerCtxObj (mkTimerCtx (newCancelCtx parent) None d)) ;;
        propagateCancel fuel parent c ;;
        dur <- Until d ;;
        if (dur <=? 0)%Z then
          cancel fuel c true (Some DeadlineExceeded) ;;
          ret (c, mkCancelFunc c false Canceled)
        else
          Lock c ;;
          cc <- load_cancelCtx c ;;
          match cc_err cc with
          | None => t <- AfterFunc dur c ;; modify c (with_timer (Some t))
          | Some _ => ret tt
          end ;;
          Unlock c ;;
          ret (c, mkCancelFunc c true Canceled)
  end.

Definition WithTimeout (fuel : nat) (parent : option ptr) (timeout : Z) : M (ptr * CancelFunc) :=
  t <- read (fun w => Ok (now w + timeout)%Z) ;;
  WithDeadline fuel parent t.

Definition WithValue (parent : option ptr) (key val : any) : M ptr :=
  match parent with
  | None => panic "cannot create context from nil parent"
  | Some parent =>
      if bool_decide (key = nil_any) then panic "nil key"
      else if negb (Comparable key) then panic "key is not comparable"
      else alloc (valueCtx parent key val)
  end.

(** ** The timer substrate *)

(** The clock advances. *)
Definition tick (dt : Z) : M unit := fun w => Ok (tt, set_now (now w + dt)%Z w).

(** An armed timer that is due fires: it leaves the armed set and its callback
    [c.cancel(true, DeadlineExceeded)] runs. *)
Definition fire (fuel : nat) (t : timer_id) : M unit := fun w =>
  match list_find (fun a => a_id a = t) (timers w) with
  | Some (_, a) =>
      if (a_when a <=? now w)%Z then
        (Stop t ;; cancel fuel (a_ctx a) true (Some DeadlineExceeded)) w
      else Ok (tt, w)
  | None => Ok (tt, w)
  end.

(** ** Observations on a world *)

(** The [cancelCtx] (own or embedded) of the canceler at [p]. *)
Definition cctx (w : world) (p : ptr) : option cancelCtx :=
  match heap w !! p with
  | Some o => cancelCtx_of o
  | None => None
  end.

(** The canceler at [p] has been cancelled: its [err] is set. *)
Definition dead (w : world) (p : ptr) : Prop :=
  ∃ a, cctx w p = Some a ∧ cc_err a ≠ None.

(** The embedded [Context] of an object, when it has one. *)
Definition parent_of (o : object) : option ptr :=
  match o with
  | valueCtx p _ _ => Some p
  | cancelCtxObj c => Some (cc_Context c)
  | timerCtxObj t => Some (cc_Context (tc_cancelCtx t))
  | _ => None
  end.

Definition ev_ptr (ev : event) : ptr :=
  match ev with
  | EvLock p => p
  | EvUnlock p => p
  end.

(** ** Well-formed worlds *)

(** What every world built by the package satisfies whenever control is
    outside the window between writing [err] and closing [done]: objects
    point to older objects, registered children are younger cancelers, a
    canceler is cancelled exactly when its channel is closed, two cancelers
    never share a channel other than [closedchan], and every channel in use
    was made before the next one to be made. *)
Record sane (w : world) : Prop := mkSane {
  sane_parent : ∀ i o p, heap w !! i = Some o → parent_of o = Some p → p < i;
  sane_key : ∀ i p k v, heap w !! i = Some (valueCtx p k v) →
      Comparable k = true ∧ k ≠ nil_any ∧ k ≠ cancelCtxKey_addr;
  sane_custom : ∀ i x p, heap w !! i = Some (customCtxObj x) →
      x_Value x cancelCtxKey_addr = cancelCtx_ptr p → p < i ∧ is_Some (cctx w p);
  sane_children : ∀ i a ks k, cctx w i = Some a → cc_children a = Some ks →
      k ∈ ks → i < k ∧ is_Some (cctx w k);
  sane_live : ∀ i a d, cctx w i = Some a → cc_err a = None →
      cc_done a = Some d → d ∉ closed w;
  sane_dead : ∀ i a, cctx w i = Some a → cc_err a ≠ None →
      ∃ d, cc_done a = Some d ∧ d ∈ closed w;
  sane_fresh : ∀ i a d, cctx w i = Some a → cc_done a = Some d → d < nchan w;
  sane_inj : ∀ i j a b d, cctx w i = Some a → cctx w j = Some b →
      cc_done a = Some d → cc_done b = Some d → i = j ∨ d = closedchan;
  sane_closedchan : closedchan ∈ closed w;
  sane_closed : ∀ d, d ∈ closed w → d < nchan w
}.

(** No mutex of a canceler at address [c] or above is held. *)
Definition unlocked_from (c : ptr) (w : world) : Prop :=
  ∀ i a, c ≤ i → cctx w i = Some a → cc_mu a = false.

(** No mutex is held: the world is observed between two operations. *)
Definition quiescent (w : world) : Prop := unlocked_from 0 w.

(** ** The effect of a cancellation on the store *)

(** The [cancelCtx] fields after the first [cancel(_, e)]. *)
Definition kill_cc (e : error) (a : cancelCtx) : cancelCtx :=
  mkCancelCtx (cc_Context a) (cc_mu a) (Some (default closedchan (cc_done a))) None (Some e).

Definition cc_step (e : error) (a b : cancelCtx) : Prop :=
  b = a ∨ (cc_err a = None ∧ b = kill_cc e a).

(** An object is either untouched or cancelled with [e]; a [timerCtx] may in
    addition lose its timer; nothing else changes. *)
Definition node_step (e : error) (o o' : object) : Prop :=
  match o, o' with
  | cancelCtxObj a, cancelCtxObj b => cc_step e a b
  | timerCtxObj s, timerCtxObj t =>
      cc_step e (tc_cancelCtx s) (tc_cancelCtx t) ∧ tc_deadline t = tc_deadline s ∧
      (tc_timer t = tc_timer s ∨ tc_timer t = None)
  | cancelCtxObj _, _ | timerCtxObj _, _ => False
  | _, _ => o' = o
  end.

(** [fanout e c w w']: [w'] is [w] after cancellations with error [e] that
    touched only cancelers at address [c] or above. *)
Record fanout (e : error) (c : ptr) (w w' : world) : Prop := mkFanout {
  fo_length : length (heap w') = length (heap w);
  fo_node : ∀ i o, heap w !! i = Some o →
      ∃ o', heap w' !! i = Some o' ∧ node_step e o o' ∧ (i < c → o' = o);
  fo_closed_old : ∀ d, d ∈ closed w → d ∈ closed w';
  fo_closed_new : ∀ d, d ∈ closed w' → d ∈ closed w ∨
      ∃ i a, cctx w i = Some a ∧ cc_err a = None ∧ cc_done a = Some d ∧ dead w' i;
  fo_closed_kill : ∀ i a d, cctx w i = Some a → cc_err a = None → dead w' i →
      cc_done a = Some d → d ∈ closed w';
  fo_down : ∀ i a ks k, cctx w i = Some a → cc_err a = None → dead w' i →
      cc_children a = Some ks → k ∈ ks → dead w' k;
  fo_nchan : nchan w' = nchan w;
  fo_ntimer : ntimer w' = ntimer w;
  fo_now : now w' = now w;
  fo_goroutines : goroutines w' = goroutines w;
  fo_spawned : spawned w' = spawned w;
  fo_timers : ∀ a, a ∈ timers w' → a ∈ timers w;
  fo_trace : ∃ t, trace w' = trace w ++ t ∧ ∀ ev, ev ∈ t → c ≤ ev_ptr ev;
  fo_locks : ∀ i a t, cctx w i = Some a → cc_err a = None → dead w' i →
      trace w' = trace w ++ t → EvLock i ∈ t
}.

(** * Derived notions *)

(** ** Worlds that the operations leave *)

(** The world after a store to [p], and after a synchronisation action. *)
Definition put (p : ptr) (o : object) (w : world) : world :=
  set_heap (<[p := o]> (heap w)) w.

Definition logged (ev : event) (w : world) : world :=
  set_trace (trace w ++ [ev]) w.

(** What the loop of [cancel] over the children of [c] needs from the
    recursive calls: on a younger canceler they return after a fan-out. *)
Definition rec_ok (e : error) (rec : ptr → bool → option error → M unit)
    (c : ptr) (n : nat) : Prop :=
  ∀ k w1, c < k → sane w1 → unlocked_from k w1 → is_Some (cctx w1 k) →
    length (heap w1) = n →
    ∃ w2, rec k false (Some e) w1 = Ok (tt, w2) ∧ fanout e k w1 w2 ∧ dead w2 k.

(** The fields of a canceler between the first statements of [cancel] and the
    end of the loop over its children: locked, [err] set, [done] closed. *)
Definition begin_cc (e : error) (a : cancelCtx) : cancelCtx :=
  mkCancelCtx (cc_Context a) true (Some (default closedchan (cc_done a)))
    (cc_children a) (Some e).

(** The world after the last statements of [timerCtx.cancel]: the timer of
    the [timerCtx] at [c] is stopped and forgotten. *)
Definition clear_timer (c : ptr) (w : world) : world :=
  match heap w !! c with
  | Some (timerCtxObj t) =>
      mkWorld (<[c := timerCtxObj (mkTimerCtx (tc_cancelCtx t) None (tc_deadline t))]> (heap w))
        (closed w) (nchan w)
        (match tc_timer t with
         | Some tm => filter (fun a => a_id a ≠ tm) (timers w)
         | None => timers w
         end)
        (ntimer w) (now w) (goroutines w) (spawned w)
        (trace w ++ [EvLock c; EvUnlock c])
  | _ => w
  end.

(** The statements of [timerCtx.cancel] after the removal from the parent. *)
Definition timer_tail (c : ptr) : M unit :=
  Lock c ;;
  o <- load c ;;
  match o with
  | timerCtxObj t =>
      match tc_timer t with
      | Some tm => Stop tm ;; modify c (with_timer None)
      | None => ret tt
      end
  | _ => ret tt
  end ;;
  Unlock c.

(** The object at [c] after [cancel(_, e)]. *)
Definition cancelled (e : error) (o : object) : object :=
  match cancelCtx_of o with
  | Some a =>
      with_timer None
        (match cc_err a with
         | None => with_cancelCtx (kill_cc e) o
         | Some _ => o
         end)
  | None => o
  end.

(** The immutable part of an object. *)
Definition shape (o : object) : object :=
  match o with
  | cancelCtxObj a => cancelCtxObj (newCancelCtx (cc_Context a))
  | timerCtxObj t => timerCtxObj (mkTimerCtx (newCancelCtx (cc_Context (tc_cancelCtx t))) None (tc_deadline t))
  | _ => o
  end.

(** [w'] has every object of [w], with the same immutable part. *)
Definition skel (w w' : world) : Prop :=
  ∀ i o, heap w !! i = Some o → ∃ o', heap w' !! i = Some o' ∧ shape o' = shape o.

(** The first object that is not a [valueCtx] on the chain of embedded
    contexts from [c]: the one that answers [Done] and [Err] for [c]. *)
Fixpoint base (fuel : nat) (c : ptr) (w : world) : option ptr :=
  match fuel with
  | 0 => None
  | S fuel =>
      match heap w !! c with
      | Some (valueCtx parent _ _) => base fuel parent w
      | Some _ => Some c
      | None => None
      end
  end.

Ltac rw_shape :=
  repeat match goal with
  | H : cc_Context _ = cc_Context _ |- _ => rewrite H; clear H
  | H : tc_deadline _ = tc_deadline _ |- _ => rewrite H; clear H
  end.

(** The world after [Done] on the canceler at [b]: its channel exists. *)
Definition materialize (b : ptr) (w : world) : world :=
  match heap w !! b with
  | Some o =>
      match cancelCtx_of o with
      | Some a =>
          match cc_done a with
          | None =>
              mkWorld (<[b := with_cancelCtx (set_done (Some (nchan w))) o]> (heap w))
                (closed w) (S (nchan w)) (timers w) (ntimer w) (now w) (goroutines w)
                (spawned w) (trace w ++ [EvLock b; EvUnlock b])
          | Some _ => w
          end
      | None => w
      end
  | None => w
  end.

(** What [Done] returns for a context whose base is [b], once the channel of
    [b] exists. *)
Definition done_of (w : world) (b : ptr) : option chan :=
  match heap w !! b with
  | Some (cancelCtxObj a) => cc_done a
  | Some (timerCtxObj t) => cc_done (tc_cancelCtx t)
  | Some (customCtxObj x) => x_Done x
  | _ => None
  end.

(** What [Err] returns for a context whose base is [b]. *)
Definition err_of (w : world) (b : ptr) : option error :=
  match heap w !! b with
  | Some (cancelCtxObj a) => cc_err a
  | Some (timerCtxObj t) => cc_err (tc_cancelCtx t)
  | Some (customCtxObj x) => x_Err x
  | _ => None
  end.

(** The world after [Err] on a context whose base is [b]. *)
Definition observed (b : ptr) (w : world) : world :=
  match cctx w b with
  | Some _ => set_trace (trace w ++ [EvLock b; EvUnlock b]) w
  | None => w
  end.

(** What [Value(&cancelCtxKey)] answers for a context whose base is [b]. *)
Definition key_answer (w : world) (b : ptr) : any :=
  match heap w !! b with
  | Some (cancelCtxObj _) | Some (timerCtxObj _) => cancelCtx_ptr b
  | Some (customCtxObj x) => x_Value x cancelCtxKey_addr
  | _ => nil_any
  end.

(** The world after [p.mu.Lock(); <update the fields of p by f>; p.mu.Unlock()]. *)
Definition critical (p : ptr) (f : cancelCtx → cancelCtx) (w : world) : world :=
  match heap w !! p with
  | Some o =>
      set_trace (trace w ++ [EvLock p; EvUnlock p])
        (set_heap (<[p := with_cancelCtx f o]> (heap w)) w)
  | None => w
  end.

(** The answer of [parentCancelCtx] for a context whose base is [b], in a
    world where the channel of [b] exists. *)
Definition parent_result (w : world) (b : ptr) : option ptr :=
  if bool_decide (done_of w b = Some closedchan) || bool_decide (done_of w b = None)
  then None
  else match key_answer w b with
       | cancelCtx_ptr p =>
           match cctx w p with
           | Some pc => if bool_decide (cc_done pc = done_of w b) then Some p else None
           | None => None
           end
       | _ => None
       end.

(** The update of [removeChild]: [delete(p.children, child)]. *)
Definition unreg_cc (child : ptr) (a : cancelCtx) : cancelCtx :=
  match cc_children a with
  | Some ks => set_children (Some (filter (fun k => k ≠ child) ks)) a
  | None => a
  end.

(** The world after the critical section of [removeChild], when
    [parentCancelCtx] answered [r]. *)
Definition unregister (child : ptr) (r : option ptr) (w : world) : world :=
  match r with
  | Some p => critical p (unreg_cc child) w
  | None => w
  end.

(** The world after [removeChild(parent, c)]. *)
Definition detach (fuel : nat) (parent c : ptr) (w : world) : world :=
  match base fuel parent w with
  | Some b => unregister c (parent_result (materialize b w) b) (materialize b w)
  | None => w
  end.

(** What a removal may change: it creates at most channels, and takes [c]
    out of [children] sets; every other field of every canceler stays. *)
Definition detached (c : ptr) (w w' : world) : Prop :=
  length (heap w') = length (heap w) ∧ closed w' = closed w ∧
  (∀ x, x ∈ timers w' → x ∈ timers w) ∧ ntimer w' = ntimer w ∧ now w' = now w ∧
  goroutines w' = goroutines w ∧ spawned w' = spawned w ∧
  nchan w ≤ nchan w' ∧ (∃ t, trace w' = trace w ++ t) ∧
  ∀ i a, cctx w i = Some a →
    ∃ a', cctx w' i = Some a' ∧ cc_Context a' = cc_Context a ∧ cc_mu a' = cc_mu a ∧
          cc_err a' = cc_err a ∧
          (cc_done a' = cc_done a ∨ (cc_done a = None ∧ cc_done a' = Some (nchan w))) ∧
          (cc_children a' = cc_children a ∨
           ∃ ks, cc_children a = Some ks ∧
                 cc_children a' = Some (filter (fun k => k ≠ c) ks)).

(** The world after [cancel(r, e)] on [c], from the world [w1] that the
    fan-out leaves. *)
Definition finish (fuel : nat) (c : ptr) (r : bool) (o : object) (w1 : world) : world :=
  match o with
  | cancelCtxObj a =>
      if r && bool_decide (cc_err a = None) then detach fuel (cc_Context a) c w1 else w1
  | timerCtxObj t =>
      clear_timer c (if r then detach fuel (cc_Context (tc_cancelCtx t)) c w1 else w1)
  | _ => w1
  end.

(** The update of the registration: [p.children[child] = struct{}{}]. *)
Definition reg_cc (child : ptr) (a : cancelCtx) : cancelCtx :=
  set_children (Some (add_child child (default [] (cc_children a)))) a.

(** The world after starting the goroutine that watches [parent] for [child]. *)
Definition spawn (parent child : ptr) (w : world) : world :=
  set_spawned (spawned w ++ [(parent, child)]) (set_goroutines (goroutines w + 1)%Z w).

(** [binds w c k v]: walking up from [c], the nearest [valueCtx] whose key
    equals [k] carries [v]. *)
Inductive binds (w : world) : ptr → any → any → Prop :=
| binds_here c p k v :
    heap w !! c = Some (valueCtx p k v) → binds w c k v
| binds_value c p k0 v0 k v :
    heap w !! c = Some (valueCtx p k0 v0) → k ≠ k0 → binds w p k v → binds w c k v
| binds_cancel c a k v :
    heap w !! c = Some (cancelCtxObj a) → binds w (cc_Context a) k v → binds w c k v
| binds_timer c t k v :
    heap w !! c = Some (timerCtxObj t) → binds w (cc_Context (tc_cancelCtx t)) k v →
    binds w c k v.

(** [unbound w c k]: no [valueCtx] from [c] up to a root context binds [k]. *)
Inductive unbound (w : world) : ptr → any → Prop :=
| unbound_empty c k :
    heap w !! c = Some emptyCtx → unbound w c k
| unbound_value c p k0 v0 k :
    heap w !! c = Some (valueCtx p k0 v0) → k ≠ k0 → unbound w p k → unbound w c k
| unbound_cancel c a k :
    heap w !! c = Some (cancelCtxObj a) → unbound w (cc_Context a) k → unbound w c k
| unbound_timer c t k :
    heap w !! c = Some (timerCtxObj t) → unbound w (cc_Context (tc_cancelCtx t)) k →
    unbound w c k.

(** Invariant I1: a cancelled canceler has no children. *)
Definition I1 (w : world) : Prop :=
  ∀ i a, cctx w i = Some a → cc_err a ≠ None → cc_children a = None.

(** Invariant I2: every registered child is a canceler that is not cancelled. *)
Definition I2 (w : world) : Prop :=
  ∀ i a ks k, cctx w i = Some a → cc_children a = Some ks → k ∈ ks →
    ∃ b, cctx w k = Some b ∧ cc_err b = None.

(** C9 as the design document states it: a child's lock is only ever taken
    after the cancelling node has released its own. *)
Definition children_cancelled_after_unlock : Prop :=
  ∀ fuel c r e w w' a ks k,
    sane w → quiescent w → cctx w c = Some a → cc_err a = None →
    cc_children a = Some ks → k ∈ ks →
    cancel fuel c r (Some e) w = Ok (tt, w') →
    ∀ t1 t2, trace w' = trace w ++ t1 ++ EvLock k :: t2 → EvUnlock c ∈ t1.

(** The world after [alloc o]. *)
Definition grown (o : object) (w : world) : world := set_heap (heap w ++ [o]) w.

(** The objects that the constructors allocate. *)
Definition new_object (w : world) (o : object) : Prop :=
  match o with
  | valueCtx p k v =>
      p < length (heap w) ∧ Comparable k = true ∧ k ≠ nil_any ∧ k ≠ cancelCtxKey_addr
  | cancelCtxObj a => cc_Context a < length (heap w) ∧ a = newCancelCtx (cc_Context a)
  | timerCtxObj t =>
      cc_Context (tc_cancelCtx t) < length (heap w) ∧
      tc_cancelCtx t = newCancelCtx (cc_Context (tc_cancelCtx t)) ∧ tc_timer t = None
  | _ => False
  end.

(** What [propagateCancel] for the new canceler [c] may change in another
    canceler: create its channel, and add [c] to its children if it is
    not cancelled. *)
Definition link_cc (c : ptr) (a a' : cancelCtx) : Prop :=
  cc_Context a' = cc_Context a ∧ cc_mu a' = cc_mu a ∧ cc_err a' = cc_err a ∧
  (cc_done a' = cc_done a ∨ cc_done a = None) ∧
  (cc_children a' = cc_children a ∨
   (cc_err a = None ∧
    cc_children a' = Some (add_child c (default [] (cc_children a))))).

(** [linked c w w']: [w'] is [w] after [propagateCancel] for the new
    canceler [c]; no timer is armed, no channel is closed that was open. *)
Definition linked (c : ptr) (w w' : world) : Prop :=
  length (heap w') = length (heap w) ∧ skel w w' ∧
  ntimer w' = ntimer w ∧ (∀ x, x ∈ timers w' → x ∈ timers w) ∧ now w' = now w ∧
  (∀ d, d ∈ closed w' ↔ d ∈ closed w) ∧
  ∀ i a, i ≠ c → cctx w i = Some a → ∃ a', cctx w' i = Some a' ∧ link_cc c a a'.

(** The state of the new canceler [c] and of its registration after
    [propagateCancel]. *)
Inductive link_result (fuel : nat) (parent c : ptr) (o : object) (w0 w1 : world) : Prop :=
| link_none b :
    base fuel parent w0 = Some b → done_of (materialize b w0) b = None →
    w1 = materialize b w0 → link_result fuel parent c o w0 w1
| link_cancelled b d e :
    base fuel parent w0 = Some b → done_of w0 b = Some d → d ∈ closed w0 →
    err_of w0 b = Some e → heap w1 !! c = Some (cancelled e o) →
    (∀ i a, i ≠ c → cctx w0 i = Some a → ∃ a', cctx w1 i = Some a' ∧
       cc_children a' = cc_children a) →
    link_result fuel parent c o w0 w1
| link_registered b d p :
    base fuel parent w0 = Some b → done_of (materialize b w0) b = Some d → d ∉ closed w0 →
    parent_result (materialize b w0) b = Some p → p ≤ parent →
    w1 = critical p (reg_cc c) (materialize b w0) →
    (∃ x, cctx w0 p = Some x ∧ cc_err x = None) →
    link_result fuel parent c o w0 w1
| link_spawned b d :
    base fuel parent w0 = Some b → done_of (materialize b w0) b = Some d → d ∉ closed w0 →
    parent_result (materialize b w0) b = None →
    w1 = spawn parent c (materialize b w0) →
    link_result fuel parent c o w0 w1.

(** The promise of the interface, for the contexts of other
    implementations: once [Done] is closed, [Err] is not nil. *)
Definition contract (w : world) : Prop :=
  ∀ i x d, heap w !! i = Some (customCtxObj x) → x_Done x = Some d → d ∈ closed w →
    x_Err x ≠ None.

(** The world after the critical section of [WithDeadline] that arms the
    timer of [c], unless [c] is cancelled already. *)
Definition arm (c : ptr) (dur : Z) (w : world) : world :=
  match heap w !! c with
  | Some o =>
      match cancelCtx_of o with
      | Some a =>
          match cc_err a with
          | None =>
              mkWorld (<[c := with_timer (Some (ntimer w)) o]> (heap w)) (closed w) (nchan w)
                (timers w ++ [mkArmed (ntimer w) (now w + dur)%Z c]) (S (ntimer w)) (now w)
                (goroutines w) (spawned w) (trace w ++ [EvLock c; EvUnlock c])
          | Some _ => set_trace (trace w ++ [EvLock c; EvUnlock c]) w
          end
      | None => w
      end
  | None => w
  end.

(** The state of a canceler [c] that was derived from a cancelled parent:
    cancelled with the error [e], its channel closed, no children of its
    own, and a member of no [children] set. *)
Definition born_cancelled (e : error) (c : ptr) (w : world) : Prop :=
  (∃ a d, cctx w c = Some a ∧ cc_err a = Some e ∧ cc_children a = None ∧
          cc_done a = Some d ∧ d ∈ closed w) ∧
  (∀ i x ks, cctx w i = Some x → cc_children x = Some ks → c ∉ ks).

(** [reach w x y]: the canceler [y] is [x] or a descendant of [x] through
    [children] sets. *)
Inductive reach (w : world) (x : ptr) : ptr → Prop :=
| reach_refl : reach w x x
| reach_child y a ks z :
    reach w x y → cctx w y = Some a → cc_children a = Some ks → z ∈ ks → reach w x z.

(** [stable w w']: every canceler that is cancelled in [w] is a canceler
    with the same error in [w']. *)
Definition stable (w w' : world) : Prop :=
  ∀ i a, cctx w i = Some a → cc_err a ≠ None →
    ∃ a', cctx w' i = Some a' ∧ cc_err a' = cc_err a.

(** The result of a step: everything that later steps rely on. *)
Definition kept (w w' : world) : Prop :=
  sane w' ∧ quiescent w' ∧ I1 w' ∧ skel w w' ∧ stable w w' ∧
  length (heap w) ≤ length (heap w') ∧ length (heap w') ≤ S (length (heap w)).

(** The operations of the package and of its timer substrate. *)
Inductive op : Type :=
| OpWithCancel (parent : ptr)
| OpWithDeadline (parent : ptr) (d : Z)
| OpWithTimeout (parent : ptr) (timeout : Z)
| OpWithValue (parent : ptr) (key val : any)
| OpCancel (f : CancelFunc)
| OpDone (c : ptr)
| OpErr (c : ptr)
| OpFire (t : timer_id)
| OpTick (dt : Z).

(** Running an operation for its effect on the world. *)
Definition exec (fuel : nat) (o : op) : M unit :=
  match o with
  | OpWithCancel parent => WithCancel fuel (Some parent) ;; ret tt
  | OpWithDeadline parent d => WithDeadline fuel (Some parent) d ;; ret tt
  | OpWithTimeout parent timeout => WithTimeout fuel (Some parent) timeout ;; ret tt
  | OpWithValue parent key val => WithValue (Some parent) key val ;; ret tt
  | OpCancel f => call fuel f
  | OpDone c => Done fuel c ;; ret tt
  | OpErr c => Err fuel c ;; ret tt
  | OpFire t => fire fuel t
  | OpTick dt => tick dt
  end.

(** What a caller may do: contexts and [CancelFunc]s are those that the
    package returned, keys are not the unexported [&cancelCtxKey], and the
    callback of a timer refers to its [timerCtx]. *)
Definition op_ok (w : world) (o : op) : Prop :=
  match o with
  | OpWithCancel parent | OpWithDeadline parent _ | OpWithTimeout parent _ =>
      parent < length (heap w)
  | OpWithValue parent key _ =>
      parent < length (heap w) ∧
      (key ≠ nil_any → Comparable key = true → key ≠ cancelCtxKey_addr)
  | OpCancel f => is_Some (cctx w (cf_ctx f))
  | OpDone c | OpErr c => c < length (heap w)
  | OpFire t =>
      ∀ k a, list_find (fun a => a_id a = t) (timers w) = Some (k, a) →
        is_Some (cctx w (a_ctx a))
  | OpTick _ => True
  end.

(** Taking or releasing the mutex of [b]. *)
Definition relock (b : ptr) (m : bool) (ev : event) (w : world) : world :=
  match heap w !! b with
  | Some o => logged ev (put b (with_cancelCtx (set_mu m) o) w)
  | None => w
  end.

(** [run fuel w os w']: the operations [os], each one allowed in the world
    that it starts from, lead from [w] to [w']. *)
Inductive run (fuel : nat) : world → list op → world → Prop :=
| run_nil w : run fuel w [] w
| run_cons w o w1 os w2 :
    contract w → op_ok w o → S (length (heap w)) < fuel →
    exec fuel o w = Ok (tt, w1) → run fuel w1 os w2 → run fuel w (o :: os) w2.

(** ** Deciding the invariants on a concrete world *)

(** [P] holds of every object, and of every canceler, of the store. *)
Definition all_objects (P : ptr → object → bool) (w : world) : bool :=
  forallb (fun io => P (fst io) (snd io)) (imap pair (heap w)).

Definition all_cctx (P : ptr → cancelCtx → bool) (w : world) : bool :=
  all_objects (fun i o => match cancelCtx_of o with Some a => P i a | None => true end) w.

(** The boolean versions of [sane], [quiescent], [I1], [I2] and [contract]. *)
Definition sane_b (w : world) : bool :=
  all_objects (fun i o => match parent_of o with Some p => p <? i | None => true end) w
  && all_objects (fun i o =>
       match o with
       | valueCtx _ k _ =>
           Comparable k && bool_decide (k ≠ nil_any) && bool_decide (k ≠ cancelCtxKey_addr)
       | customCtxObj x =>
           match x_Value x cancelCtxKey_addr with
           | cancelCtx_ptr p => (p <? i) && bool_decide (is_Some (cctx w p))
           | _ => true
           end
       | _ => true
       end) w
  && all_cctx (fun i a =>
       forallb (fun k => (i <? k) && bool_decide (is_Some (cctx w k)))
         (default [] (cc_children a))
       && match cc_done a with
          | Some d =>
              (d <? nchan w)
              && bool_decide (d ∈ closed w ↔ cc_err a ≠ None)
              && all_cctx (fun j b =>
                   bool_decide (cc_done b = Some d → i = j ∨ d = closedchan)) w
          | None => bool_decide (cc_err a = None)
          end) w
  && bool_decide (closedchan ∈ closed w)
  && forallb (fun d => d <? nchan w) (closed w).

Definition quiescent_b (w : world) : bool := all_cctx (fun _ a => negb (cc_mu a)) w.

Definition I1_b (w : world) : bool :=
  all_cctx (fun _ a => bool_decide (cc_err a ≠ None → cc_children a = None)) w.

Definition I2_b (w : world) : bool :=
  all_cctx (fun _ a =>
    forallb (fun k => match cctx w k with
                      | Some b => bool_decide (cc_err b = None)
                      | None => false
                      end) (default [] (cc_children a))) w.

Definition contract_b (w : world) : bool :=
  all_objects (fun _ o =>
    match o with
    | customCtxObj x =>
        match x_Done x with
        | Some d => bool_decide (d ∈ closed w → x_Err x ≠ None)
        | None => true
        end
    | _ => true
    end) w.

(** ** Worlds of the scenarios *)

(** The world that a computation leaves. *)
Definition world_after {A} (m : M A) (w : world) : world :=
  match m w with
  | Ok (_, w') => w'
  | _ => w
  end.

(** [Background] at 0, a [cancelCtx] at 2, its child at 3, its grandchild
    at 4. *)
Definition w_chain : world :=
  world_after (p <- WithCancel 9 (Some background) ;;
               c <- WithCancel 9 (Some (fst p)) ;;
               WithCancel 9 (Some (fst c))) init_world.

(** A [cancelCtx] at 2 that was cancelled. *)
Definition w_cancelled : world :=
  world_after (p <- WithCancel 9 (Some background) ;; call 9 (snd p)) init_world.

(** A [timerCtx] at 2 with deadline 5, at time 0. *)
Definition w_timed : world :=
  world_after (WithDeadline 9 (Some background) 5) init_world.

(** The same at time 10, before the callback of its timer has run. *)
Definition w_late : world := world_after (tick 10) w_timed.

(** A [cancelCtx] at 2 that was cancelled after its channel had been made,
    and the [cancelCtx] that [WithCancel] has just allocated for a child of
    it, at 3. *)
Definition w_race : world :=
  grown (cancelCtxObj (newCancelCtx 2))
    (world_after (p <- WithCancel 9 (Some background) ;;
                  Done 9 (fst p) ;;
                  call 9 (snd p)) init_world).

(** Facts about concrete worlds are settled by evaluation. *)
Ltac by_run := vm_compute; first [reflexivity | lia | done].

Ltac by_check sound := apply sound; vm_compute; reflexivity.

(** C5 as the design document states it: whatever the parent, the context
    derived with a deadline that has passed reports [DeadlineExceeded]. *)
Definition expired_deadline_always_exceeded : Prop :=
  ∀ fuel parent d w c f w' e w2,
    sane w → quiescent w → parent < length (heap w) → (d <= now w)%Z →
    WithDeadline fuel (Some parent) d w = Ok ((c, f), w') →
    Err fuel c w' = Ok (e, w2) → e = Some DeadlineExceeded.

(** * Package [syscall]: Unix environment variables *)
(** [EINVAL], the only error that these functions return. *)
Inductive Errno : Type := EINVAL.

(** The calls to the C environment ([setenv_c], [unsetenv_c]), which the
    runtime provides; they are recorded in the order in which they are
    made. *)
Inductive ccall : Type :=
| setenv_c (k v : string)
| unsetenv_c (k : string).

(** The package variables: [envOnce] (has [copyenv] run), [env], [envs].
    [envLock] is taken and released inside every function; one call runs
    at a time here, so it is left out. *)
Record environ : Type := mkEnviron {
  envOnce : bool;
  env : gmap string nat;
  envs : list string;
  ccalls : list ccall
}.

Definition set_env (m : gmap string nat) (st : environ) : environ :=
  mkEnviron (envOnce st) m (envs st) (ccalls st).

Definition set_envs (l : list string) (st : environ) : environ :=
  mkEnviron (envOnce st) (env st) l (ccalls st).

Definition set_ccalls (l : list ccall) (st : environ) : environ :=
  mkEnviron (envOnce st) (env st) (envs st) l.

(** The state at program start: [envs = runtime_envs()], [env] is nil. *)
Definition runtime_envs (l : list string) : environ := mkEnviron false ∅ l [].

(** [for i := 0; i < len(s); i++ { if p(s[i]) { ... i ... } }]: the first
    index whose byte satisfies [p]. *)
Fixpoint first_index (p : ascii → bool) (s : string) : option nat :=
  match s with
  | EmptyString => None
  | String c s => if p c then Some 0 else S <$> first_index p s
  end.

Definition is_equals (c : ascii) : bool := Ascii.eqb c "="%char.

Definition is_nul (c : ascii) : bool := Ascii.eqb c Ascii.zero.

(** [s[:j]] and [s[j:]]. *)
Definition slice_to (j : nat) (s : string) : string := String.substring 0 j s.

Definition slice_from (j : nat) (s : string) : string :=
  String.substring j (String.length s - j) s.

(** One iteration of the outer loop of [copyenv], on element [s] at index
    [i]. *)
Definition copyenv_body (i : nat) (s : string) (st : environ) : environ :=
  match first_index is_equals s with
  | Some j =>
      let key := slice_to j s in
      match env st !! key with
      | None => set_env (<[key := i]> (env st)) st
      | Some _ => set_envs (<[i := ""]> (envs st)) st
      end
  | None => st
  end.

(** [for i, s := range envs]: [n] iterations from index [i]. *)
Fixpoint copyenv_range (n i : nat) (st : environ) : environ :=
  match n with
  | 0 => st
  | S n =>
      match envs st !! i with
      | Some s => copyenv_range n (S i) (copyenv_body i s st)
      | None => st
      end
  end.

Definition copyenv (st : environ) : environ :=
  copyenv_range (length (envs st)) 0 (set_env ∅ st).

(** [envOnce.Do(copyenv)]. *)
Definition envOnce_Do (f : environ → environ) (st : environ) : environ :=
  if envOnce st then st
  else let st' := f st in mkEnviron true (env st') (envs st') (ccalls st').

Definition index_out_of_range : string := "runtime error: index out of range".

(** [envs[i] = s]. *)
Definition store_envs (i : nat) (s : string) (st : environ) : res environ :=
  if bool_decide (i < length (envs st)) then Ok (set_envs (<[i := s]> (envs st)) st)
  else Panic index_out_of_range.

Definition Unsetenv (key : string) (st : environ) : res (option Errno * environ) :=
  let st := envOnce_Do copyenv st in
  res_bind
    (match env st !! key with
     | Some i =>
         res_bind (store_envs i "" st) (fun st => Ok (set_env (delete key (env st)) st))
     | None => Ok st
     end)
    (fun st => Ok (None, set_ccalls (ccalls st ++ [unsetenv_c key]) st)).

Definition Getenv (key : string) (st : environ) : res (string * bool * environ) :=
  let st := envOnce_Do copyenv st in
  if String.length key =? 0 then Ok ("", false, st)
  else
    match env st !! key with
    | None => Ok ("", false, st)
    | Some i =>
        match envs st !! i with
        | None => Panic index_out_of_range
        | Some s =>
            match first_index is_equals s with
            | Some j => Ok (slice_from (j + 1) s, true, st)
            | None => Ok ("", false, st)
            end
        end
    end.

(** [plan9] is [runtime.GOOS == "plan9"]. *)
Definition Setenv (plan9 : bool) (key value : string) (st : environ)
    : res (option Errno * environ) :=
  let st := envOnce_Do copyenv st in
  if String.length key =? 0 then Ok (Some EINVAL, st)
  else if bool_decide (is_Some (first_index (fun c => is_equals c || is_nul c) key))
  then Ok (Some EINVAL, st)
  else if negb plan9 && bool_decide (is_Some (first_index is_nul value))
  then Ok (Some EINVAL, st)
  else
    let kv := key +:+ "=" +:+ value in
    res_bind
      (match env st !! key with
       | Some i => res_bind (store_envs i kv st) (fun st => Ok (i, st))
       | None => Ok (length (envs st), set_envs (envs st ++ [kv]) st)
       end)
      (fun r =>
         let st := set_env (<[key := fst r]> (env (snd r))) (snd r) in
         Ok (None, set_ccalls (ccalls st ++ [setenv_c key value]) st)).

(** [for k := range env] visits the keys in an order that the language
    leaves open; here it is the order of [map_to_list]. *)
Definition Clearenv (st : environ) : environ :=
  let st := envOnce_Do copyenv st in
  mkEnviron (envOnce st) ∅ []
    (ccalls st ++ ((fun kv => unsetenv_c (fst kv)) <$> map_to_list (env st))).

Definition Environ (st : environ) : list string * environ :=
  let st := envOnce_Do copyenv st in
  (filter (fun s => s ≠ "") (envs st), st).

(** The state is usable: once [copyenv] has run, [env] maps every key to
    the index of its entry in [envs], and every entry of [envs] with a ['=']
    is indexed under its key. *)
Definition env_wf (st : environ) : Prop :=
  (∀ k i, env st !! k = Some i →
     first_index is_equals k = None ∧ ∃ v, envs st !! i = Some (k +:+ "=" +:+ v)) ∧
  (∀ i s j, envs st !! i = Some s → first_index is_equals s = Some j →
     env st !! slice_to j s = Some i).

Definition env_ok (st : environ) : Prop := envOnce st = true → env_wf st.

(** The operations of the package. *)
Inductive env_op : Type :=
| OpGetenv (key : string)
| OpSetenv (plan9 : bool) (key value : string)
| OpUnsetenv (key : string)
| OpClearenv
| OpEnviron.

Definition env_exec (o : env_op) (st : environ) : res environ :=
  match o with
  | OpGetenv key => res_bind (Getenv key st) (fun r => Ok (snd r))
  | OpSetenv plan9 key value => res_bind (Setenv plan9 key value st) (fun r => Ok (snd r))
  | OpUnsetenv key => res_bind (Unsetenv key st) (fun r => Ok (snd r))
  | OpClearenv => Ok (Clearenv st)
  | OpEnviron => Ok (snd (Environ st))
  end.

Fixpoint env_execs (os : list env_op) (st : environ) : res environ :=
  match os with
  | [] => Ok st
  | o :: os => res_bind (env_exec o st) (env_execs os)
  end.

(** The state of the loop of [copyenv] over the runtime's list [l], before
    the iteration for index [i]. *)
Record copyenv_inv (l : list string) (i : nat) (st : environ) : Prop := mkCopyenvInv {
  ci_length : length (envs st) = length l;
  ci_rest : ∀ idx, i ≤ idx → envs st !! idx = l !! idx;
  ci_env : ∀ k idx, env st !! k = Some idx →
      idx < i ∧ first_index is_equals k = None ∧
      (∃ v, l !! idx = Some (k +:+ "=" +:+ v)) ∧ envs st !! idx = l !! idx ∧
      ∀ idx' s' j', idx' < idx → l !! idx' = Some s' →
        first_index is_equals s' = Some j' → slice_to j' s' ≠ k;
  ci_seen : ∀ idx s j, idx < i → l !! idx = Some s → first_index is_equals s = Some j →
      ∃ idx0, idx0 ≤ idx ∧ env st !! slice_to j s = Some idx0 ∧
              (idx0 < idx → envs st !! idx = Some "");
  ci_plain : ∀ idx s, idx < i → l !! idx = Some s → first_index is_equals s = None →
      envs st !! idx = Some s
}.

(** The arguments that [Setenv] accepts. *)
Definition valid_setenv (plan9 : bool) (key value : string) : Prop :=
  key ≠ "" ∧ first_index (fun c => is_equals c || is_nul c) key = None ∧
  (plan9 = false → first_index is_nul value = None).

(** What [Getenv] answers, without the state. *)
Definition getenv_result (key : string) (st : environ) : option (string * bool) :=
  match Getenv key st with
  | Ok (v, b, _) => Some (v, b)
  | _ => None
  end.

(** The key of an entry of [envs]: what precedes its first ['=']. *)
Definition entry_key_of (s : string) : option string :=
  (fun j => slice_to j s) <$> first_index is_equals s.

(** The answer of [Getenv] read off a state in which [copyenv] has run. *)
Definition lookup_value (st : environ) (key : string) : string * bool :=
  if bool_decide (key = "") then ("", false)
  else match env st !! key with
       | Some i =>
           (match envs st !! i with
            | Some s => slice_from (String.length key + 1) s
            | None => ""
            end, true)
       | None => ("", false)
       end.

(** * Package [errors] *)
(** What the functions ask of an error value: its dynamic type, whether
    that type is comparable, the equality of two values of one comparable
    type, which panics ([None]) when a field of an interface type holds a
    value of a type that is not comparable, whether a value of its type can
    be assigned to a variable of
    another type, and the methods [Unwrap], [Is] and [As] of its type, when
    it has them; of a type, whether it is an interface type and whether it
    implements [error].  A value of the interface type [error] is nil or
    such a value.  The method [As] gets the pointer [target], given here by
    the type of the variable it points to, and answers with its result and
    with the value that it stored in that variable, if it stored one. *)
Class ErrorValues (E T : Type) `{EqDecision T} : Type := mkErrorValues {
  TypeOf : E → T;
  TypeComparable : T → bool;
  value_eq : E → E → option bool;
  Unwrap_method : E → option (option E);
  Is_method : E → option (option E → bool);
  As_method : E → option (T → bool * option E);
  AssignableTo : T → T → bool;
  KindIsInterface : T → bool;
  ImplementsError : T → bool
}.

(** [err == target] on two interface values: with identical dynamic types
    the values are compared, and that panics when the type is not
    comparable, or when it is and the comparison of the values panics. *)
Definition interface_eq `{ErrorValues E T} (a b : option E) : res bool :=
  match a, b with
  | None, None => Ok true
  | Some x, Some y =>
      if decide (TypeOf x = TypeOf y) then
        if TypeComparable (TypeOf x) then
          match value_eq x y with
          | Some same => Ok same
          | None => Panic "runtime error: comparing uncomparable type"
          end
        else Panic "runtime error: comparing uncomparable type"
      else Ok false
  | _, _ => Ok false
  end.

(** [Unwrap]: the type assertion fails on nil and on a type with no
    method [Unwrap]. *)
Definition Unwrap `{ErrorValues E T} (err : option E) : option E :=
  match err with
  | Some e =>
      match Unwrap_method e with
      | Some r => r
      | None => None
      end
  | None => None
  end.

(** [x, ok := err.(interface{ Is(error) bool }); ok && x.Is(target)]. *)
Definition Is_by_method `{ErrorValues E T} (err target : option E) : bool :=
  match err with
  | Some e =>
      match Is_method e with
      | Some m => m target
      | None => false
      end
  | None => false
  end.

(** The loop of [Is]. *)
Fixpoint Is_loop `{ErrorValues E T} (fuel : nat) (isComparable : bool) (err target : option E) : res bool :=
  match fuel with
  | 0 => OutOfFuel
  | S fuel =>
      res_bind (if isComparable then interface_eq err target else Ok false) (fun same =>
      if same then Ok true
      else if Is_by_method err target then Ok true
      else
        match Unwrap err with
        | None => Ok false
        | Some e => Is_loop fuel isComparable (Some e) target
        end)
  end.

Definition Is `{ErrorValues E T} (fuel : nat) (err target : option E) : res bool :=
  match target with
  | None => interface_eq err target
  | Some t => Is_loop fuel (TypeComparable (TypeOf t)) err target
  end.

(** The argument [target] of [As]: nil, a value that is no pointer, a nil
    pointer, or a pointer to a variable of type [elem]. *)
Inductive as_target (T : Type) : Type :=
| TargetNil
| TargetNotPointer
| TargetNilPointer (elem : T)
| TargetPointer (elem : T).
Arguments TargetNil {T}.
Arguments TargetNotPointer {T}.
Arguments TargetNilPointer {T} elem.
Arguments TargetPointer {T} elem.

(** [x, ok := err.(interface{ As(any) bool }); ok && x.As(target)], with
    what the method stored. *)
Definition As_by_method `{ErrorValues E T} (e : E) (targetType : T) : bool * option E :=
  match As_method e with
  | Some m => m targetType
  | None => (false, None)
  end.

(** The loop of [As]; [stored] is what the variable behind [target] was
    last set to. *)
Fixpoint As_loop `{ErrorValues E T} (fuel : nat) (err : option E) (targetType : T)
    (stored : option E) : res (bool * option E) :=
  match fuel with
  | 0 => OutOfFuel
  | S fuel =>
      match err with
      | None => Ok (false, stored)
      | Some e =>
          if AssignableTo (TypeOf e) targetType then Ok (true, Some e)
          else
            let r := As_by_method e targetType in
            let stored := match snd r with Some x => Some x | None => stored end in
            if fst r then Ok (true, stored)
            else As_loop fuel (Unwrap err) targetType stored
      end
  end.

(** [As]; the result carries what the variable behind [target] was set to,
    if it was set. *)
Definition As `{ErrorValues E T} (fuel : nat) (err : option E) (target : as_target T)
    : res (bool * option E) :=
  match target with
  | TargetNil => Panic "errors: target cannot be nil"
  | TargetNotPointer | TargetNilPointer _ => Panic "errors: target must be a non-nil pointer"
  | TargetPointer targetType =>
      if negb (KindIsInterface targetType) && negb (ImplementsError targetType)
      then Panic "errors: *target must be interface or implement error"
      else As_loop fuel err targetType None
  end.

(** The chain of [err]: [err] itself, then what [Unwrap] returns, and so
    on. *)
Fixpoint chain `{ErrorValues E T} (n : nat) (err : option E) : option E :=
  match n with
  | 0 => err
  | S n => chain n (Unwrap err)
  end.

(** An error matches a target when it is equal to it, the type of the
    target being comparable, or when its method [Is] says so; the test
    panics when the comparison of the two values does. *)
Definition matches `{ErrorValues E T} (e t : E) : res bool :=
  if TypeComparable (TypeOf t) && bool_decide (TypeOf e = TypeOf t) then
    match value_eq e t with
    | Some true => Ok true
    | Some false => Ok (Is_by_method (Some e) (Some t))
    | None => Panic "runtime error: comparing uncomparable type"
    end
  else Ok (Is_by_method (Some e) (Some t)).

(** The errors before the [n]-th of the chain do not match. *)
Definition none_before `{ErrorValues E T} (n : nat) (err : option E) (t : E) : Prop :=
  ∀ m x, m < n → chain m err = Some x → matches x t = Ok false.

(** What the loop of [Is] returns, read off the chain. *)
Inductive Is_outcome `{ErrorValues E T} (fuel : nat) (err : option E) (t : E) : res bool → Prop :=
| Is_found n e :
    n < fuel → chain n err = Some e → matches e t = Ok true → none_before n err t →
    Is_outcome fuel err t (Ok true)
| Is_exhausted n :
    n < fuel → chain (S n) err = None → none_before (S n) err t →
    Is_outcome fuel err t (Ok false)
| Is_panicked n e msg :
    n < fuel → chain n err = Some e → matches e t = Panic msg → none_before n err t →
    Is_outcome fuel err t (Panic msg)
| Is_unfinished :
    (∀ n, n < fuel → is_Some (chain (S n) err)) → none_before fuel err t →
    Is_outcome fuel err t OutOfFuel.

(** Errors for the scenarios: a sentinel made by [errors.New], an errno
    whose method [Is] accepts the sentinel for the number 2, a wrapper
    with the method [Unwrap], and a [struct{ v any }] whose field holds a
    slice, so that comparing two of them panics. *)
Inductive sample_error : Type :=
| ErrSentinel
| SampleErrno (n : nat)
| Wrapped (inner : sample_error)
| Holding (l : list nat).

Inductive sample_type : Type :=
| errorString_ptr
| SampleErrno_type
| Wrapped_ptr
| Holding_type
| error_interface.

#[global] Instance sample_error_eq_dec : EqDecision sample_error.
Proof. solve_decision. Defined.

#[global] Instance sample_type_eq_dec : EqDecision sample_type.
Proof. solve_decision. Defined.

#[global] Instance sample_errors : ErrorValues sample_error sample_type := {|
  TypeOf e := match e with
              | ErrSentinel => errorString_ptr
              | SampleErrno _ => SampleErrno_type
              | Wrapped _ => Wrapped_ptr
              | Holding _ => Holding_type
              end;
  TypeComparable _ := true;
  value_eq x y := match x, y with
                  | Holding _, Holding _ => None
                  | _, _ => Some (bool_decide (x = y))
                  end;
  Unwrap_method e := match e with
                     | Wrapped inner => Some (Some inner)
                     | _ => None
                     end;
  Is_method e := match e with
                 | SampleErrno n =>
                     Some (fun target => bool_decide (target = Some ErrSentinel ∧ n = 2))
                 | _ => None
                 end;
  As_method _ := None;
  AssignableTo t u := bool_decide (u = error_interface ∨ t = u);
  KindIsInterface t := bool_decide (t = error_interface);
  ImplementsError _ := true
|}.

(** * Package [poll]: [fdMutex] *)
(** The bits of [fdMutex.state]. *)
Definition mutexClosed : Z := Z.shiftl 1 0.
Definition mutexRLock : Z := Z.shiftl 1 1.
Definition mutexWLock : Z := Z.shiftl 1 2.
Definition mutexRef : Z := Z.shiftl 1 3.
Definition mutexRefMask : Z := Z.shiftl (Z.shiftl 1 20 - 1) 3.
Definition mutexRWait : Z := Z.shiftl 1 23.
Definition mutexRMask : Z := Z.shiftl (Z.shiftl 1 20 - 1) 23.
Definition mutexWWait : Z := Z.shiftl 1 43.
Definition mutexWMask : Z := Z.shiftl (Z.shiftl 1 20 - 1) 43.

Definition overflowMsg : string :=
  "too many concurrent operations on a single file or socket (max 1048575)".

Definition inconsistentMsg : string := "inconsistent poll.fdMutex".

(** Arithmetic on [uint64] wraps around. *)
Definition uint64 (x : Z) : Z := (x mod 2 ^ 64)%Z.

(** The two semaphores of an [fdMutex].  The code only hands their
    addresses to [runtime_Semacquire] and [runtime_Semrelease], which the
    runtime implements: the calls are recorded, in order. *)
Inductive sema : Type := rsema | wsema.

Inductive sem_call : Type :=
| runtime_Semacquire (s : sema)
| runtime_Semrelease (s : sema).

(** Every method below is a loop around [atomic.LoadUint64] and
    [atomic.CompareAndSwapUint64]; an iteration whose compare-and-swap
    fails changes nothing and is followed by another one.  The functions
    give the iteration whose compare-and-swap succeeds (or that returns or
    panics before it), from the state [old] that it loaded. *)
(** [incref] adds a reference. *)
Definition fdMutex_incref (old : Z) : res (bool * Z) :=
  if negb (Z.land old mutexClosed =? 0)%Z then Ok (false, old)
  else
    let new := uint64 (old + mutexRef) in
    if (Z.land new mutexRefMask =? 0)%Z then Panic overflowMsg
    else Ok (true, new).

(** [for old&mask != 0 { old -= wait; runtime_Semrelease(sema) }]. *)
Fixpoint wake_all (fuel : nat) (mask wait : Z) (s : sema) (old : Z)
    : res (Z * list sem_call) :=
  match fuel with
  | 0 => OutOfFuel
  | S fuel =>
      if negb (Z.land old mask =? 0)%Z then
        res_bind (wake_all fuel mask wait s (uint64 (old - wait)))
          (fun r => Ok (fst r, runtime_Semrelease s :: snd r))
      else Ok (old, [])
  end.

(** [increfAndClose] sets the state to closed. *)
Definition increfAndClose (fuel : nat) (old : Z) : res (bool * Z * list sem_call) :=
  if negb (Z.land old mutexClosed =? 0)%Z then Ok (false, old, [])
  else
    let new := uint64 (Z.lor old mutexClosed + mutexRef) in
    if (Z.land new mutexRefMask =? 0)%Z then Panic overflowMsg
    else
      let new := Z.ldiff new (Z.lor mutexRMask mutexWMask) in
      res_bind (wake_all fuel mutexRMask mutexRWait rsema old) (fun r =>
      res_bind (wake_all fuel mutexWMask mutexWWait wsema (fst r)) (fun w =>
      Ok (true, new, snd r ++ snd w))).

(** [decref] removes a reference; it reports whether none is left on a
    closed mutex. *)
Definition fdMutex_decref (old : Z) : res (bool * Z) :=
  if (Z.land old mutexRefMask =? 0)%Z then Panic inconsistentMsg
  else
    let new := uint64 (old - mutexRef) in
    Ok ((Z.land new (Z.lor mutexClosed mutexRefMask) =? mutexClosed)%Z, new).

(** The constants that [rwlock] and [rwunlock] choose by [read]. *)
Definition mutexBit (read : bool) : Z := if read then mutexRLock else mutexWLock.
Definition mutexWait (read : bool) : Z := if read then mutexRWait else mutexWWait.
Definition mutexMask (read : bool) : Z := if read then mutexRMask else mutexWMask.
Definition mutexSema (read : bool) : sema := if read then rsema else wsema.

(** How an iteration of the loop of [rwlock] ends: with the lock, refused
    because the mutex is closed, or parked in [runtime_Semacquire]. *)
Inductive rwlock_step : Type :=
| Locked (new : Z)
| Refused
| Parked (new : Z).

Definition rwlock_iter (read : bool) (old : Z) : res rwlock_step :=
  if negb (Z.land old mutexClosed =? 0)%Z then Ok Refused
  else if (Z.land old (mutexBit read) =? 0)%Z then
    let new := uint64 (Z.lor old (mutexBit read) + mutexRef) in
    if (Z.land new mutexRefMask =? 0)%Z then Panic overflowMsg else Ok (Locked new)
  else
    let new := uint64 (old + mutexWait read) in
    if (Z.land new (mutexMask read) =? 0)%Z then Panic overflowMsg else Ok (Parked new).

(** [rwlock]: the loop.  [later] lists the states that the goroutine loads
    each time it has been woken; when it is parked and nothing wakes it, it
    stays blocked.  The result carries the state that the last
    compare-and-swap stored and the calls of [runtime_Semacquire]. *)
Fixpoint rwlock (read : bool) (old : Z) (later : list Z)
    : res (bool * Z * list sem_call) :=
  res_bind (rwlock_iter read old) (fun s =>
    match s with
    | Locked new => Ok (true, new, [])
    | Refused => Ok (false, old, [])
    | Parked new =>
        match later with
        | [] => Deadlock
        | old' :: later =>
            res_bind (rwlock read old' later) (fun r =>
              Ok (fst (fst r), snd (fst r), runtime_Semacquire (mutexSema read) :: snd r))
        end
    end).

(** [rwunlock] drops the lock and a reference and wakes one waiter. *)
Definition rwunlock (read : bool) (old : Z) : res (bool * Z * list sem_call) :=
  if (Z.land old (mutexBit read) =? 0)%Z || (Z.land old mutexRefMask =? 0)%Z
  then Panic inconsistentMsg
  else
    let new := uint64 (Z.ldiff old (mutexBit read) - mutexRef) in
    let new := if negb (Z.land old (mutexMask read) =? 0)%Z
               then uint64 (new - mutexWait read) else new in
    Ok ((Z.land new (Z.lor mutexClosed mutexRefMask) =? mutexClosed)%Z, new,
        if negb (Z.land old (mutexMask read) =? 0)%Z
        then [runtime_Semrelease (mutexSema read)] else []).

(** ** The state as its fields *)
Record fields : Type := mkFields {
  f_closed : bool;
  f_rlock : bool;
  f_wlock : bool;
  f_refs : Z;
  f_rwait : Z;
  f_wwait : Z
}.

(** The layout: 1 bit closed, 1 bit read lock, 1 bit write lock, 20 bits
    of references, 20 bits of read waiters, 20 bits of write waiters. *)
Definition pack (f : fields) : Z :=
  (Z.b2z (f_closed f) + 2 * Z.b2z (f_rlock f) + 4 * Z.b2z (f_wlock f)
   + 8 * f_refs f + 2 ^ 23 * f_rwait f + 2 ^ 43 * f_wwait f)%Z.

Definition in_range (f : fields) : Prop :=
  (0 <= f_refs f < 2 ^ 20 ∧ 0 <= f_rwait f < 2 ^ 20 ∧ 0 <= f_wwait f < 2 ^ 20)%Z.

Definition f_lock (read : bool) (f : fields) : bool :=
  if read then f_rlock f else f_wlock f.

Definition f_wait (read : bool) (f : fields) : Z :=
  if read then f_rwait f else f_wwait f.

Definition set_refs (n : Z) (f : fields) : fields :=
  mkFields (f_closed f) (f_rlock f) (f_wlock f) n (f_rwait f) (f_wwait f).

Definition set_lock (read b : bool) (f : fields) : fields :=
  if read then mkFields (f_closed f) b (f_wlock f) (f_refs f) (f_rwait f) (f_wwait f)
  else mkFields (f_closed f) (f_rlock f) b (f_refs f) (f_rwait f) (f_wwait f).

Definition set_wait (read : bool) (n : Z) (f : fields) : fields :=
  if read then mkFields (f_closed f) (f_rlock f) (f_wlock f) (f_refs f) n (f_wwait f)
  else mkFields (f_closed f) (f_rlock f) (f_wlock f) (f_refs f) (f_rwait f) n.

Definition closed_fields (f : fields) : fields :=
  mkFields true (f_rlock f) (f_wlock f) (f_refs f + 1)%Z 0 0.

Ltac powers :=
  change (2 ^ 64)%Z with 18446744073709551616%Z in *;
  change (2 ^ 43)%Z with 8796093022208%Z in *;
  change (2 ^ 23)%Z with 8388608%Z in *;
  change (2 ^ 20)%Z with 1048576%Z in *.

Ltac fields_arith :=
  unfold pack, in_range, uint64 in *; simpl in *; powers;
  Z.to_euclidean_division_equations; lia.

Ltac eqb_cases :=
  repeat match goal with
  | |- context [(?a =? ?b)%Z] => destruct (Z.eqb_spec a b)
  end; simpl.

Ltac fields_range := unfold in_range; simpl; lia.

(** C7 as the design document states it: whatever the key, a lookup
    returns the inner of two bindings of it. *)
Definition inner_binding_always_shadows : Prop :=
  ∀ fuel s k v1 v2 w c1 w1 c2 w2,
    WithValue (Some s) k v1 w = Ok (c1, w1) →
    WithValue (Some c1) k v2 w1 = Ok (c2, w2) →
    Value fuel c2 k w2 = Ok v2.

(** A context of another implementation, at 2: it reports the deadline 5
    and is never cancelled, its [Done] being nil. *)
Definition w_foreign : world :=
  grown (customCtxObj (mkCustomCtx (5%Z, true) None None (fun _ => nil_any))) init_world.

(** C4 as the design document states it: whatever the parent, the context
    derived under an earlier deadline [t1] of the parent is terminated once
    [t1] has passed and every timer that was due has fired. *)
Definition earlier_deadline_always_terminates : Prop :=
  ∀ fuel parent t1 t2 w c f w' os w'' e w3,
    sane w → quiescent w → I1 w → contract w → parent < length (heap w) →
    Deadline fuel parent w = Ok (t1, true) → (t1 < t2)%Z →
    WithDeadline fuel (Some parent) t2 w = Ok ((c, f), w') →
    run fuel w' os w'' → (t1 <= now w'')%Z →
    (∀ x, x ∈ timers w'' → (now w'' < a_when x)%Z) →
    Err fuel c w'' = Ok (e, w3) → e ≠ None.

(** * The properties *)

Lemma cc_step_refl e a : cc_step e a a.
Proof. by left. Qed.

Lemma cc_step_trans e a b c : cc_step e a b → cc_step e b c → cc_step e a c.
Proof.
  intros [-> | [Ha ->]] [-> | [Hb ->]]; try (by left); try (by right).
Qed.

Lemma node_step_refl e o : node_step e o o.
Proof. destruct o; simpl; auto using cc_step_refl. Qed.

Lemma node_step_trans e o1 o2 o3 :
  node_step e o1 o2 → node_step e o2 o3 → node_step e o1 o3.
Proof.
  destruct o1, o2; simpl; try done; try (intros ->; done).
  - destruct o3; simpl; try done. apply cc_step_trans.
  - destruct o3; simpl; try done.
    intros (H1 & H2 & H3) (H4 & H5 & H6). split_and!.
    + by eapply cc_step_trans.
    + congruence.
    + destruct H6 as [H6|H6]; [rewrite H6; done | by right].
Qed.

Lemma node_step_cctx e o o' a :
  node_step e o o' → cancelCtx_of o = Some a →
  ∃ b, cancelCtx_of o' = Some b ∧ cc_step e a b.
Proof.
  destruct o, o'; simpl; try done.
  - intros H [= <-]. eauto.
  - intros (H & _) [= <-]. eauto.
Qed.

Lemma node_step_cctx_inv e o o' b :
  node_step e o o' → cancelCtx_of o' = Some b →
  ∃ a, cancelCtx_of o = Some a ∧ cc_step e a b.
Proof.
  destruct o, o'; simpl; intros H1 H2; simplify_eq/=; try done; [eauto | destruct H1; eauto].
Qed.

Lemma node_step_parent e o o' : node_step e o o' → parent_of o' = parent_of o.
Proof.
  destruct o, o'; simpl; intros H; simplify_eq/=; try done.
  - by destruct H as [-> | [_ ->]].
  - by destruct H as ([-> | [_ ->]] & _).
Qed.

Lemma cc_step_live e a b : cc_step e a b → cc_err b = None → b = a.
Proof. by intros [-> | [_ ->]]. Qed.

Lemma cc_step_dead e a b : cc_step e a b → cc_err a ≠ None → b = a.
Proof. intros [-> | [H ->]]; [done | congruence]. Qed.

Lemma cc_step_mu e a b : cc_step e a b → cc_mu b = cc_mu a.
Proof. by intros [-> | [_ ->]]. Qed.

Lemma cc_step_Context e a b : cc_step e a b → cc_Context b = cc_Context a.
Proof. by intros [-> | [_ ->]]. Qed.

Lemma cc_step_children e a b ks :
  cc_step e a b → cc_children b = Some ks → b = a.
Proof. by intros [-> | [_ ->]]. Qed.

Lemma cc_step_done e a b d :
  cc_step e a b → cc_done b = Some d → cc_done a = Some d ∨ (cc_done a = None ∧ d = closedchan).
Proof.
  intros [-> | [_ ->]]; [by left|]. simpl. destruct (cc_done a); simpl; intros [= <-]; auto.
Qed.

Lemma cc_step_err e a b : cc_step e a b → cc_err a ≠ None ∨ cc_err b = cc_err a ∨ cc_err b = Some e.
Proof. intros [-> | [_ ->]]; auto. Qed.

Section fanout_facts.
Context {e : error} {c : ptr} {w w' : world} (F : fanout e c w w').

Lemma fanout_cctx i a :
  cctx w i = Some a → ∃ b, cctx w' i = Some b ∧ cc_step e a b ∧ (i < c → b = a).
Proof.
  unfold cctx. destruct (heap w !! i) as [o|] eqn:Ho; [|done]. intros Ha.
  destruct (fo_node _ _ _ _ F i o Ho) as (o' & -> & Hs & Hlt).
  destruct (node_step_cctx _ _ _ _ Hs Ha) as (b & Hb & Hab).
  exists b. split_and!; [done..|]. intros Hi. rewrite (Hlt Hi) in Hb. congruence.
Qed.

Lemma fanout_cctx_inv i b :
  cctx w' i = Some b → ∃ a, cctx w i = Some a ∧ cc_step e a b.
Proof.
  unfold cctx. destruct (heap w' !! i) as [o'|] eqn:Ho'; [|done]. intros Hb.
  assert (is_Some (heap w !! i)) as [o Ho].
  { apply lookup_lt_is_Some. rewrite <- (fo_length _ _ _ _ F). by eapply lookup_lt_Some. }
  destruct (fo_node _ _ _ _ F i o Ho) as (o2 & Ho2 & Hs & _).
  rewrite Ho. simplify_eq. by eapply node_step_cctx_inv.
Qed.

Lemma fanout_dead i : dead w i → dead w' i.
Proof.
  intros (a & Ha & He). destruct (fanout_cctx i a Ha) as (b & Hb & Hs & _).
  exists b. split; [done|]. by rewrite (cc_step_dead _ _ _ Hs He).
Qed.

Lemma fanout_unlocked k : unlocked_from k w → unlocked_from k w'.
Proof.
  intros Hu i b Hi Hb. destruct (fanout_cctx_inv i b Hb) as (a & Ha & Hs).
  rewrite (cc_step_mu _ _ _ Hs). by eapply Hu.
Qed.

Lemma fanout_mono c' : c' ≤ c → fanout e c' w w'.
Proof.
  intros Hc. destruct F as [? Hnode ? ? ? ? ? ? ? ? ? ? Htrace ?]. split; try done.
  - intros i o Ho. destruct (Hnode i o Ho) as (o' & ? & ? & Hlt).
    exists o'. split_and!; [done..|]. intros; apply Hlt; lia.
  - destruct Htrace as (t & ? & Ht). exists t. split; [done|].
    intros ev Hev. specialize (Ht ev Hev). lia.
Qed.
End fanout_facts.

Lemma fanout_refl e c w : fanout e c w w.
Proof.
  split; try done.
  - intros i o Ho. exists o. split_and!; auto using node_step_refl.
  - auto.
  - intros i a d Ha He (b & Hb & Hd). congruence.
  - intros i a ks k Ha He (b & Hb & Hd). congruence.
  - exists []. rewrite app_nil_r. split; [done|]. intros ev H. by apply elem_of_nil in H.
  - intros i a t Ha He (b & Hb & Hd). congruence.
Qed.

Lemma fanout_trans e c w w1 w2 :
  fanout e c w w1 → fanout e c w1 w2 → fanout e c w w2.
Proof.
  intros F1 F2. split.
  - rewrite (fo_length _ _ _ _ F2). apply F1.
  - intros i o Ho. destruct (fo_node _ _ _ _ F1 i o Ho) as (o1 & Ho1 & Hs1 & Hlt1).
    destruct (fo_node _ _ _ _ F2 i o1 Ho1) as (o2 & Ho2 & Hs2 & Hlt2).
    exists o2. split_and!; [done|by eapply node_step_trans|].
    intros Hi. rewrite (Hlt2 Hi). auto.
  - intros d Hd. by apply (fo_closed_old _ _ _ _ F2), (fo_closed_old _ _ _ _ F1).
  - intros d Hd. destruct (fo_closed_new _ _ _ _ F2 d Hd) as [Hd1 | (i & a1 & Ha1 & He1 & Hd1 & Hi)].
    + destruct (fo_closed_new _ _ _ _ F1 d Hd1) as [? | (i & a & ? & ? & ? & ?)]; [by left|].
      right. exists i, a. split_and!; [done..|]. by eapply fanout_dead.
    + destruct (fanout_cctx_inv F1 i a1 Ha1) as (a & Ha & Hs).
      pose proof (cc_step_live _ _ _ Hs He1) as ->. right. by exists i, a.
  - intros i a d Ha He Hi Hd.
    destruct (fanout_cctx F1 i a Ha) as (b & Hb & [-> | [_ ->]] & _).
    + by eapply (fo_closed_kill _ _ _ _ F2).
    + apply (fo_closed_old _ _ _ _ F2). apply (fo_closed_kill _ _ _ _ F1 i a d); [done|done| |done].
      exists (kill_cc e a). done.
  - intros i a ks k Ha He Hi Hks Hk.
    destruct (fanout_cctx F1 i a Ha) as (b & Hb & [-> | [_ ->]] & _).
    + by eapply (fo_down _ _ _ _ F2).
    + eapply fanout_dead; [done|]. apply (fo_down _ _ _ _ F1 i a ks k); [done|done| |done|done].
      exists (kill_cc e a). done.
  - rewrite (fo_nchan _ _ _ _ F2). apply F1.
  - rewrite (fo_ntimer _ _ _ _ F2). apply F1.
  - rewrite (fo_now _ _ _ _ F2). apply F1.
  - rewrite (fo_goroutines _ _ _ _ F2). apply F1.
  - rewrite (fo_spawned _ _ _ _ F2). apply F1.
  - intros a Ha. by apply (fo_timers _ _ _ _ F1), (fo_timers _ _ _ _ F2).
  - destruct (fo_trace _ _ _ _ F1) as (t1 & Ht1 & H1).
    destruct (fo_trace _ _ _ _ F2) as (t2 & Ht2 & H2).
    exists (t1 ++ t2). rewrite Ht2, Ht1, app_assoc. split; [done|].
    intros ev [?|?]%elem_of_app; auto.
  - intros i a t Ha He Hi Ht.
    destruct (fo_trace _ _ _ _ F1) as (t1 & Ht1 & _).
    destruct (fo_trace _ _ _ _ F2) as (t2 & Ht2 & _).
    rewrite Ht2, Ht1, <- app_assoc in Ht. apply app_inv_head in Ht as <-.
    apply elem_of_app.
    destruct (fanout_cctx F1 i a Ha) as (b & Hb & [-> | [_ ->]] & _).
    + right. by apply (fo_locks _ _ _ _ F2 i a t2).
    + left. apply (fo_locks _ _ _ _ F1 i a t1); [done|done| |done].
      by exists (kill_cc e a).
Qed.

Lemma sane_fanout e c w w' : sane w → fanout e c w w' → sane w'.
Proof.
  intros S F.
  assert (Hback : ∀ i o', heap w' !! i = Some o' →
            ∃ o, heap w !! i = Some o ∧ node_step e o o').
  { intros i o' Ho'.
    assert (is_Some (heap w !! i)) as [o Ho].
    { apply lookup_lt_is_Some. rewrite <- (fo_length _ _ _ _ F). by eapply lookup_lt_Some. }
    destruct (fo_node _ _ _ _ F i o Ho) as (o2 & Ho2 & Hs & _). simplify_eq. eauto. }
  split.
  - intros i o' p Ho' Hp. destruct (Hback i o' Ho') as (o & Ho & Hs).
    eapply (sane_parent _ S); [done|]. by rewrite <- (node_step_parent _ _ _ Hs).
  - intros i p k v Ho'. destruct (Hback i _ Ho') as (o & Ho & Hs).
    destruct o; simpl in Hs; try done. simplify_eq. by eapply (sane_key _ S).
  - intros i x p Ho' Hx. destruct (Hback i _ Ho') as (o & Ho & Hs).
    destruct o; simpl in Hs; try done. simplify_eq.
    destruct (sane_custom _ S i _ p Ho Hx) as (? & a & Ha). split; [done|].
    destruct (fanout_cctx F p a Ha) as (b & -> & _). eauto.
  - intros i b ks k Hb Hks Hk. destruct (fanout_cctx_inv F i b Hb) as (a & Ha & Hs).
    pose proof (cc_step_children _ _ _ _ Hs Hks) as ->.
    destruct (sane_children _ S i a ks k Ha Hks Hk) as (? & a' & Ha'). split; [done|].
    destruct (fanout_cctx F k a' Ha') as (b' & -> & _). eauto.
  - intros i b d Hb He Hd Hcl. destruct (fanout_cctx_inv F i b Hb) as (a & Ha & Hs).
    pose proof (cc_step_live _ _ _ Hs He) as ->.
    destruct (fo_closed_new _ _ _ _ F d Hcl) as [Hcl' | (j & a' & Ha' & He' & Hd' & Hj)].
    + by eapply (sane_live _ S).
    + destruct (sane_inj _ S i j a a' d Ha Ha' Hd Hd') as [-> | ->].
      * destruct Hj as (b' & Hb' & Hne). congruence.
      * eapply (sane_live _ S); [done..|]. apply S.
  - intros i b Hb He. destruct (fanout_cctx_inv F i b Hb) as (a & Ha & [-> | [Hl ->]]).
    + destruct (sane_dead _ S i a Ha He) as (d & ? & ?). exists d. split; [done|].
      by apply (fo_closed_old _ _ _ _ F).
    + simpl. eexists. split; [done|]. destruct (cc_done a) as [d|] eqn:Hd; simpl.
      * apply (fo_closed_kill _ _ _ _ F i a d); [done..| |done]. by exists (kill_cc e a).
      * apply (fo_closed_old _ _ _ _ F), S.
  - intros i b d Hb Hd. destruct (fanout_cctx_inv F i b Hb) as (a & Ha & Hs).
    rewrite (fo_nchan _ _ _ _ F).
    destruct (cc_step_done _ _ _ _ Hs Hd) as [Hd' | [_ ->]].
    + by eapply (sane_fresh _ S).
    + apply (sane_closed _ S), S.
  - intros i j a' b' d Ha' Hb' Hda Hdb.
    destruct (fanout_cctx_inv F i a' Ha') as (a & Ha & Hsa).
    destruct (fanout_cctx_inv F j b' Hb') as (b & Hb & Hsb).
    destruct (cc_step_done _ _ _ _ Hsa Hda) as [Hd1 | [_ ->]]; [|by right].
    destruct (cc_step_done _ _ _ _ Hsb Hdb) as [Hd2 | [_ ->]]; [|by right].
    by eapply (sane_inj _ S).
  - apply (fo_closed_old _ _ _ _ F), S.
  - intros d Hd. rewrite (fo_nchan _ _ _ _ F).
    destruct (fo_closed_new _ _ _ _ F d Hd) as [? | (i & a & Ha & _ & Hda & _)].
    + by apply (sane_closed _ S).
    + by eapply (sane_fresh _ S).
Qed.

Lemma bind_run {A B} (m : M A) (k : A → M B) w a w1 :
  m w = Ok (a, w1) → bind m k w = k a w1.
Proof. unfold bind. by intros ->. Qed.

Lemma bind_assoc {A B C} (m : M A) (k : A → M B) (k' : B → M C) w :
  bind (bind m k) k' w = bind m (fun x => bind (k x) k') w.
Proof. unfold bind. by destruct (m w) as [[]| | |]. Qed.

Lemma bind_ret {A B} (a : A) (k : A → M B) w : bind (ret a) k w = k a w.
Proof. done. Qed.

Lemma cctx_heap w p o : heap w !! p = Some o → cctx w p = cancelCtx_of o.
Proof. unfold cctx. by intros ->. Qed.

Lemma cctx_lt w p a : cctx w p = Some a → p < length (heap w).
Proof.
  unfold cctx. destruct (heap w !! p) eqn:H; [|done]. intros _. by eapply lookup_lt_Some.
Qed.

Lemma cctx_inv w p a : cctx w p = Some a → ∃ o, heap w !! p = Some o ∧ cancelCtx_of o = Some a.
Proof. unfold cctx. destruct (heap w !! p) eqn:H; [|done]. eauto. Qed.

Lemma heap_put_eq w p o : p < length (heap w) → heap (put p o w) !! p = Some o.
Proof. intros. simpl. by apply list_lookup_insert_eq. Qed.

Lemma heap_put_ne w p q o : p ≠ q → heap (put p o w) !! q = heap w !! q.
Proof. intros. simpl. by apply list_lookup_insert_ne. Qed.

Lemma cctx_put_eq w p o : p < length (heap w) → cctx (put p o w) p = cancelCtx_of o.
Proof. intros. unfold cctx. by rewrite heap_put_eq. Qed.

Lemma cctx_put_ne w p q o : p ≠ q → cctx (put p o w) q = cctx w q.
Proof. intros. unfold cctx. by rewrite heap_put_ne. Qed.

Lemma cancelCtx_of_with f o a :
  cancelCtx_of o = Some a → cancelCtx_of (with_cancelCtx f o) = Some (f a).
Proof. destruct o; simpl; intros; simplify_eq; done. Qed.

Lemma with_cancelCtx_compose f g o :
  with_cancelCtx f (with_cancelCtx g o) = with_cancelCtx (f ∘ g) o.
Proof. by destruct o. Qed.

Lemma with_cancelCtx_ext f g o a :
  cancelCtx_of o = Some a → f a = g a → with_cancelCtx f o = with_cancelCtx g o.
Proof. destruct o; simpl; intros; simplify_eq; congruence. Qed.

Lemma with_cancelCtx_id f o a :
  cancelCtx_of o = Some a → f a = a → with_cancelCtx f o = o.
Proof. destruct o as [| | |[]|]; simpl; intros; simplify_eq/=; congruence. Qed.

Lemma load_run w p o : heap w !! p = Some o → load p w = Ok (o, w).
Proof. unfold load. by intros ->. Qed.

Lemma load_cancelCtx_run w p a : cctx w p = Some a → load_cancelCtx p w = Ok (a, w).
Proof.
  unfold cctx, load_cancelCtx. destruct (heap w !! p); [|done]. by intros ->.
Qed.

Lemma modify_run w p f o : heap w !! p = Some o → modify p f w = Ok (tt, put p (f o) w).
Proof. unfold modify. by intros ->. Qed.

Lemma modify_cancelCtx_run w p f o :
  heap w !! p = Some o → modify_cancelCtx p f w = Ok (tt, put p (with_cancelCtx f o) w).
Proof. apply modify_run. Qed.

Lemma Lock_run w p o a :
  heap w !! p = Some o → cancelCtx_of o = Some a → cc_mu a = false →
  Lock p w = Ok (tt, logged (EvLock p) (put p (with_cancelCtx (set_mu true) o) w)).
Proof.
  intros Ho Ha Hmu. unfold Lock.
  rewrite (bind_run _ _ w a w) by (apply load_cancelCtx_run; by rewrite (cctx_heap _ _ _ Ho)).
  rewrite Hmu. by rewrite (bind_run _ _ _ _ _ (modify_cancelCtx_run _ _ _ _ Ho)).
Qed.

Lemma Unlock_run w p o a :
  heap w !! p = Some o → cancelCtx_of o = Some a → cc_mu a = true →
  Unlock p w = Ok (tt, logged (EvUnlock p) (put p (with_cancelCtx (set_mu false) o) w)).
Proof.
  intros Ho Ha Hmu. unfold Unlock.
  rewrite (bind_run _ _ w a w) by (apply load_cancelCtx_run; by rewrite (cctx_heap _ _ _ Ho)).
  rewrite Hmu. by rewrite (bind_run _ _ _ _ _ (modify_cancelCtx_run _ _ _ _ Ho)).
Qed.

Lemma close_run w d : d ∉ closed w → close d w = Ok (tt, set_closed (d :: closed w) w).
Proof. intros H. unfold close, is_closed. by rewrite bool_decide_eq_false_2. Qed.

Lemma range_spec e rec c n :
  rec_ok e rec c n →
  ∀ ks w, sane w → unlocked_from (S c) w → length (heap w) = n →
    (∀ k, k ∈ ks → c < k ∧ is_Some (cctx w k)) →
    ∃ w', range ks (fun child => rec child false (Some e)) w = Ok (tt, w') ∧
          fanout e (S c) w w' ∧ ∀ k, k ∈ ks → dead w' k.
Proof.
  intros Hrec. induction ks as [|k ks IH]; intros w S U Hn Hks.
  - exists w. split_and!; [done|apply fanout_refl|]. intros k Hk. by apply elem_of_nil in Hk.
  - destruct (Hks k) as [Hck Hk]; [by left|].
    destruct (Hrec k w Hck S) as (w1 & Hrun & F1 & Hd); [|done..|].
    { intros i a Hi. apply U. lia. }
    destruct (IH w1) as (w2 & Hrun2 & F2 & Hd2).
    + by eapply sane_fanout.
    + by eapply fanout_unlocked.
    + by rewrite (fo_length _ _ _ _ F1).
    + intros k' Hk'. destruct (Hks k') as [? [a Ha]]; [by right|]. split; [done|].
      destruct (fanout_cctx F1 k' a Ha) as (b & -> & _). eauto.
    + exists w2. split_and!.
      * simpl. by rewrite (bind_run _ _ _ _ _ Hrun).
      * eapply fanout_trans; [|done]. eapply fanout_mono; [done|lia].
      * intros k' [-> | Hk']%elem_of_cons; [by eapply fanout_dead|by apply Hd2].
Qed.

Lemma parent_of_canceler o a : cancelCtx_of o = Some a → parent_of o = Some (cc_Context a).
Proof. destruct o; simpl; intros; simplify_eq; done. Qed.

(** Replacing the canceler at [c] keeps the world well formed when the new
    fields respect the invariant. *)
Lemma sane_update w w' c o a o' b :
  sane w → heap w !! c = Some o → cancelCtx_of o = Some a →
  heap w' = <[c := o']> (heap w) → cancelCtx_of o' = Some b →
  cc_Context b = cc_Context a →
  (∀ ks k, cc_children b = Some ks → k ∈ ks → c < k ∧ is_Some (cctx w k)) →
  (cc_err b = None → ∀ d, cc_done b = Some d → d ∉ closed w') →
  (cc_err b ≠ None → ∃ d, cc_done b = Some d ∧ d ∈ closed w') →
  (∀ d, cc_done b = Some d → d < nchan w') →
  (∀ j a' d, j ≠ c → cctx w j = Some a' → cc_done b = Some d → cc_done a' = Some d →
      d = closedchan) →
  (∀ d, d ∈ closed w → d ∈ closed w') →
  (∀ j a' d, j ≠ c → cctx w j = Some a' → cc_err a' = None → cc_done a' = Some d →
      d ∉ closed w') →
  nchan w ≤ nchan w' →
  (∀ d, d ∈ closed w' → d < nchan w') →
  sane w'.
Proof.
  intros S Ho Ha Hh Hb HC Hks Hlive Hdead Hfresh Hinj Hcl Hothers Hn Hclf.
  assert (Hc : c < length (heap w)) by by eapply lookup_lt_Some.
  assert (Hlk : ∀ i, heap w' !! i = if decide (i = c) then Some o' else heap w !! i).
  { intros i. rewrite Hh. destruct (decide (i = c)) as [->|].
    - by apply list_lookup_insert_eq.
    - by apply list_lookup_insert_ne. }
  assert (Hcc : ∀ i, cctx w' i = if decide (i = c) then Some b else cctx w i).
  { intros i. unfold cctx. rewrite Hlk. by destruct (decide (i = c)). }
  assert (Hsome : ∀ i, is_Some (cctx w i) → is_Some (cctx w' i)).
  { intros i. rewrite Hcc. destruct (decide (i = c)); eauto. }
  split.
  - intros i x p. rewrite Hlk. destruct (decide (i = c)) as [->|]; [|apply S].
    intros [= <-]. rewrite (parent_of_canceler _ _ Hb), HC, <- (parent_of_canceler _ _ Ha).
    by apply (sane_parent _ S).
  - intros i p k v. rewrite Hlk. destruct (decide (i = c)) as [->|]; [|apply S].
    intros [= ->]. done.
  - intros i x p. rewrite Hlk. destruct (decide (i = c)) as [->|].
    + intros [= ->]. done.
    + intros Hx Hv. destruct (sane_custom _ S i x p Hx Hv). auto.
  - intros i a' ks k. rewrite Hcc. destruct (decide (i = c)) as [->|].
    + intros [= <-] ? ?. destruct (Hks ks k); auto.
    + intros Ha' ? ?. destruct (sane_children _ S i a' ks k); auto.
  - intros i a' d. rewrite Hcc. destruct (decide (i = c)) as [->|].
    + intros [= <-]. auto.
    + intros. by eapply Hothers.
  - intros i a'. rewrite Hcc. destruct (decide (i = c)) as [->|].
    + intros [= <-]. auto.
    + intros Ha' He. destruct (sane_dead _ S i a' Ha' He) as (d & ? & ?). eauto.
  - intros i a' d. rewrite Hcc. destruct (decide (i = c)) as [->|].
    + intros [= <-]. auto.
    + intros Ha' Hd. pose proof (sane_fresh _ S i a' d Ha' Hd). lia.
  - intros i j a1 a2 d. rewrite !Hcc.
    destruct (decide (i = c)) as [->|], (decide (j = c)) as [->|]; auto.
    + intros [= <-] ? ? ?. right. by eapply Hinj.
    + intros ? [= <-] ? ?. right. by eapply Hinj.
    + apply S.
  - apply Hcl, S.
  - done.
Qed.

Lemma fanout_quiet e c w w' t :
  heap w' = heap w → closed w' = closed w → nchan w' = nchan w →
  timers w' = timers w → ntimer w' = ntimer w → now w' = now w →
  goroutines w' = goroutines w → spawned w' = spawned w →
  trace w' = trace w ++ t → (∀ ev, ev ∈ t → c ≤ ev_ptr ev) →
  fanout e c w w'.
Proof.
  intros Hh Hcl Hn Ht Hnt Hnow Hg Hs Htr Hev.
  assert (Hcc : ∀ i, cctx w' i = cctx w i) by (intros; unfold cctx; by rewrite Hh).
  split; try done.
  - by rewrite Hh.
  - intros i o Ho. exists o. rewrite Hh. split_and!; auto using node_step_refl.
  - intros d. by rewrite Hcl.
  - intros d. rewrite Hcl. auto.
  - intros i a d Ha He (b & Hb & Hd). rewrite Hcc in Hb. congruence.
  - intros i a ks k Ha He (b & Hb & Hd). rewrite Hcc in Hb. congruence.
  - intros a. by rewrite Ht.
  - eauto.
  - intros i a t' Ha He (b & Hb & Hd). rewrite Hcc in Hb. congruence.
Qed.

Lemma node_step_kill e o a :
  cancelCtx_of o = Some a → cc_err a = None → node_step e o (with_cancelCtx (kill_cc e) o).
Proof.
  destruct o; simpl; intros; simplify_eq; try done.
  - by right.
  - split_and!; [by right|done|by left].
Qed.

Lemma cancelCtx_cancel_spec e rec fuel c removeFromParent w o a :
  rec_ok e rec c (length (heap w)) → sane w → unlocked_from c w →
  heap w !! c = Some o → cancelCtx_of o = Some a →
  ∃ w', cancelCtx_cancel rec fuel c removeFromParent (Some e) w
        = match cc_err a with
          | None => if removeFromParent then removeChild fuel (cc_Context a) c w'
                    else Ok (tt, w')
          | Some _ => Ok (tt, w')
          end ∧
        fanout e c w w' ∧ dead w' c ∧
        heap w' !! c = Some (match cc_err a with
                             | None => with_cancelCtx (kill_cc e) o
                             | Some _ => o
                             end) ∧
        match cc_err a with
        | Some _ =>
            heap w' = heap w ∧ closed w' = closed w ∧ timers w' = timers w ∧
            nchan w' = nchan w ∧ trace w' = trace w ++ [EvLock c; EvUnlock c]
        | None =>
            ∃ t, trace w' = trace w ++ EvLock c :: t ++ [EvUnlock c] ∧
                 ∀ ev, ev ∈ t → c < ev_ptr ev
        end.
Proof.
  intros Hrec Sw U Ho Ha.
  assert (Hmu : cc_mu a = false) by (eapply U; [done | by rewrite (cctx_heap _ _ _ Ho)]).
  assert (Hc : c < length (heap w)) by by eapply lookup_lt_Some.
  unfold cancelCtx_cancel.
  rewrite (bind_run _ _ _ _ _ (Lock_run w c o a Ho Ha Hmu)).
  set (o1 := with_cancelCtx (set_mu true) o).
  set (w1 := logged (EvLock c) (put c o1 w)).
  assert (Ho1 : heap w1 !! c = Some o1) by (by apply list_lookup_insert_eq).
  assert (Ha1 : cancelCtx_of o1 = Some (set_mu true a)) by by apply cancelCtx_of_with.
  rewrite (bind_run _ _ w1 (set_mu true a) w1)
    by (apply load_cancelCtx_run; by rewrite (cctx_heap _ _ _ Ho1)).
  change (cc_err (set_mu true a)) with (cc_err a).
  change (cc_done (set_mu true a)) with (cc_done a).
  change (cc_children (set_mu true a)) with (cc_children a).
  destruct (cc_err a) as [e0|] eqn:He.
  - rewrite (Unlock_run w1 c o1 _ Ho1 Ha1 eq_refl).
    assert (Hid : with_cancelCtx (set_mu false) o1 = o).
    { unfold o1. rewrite with_cancelCtx_compose. eapply with_cancelCtx_id; [done|].
      destruct a; simpl in *; by subst. }
    rewrite Hid. eexists. split; [done|].
    assert (Hh : heap (logged (EvUnlock c) (put c o w1)) = heap w).
    { simpl. rewrite list_insert_insert_eq. by apply list_insert_id. }
    split; [|split; [|split]].
    + eapply (fanout_quiet _ _ _ _ [EvLock c; EvUnlock c]); try done.
      * simpl. by rewrite <- app_assoc.
      * intros ev [->|[->|[]%elem_of_nil]%elem_of_cons]%elem_of_cons; simpl; lia.
    + exists a. split; [|congruence]. unfold cctx. by rewrite Hh, Ho.
    + by rewrite Hh.
    + split_and!; try done. simpl. by rewrite <- app_assoc.
  - rewrite (bind_run _ _ _ _ _ (modify_cancelCtx_run w1 c _ o1 Ho1)).
    set (o2 := with_cancelCtx (set_err (Some e)) o1).
    set (w2 := put c o2 w1).
    set (ob := with_cancelCtx (begin_cc e) o).
    assert (∃ w3,
      match cc_done a with
      | Some d => close d
      | None => modify_cancelCtx c (set_done (Some closedchan))
      end w2 = Ok (tt, w3) ∧
      heap w3 = <[c := ob]> (heap w) ∧
      closed w3 = match cc_done a with Some d => d :: closed w | None => closed w end ∧
      nchan w3 = nchan w ∧ timers w3 = timers w ∧ ntimer w3 = ntimer w ∧
      now w3 = now w ∧ goroutines w3 = goroutines w ∧ spawned w3 = spawned w ∧
      trace w3 = trace w ++ [EvLock c]) as (w3 & Hrun3 & Hh3 & Hcl3 & Hn3 & Htm3 & Hnt3 & Hnow3 & Hg3 & Hsp3 & Htr3).
    { destruct (cc_done a) as [d|] eqn:Hd.
      - eexists. split; [apply close_run|].
        + simpl. eapply (sane_live _ Sw c a d); [by rewrite (cctx_heap _ _ _ Ho)|done..].
        + simpl. split_and!; try done. rewrite list_insert_insert_eq. f_equal.
          unfold o2, o1, ob. rewrite with_cancelCtx_compose.
          eapply with_cancelCtx_ext; [done|]. unfold begin_cc, set_err, set_done, set_mu, compose; simpl; by rewrite Hd.
      - assert (Ho2 : heap w2 !! c = Some o2).
        { simpl. apply list_lookup_insert_eq. by rewrite length_insert. }
        eexists. split; [apply (modify_cancelCtx_run w2 c _ o2 Ho2)|].
        simpl. split_and!; try done. rewrite !list_insert_insert_eq. f_equal.
        unfold o2, o1, ob. rewrite !with_cancelCtx_compose.
        eapply with_cancelCtx_ext; [done|]. unfold begin_cc, set_err, set_done, set_mu, compose; simpl; by rewrite Hd. }
    rewrite (bind_run _ _ _ _ _ Hrun3).
    assert (Hab : cancelCtx_of ob = Some (begin_cc e a)) by by apply cancelCtx_of_with.
    assert (Hlk3 : ∀ i, i ≠ c → heap w3 !! i = heap w !! i).
    { intros i Hi. rewrite Hh3. by apply list_lookup_insert_ne. }
    assert (Hob3 : heap w3 !! c = Some ob).
    { rewrite Hh3. by apply list_lookup_insert_eq. }
    assert (Hcc3 : ∀ i, i ≠ c → cctx w3 i = cctx w i).
    { intros i Hi. unfold cctx. by rewrite Hlk3. }
    assert (Hca : cctx w c = Some a) by by rewrite (cctx_heap _ _ _ Ho).
    assert (Hclosed_old : ∀ d, d ∈ closed w → d ∈ closed w3).
    { intros d Hd. rewrite Hcl3. destruct (cc_done a); [by right|done]. }
    assert (S3 : sane w3).
    { eapply (sane_update w w3 c o a ob (begin_cc e a)); try done.
      - intros ks k Hks Hk. by eapply (sane_children _ Sw c a).
      - simpl. intros _. eexists. split; [done|]. rewrite Hcl3.
        destruct (cc_done a); simpl; [by left|apply Sw].
      - simpl. intros d [= <-]. rewrite Hn3. destruct (cc_done a) as [d|] eqn:Hd; simpl.
        + by eapply (sane_fresh _ Sw c a).
        + apply (sane_closed _ Sw), Sw.
      - simpl. intros j a' d Hj Ha' [= <-] Hd'.
        destruct (cc_done a) as [d|] eqn:Hd; simpl in *; [|done].
        destruct (sane_inj _ Sw c j a a' d Hca Ha' Hd Hd'); [by subst|done].
      - intros j a' d Hj Ha' He' Hd'. rewrite Hcl3.
        pose proof (sane_live _ Sw j a' d Ha' He' Hd') as Hnc.
        destruct (cc_done a) as [d0|] eqn:Hd; [|done].
        intros [->|?]%elem_of_cons; [|done].
        destruct (sane_inj _ Sw c j a a' d0 Hca Ha' Hd Hd') as [->| ->]; [done|].
        apply Hnc, Sw.
      - lia.
      - intros d. rewrite Hcl3, Hn3. destruct (cc_done a) as [d0|] eqn:Hd.
        + intros [->|?]%elem_of_cons; [by eapply (sane_fresh _ Sw c a)|by apply (sane_closed _ Sw)].
        + apply (sane_closed _ Sw). }
    assert (U3 : unlocked_from (S c) w3).
    { intros i a' Hi. rewrite Hcc3 by lia. apply U. lia. }
    assert (Hlen3 : length (heap w3) = length (heap w)).
    { by rewrite Hh3, length_insert. }
    destruct (range_spec e rec c (length (heap w)) Hrec (default [] (cc_children a)) w3)
      as (w4 & Hrun4 & F4 & Hd4); [done..| |].
    { intros k Hk. destruct (cc_children a) as [ks|] eqn:Hks; [|by apply elem_of_nil in Hk].
      destruct (sane_children _ Sw c a ks k Hca Hks Hk) as [? ?]. split; [done|].
      rewrite Hcc3 by lia. done. }
    rewrite (bind_run _ _ _ _ _ Hrun4).
    destruct (fo_node _ _ _ _ F4 c ob Hob3) as (ob' & Hob4 & _ & Heq).
    rewrite Heq in Hob4 by lia. clear ob' Heq.
    rewrite (bind_run _ _ _ _ _ (modify_cancelCtx_run w4 c _ ob Hob4)).
    set (o5 := with_cancelCtx (set_children None) ob).
    set (w5 := put c o5 w4).
    assert (Hc4 : c < length (heap w4)) by by eapply lookup_lt_Some.
    assert (Ho5 : heap w5 !! c = Some o5) by by apply list_lookup_insert_eq.
    assert (Ha5 : cancelCtx_of o5 = Some (set_children None (begin_cc e a)))
      by by apply cancelCtx_of_with.
    rewrite (bind_run _ _ _ _ _ (Unlock_run w5 c o5 _ Ho5 Ha5 eq_refl)).
    assert (Hfin : with_cancelCtx (set_mu false) o5 = with_cancelCtx (kill_cc e) o).
    { unfold o5, ob. rewrite !with_cancelCtx_compose.
      eapply with_cancelCtx_ext; [done|]. unfold kill_cc, begin_cc, set_children, set_mu, compose; simpl; by rewrite Hmu. }
    rewrite Hfin. set (ok := with_cancelCtx (kill_cc e) o).
    set (w6 := logged (EvUnlock c) (put c ok w5)).
    assert (Hh6 : heap w6 = <[c := ok]> (heap w4)).
    { simpl. by rewrite list_insert_insert_eq. }
    assert (Hok6 : heap w6 !! c = Some ok).
    { rewrite Hh6. by apply list_lookup_insert_eq. }
    assert (Hlk6 : ∀ i, i ≠ c → heap w6 !! i = heap w4 !! i).
    { intros i Hi. rewrite Hh6. by apply list_lookup_insert_ne. }
    assert (Hcc6 : ∀ i, i ≠ c → cctx w6 i = cctx w4 i).
    { intros i Hi. unfold cctx. by rewrite Hlk6. }
    assert (Hak : cancelCtx_of ok = Some (kill_cc e a)) by by apply cancelCtx_of_with.
    assert (Hdc : dead w6 c).
    { exists (kill_cc e a). split; [|done]. by rewrite (cctx_heap _ _ _ Hok6). }
    assert (Hdead46 : ∀ i, dead w4 i → dead w6 i).
    { intros i Hi. destruct (decide (i = c)) as [->|]; [done|].
      destruct Hi as (b & ? & ?). exists b. by rewrite Hcc6. }
    exists w6. split; [by destruct removeFromParent|]. split; [|split; [done|split; [done|]]].
    2:{ destruct (fo_trace _ _ _ _ F4) as (t & Ht & Hev). exists t.
        change (trace w6) with (trace w4 ++ [EvUnlock c]).
        rewrite Ht, Htr3, <- !app_assoc. split; [done|].
        intros ev Hin. specialize (Hev ev Hin). lia. }
    split.
    + rewrite Hh6, length_insert, (fo_length _ _ _ _ F4). done.
    + intros i x Hx. destruct (decide (i = c)) as [->|Hi].
      * exists ok. assert (x = o) as -> by congruence.
        split_and!; [done|by apply (node_step_kill e o a)|lia].
      * rewrite <- Hlk3 in Hx by done.
        destruct (fo_node _ _ _ _ F4 i x Hx) as (x' & Hx' & Hs & _).
        exists x'. rewrite Hlk6 by done. split_and!; [done..|].
        intros Hlt. destruct (fo_node _ _ _ _ F4 i x Hx) as (x2 & Hx2 & _ & Hlt2).
        simplify_eq. apply Hlt2. lia.
    + intros d Hd. apply (fo_closed_old _ _ _ _ F4). auto.
    + intros d Hd. change (closed w6) with (closed w4) in Hd.
      destruct (fo_closed_new _ _ _ _ F4 d Hd) as [Hd3 | (i & a' & Ha' & He' & Hd' & Hi)].
      * rewrite Hcl3 in Hd3. destruct (cc_done a) as [d0|] eqn:Hd0; [|by left].
        apply elem_of_cons in Hd3 as [-> | ?]; [|by left].
        right. exists c, a. done.
      * destruct (decide (i = c)) as [->|Hic].
        { rewrite (cctx_heap _ _ _ Hob3), Hab in Ha'. by simplify_eq. }
        right. exists i, a'. rewrite <- Hcc3 by done. auto.
    + intros i a' d Ha' He' Hi Hd'. change (closed w6) with (closed w4).
      destruct (decide (i = c)) as [->|Hic].
      * simplify_eq. apply (fo_closed_old _ _ _ _ F4). rewrite Hcl3, Hd'. by left.
      * apply (fo_closed_kill _ _ _ _ F4 i a' d); [by rewrite Hcc3|done| |done].
        destruct Hi as (b & Hb & ?). exists b. by rewrite <- Hcc6.
    + intros i a' ks k Ha' He' Hi Hks Hk.
      destruct (decide (i = c)) as [->|Hic].
      * simplify_eq. apply Hdead46, Hd4. by rewrite Hks.
      * apply Hdead46. apply (fo_down _ _ _ _ F4 i a' ks k); [by rewrite Hcc3|done| |done..].
        destruct Hi as (b & Hb & ?). exists b. by rewrite <- Hcc6.
    + change (nchan w6) with (nchan w4). by rewrite (fo_nchan _ _ _ _ F4).
    + change (ntimer w6) with (ntimer w4). by rewrite (fo_ntimer _ _ _ _ F4).
    + change (now w6) with (now w4). by rewrite (fo_now _ _ _ _ F4).
    + change (goroutines w6) with (goroutines w4). by rewrite (fo_goroutines _ _ _ _ F4).
    + change (spawned w6) with (spawned w4). by rewrite (fo_spawned _ _ _ _ F4).
    + intros x Hx. change (timers w6) with (timers w4) in Hx.
      rewrite <- Htm3. by apply (fo_timers _ _ _ _ F4).
    + destruct (fo_trace _ _ _ _ F4) as (t & Ht & Hev).
      exists ([EvLock c] ++ t ++ [EvUnlock c]).
      change (trace w6) with (trace w4 ++ [EvUnlock c]).
      rewrite Ht, Htr3, <- !app_assoc. split; [done|].
      intros ev [->%list_elem_of_singleton | [Hin | ->%list_elem_of_singleton]%elem_of_app]%elem_of_app;
        simpl; [lia| |lia].
      specialize (Hev ev Hin). lia.
    + intros i a' t Ha' He' Hi Ht.
      destruct (fo_trace _ _ _ _ F4) as (t4 & Ht4 & _).
      change (trace w6) with (trace w4 ++ [EvUnlock c]) in Ht.
      rewrite Ht4, Htr3, <- !app_assoc in Ht. apply app_inv_head in Ht as <-.
      destruct (decide (i = c)) as [->|Hic]; [by left|].
      right. apply elem_of_app. left.
      apply (fo_locks _ _ _ _ F4 i a' t4); [by rewrite Hcc3|done| |done].
      destruct Hi as (b & Hb & ?). exists b. by rewrite <- Hcc6.
Qed.

Lemma node_step_clear_timer e o : node_step e o (with_timer None o).
Proof.
  destruct o; simpl; auto using cc_step_refl.
Qed.

Lemma cancelCtx_of_with_timer tm o : cancelCtx_of (with_timer tm o) = cancelCtx_of o.
Proof. by destruct o. Qed.

Lemma timer_tail_run c w t :
  heap w !! c = Some (timerCtxObj t) → cc_mu (tc_cancelCtx t) = false →
  timer_tail c w = Ok (tt, clear_timer c w).
Proof.
  intros Ho Hmu. unfold timer_tail, clear_timer. rewrite Ho.
  assert (Hc : c < length (heap w)) by by eapply lookup_lt_Some.
  rewrite (bind_run _ _ _ _ _ (Lock_run w c _ _ Ho eq_refl Hmu)).
  set (x1 := with_cancelCtx (set_mu true) (timerCtxObj t)).
  set (w2 := logged (EvLock c) (put c x1 w)).
  assert (Hx1 : heap w2 !! c = Some x1) by by apply list_lookup_insert_eq.
  rewrite (bind_run _ _ _ _ _ (load_run w2 c x1 Hx1)).
  unfold x1 at 1. cbn [with_cancelCtx tc_timer].
  assert (Hfin : with_cancelCtx (set_mu false) (with_timer None x1)
                 = timerCtxObj (mkTimerCtx (tc_cancelCtx t) None (tc_deadline t))).
  { unfold x1. simpl. do 2 f_equal. destruct (tc_cancelCtx t); simpl in *; by subst. }
  destruct (tc_timer t) as [tm|] eqn:Htm.
  - rewrite bind_assoc. rewrite (bind_run (Stop tm) _ w2 tt _ eq_refl).
    set (w3 := set_timers _ w2).
    assert (Hx3 : heap w3 !! c = Some x1) by done.
    rewrite (bind_run _ _ _ _ _ (modify_run w3 c _ x1 Hx3)).
    set (w4 := put c (with_timer None x1) w3).
    assert (Hx4 : heap w4 !! c = Some (with_timer None x1)).
    { apply list_lookup_insert_eq. simpl. by rewrite length_insert. }
    rewrite (Unlock_run w4 c _ (set_mu true (tc_cancelCtx t)) Hx4 eq_refl eq_refl).
    rewrite Hfin. do 2 f_equal. unfold logged, put, set_trace, set_heap; simpl. f_equal.
    + by rewrite !list_insert_insert_eq.
    + by rewrite <- app_assoc.
  - rewrite bind_ret.
    assert (Hx1' : with_timer None x1 = x1) by (unfold x1; simpl; by rewrite Htm).
    rewrite (Unlock_run w2 c x1 (set_mu true (tc_cancelCtx t)) Hx1 eq_refl eq_refl).
    rewrite <- Hx1', Hfin. do 2 f_equal. unfold logged, put, set_trace, set_heap; simpl. f_equal.
    + by rewrite !list_insert_insert_eq.
    + by rewrite <- app_assoc.
Qed.

Lemma fanout_clear_timer e c w : fanout e c w (clear_timer c w).
Proof.
  unfold clear_timer. destruct (heap w !! c) as [o|] eqn:Ho; [|apply fanout_refl].
  destruct o as [| | |t|]; try apply fanout_refl.
  assert (Hc : c < length (heap w)) by by eapply lookup_lt_Some.
  set (w' := mkWorld _ _ _ _ _ _ _ _ _).
  assert (Hcc : ∀ i, cctx w' i = cctx w i).
  { intros i. unfold cctx. simpl. destruct (decide (i = c)) as [->|].
    - by rewrite list_lookup_insert_eq, Ho.
    - by rewrite list_lookup_insert_ne. }
  split; try done.
  - simpl. by rewrite length_insert.
  - intros i o Hi. simpl. destruct (decide (i = c)) as [->|].
    + rewrite list_lookup_insert_eq by done. simplify_eq. eexists. split_and!; [done| |lia].
      simpl. split_and!; [apply cc_step_refl|done|by right].
    + rewrite list_lookup_insert_ne by done. exists o. split_and!; auto using node_step_refl.
  - auto.
  - intros i a d Ha He (b & Hb & Hd). rewrite Hcc in Hb. congruence.
  - intros i a ks k Ha He (b & Hb & Hd). rewrite Hcc in Hb. congruence.
  - simpl. intros a. destruct (tc_timer t); [|done]. by intros [_ ?]%list_elem_of_filter.
  - simpl. eexists. split; [done|].
    intros ev [->|[->|[]%elem_of_nil]%elem_of_cons]%elem_of_cons; simpl; lia.
  - intros i a t' Ha He (b & Hb & Hd). rewrite Hcc in Hb. congruence.
Qed.

Lemma timerCtx_cancel_spec e rec fuel c removeFromParent w t :
  rec_ok e rec c (length (heap w)) → sane w → unlocked_from c w →
  heap w !! c = Some (timerCtxObj t) →
  ∃ w', timerCtx_cancel rec fuel c removeFromParent (Some e) w
        = ((if removeFromParent
            then removeChild fuel (cc_Context (tc_cancelCtx t)) c else ret tt) ;;
           timer_tail c) w' ∧
        fanout e c w w' ∧ dead w' c ∧
        heap w' !! c = Some (match cc_err (tc_cancelCtx t) with
                             | None => with_cancelCtx (kill_cc e) (timerCtxObj t)
                             | Some _ => timerCtxObj t
                             end) ∧
        match cc_err (tc_cancelCtx t) with
        | Some _ =>
            heap w' = heap w ∧ closed w' = closed w ∧ timers w' = timers w ∧
            nchan w' = nchan w ∧ trace w' = trace w ++ [EvLock c; EvUnlock c]
        | None =>
            ∃ t, trace w' = trace w ++ EvLock c :: t ++ [EvUnlock c] ∧
                 ∀ ev, ev ∈ t → c < ev_ptr ev
        end.
Proof.
  intros Hrec Sw U Ho. set (o := timerCtxObj t) in *. set (a := tc_cancelCtx t).
  assert (Ha : cancelCtx_of o = Some a) by done.
  destruct (cancelCtx_cancel_spec e rec fuel c false w o a Hrec Sw U Ho Ha)
    as (w1 & Hrun1 & F1 & Hd1 & Ho1 & Htr1).
  assert (Hrun : cancelCtx_cancel rec fuel c false (Some e) w = Ok (tt, w1))
    by (rewrite Hrun1; by destruct (cc_err a)).
  exists w1. split; [|done].
  unfold timerCtx_cancel. rewrite (bind_run _ _ _ _ _ Hrun).
  assert (∃ a', cctx w1 c = Some a' ∧ cc_Context a' = cc_Context a) as (a' & Ha' & HC).
  { rewrite (cctx_heap _ _ _ Ho1). destruct (cc_err a); eexists; (split; [reflexivity|done]). }
  rewrite (bind_run _ _ _ _ _ (load_cancelCtx_run w1 c a' Ha')). by rewrite HC.
Qed.

Lemma clear_timer_lookup c w o :
  heap w !! c = Some o → heap (clear_timer c w) !! c = Some (with_timer None o).
Proof.
  intros Ho. unfold clear_timer. rewrite Ho. destruct o; try done. simpl.
  apply list_lookup_insert_eq. by eapply lookup_lt_Some.
Qed.

Lemma clear_timer_cctx c w i : cctx (clear_timer c w) i = cctx w i.
Proof.
  unfold clear_timer. destruct (heap w !! c) as [o|] eqn:Ho; [|done].
  destruct o; try done. unfold cctx. simpl. destruct (decide (i = c)) as [->|].
  - rewrite list_lookup_insert_eq by by eapply lookup_lt_Some. by rewrite Ho.
  - by rewrite list_lookup_insert_ne.
Qed.

(** [cancel(false, e)] on a canceler of a well-formed world returns, having
    cancelled with [e] every canceler reached through [children]. *)
Lemma cancel_spec e fuel : ∀ c w o,
  sane w → unlocked_from c w → heap w !! c = Some o → is_Some (cancelCtx_of o) →
  length (heap w) - c < fuel →
  ∃ w', cancel fuel c false (Some e) w = Ok (tt, w') ∧
        fanout e c w w' ∧ dead w' c ∧ heap w' !! c = Some (cancelled e o).
Proof.
  induction fuel as [|fuel IH]; intros c w o Sw U Ho [a Ha] Hfuel; [lia|].
  assert (Hc : c < length (heap w)) by by eapply lookup_lt_Some.
  assert (Hrec : rec_ok e (cancel fuel) c (length (heap w))).
  { intros k w1 Hk S1 U1 [b Hb] Hlen.
    destruct (cctx_inv _ _ _ Hb) as (ok & Hok & Hbk).
    destruct (IH k w1 ok S1 U1 Hok) as (w2 & ? & ? & ? & _); [eauto|lia|eauto]. }
  simpl. rewrite (bind_run _ _ _ _ _ (load_run w c o Ho)).
  unfold cancelled. rewrite Ha.
  destruct o as [| | a0 | t |]; try done.
  - simpl in Ha. simplify_eq.
    destruct (cancelCtx_cancel_spec e (cancel fuel) fuel c false w _ a Hrec Sw U Ho eq_refl)
      as (w' & Hrun & F & Hd & Hfin & _).
    exists w'. split_and!; [by destruct (cc_err a)|done..|]. rewrite Hfin. by destruct (cc_err a).
  - simpl in Ha. simplify_eq.
    destruct (timerCtx_cancel_spec e (cancel fuel) fuel c false w t Hrec Sw U Ho)
      as (w1 & Hrun & F & Hd & Hfin & _).
    assert (∃ t', heap w1 !! c = Some (timerCtxObj t') ∧ cc_mu (tc_cancelCtx t') = false)
      as (t' & Ht' & Hmu).
    { assert (cc_mu (tc_cancelCtx t) = false)
        by (eapply U; [done|by rewrite (cctx_heap _ _ _ Ho)]).
      rewrite Hfin. destruct (cc_err (tc_cancelCtx t)); eexists; (split; [reflexivity|done]). }
    exists (clear_timer c w1). split_and!.
    + rewrite Hrun, bind_ret. by apply (timer_tail_run c w1 t').
    + eapply fanout_trans; [done|apply fanout_clear_timer].
    + destruct Hd as (b & Hb & Hne). exists b. by rewrite clear_timer_cctx.
    + by apply clear_timer_lookup.
Qed.

Lemma skel_refl w : skel w w.
Proof. intros i o Ho. eauto. Qed.

Lemma skel_trans w1 w2 w3 : skel w1 w2 → skel w2 w3 → skel w1 w3.
Proof.
  intros H1 H2 i o Ho. destruct (H1 i o Ho) as (o2 & Ho2 & E2).
  destruct (H2 i o2 Ho2) as (o3 & Ho3 & E3). exists o3. split; [done|congruence].
Qed.

Lemma shape_with_cancelCtx f o :
  (∀ a, cc_Context (f a) = cc_Context a) → shape (with_cancelCtx f o) = shape o.
Proof. intros Hf. destruct o; simpl; try done; by rewrite Hf. Qed.

Lemma shape_with_timer tm o : shape (with_timer tm o) = shape o.
Proof. by destruct o. Qed.

Lemma shape_node_step e o o' : node_step e o o' → shape o' = shape o.
Proof.
  destruct o, o'; simpl; intros H; simplify_eq/=; try done.
  - by destruct H as [-> | [_ ->]].
  - destruct H as ([-> | [_ ->]] & -> & _); done.
Qed.

Lemma skel_fanout e c w w' : fanout e c w w' → skel w w'.
Proof.
  intros F i o Ho. destruct (fo_node _ _ _ _ F i o Ho) as (o' & ? & Hs & _).
  exists o'. split; [done|]. by eapply shape_node_step.
Qed.

Lemma skel_insert w w' c o o' :
  heap w !! c = Some o → heap w' = <[c := o']> (heap w) → shape o' = shape o → skel w w'.
Proof.
  intros Ho Hh Hs i x Hx. rewrite Hh. destruct (decide (i = c)) as [->|].
  - rewrite list_lookup_insert_eq by by eapply lookup_lt_Some. simplify_eq. eauto.
  - rewrite list_lookup_insert_ne by done. eauto.
Qed.

Lemma skel_app w w' o : heap w' = heap w ++ [o] → skel w w'.
Proof.
  intros Hh i x Hx. rewrite Hh. exists x. split; [|done]. by apply lookup_app_l_Some.
Qed.

Lemma skel_same w w' : heap w' = heap w → skel w w'.
Proof. intros Hh i x Hx. rewrite Hh. eauto. Qed.

Lemma base_total w : sane w → ∀ fuel c, c < length (heap w) → c < fuel →
  ∃ b o, base fuel c w = Some b ∧ b ≤ c ∧ heap w !! b = Some o ∧
         (∀ p k v, o ≠ valueCtx p k v).
Proof.
  intros Sw. induction fuel as [|fuel IH]; intros c Hc Hf; [lia|].
  destruct (lookup_lt_is_Some_2 _ _ Hc) as [o Ho]. simpl. rewrite Ho.
  destruct o as [|p k v|a|t|x].
  2:{ pose proof (sane_parent _ Sw c _ p Ho eq_refl).
      destruct (IH p) as (b & o & ? & ? & ? & ?); [lia..|].
      exists b, o. split_and!; [done|lia|done..]. }
  all: eexists _, _; split_and!; [done|lia|done|done].
Qed.

Lemma base_skel w w' fuel : skel w w' → ∀ c b, base fuel c w = Some b → base fuel c w' = Some b.
Proof.
  intros Hs. induction fuel as [|fuel IH]; intros c b; [done|]. simpl.
  destruct (heap w !! c) as [o|] eqn:Ho; [|done].
  destruct (Hs c o Ho) as (o' & -> & E).
  destruct o, o'; simpl in E; simplify_eq; auto.
Qed.

Lemma base_mono w fuel : ∀ c b fuel', base fuel c w = Some b → fuel ≤ fuel' → base fuel' c w = Some b.
Proof.
  induction fuel as [|fuel IH]; intros c b fuel' Hb Hf; [done|].
  destruct fuel' as [|fuel']; [lia|]. simpl in *.
  destruct (heap w !! c) as [[]|]; try done. apply IH; [done|lia].
Qed.

Lemma Deadline_skel w w' fuel : skel w w' →
  ∀ c r, Deadline fuel c w = Ok r → Deadline fuel c w' = Ok r.
Proof.
  intros Hs. induction fuel as [|fuel IH]; intros c r; [done|]. simpl.
  destruct (heap w !! c) as [o|] eqn:Ho; [|done].
  destruct (Hs c o Ho) as (o' & -> & E).
  destruct o, o'; simpl in E; simplify_eq; rw_shape; auto.
Qed.

Lemma value_skel w w' fuel key : skel w w' →
  ∀ c r, value fuel c key w = Ok r → value fuel c key w' = Ok r.
Proof.
  intros Hs. induction fuel as [|fuel IH]; intros c r; [done|]. simpl.
  destruct (heap w !! c) as [o|] eqn:Ho; [|done].
  destruct (Hs c o Ho) as (o' & -> & E).
  destruct o, o'; simpl in E; simplify_eq; rw_shape; auto.
  - destruct (iface_eq key _) as [[]| | |]; simpl; auto.
  - destruct (iface_eq key cancelCtxKey_addr) as [[]| | |]; simpl; auto.
  - destruct (iface_eq key cancelCtxKey_addr) as [[]| | |]; simpl; auto.
Qed.

Lemma Value_skel w w' fuel key c r : skel w w' →
  Value fuel c key w = Ok r → Value fuel c key w' = Ok r.
Proof.
  intros Hs. unfold Value.
  destruct (heap w !! c) as [o|] eqn:Ho; [|done].
  destruct (Hs c o Ho) as (o' & -> & E).
  destruct o, o'; simpl in E; simplify_eq; rw_shape; auto.
  - destruct (iface_eq _ key) as [[]| | |]; simpl; auto. by apply value_skel.
  - destruct (iface_eq key cancelCtxKey_addr) as [[]| | |]; simpl; auto.
    by apply value_skel.
  - destruct (iface_eq key cancelCtxKey_addr) as [[]| | |]; simpl; auto.
    by apply value_skel.
Qed.

(** ** [Done] and [Err] *)

Lemma cancelCtx_Done_run w b o a :
  heap w !! b = Some o → cancelCtx_of o = Some a → cc_mu a = false →
  cancelCtx_Done b w = Ok (Some (default (nchan w) (cc_done a)), materialize b w).
Proof.
  intros Ho Ha Hmu. unfold cancelCtx_Done, materialize. rewrite Ho, Ha.
  rewrite (bind_run _ _ w a w) by (apply load_cancelCtx_run; by rewrite (cctx_heap _ _ _ Ho)).
  destruct (cc_done a) as [d|] eqn:Hd; [done|].
  assert (Hb : b < length (heap w)) by by eapply lookup_lt_Some.
  rewrite (bind_run _ _ _ _ _ (Lock_run w b o a Ho Ha Hmu)).
  set (o1 := with_cancelCtx (set_mu true) o).
  set (w1 := logged (EvLock b) (put b o1 w)).
  assert (Ho1 : heap w1 !! b = Some o1) by by apply list_lookup_insert_eq.
  assert (Ha1 : cancelCtx_of o1 = Some (set_mu true a)) by by apply cancelCtx_of_with.
  rewrite (bind_run _ _ w1 (set_mu true a) w1)
    by (apply load_cancelCtx_run; by rewrite (cctx_heap _ _ _ Ho1)).
  change (cc_done (set_mu true a)) with (cc_done a). rewrite Hd.
  rewrite bind_assoc.
  rewrite (bind_run make_chan _ w1 (nchan w1) (set_nchan (S (nchan w1)) w1)) by done.
  set (w2 := set_nchan (S (nchan w1)) w1).
  assert (Ho2 : heap w2 !! b = Some o1) by done.
  rewrite bind_assoc.
  rewrite (bind_run _ _ _ _ _ (modify_cancelCtx_run w2 b _ o1 Ho2)).
  set (o3 := with_cancelCtx (set_done (Some (nchan w1))) o1).
  set (w3 := put b o3 w2).
  assert (Ho3 : heap w3 !! b = Some o3).
  { apply list_lookup_insert_eq. simpl. by rewrite length_insert. }
  assert (Ha3 : cancelCtx_of o3 = Some (set_done (Some (nchan w1)) (set_mu true a)))
    by by apply cancelCtx_of_with.
  rewrite bind_ret.
  rewrite (bind_run _ _ _ _ _ (Unlock_run w3 b o3 _ Ho3 Ha3 eq_refl)).
  unfold ret. do 2 f_equal. unfold logged, put, set_trace, set_heap; simpl.
  f_equal.
  - rewrite !list_insert_insert_eq. f_equal. unfold o3, o1.
    rewrite !with_cancelCtx_compose. eapply with_cancelCtx_ext; [done|].
    unfold set_mu, set_done, compose; simpl. by rewrite Hmu.
  - by rewrite <- app_assoc.
Qed.

Lemma Done_base fuel : ∀ c w b, base fuel c w = Some b → Done fuel c w = Done 1 b w.
Proof.
  induction fuel as [|fuel IH]; intros c w b; [done|]. simpl.
  unfold bind at 1, load at 1. destruct (heap w !! c) as [o|] eqn:Ho; [|done].
  destruct o; try (intros [= <-]; unfold bind, load; by rewrite Ho).
  intros Hb. rewrite (IH _ _ _ Hb). done.
Qed.

Lemma Err_base fuel : ∀ c w b, base fuel c w = Some b → Err fuel c w = Err 1 b w.
Proof.
  induction fuel as [|fuel IH]; intros c w b; [done|]. simpl.
  unfold bind at 1, load at 1. destruct (heap w !! c) as [o|] eqn:Ho; [|done].
  destruct o; try (intros [= <-]; unfold bind, load; by rewrite Ho).
  intros Hb. rewrite (IH _ _ _ Hb). done.
Qed.

Lemma materialize_cctx w b i :
  cctx (materialize b w) i =
  match cctx w i with
  | Some a => Some (if decide (i = b) then set_done (Some (default (nchan w) (cc_done a))) a else a)
  | None => None
  end.
Proof.
  unfold materialize.
  destruct (heap w !! b) as [o|] eqn:Ho.
  2:{ destruct (cctx w i) eqn:Hi; [|done]. destruct (decide (i = b)) as [->|]; [|done].
      unfold cctx in Hi. by rewrite Ho in Hi. }
  destruct (cancelCtx_of o) as [a|] eqn:Ha.
  2:{ destruct (cctx w i) eqn:Hi; [|done]. destruct (decide (i = b)) as [->|]; [|done].
      unfold cctx in Hi. rewrite Ho in Hi. congruence. }
  destruct (cc_done a) as [d|] eqn:Hd.
  - destruct (cctx w i) eqn:Hi; [|done]. destruct (decide (i = b)) as [->|]; [|done].
    unfold cctx in Hi. rewrite Ho in Hi. simplify_eq. rewrite Hd. simpl.
    f_equal. destruct a; simpl in *; by subst.
  - unfold cctx at 1. simpl. destruct (decide (i = b)) as [->|].
    + rewrite list_lookup_insert_eq by by eapply lookup_lt_Some.
      rewrite (cctx_heap _ _ _ Ho), Ha, (cancelCtx_of_with _ _ _ Ha), Hd. done.
    + rewrite list_lookup_insert_ne by done. fold (cctx w i). by destruct (cctx w i).
Qed.

Lemma materialize_proj w b :
  closed (materialize b w) = closed w ∧ timers (materialize b w) = timers w ∧
  ntimer (materialize b w) = ntimer w ∧ now (materialize b w) = now w ∧
  goroutines (materialize b w) = goroutines w ∧ spawned (materialize b w) = spawned w ∧
  length (heap (materialize b w)) = length (heap w) ∧
  nchan w ≤ nchan (materialize b w) ∧
  (∃ t, trace (materialize b w) = trace w ++ t ∧ ∀ ev, ev ∈ t → ev_ptr ev = b).
Proof.
  unfold materialize.
  assert (∃ t, trace w = trace w ++ t ∧ ∀ ev, ev ∈ t → ev_ptr ev = b).
  { exists []. rewrite app_nil_r. split; [done|]. by intros ev ?%elem_of_nil. }
  destruct (heap w !! b) as [o|]; [|by split_and!].
  destruct (cancelCtx_of o) as [a|]; [|by split_and!].
  destruct (cc_done a); [by split_and!|]. simpl. rewrite length_insert.
  split_and!; try done; [lia|]. eexists. split; [done|].
  intros ev [->|[->|[]%elem_of_nil]%elem_of_cons]%elem_of_cons; done.
Qed.

Lemma skel_materialize w b : skel w (materialize b w).
Proof.
  unfold materialize. destruct (heap w !! b) as [o|] eqn:Ho; [|apply skel_refl].
  destruct (cancelCtx_of o) as [a|]; [|apply skel_refl].
  destruct (cc_done a); [apply skel_refl|].
  eapply skel_insert; [done..|]. by apply shape_with_cancelCtx.
Qed.

Lemma sane_materialize w b : sane w → sane (materialize b w).
Proof.
  intros Sw. unfold materialize. destruct (heap w !! b) as [o|] eqn:Ho; [|done].
  destruct (cancelCtx_of o) as [a|] eqn:Ha; [|done].
  destruct (cc_done a) as [d|] eqn:Hd; [done|].
  assert (Hca : cctx w b = Some a) by by rewrite (cctx_heap _ _ _ Ho).
  eapply (sane_update w _ b o a _ (set_done (Some (nchan w)) a)); simpl; try done.
  - by apply cancelCtx_of_with.
  - intros ks k Hks Hk. by eapply (sane_children _ Sw b a).
  - intros _ d [= <-] Hin. pose proof (sane_closed _ Sw _ Hin). lia.
  - intros He. destruct (sane_dead _ Sw b a Hca He) as (d & ? & _). congruence.
  - intros d [= <-]. lia.
  - intros j a' d Hj Ha' [= <-] Hd'. pose proof (sane_fresh _ Sw j a' _ Ha' Hd'). lia.
  - intros j a' d Hj Ha' He' Hd'. by eapply (sane_live _ Sw).
  - lia.
  - intros d Hin. pose proof (sane_closed _ Sw _ Hin). lia.
Qed.

Lemma unlocked_materialize w b k : unlocked_from k w → unlocked_from k (materialize b w).
Proof.
  intros U i a Hi. rewrite materialize_cctx. destruct (cctx w i) as [a'|] eqn:Ha'; [|done].
  intros [= <-]. pose proof (U i a' Hi Ha'). by destruct (decide (i = b)).
Qed.

Lemma base_not_value fuel : ∀ c w b, base fuel c w = Some b →
  ∃ o, heap w !! b = Some o ∧ ∀ p k v, o ≠ valueCtx p k v.
Proof.
  induction fuel as [|fuel IH]; intros c w b; [done|]. simpl.
  destruct (heap w !! c) as [o|] eqn:Ho; [|done].
  destruct o; try (intros [= <-]; eexists; split; [done|done]).
  apply IH.
Qed.

Lemma base_le w : sane w → ∀ fuel c b, base fuel c w = Some b → b ≤ c.
Proof.
  intros Sw. induction fuel as [|fuel IH]; intros c b; [done|]. simpl.
  destruct (heap w !! c) as [o|] eqn:Ho; [|done].
  destruct o; try (intros [= <-]; lia).
  intros Hb. pose proof (sane_parent _ Sw c _ _ Ho eq_refl). specialize (IH _ _ Hb). lia.
Qed.

Lemma materialize_other w b o :
  heap w !! b = Some o → cancelCtx_of o = None → materialize b w = w.
Proof. intros Ho Ha. unfold materialize. by rewrite Ho, Ha. Qed.

Lemma Done_run fuel c w b :
  quiescent w → base fuel c w = Some b →
  Done fuel c w = Ok (done_of (materialize b w) b, materialize b w).
Proof.
  intros Q Hb. rewrite (Done_base _ _ _ _ Hb).
  destruct (base_not_value _ _ _ _ Hb) as (o & Ho & Hnv).
  simpl. rewrite (bind_run _ _ _ _ _ (load_run w b o Ho)).
  assert (Hcan : ∀ a, cancelCtx_of o = Some a →
            cancelCtx_Done b w = Ok (done_of (materialize b w) b, materialize b w)).
  { intros a Ha. assert (Hmu : cc_mu a = false).
    { apply (Q b a); [lia|]. by rewrite (cctx_heap _ _ _ Ho). }
    rewrite (cancelCtx_Done_run w b o a Ho Ha Hmu). do 2 f_equal.
    pose proof (materialize_cctx w b b) as Hm. rewrite (cctx_heap _ _ _ Ho), Ha in Hm.
    rewrite decide_True in Hm by done. unfold cctx in Hm. unfold done_of.
    destruct (heap (materialize b w) !! b) as [[]|]; simpl in Hm; simplify_eq;
      [reflexivity | by rewrite Hm]. }
  destruct o as [|p k v|a|t|x].
  - rewrite (materialize_other w b _ Ho eq_refl). unfold done_of. by rewrite Ho.
  - by destruct (Hnv p k v).
  - by apply (Hcan a).
  - by apply (Hcan (tc_cancelCtx t)).
  - rewrite (materialize_other w b _ Ho eq_refl). unfold done_of. by rewrite Ho.
Qed.

Lemma Lock_Unlock_run w b o a :
  heap w !! b = Some o → cancelCtx_of o = Some a → cc_mu a = false →
  (Lock b ;; x <- load_cancelCtx b ;; Unlock b ;; ret (cc_err x)) w
  = Ok (cc_err a, set_trace (trace w ++ [EvLock b; EvUnlock b]) w).
Proof.
  intros Ho Ha Hmu.
  assert (Hb : b < length (heap w)) by by eapply lookup_lt_Some.
  rewrite (bind_run _ _ _ _ _ (Lock_run w b o a Ho Ha Hmu)).
  set (o1 := with_cancelCtx (set_mu true) o).
  set (w1 := logged (EvLock b) (put b o1 w)).
  assert (Ho1 : heap w1 !! b = Some o1) by by apply list_lookup_insert_eq.
  assert (Ha1 : cancelCtx_of o1 = Some (set_mu true a)) by by apply cancelCtx_of_with.
  rewrite (bind_run _ _ w1 (set_mu true a) w1)
    by (apply load_cancelCtx_run; by rewrite (cctx_heap _ _ _ Ho1)).
  rewrite (bind_run _ _ _ _ _ (Unlock_run w1 b o1 _ Ho1 Ha1 eq_refl)).
  unfold ret. do 2 f_equal. unfold logged, put, set_trace, set_heap; simpl. f_equal.
  - rewrite list_insert_insert_eq. apply list_insert_id. rewrite Ho. f_equal. symmetry.
    unfold o1. rewrite with_cancelCtx_compose. eapply with_cancelCtx_id; [done|].
    destruct a; simpl in *; by subst.
  - by rewrite <- app_assoc.
Qed.

Lemma Err_run fuel c w b :
  quiescent w → base fuel c w = Some b →
  Err fuel c w = Ok (err_of w b, observed b w).
Proof.
  intros Q Hb. rewrite (Err_base _ _ _ _ Hb).
  destruct (base_not_value _ _ _ _ Hb) as (o & Ho & Hnv).
  simpl. rewrite (bind_run _ _ _ _ _ (load_run w b o Ho)).
  unfold observed, err_of. rewrite (cctx_heap _ _ _ Ho), Ho.
  assert (Hcan : ∀ a, cancelCtx_of o = Some a →
            cancelCtx_Err b w = Ok (cc_err a, set_trace (trace w ++ [EvLock b; EvUnlock b]) w)).
  { intros a Ha. apply (Lock_Unlock_run w b o a Ho Ha).
    apply (Q b a); [lia|]. by rewrite (cctx_heap _ _ _ Ho). }
  destruct o as [|p k v|a|t|x]; simpl; try done.
  - by destruct (Hnv p k v).
  - by apply Hcan.
  - by apply Hcan.
Qed.

Lemma value_key w : sane w → ∀ fuel c b fuel',
  base fuel c w = Some b → fuel ≤ fuel' →
  value fuel' c cancelCtxKey_addr w = Ok (key_answer w b).
Proof.
  intros Sw. induction fuel as [|fuel IH]; intros c b fuel' Hb Hf; [done|].
  destruct fuel' as [|fuel']; [lia|]. simpl in *. unfold key_answer.
  destruct (heap w !! c) as [o|] eqn:Ho; [|done].
  destruct o as [|p k v|a|t|x]; try (injection Hb as <-; by rewrite Ho).
  destruct (sane_key _ Sw c p k v Ho) as (Hcmp & _ & Hk).
  rewrite bool_decide_eq_false_2 by done.
  apply (IH p b fuel'); [done|lia].
Qed.

Lemma Value_key w fuel c b :
  sane w → base fuel c w = Some b →
  Value fuel c cancelCtxKey_addr w = Ok (key_answer w b).
Proof.
  intros Sw Hb. destruct fuel as [|fuel]; [done|]. simpl in Hb. unfold Value, key_answer.
  destruct (heap w !! c) as [o|] eqn:Ho; [|done].
  destruct o as [|p k v|a|t|x]; try (injection Hb as <-; by rewrite Ho).
  destruct (sane_key _ Sw c p k v Ho) as (Hcmp & _ & Hk).
  assert (iface_eq k cancelCtxKey_addr = Ok false) as ->.
  { destruct k; simpl in *; try done. }
  unfold res_bind. apply (value_key w Sw fuel p b); [done|lia].
Qed.

(** ** Critical sections on one canceler *)

Lemma critical_cctx p f w i :
  cctx (critical p f w) i = if decide (i = p) then f <$> cctx w p else cctx w i.
Proof.
  unfold critical. destruct (heap w !! p) as [o|] eqn:Ho.
  - unfold cctx at 1. simpl. destruct (decide (i = p)) as [->|].
    + rewrite list_lookup_insert_eq by by eapply lookup_lt_Some.
      rewrite (cctx_heap _ _ _ Ho). destruct o; done.
    + by rewrite list_lookup_insert_ne.
  - destruct (decide (i = p)) as [->|]; [|done]. unfold cctx. by rewrite Ho.
Qed.

Lemma critical_length p f w : length (heap (critical p f w)) = length (heap w).
Proof. unfold critical. destruct (heap w !! p); [|done]. simpl. by rewrite length_insert. Qed.

Lemma critical_proj p f w :
  closed (critical p f w) = closed w ∧ nchan (critical p f w) = nchan w ∧
  timers (critical p f w) = timers w ∧ ntimer (critical p f w) = ntimer w ∧
  now (critical p f w) = now w ∧ goroutines (critical p f w) = goroutines w ∧
  spawned (critical p f w) = spawned w.
Proof. unfold critical. by destruct (heap w !! p). Qed.

Lemma skel_critical p f w :
  (∀ a, cc_Context (f a) = cc_Context a) → skel w (critical p f w).
Proof.
  intros Hf. unfold critical. destruct (heap w !! p) as [o|] eqn:Ho; [|apply skel_refl].
  eapply skel_insert; [done..|]. by apply shape_with_cancelCtx.
Qed.

Lemma unlocked_critical p f w k :
  (∀ a, cc_mu (f a) = cc_mu a) → unlocked_from k w → unlocked_from k (critical p f w).
Proof.
  intros Hf U i a Hi. rewrite critical_cctx. destruct (decide (i = p)) as [->|]; [|by apply U].
  destruct (cctx w p) as [a'|] eqn:Ha'; [|done]. simpl. intros [= <-]. rewrite Hf. by eapply U.
Qed.

(** A critical section that only changes [children], to younger cancelers,
    and only on a live canceler unless it shrinks the set, keeps the world
    well formed. *)
Lemma sane_critical p f w :
  sane w →
  (∀ a, cc_Context (f a) = cc_Context a ∧ cc_done (f a) = cc_done a ∧ cc_err (f a) = cc_err a) →
  (∀ a ks k, cctx w p = Some a → cc_children (f a) = Some ks → k ∈ ks →
     p < k ∧ is_Some (cctx w k)) →
  sane (critical p f w).
Proof.
  intros Sw Hf Hks. unfold critical. destruct (heap w !! p) as [o|] eqn:Ho; [|done].
  destruct (cancelCtx_of o) as [a|] eqn:Ha.
  2:{ assert (with_cancelCtx f o = o) as -> by (by destruct o).
      destruct Sw. split; simpl; rewrite ?list_insert_id by done; try done.
      all: unfold cctx in *; simpl; rewrite ?list_insert_id by done; done. }
  assert (Hca : cctx w p = Some a) by by rewrite (cctx_heap _ _ _ Ho).
  destruct (Hf a) as (HC & HD & HE).
  eapply (sane_update w _ p o a _ (f a)); simpl; try done.
  - by apply cancelCtx_of_with.
  - intros ks k. by apply Hks.
  - rewrite HE, HD. intros. by eapply (sane_live _ Sw).
  - rewrite HE, HD. intros. by eapply (sane_dead _ Sw).
  - rewrite HD. intros. by eapply (sane_fresh _ Sw).
  - rewrite HD. intros j a' d Hj Ha' Hd Hd'.
    destruct (sane_inj _ Sw p j a a' d Hca Ha' Hd Hd'); [by subst|done].
  - intros. by eapply (sane_live _ Sw).
  - apply Sw.
Qed.

Lemma critical_run p f (k : M unit) w o a :
  heap w !! p = Some o → cancelCtx_of o = Some a → cc_mu a = false →
  (∀ b, cc_mu (f b) = cc_mu b) →
  (∀ w1 o1, heap w1 !! p = Some o1 → cancelCtx_of o1 = Some (set_mu true a) →
     k w1 = Unlock p (set_heap (<[p := with_cancelCtx f o1]> (heap w1)) w1)) →
  (∀ b, f (set_mu true b) = set_mu true (f b)) →
  (Lock p ;; k) w = Ok (tt, critical p f w).
Proof.
  intros Ho Ha Hmu Hfmu Hbody Hcomm.
  assert (Hp : p < length (heap w)) by by eapply lookup_lt_Some.
  rewrite (bind_run _ _ _ _ _ (Lock_run w p o a Ho Ha Hmu)).
  set (o1 := with_cancelCtx (set_mu true) o).
  set (w1 := logged (EvLock p) (put p o1 w)).
  assert (Ho1 : heap w1 !! p = Some o1) by by apply list_lookup_insert_eq.
  assert (Ha1 : cancelCtx_of o1 = Some (set_mu true a)) by by apply cancelCtx_of_with.
  rewrite (Hbody w1 o1 Ho1 Ha1).
  set (o2 := with_cancelCtx f o1). set (w2 := set_heap (<[p:=o2]> (heap w1)) w1).
  assert (Ho2 : heap w2 !! p = Some o2).
  { apply list_lookup_insert_eq. simpl. by rewrite length_insert. }
  assert (Ha2 : cancelCtx_of o2 = Some (f (set_mu true a))) by by apply cancelCtx_of_with.
  rewrite (Unlock_run w2 p o2 _ Ho2 Ha2) by (by rewrite Hfmu).
  do 2 f_equal. unfold critical. rewrite Ho.
  unfold logged, put, set_trace, set_heap; simpl. f_equal.
  - rewrite !list_insert_insert_eq. f_equal. unfold o2, o1.
    rewrite !with_cancelCtx_compose. eapply with_cancelCtx_ext; [done|].
    unfold compose. rewrite Hcomm. pose proof (Hfmu a) as Hm. rewrite Hmu in Hm.
    destruct (f a); simpl in *; by subst.
  - by rewrite <- app_assoc.
Qed.

Lemma set_heap_id w p o : heap w !! p = Some o → set_heap (<[p := o]> (heap w)) w = w.
Proof. intros H. unfold set_heap. rewrite list_insert_id by done. by destruct w. Qed.

(** ** [parentCancelCtx] and [removeChild] *)

Lemma parent_result_Some w b p :
  sane w → parent_result w b = Some p →
  p ≤ b ∧ ∃ pc d, cctx w p = Some pc ∧ cc_done pc = Some d ∧ d ≠ closedchan ∧
                  done_of w b = Some d.
Proof.
  intros Sw. unfold parent_result.
  destruct (bool_decide (done_of w b = Some closedchan)) eqn:H1; [done|].
  destruct (bool_decide (done_of w b = None)) eqn:H2; [done|]. simpl.
  apply bool_decide_eq_false in H1, H2.
  destruct (done_of w b) as [d|] eqn:Hd; [|done].
  assert (d ≠ closedchan) by congruence.
  unfold key_answer. destruct (heap w !! b) as [o|] eqn:Ho; [|done].
  assert (Hgo : ∀ q, q ≤ b →
    match cctx w q with
    | Some pc => if bool_decide (cc_done pc = Some d) then Some q else None
    | None => None
    end = Some p →
    p ≤ b ∧ ∃ pc d0, cctx w p = Some pc ∧ cc_done pc = Some d0 ∧ d0 ≠ closedchan ∧ Some d = Some d0).
  { intros q Hq. destruct (cctx w q) as [pc|] eqn:Hpc; [|done].
    case_bool_decide; [|done]. intros [= <-]. split; [done|]. by exists pc, d. }
  destruct o as [| | | |x]; try done; try (by apply Hgo).
  destruct (x_Value x cancelCtxKey_addr) as [| | | | |q| |] eqn:Hx; try done.
  destruct (sane_custom _ Sw b x q Ho Hx) as [? _]. apply Hgo. lia.
Qed.

Lemma parent_result_canceler w b a :
  cctx w b = Some a →
  parent_result w b =
  match cc_done a with
  | Some d => if bool_decide (d = closedchan) then None else Some b
  | None => None
  end.
Proof.
  intros Ha. destruct (cctx_inv _ _ _ Ha) as (o & Ho & Hoa).
  unfold parent_result, key_answer, done_of. rewrite Ho.
  destruct o as [| |a'|t|]; simpl in Hoa; simplify_eq; rewrite Ha.
  - destruct (cc_done a) as [d|]; [|done]. repeat case_bool_decide; simplify_eq; done.
  - destruct (cc_done (tc_cancelCtx t)) as [d|]; [|done].
    repeat case_bool_decide; simplify_eq; done.
Qed.

Lemma parentCancelCtx_run fuel c w b :
  sane w → quiescent w → base fuel c w = Some b →
  parentCancelCtx fuel c w
  = Ok (parent_result (materialize b w) b, materialize b w).
Proof.
  intros Sw Q Hb. unfold parentCancelCtx.
  rewrite (bind_run _ _ _ _ _ (Done_run fuel c w b Q Hb)).
  set (w1 := materialize b w). unfold parent_result.
  destruct (bool_decide (done_of w1 b = Some closedchan) || bool_decide (done_of w1 b = None));
    [done|].
  assert (S1 : sane w1) by by apply sane_materialize.
  assert (Hb1 : base fuel c w1 = Some b) by (eapply base_skel; [apply skel_materialize|done]).
  unfold read at 1. rewrite (bind_run _ _ w1 (key_answer w1 b) w1)
    by (by rewrite (Value_key w1 fuel c b S1 Hb1)).
  destruct (key_answer w1 b) as [| | | | |p| |] eqn:Hk; try done.
  assert (is_Some (cctx w1 p)) as [pc Hpc].
  { unfold key_answer in Hk. destruct (heap w1 !! b) as [o|] eqn:Ho; [|done].
    destruct o as [| |a|t|x]; simplify_eq.
    - rewrite (cctx_heap _ _ _ Ho). eauto.
    - rewrite (cctx_heap _ _ _ Ho). eauto.
    - by destruct (sane_custom _ S1 b x p Ho Hk). }
  rewrite Hpc. rewrite (bind_run _ _ _ _ _ (load_cancelCtx_run w1 p pc Hpc)).
  by destruct (bool_decide (cc_done pc = done_of w1 b)).
Qed.

Lemma removeChild_run fuel c child w b :
  sane w → quiescent w → base fuel c w = Some b →
  removeChild fuel c child w
  = Ok (tt, unregister child (parent_result (materialize b w) b) (materialize b w)).
Proof.
  intros Sw Q Hb. unfold removeChild.
  rewrite (bind_run _ _ _ _ _ (parentCancelCtx_run fuel c w b Sw Q Hb)).
  set (w1 := materialize b w).
  destruct (parent_result w1 b) as [p|] eqn:Hp; [|done]. simpl.
  assert (S1 : sane w1) by by apply sane_materialize.
  destruct (parent_result_Some w1 b p S1 Hp) as (_ & pc & d & Hpc & _).
  destruct (cctx_inv _ _ _ Hpc) as (o & Ho & Ha).
  apply (critical_run p (unreg_cc child) _ w1 o pc Ho Ha).
  - apply (unlocked_materialize w b 0 Q p pc); [lia|done].
  - intros a. unfold unreg_cc. by destruct (cc_children a).
  - intros w2 o2 Ho2 Ha2.
    rewrite (bind_run _ _ w2 (set_mu true pc) w2)
      by (apply load_cancelCtx_run; by rewrite (cctx_heap _ _ _ Ho2)).
    change (cc_children (set_mu true pc)) with (cc_children pc).
    destruct (cc_children pc) as [ks|] eqn:Hks.
    + rewrite (bind_run _ _ _ _ _ (modify_cancelCtx_run w2 p _ o2 Ho2)).
      f_equal. unfold put. do 2 f_equal.
      eapply with_cancelCtx_ext; [done|]. unfold unreg_cc. simpl. by rewrite Hks.
    + rewrite bind_ret. f_equal. symmetry. apply set_heap_id. rewrite Ho2. f_equal.
      symmetry. eapply with_cancelCtx_id; [done|]. unfold unreg_cc. simpl. by rewrite Hks.
  - intros a. unfold unreg_cc. simpl. by destruct (cc_children a).
Qed.

Lemma sane_unregister child r w :
  sane w → sane (unregister child r w).
Proof.
  intros Sw. destruct r as [p|]; [|done]. simpl. apply sane_critical; [done| |].
  - intros a. unfold unreg_cc. destruct (cc_children a); simpl; done.
  - intros a ks k Ha. unfold unreg_cc. destruct (cc_children a) as [ks0|] eqn:Hks; simpl.
    + intros [= <-] [_ ?]%list_elem_of_filter. by eapply (sane_children _ Sw p a).
    + by rewrite Hks.
Qed.

Lemma unlocked_unregister child r w k :
  unlocked_from k w → unlocked_from k (unregister child r w).
Proof.
  intros U. destruct r as [p|]; [|done]. simpl. apply unlocked_critical; [|done].
  intros a. unfold unreg_cc. destruct (cc_children a); simpl; done.
Qed.

Lemma skel_unregister child r w : skel w (unregister child r w).
Proof.
  destruct r as [p|]; [|apply skel_refl]. simpl. apply skel_critical.
  intros a. unfold unreg_cc. destruct (cc_children a); simpl; done.
Qed.

(** ** [cancel] called from outside a fan-out *)
Lemma materialize_lookup_ne w b i : i ≠ b → heap (materialize b w) !! i = heap w !! i.
Proof.
  intros Hi. unfold materialize. destruct (heap w !! b) as [o|]; [|done].
  destruct (cancelCtx_of o) as [a|]; [|done]. destruct (cc_done a); [done|].
  simpl. by apply list_lookup_insert_ne.
Qed.

Lemma critical_lookup_ne p f w i : i ≠ p → heap (critical p f w) !! i = heap w !! i.
Proof.
  intros Hi. unfold critical. destruct (heap w !! p) as [o|]; [|done].
  simpl. by apply list_lookup_insert_ne.
Qed.

Lemma removeChild_detach fuel parent c w :
  sane w → quiescent w → is_Some (base fuel parent w) →
  removeChild fuel parent c w = Ok (tt, detach fuel parent c w).
Proof.
  intros Sw Q [b Hb]. unfold detach. rewrite Hb. by apply removeChild_run.
Qed.

Lemma sane_detach fuel parent c w : sane w → sane (detach fuel parent c w).
Proof.
  intros Sw. unfold detach. destruct (base fuel parent w); [|done].
  by apply sane_unregister, sane_materialize.
Qed.

Lemma unlocked_detach fuel parent c w k :
  unlocked_from k w → unlocked_from k (detach fuel parent c w).
Proof.
  intros U. unfold detach. destruct (base fuel parent w); [|done].
  by apply unlocked_unregister, unlocked_materialize.
Qed.

Lemma skel_detach fuel parent c w : skel w (detach fuel parent c w).
Proof.
  unfold detach. destruct (base fuel parent w); [|apply skel_refl].
  eapply skel_trans; [apply skel_materialize|apply skel_unregister].
Qed.

Lemma detach_lookup_gt fuel parent c w i :
  sane w → parent < i → heap (detach fuel parent c w) !! i = heap w !! i.
Proof.
  intros Sw Hi. unfold detach. destruct (base fuel parent w) as [b|] eqn:Hb; [|done].
  pose proof (base_le w Sw _ _ _ Hb).
  destruct (parent_result (materialize b w) b) as [p|] eqn:Hp; simpl.
  - destruct (parent_result_Some _ b p (sane_materialize w b Sw) Hp) as [? _].
    rewrite critical_lookup_ne by lia. apply materialize_lookup_ne. lia.
  - apply materialize_lookup_ne. lia.
Qed.

Lemma detached_refl c w : detached c w w.
Proof.
  unfold detached. split_and!; try done.
  - exists []. by rewrite app_nil_r.
  - intros i a Ha. exists a. split_and!; auto.
Qed.

Lemma detached_detach fuel parent c w : detached c w (detach fuel parent c w).
Proof.
  unfold detach. destruct (base fuel parent w) as [b|] eqn:Hb; [|apply detached_refl].
  set (w1 := materialize b w).
  destruct (materialize_proj w b) as (Hcl & Htm & Hnt & Hnow & Hg & Hsp & Hlen & Hn & t1 & Htr & _).
  fold w1 in Hcl, Htm, Hnt, Hnow, Hg, Hsp, Hlen, Hn, Htr.
  assert (Hcc1 : ∀ i a, cctx w i = Some a →
    ∃ a1, cctx w1 i = Some a1 ∧ cc_Context a1 = cc_Context a ∧ cc_mu a1 = cc_mu a ∧
          cc_err a1 = cc_err a ∧ cc_children a1 = cc_children a ∧
          (cc_done a1 = cc_done a ∨ (cc_done a = None ∧ cc_done a1 = Some (nchan w)))).
  { intros i a Ha. unfold w1. rewrite materialize_cctx, Ha.
    destruct (decide (i = b)) as [->|]; eexists; (split; [done|]); simpl.
    - split_and!; try done. destruct (cc_done a); simpl; auto.
    - split_and!; auto. }
  destruct (parent_result w1 b) as [p|]; simpl.
  - destruct (critical_proj p (unreg_cc c) w1) as (Hcl2 & Hn2 & Htm2 & Hnt2 & Hnow2 & Hg2 & Hsp2).
    unfold detached. rewrite critical_length, Hcl2, Hn2, Htm2, Hnt2, Hnow2, Hg2, Hsp2.
    split_and!; try done; try (by rewrite Htm).
    + unfold critical. destruct (heap w1 !! p); [|eauto]. simpl. rewrite Htr.
      rewrite <- app_assoc. eauto.
    + intros i a Ha. destruct (Hcc1 i a Ha) as (a1 & Ha1 & HC & HM & HE & HK & HD).
      rewrite critical_cctx. destruct (decide (i = p)) as [->|].
      * rewrite Ha1. simpl. eexists. split; [done|]. unfold unreg_cc.
        destruct (cc_children a1) as [ks|] eqn:Hks; simpl.
        -- split_and!; try done. right. exists ks. split; [congruence|done].
        -- split_and!; try done. left. congruence.
      * exists a1. split_and!; auto.
  - unfold detached. split_and!; try done; try (by rewrite Htm); try (by eauto).
    intros i a Ha. destruct (Hcc1 i a Ha) as (a1 & Ha1 & HC & HM & HE & HK & HD).
    exists a1. split_and!; auto.
Qed.

Lemma detached_clear_timer c k w w' :
  detached c w w' → detached c w (clear_timer k w').
Proof.
  intros H.
  unfold clear_timer. destruct (heap w' !! k) as [o|] eqn:Ho; [|done].
  destruct o as [| | |x|]; try done.
  destruct H as (Hlen & Hcl & Htm & Hnt & Hnow & Hg & Hsp & Hn & (t & Htr) & Hcc).
  set (w2 := mkWorld _ _ _ _ _ _ _ _ _).
  assert (Hcc2 : ∀ i, cctx w2 i = cctx w' i).
  { intros i. pose proof (clear_timer_cctx k w' i) as H. unfold clear_timer in H.
    by rewrite Ho in H. }
  unfold detached. split_and!; try done.
  - simpl. by rewrite length_insert.
  - simpl. intros y Hy. apply Htm. destruct (tc_timer x); [|done].
    by apply list_elem_of_filter in Hy as [_ ?].
  - simpl. rewrite Htr, <- app_assoc. eauto.
  - intros i a Ha. rewrite Hcc2. by apply Hcc.
Qed.

Lemma rec_ok_cancel e fuel c n : n - c ≤ fuel → 0 < fuel → rec_ok e (cancel fuel) c n.
Proof.
  intros Hf H0 k w1 Hk S1 U1 [b Hb] Hlen.
  destruct (cctx_inv _ _ _ Hb) as (ok & Hok & Hbk).
  destruct (cancel_spec e fuel k w1 ok S1 U1 Hok) as (w2 & ? & ? & ? & _); [eauto|lia|eauto].
Qed.

Lemma cancel_top e fuel c r w o a :
  sane w → quiescent w → heap w !! c = Some o → cancelCtx_of o = Some a →
  length (heap w) ≤ fuel →
  ∃ w1, cancel (S fuel) c r (Some e) w = Ok (tt, finish fuel c r o w1) ∧
        fanout e c w w1 ∧ dead w1 c ∧
        heap w1 !! c = Some (match cc_err a with
                             | None => with_cancelCtx (kill_cc e) o
                             | Some _ => o
                             end) ∧
        match cc_err a with
        | Some _ =>
            heap w1 = heap w ∧ closed w1 = closed w ∧ timers w1 = timers w ∧
            nchan w1 = nchan w ∧ trace w1 = trace w ++ [EvLock c; EvUnlock c]
        | None =>
            ∃ t, trace w1 = trace w ++ EvLock c :: t ++ [EvUnlock c] ∧
                 ∀ ev, ev ∈ t → c < ev_ptr ev
        end.
Proof.
  intros Sw Q Ho Ha Hfuel.
  assert (Hc : c < length (heap w)) by by eapply lookup_lt_Some.
  assert (U : unlocked_from c w) by (intros i x _; by apply Q; lia).
  assert (Hrec : rec_ok e (cancel fuel) c (length (heap w))) by (apply rec_ok_cancel; lia).
  assert (HC : cc_Context a < c).
  { apply (sane_parent _ Sw c o); [done|]. by apply parent_of_canceler. }
  assert (Hdet : ∀ w1, fanout e c w w1 →
    removeChild fuel (cc_Context a) c w1 = Ok (tt, detach fuel (cc_Context a) c w1)).
  { intros w1 F. apply removeChild_detach.
    - by eapply sane_fanout.
    - by eapply fanout_unlocked.
    - destruct (base_total w1 (sane_fanout _ _ _ _ Sw F) fuel (cc_Context a))
        as (b & _ & -> & _); [|lia|eauto]. rewrite (fo_length _ _ _ _ F). lia. }
  cbn [cancel]. rewrite (bind_run _ _ _ _ _ (load_run w c o Ho)).
  destruct o as [| | a0 | t |]; try done; simpl in Ha; simplify_eq.
  - destruct (cancelCtx_cancel_spec e (cancel fuel) fuel c r w _ a Hrec Sw U Ho eq_refl)
      as (w1 & Hrun & F & Hd & Hfin & Htr).
    exists w1. split; [|done]. rewrite Hrun. simpl.
    destruct (cc_err a); [by rewrite andb_false_r|]. rewrite bool_decide_eq_true_2 by done.
    destruct r; [|done]. simpl. by apply Hdet.
  - destruct (timerCtx_cancel_spec e (cancel fuel) fuel c r w t Hrec Sw U Ho)
      as (w1 & Hrun & F & Hd & Hfin & Htr).
    exists w1. split; [|done]. rewrite Hrun. simpl.
    assert (∃ t', heap w1 !! c = Some (timerCtxObj t') ∧ cc_mu (tc_cancelCtx t') = false)
      as (t' & Ht' & Hmu).
    { assert (cc_mu (tc_cancelCtx t) = false)
        by (eapply U; [done|by rewrite (cctx_heap _ _ _ Ho)]).
      rewrite Hfin. destruct (cc_err (tc_cancelCtx t)); eexists; (split; [reflexivity|done]). }
    destruct r.
    + rewrite (bind_run _ _ _ _ _ (Hdet w1 F)).
      apply (timer_tail_run c _ t'); [|done].
      rewrite detach_lookup_gt; [done|by eapply sane_fanout|done].
    + rewrite bind_ret. by apply (timer_tail_run c w1 t').
Qed.

Lemma sane_clear_timer c w : sane w → sane (clear_timer c w).
Proof.
  intros Sw. eapply (sane_fanout Canceled c); [done|apply fanout_clear_timer].
Qed.

Lemma unlocked_clear_timer c w k : unlocked_from k w → unlocked_from k (clear_timer c w).
Proof.
  intros U i a Hi. rewrite clear_timer_cctx. by apply U.
Qed.

Lemma sane_finish fuel c r o w : sane w → sane (finish fuel c r o w).
Proof.
  intros Sw. unfold finish. destruct o; try done.
  - destruct (r && _); [by apply sane_detach|done].
  - apply sane_clear_timer. destruct r; [by apply sane_detach|done].
Qed.

Lemma unlocked_finish fuel c r o w k :
  unlocked_from k w → unlocked_from k (finish fuel c r o w).
Proof.
  intros U. unfold finish. destruct o; try done.
  - destruct (r && _); [by apply unlocked_detach|done].
  - apply unlocked_clear_timer. destruct r; [by apply unlocked_detach|done].
Qed.

Lemma detached_finish fuel c r o w : detached c w (finish fuel c r o w).
Proof.
  unfold finish. destruct o; try apply detached_refl.
  - destruct (r && _); [apply detached_detach|apply detached_refl].
  - apply detached_clear_timer. destruct r; [apply detached_detach|apply detached_refl].
Qed.

(** ** [propagateCancel] *)

Lemma materialize_done w b i a :
  cctx (materialize b w) i = Some a → i = b → is_Some (cc_done a).
Proof.
  rewrite materialize_cctx. destruct (cctx w i) as [a'|]; [|done].
  intros [= <-] ->. rewrite decide_True by done. simpl. eauto.
Qed.

Lemma materialize_idem w b : materialize b (materialize b w) = materialize b w.
Proof.
  unfold materialize at 1. destruct (heap (materialize b w) !! b) as [o|] eqn:Ho; [|done].
  destruct (cancelCtx_of o) as [a|] eqn:Ha; [|done].
  assert (Hc : cctx (materialize b w) b = Some a) by by rewrite (cctx_heap _ _ _ Ho).
  destruct (materialize_done w b b a Hc eq_refl) as [d ->]. done.
Qed.

Lemma sane_live_iff w i a d :
  sane w → cctx w i = Some a → cc_done a = Some d → d ∉ closed w → cc_err a = None.
Proof.
  intros Sw Ha Hd Hcl. destruct (cc_err a) as [e|] eqn:He; [|done].
  destruct (sane_dead _ Sw i a Ha) as (d' & Hd' & Hin); [congruence|]. congruence.
Qed.

Lemma propagateCancel_spec fuel parent child w b o :
  sane w → quiescent w → base fuel parent w = Some b →
  heap w !! child = Some o → is_Some (cancelCtx_of o) → parent < child →
  length (heap w) ≤ fuel →
  match done_of (materialize b w) b with
  | None => propagateCancel fuel parent child w = Ok (tt, materialize b w)
  | Some d =>
      if bool_decide (d ∈ closed w) then
        match err_of (materialize b w) b with
        | Some e =>
            ∃ w3, propagateCancel fuel parent child w = Ok (tt, w3) ∧
                  fanout e child (observed b (materialize b w)) w3 ∧ dead w3 child ∧
                  heap w3 !! child = Some (cancelled e o)
        | None =>
            propagateCancel fuel parent child w
            = Panic "context: internal error: missing cancel error"
        end
      else
        match parent_result (materialize b w) b with
        | Some p =>
            propagateCancel fuel parent child w
            = Ok (tt, critical p (reg_cc child) (materialize b w))
        | None =>
            propagateCancel fuel parent child w
            = Ok (tt, spawn parent child (materialize b w))
        end
  end.
Proof.
  intros Sw Q Hb Ho Hcan Hpc Hfuel.
  set (w1 := materialize b w).
  assert (S1 : sane w1) by by apply sane_materialize.
  assert (Q1 : quiescent w1) by by apply unlocked_materialize.
  assert (Hb1 : base fuel parent w1 = Some b) by (eapply base_skel; [apply skel_materialize|done]).
  assert (Hcl1 : closed w1 = closed w) by apply materialize_proj.
  assert (Hbp : b ≤ parent) by by eapply base_le.
  assert (Ho1 : heap w1 !! child = Some o) by (unfold w1; rewrite materialize_lookup_ne by lia; done).
  assert (Hlen1 : length (heap w1) = length (heap w)) by apply materialize_proj.
  assert (Hchild : child < length (heap w)) by by eapply lookup_lt_Some.
  unfold propagateCancel.
  rewrite (bind_run _ _ _ _ _ (Done_run fuel parent w b Q Hb)). fold w1.
  destruct (done_of w1 b) as [d|] eqn:Hd; [|done].
  rewrite (bind_run _ _ w1 (is_closed d w1) w1) by done.
  unfold is_closed. rewrite Hcl1.
  destruct (bool_decide (d ∈ closed w)) eqn:Hcl.
  - rewrite (bind_run _ _ _ _ _ (Err_run fuel parent w1 b Q1 Hb1)).
    set (w2 := observed b w1).
    assert (Hh2 : heap w2 = heap w1) by (unfold w2, observed; by destruct (cctx w1 b)).
    destruct (err_of w1 b) as [e|] eqn:He.
    + destruct (cancel_spec e fuel child w2 o) as (w3 & Hrun & F & Hdc & Hfin); try done.
      * eapply (sane_fanout e 0 w1); [done|].
        unfold w2, observed. destruct (cctx w1 b); [|apply fanout_refl].
        eapply (fanout_quiet _ _ _ _ [EvLock b; EvUnlock b]); try done. intros; lia.
      * intros i a Hi Ha. apply (Q1 i a); [lia|]. unfold cctx in *. by rewrite <- Hh2.
      * by rewrite Hh2.
      * rewrite Hh2, Hlen1. lia.
      * eauto.
    + destruct fuel as [|fuel]; [lia|]. cbn [cancel].
      rewrite (bind_run _ _ _ _ _ (load_run w2 child o (eq_trans (f_equal (.!! child) Hh2) Ho1))).
      destruct Hcan as [a Ha]. destruct o; try done.
  - unfold propagateCancel_link.
    rewrite (bind_run _ _ _ _ _ (parentCancelCtx_run fuel parent w1 b S1 Q1 Hb1)).
    assert (Hidem : materialize b w1 = w1) by apply materialize_idem.
    rewrite !Hidem.
    destruct (parent_result w1 b) as [p|] eqn:Hp; [|reflexivity].
    destruct (parent_result_Some w1 b p S1 Hp) as (Hpb & pc & d' & Hpcc & Hpd & _ & Hdd).
    assert (d' = d) as -> by congruence.
    assert (Hlive : cc_err pc = None).
    { eapply (sane_live_iff w1 p pc d); [done..|]. rewrite Hcl1.
      by apply bool_decide_eq_false in Hcl. }
    destruct (cctx_inv _ _ _ Hpcc) as (op & Hop & Hopa).
    apply (critical_run p (reg_cc child) _ w1 op pc Hop Hopa).
    + by apply (Q1 p pc); [lia|].
    + done.
    + intros w2 o2 Ho2 Ha2.
      rewrite (bind_run _ _ w2 (set_mu true pc) w2)
        by (apply load_cancelCtx_run; by rewrite (cctx_heap _ _ _ Ho2)).
      change (cc_err (set_mu true pc)) with (cc_err pc). rewrite Hlive.
      rewrite (bind_run _ _ _ _ _ (modify_cancelCtx_run w2 p _ o2 Ho2)).
      f_equal. unfold put. do 2 f_equal. by eapply with_cancelCtx_ext.
    + done.
Qed.

(** ** Value lookup, as the design document words it *)

Lemma iface_eq_key k : iface_eq k cancelCtxKey_addr = Ok (bool_decide (k = cancelCtxKey_addr)).
Proof. by destruct k. Qed.

Lemma iface_eq_reflexive k :
  iface_eq k k = Ok true →
  ∀ k', iface_eq k' k = Ok (bool_decide (k' = k)) ∧ iface_eq k k' = Ok (bool_decide (k = k')).
Proof.
  induction k as [| | | | | | |x IH]; intros Hr k'; destruct k'; simpl in *; try done.
  destruct (IH Hr k') as [H1 H2]. rewrite H1, H2. split; f_equal; apply bool_decide_ext.
  - split; [by intros ->|by intros [= ->]].
  - split; [by intros ->|by intros [= ->]].
Qed.

Lemma value_binds w k v : sane w → iface_eq k k = Ok true → k ≠ cancelCtxKey_addr →
  ∀ c, binds w c k v → ∀ fuel, c < fuel → value fuel c k w = Ok v.
Proof.
  intros Sw Hr Hk c Hb. induction Hb as [c p k v Ho|c p k0 v0 k v Ho Hne Hb IH|c a k v Ho Hb IH|c t k v Ho Hb IH];
    intros fuel Hf; (destruct fuel as [|fuel]; [lia|]); simpl; rewrite Ho.
  - by rewrite Hr.
  - rewrite (proj2 (iface_eq_reflexive k Hr k0)). simpl. rewrite bool_decide_eq_false_2 by done.
    apply IH; [done|done|]. pose proof (sane_parent _ Sw c _ p Ho eq_refl). lia.
  - rewrite iface_eq_key. simpl.
    rewrite bool_decide_eq_false_2 by done.
    apply IH; [done|done|]. pose proof (sane_parent _ Sw c _ _ Ho eq_refl). lia.
  - rewrite iface_eq_key. simpl.
    rewrite bool_decide_eq_false_2 by done.
    apply IH; [done|done|]. pose proof (sane_parent _ Sw c _ _ Ho eq_refl). lia.
Qed.

Lemma value_unbound w k : sane w → iface_eq k k = Ok true → k ≠ cancelCtxKey_addr →
  ∀ c, unbound w c k → ∀ fuel, c < fuel → value fuel c k w = Ok nil_any.
Proof.
  intros Sw Hr Hk c Hb. induction Hb as [c k Ho|c p k0 v0 k Ho Hne Hb IH|c a k Ho Hb IH|c t k Ho Hb IH];
    intros fuel Hf; (destruct fuel as [|fuel]; [lia|]); simpl; rewrite Ho.
  - done.
  - rewrite (proj2 (iface_eq_reflexive k Hr k0)). simpl. rewrite bool_decide_eq_false_2 by done.
    apply IH; [done|done|]. pose proof (sane_parent _ Sw c _ p Ho eq_refl). lia.
  - rewrite iface_eq_key. simpl.
    rewrite bool_decide_eq_false_2 by done.
    apply IH; [done|done|]. pose proof (sane_parent _ Sw c _ _ Ho eq_refl). lia.
  - rewrite iface_eq_key. simpl.
    rewrite bool_decide_eq_false_2 by done.
    apply IH; [done|done|]. pose proof (sane_parent _ Sw c _ _ Ho eq_refl). lia.
Qed.

Lemma WithValue_twice s k v1 v2 w :
  k ≠ nil_any → Comparable k = true →
  let c1 := length (heap w) in
  let w1 := grown (valueCtx s k v1) w in
  let w2 := grown (valueCtx c1 k v2) w1 in
  WithValue (Some s) k v1 w = Ok (c1, w1) ∧
  WithValue (Some c1) k v2 w1 = Ok (S c1, w2) ∧
  heap w2 !! S c1 = Some (valueCtx c1 k v2) ∧
  heap w2 !! c1 = Some (valueCtx s k v1).
Proof.
  intros Hn Hc. unfold WithValue.
  rewrite bool_decide_eq_false_2 by done. rewrite Hc. simpl. split_and!.
  - done.
  - unfold alloc, grown. simpl. by rewrite length_app, Nat.add_1_r.
  - rewrite lookup_app_r by (rewrite length_app; simpl; lia).
    rewrite length_app. simpl. by replace (_ - _) with 0 by lia.
  - rewrite lookup_app_l by (rewrite length_app; simpl; lia).
    rewrite lookup_app_r by lia. by rewrite Nat.sub_diag.
Qed.

(** C7, amended.  For a key that is equal to itself, the inner of two
    bindings of the key shadows the outer; a lookup of another key on a
    [valueCtx] is the lookup on its parent, which answers with the nearest
    ancestor's binding, or nil when there is none.  A key that is not equal
    to itself is bound and never found: the lookup goes on at the parent of
    both bindings; and when the comparison of the key with itself panics,
    so does the lookup. *)
Theorem value_shadowing_and_fallthrough :
  (∀ fuel s k v1 v2 w, k ≠ nil_any → Comparable k = true →
     ∃ c1 w1 c2 w2,
       WithValue (Some s) k v1 w = Ok (c1, w1) ∧
       WithValue (Some c1) k v2 w1 = Ok (c2, w2) ∧
       (iface_eq k k = Ok true → Value fuel c2 k w2 = Ok v2) ∧
       (iface_eq k k = Ok false → Value (S fuel) c2 k w2 = value fuel s k w2) ∧
       (∀ msg, iface_eq k k = Panic msg → Value fuel c2 k w2 = Panic msg)) ∧
  (∀ fuel c p k v k' w, heap w !! c = Some (valueCtx p k v) →
     iface_eq k k = Ok true ∨ iface_eq k' k' = Ok true →
     k' ≠ k → Value fuel c k' w = value fuel p k' w) ∧
  (∀ fuel c k v w, sane w → iface_eq k k = Ok true → k ≠ cancelCtxKey_addr → c < fuel →
     binds w c k v → value fuel c k w = Ok v) ∧
  (∀ fuel c k w, sane w → iface_eq k k = Ok true → k ≠ cancelCtxKey_addr → c < fuel →
     unbound w c k → value fuel c k w = Ok nil_any).
Proof.
  split_and!.
  - intros fuel s k v1 v2 w Hn Hc.
    destruct (WithValue_twice s k v1 v2 w Hn Hc) as (H1 & H2 & H3 & H4).
    eexists _, _, _, _. split; [exact H1|]. split; [exact H2|]. split_and!.
    + intros Hr. unfold Value. rewrite H3, Hr. done.
    + intros Hr. unfold Value. rewrite H3, Hr. cbn [res_bind value]. by rewrite H4, Hr.
    + intros msg Hr. unfold Value. rewrite H3, Hr. done.
  - intros fuel c p k v k' w Ho Hr Hne. unfold Value. rewrite Ho.
    assert (iface_eq k k' = Ok false) as ->; [|done].
    destruct Hr as [Hr|Hr].
    + rewrite (proj2 (iface_eq_reflexive k Hr k')). by rewrite bool_decide_eq_false_2.
    + rewrite (proj1 (iface_eq_reflexive k' Hr k)). by rewrite bool_decide_eq_false_2.
  - intros. by eapply value_binds.
  - intros. by eapply value_unbound.
Qed.

(** C8.  Misuse at construction time panics. *)
Theorem construction_misuse_panics :
  (∀ fuel w, WithCancel fuel None w = Panic "cannot create context from nil parent") ∧
  (∀ fuel d w, WithDeadline fuel None d w = Panic "cannot create context from nil parent") ∧
  (∀ key val w, WithValue None key val w = Panic "cannot create context from nil parent") ∧
  (∀ parent val w, WithValue (Some parent) nil_any val w = Panic "nil key") ∧
  (∀ parent key val w, key ≠ nil_any → Comparable key = false →
     WithValue (Some parent) key val w = Panic "key is not comparable") ∧
  (∀ rec fuel c r w, is_Some (cctx w c) →
     cancelCtx_cancel rec fuel c r None w
     = Panic "context: internal error: missing cancel error") ∧
  (∀ fuel c r w, is_Some (cctx w c) →
     cancel (S fuel) c r None w = Panic "context: internal error: missing cancel error").
Proof.
  split_and!; try done.
  - intros parent key val w Hn Hc. unfold WithValue.
    rewrite bool_decide_eq_false_2 by done. by rewrite Hc.
  - intros fuel c r w [a Ha]. destruct (cctx_inv _ _ _ Ha) as (o & Ho & Hoa).
    cbn [cancel]. rewrite (bind_run _ _ _ _ _ (load_run w c o Ho)).
    destruct o; done.
Qed.

Lemma construction_misuse_panics_witness :
  WithValue (Some background) (slice_any [1%Z]) nil_any init_world
    = Panic "key is not comparable" ∧
  cancel 1 2 true None
    (set_heap (heap init_world ++ [cancelCtxObj (newCancelCtx background)]) init_world)
    = Panic "context: internal error: missing cancel error".
Proof.
  split.
  - apply (proj1 (proj2 (proj2 (proj2 (proj2 construction_misuse_panics))))); done.
  - apply (proj2 (proj2 (proj2 (proj2 (proj2 (proj2 construction_misuse_panics)))))).
    by eexists.
Defined.

(** ** Consequences of the specification of [cancel] *)
Lemma finish_cctx_ge fuel c r o a w i :
  sane w → cancelCtx_of o = Some a → cc_Context a < c → c ≤ i →
  cctx (finish fuel c r o w) i = cctx w i.
Proof.
  intros Sw Ha HC Hi. unfold finish, cctx.
  destruct o as [| |a0|t|]; simpl in Ha; simplify_eq; try done.
  - destruct (r && _); [|done]. rewrite detach_lookup_gt; [done..|lia].
  - fold (cctx (clear_timer c (if r then detach fuel (cc_Context (tc_cancelCtx t)) c w else w)) i).
    rewrite clear_timer_cctx. unfold cctx. destruct r; [|done].
    rewrite detach_lookup_gt; [done..|lia].
Qed.

Lemma detached_err c w w' i a :
  detached c w w' → cctx w i = Some a → ∃ a', cctx w' i = Some a' ∧ cc_err a' = cc_err a.
Proof.
  intros (_ & _ & _ & _ & _ & _ & _ & _ & _ & H) Ha.
  destruct (H i a Ha) as (a' & ? & _ & _ & ? & _). eauto.
Qed.

Lemma detached_closed c w w' : detached c w w' → closed w' = closed w.
Proof. by intros (_ & ? & _). Qed.

Lemma detached_dead c w w' i : detached c w w' → dead w i → dead w' i.
Proof.
  intros D (a & Ha & He). destruct (detached_err c w w' i a D Ha) as (a' & ? & HE).
  exists a'. split; [done|congruence].
Qed.

Lemma base_canceler fuel c w a : cctx w c = Some a → base (S fuel) c w = Some c.
Proof.
  intros Ha. destruct (cctx_inv _ _ _ Ha) as (o & Ho & Hoa). simpl. rewrite Ho.
  by destruct o.
Qed.

Lemma err_of_cctx w c a : cctx w c = Some a → err_of w c = cc_err a.
Proof.
  intros Ha. destruct (cctx_inv _ _ _ Ha) as (o & Ho & Hoa). unfold err_of. rewrite Ho.
  destruct o; simpl in Hoa; by simplify_eq.
Qed.

Lemma Err_canceler fuel c w a :
  quiescent w → cctx w c = Some a → Err (S fuel) c w = Ok (cc_err a, observed c w).
Proof.
  intros Q Ha. rewrite (Err_run (S fuel) c w c Q (base_canceler fuel c w a Ha)).
  by rewrite (err_of_cctx w c a Ha).
Qed.

(** C1.  Cancelling twice is cancelling once: the first call sets [err] and
    closes [done]; any later call, whatever its flag and error, leaves
    [err], [done] and [children] of the context as they are, closes no
    channel and changes the [err] of no context; [Err] answers the same. *)
Theorem cancel_idempotent e1 e2 r1 r2 fuel c w :
  sane w → quiescent w → is_Some (cctx w c) → length (heap w) < fuel →
  ∃ w1 w2 a,
    cancel fuel c r1 (Some e1) w = Ok (tt, w1) ∧
    cctx w1 c = Some a ∧ cc_err a ≠ None ∧
    (∃ d, cc_done a = Some d ∧ d ∈ closed w1) ∧
    (∀ a0, cctx w c = Some a0 → cc_err a0 = None → cc_err a = Some e1) ∧
    cancel fuel c r2 (Some e2) w1 = Ok (tt, w2) ∧
    cctx w2 c = Some a ∧ closed w2 = closed w1 ∧
    (∀ i x, cctx w1 i = Some x → ∃ y, cctx w2 i = Some y ∧ cc_err y = cc_err x) ∧
    (∃ w3, Err fuel c w1 = Ok (cc_err a, w3)) ∧
    (∃ w3, Err fuel c w2 = Ok (cc_err a, w3)).
Proof.
  intros Sw Q [a0 Ha0] Hfuel. destruct fuel as [|fuel]; [lia|].
  destruct (cctx_inv _ _ _ Ha0) as (o & Ho & Hoa).
  assert (HC : cc_Context a0 < c).
  { apply (sane_parent _ Sw c o); [done|]. by apply parent_of_canceler. }
  destruct (cancel_top e1 fuel c r1 w o a0 Sw Q Ho Hoa) as (w1 & Hrun1 & F1 & Hd1 & Hfin1 & _);
    [lia|].
  set (wA := finish fuel c r1 o w1) in *.
  assert (S1 : sane w1) by by eapply sane_fanout.
  assert (SA : sane wA) by by apply sane_finish.
  assert (QA : quiescent wA) by by eapply unlocked_finish, fanout_unlocked.
  destruct Hd1 as (a & Ha & Hea).
  assert (HaA : cctx wA c = Some a).
  { unfold wA. by rewrite (finish_cctx_ge fuel c r1 o a0 w1 c S1 Hoa HC). }
  assert (HCa : cc_Context a = cc_Context a0).
  { destruct (fanout_cctx F1 c a0 Ha0) as (b & Hb & Hs & _). simplify_eq.
    by eapply cc_step_Context. }
  destruct (cctx_inv _ _ _ HaA) as (oA & HoA & HoAa).
  assert (HlenA : length (heap wA) ≤ fuel).
  { destruct (detached_finish fuel c r1 o w1) as (Hl & _). fold wA in Hl.
    rewrite Hl, (fo_length _ _ _ _ F1). lia. }
  destruct (cancel_top e2 fuel c r2 wA oA a SA QA HoA HoAa HlenA)
    as (w2 & Hrun2 & F2 & Hd2 & Hfin2 & Hq2).
  set (wB := finish fuel c r2 oA w2) in *.
  destruct (cc_err a) as [ea|] eqn:Hea'; [|done].
  destruct Hq2 as (Hh2 & Hcl2 & _).
  assert (S2 : sane w2) by by eapply sane_fanout.
  assert (Hcc2 : ∀ i, cctx w2 i = cctx wA i) by (intros; unfold cctx; by rewrite Hh2).
  assert (HaB : cctx wB c = Some a).
  { unfold wB. rewrite (finish_cctx_ge fuel c r2 oA a w2 c S2 HoAa); [|lia|lia].
    by rewrite Hcc2. }
  exists wA, wB, a. rewrite Hea'. split_and!; try done.
  - destruct (sane_dead _ SA c a HaA) as (d & ? & ?); [congruence|]. eauto.
  - intros a0' Ha0' He0. simplify_eq.
    destruct (fanout_cctx F1 c a0 Ha0) as (b & Hb & Hs & _).
    assert (b = a) as -> by congruence.
    destruct Hs as [-> | [_ ->]]; [congruence|]. simpl in Hea'. congruence.
  - unfold wB. rewrite (detached_closed c w2 _ (detached_finish fuel c r2 oA w2)). done.
  - intros i x Hx. rewrite <- Hcc2 in Hx.
    apply (detached_err c w2 wB i x (detached_finish fuel c r2 oA w2) Hx).
  - eexists. rewrite (Err_canceler fuel c wA a QA HaA). by rewrite Hea'.
  - eexists. rewrite (Err_canceler fuel c wB a); [by rewrite Hea'| |done].
    by eapply unlocked_finish, fanout_unlocked.
Qed.

Lemma fanout_killed e c w w' i a :
  fanout e c w w' → cctx w i = Some a → cc_err a = None → dead w' i →
  cctx w' i = Some (kill_cc e a).
Proof.
  intros F Ha He (b & Hb & Hne).
  destruct (fanout_cctx F i a Ha) as (b' & Hb' & [-> | [_ ->]] & _); [congruence|done].
Qed.

Lemma cancel_reaches e r fuel c w o a :
  sane w → quiescent w → heap w !! c = Some o → cancelCtx_of o = Some a →
  length (heap w) < fuel →
  ∃ w1 w', cancel fuel c r (Some e) w = Ok (tt, w') ∧ fanout e c w w1 ∧ dead w1 c ∧
           sane w' ∧ quiescent w' ∧ detached c w1 w' ∧
           ∀ i x, cctx w i = Some x → cc_err x = None → dead w1 i →
             cctx w' i = Some (kill_cc e x) ∧ default closedchan (cc_done x) ∈ closed w'.
Proof.
  intros Sw Q Ho Ha Hfuel. destruct fuel as [|fuel]; [lia|].
  destruct (cancel_top e fuel c r w o a Sw Q Ho Ha) as (w1 & Hrun & F & Hd & _); [lia|].
  assert (S1 : sane w1) by by eapply sane_fanout.
  assert (D : detached c w1 (finish fuel c r o w1)) by apply detached_finish.
  exists w1, (finish fuel c r o w1). split_and!; try done.
  - by apply sane_finish.
  - by eapply unlocked_finish, fanout_unlocked.
  - intros i x Hx Hex Hdi.
    pose proof (fanout_killed e c w w1 i x F Hx Hex Hdi) as Hk.
    destruct D as (_ & Hcl & _ & _ & _ & _ & _ & _ & _ & Hcc).
    destruct (Hcc i _ Hk) as (a' & Ha' & HC & HM & HE & HD & HK).
    assert (a' = kill_cc e x) as ->.
    { destruct HD as [HD|[HD _]]; [|done]. destruct HK as [HK|(ks & HK & _)]; [|done].
      destruct a'; simpl in *. unfold kill_cc. by subst. }
    split; [done|]. rewrite Hcl.
    destruct (sane_dead _ S1 i _ Hk) as (d & Hd' & Hin); [done|]. simpl in Hd'. by simplify_eq.
Qed.

(** C2.  Cancelling a parent reaches its registered child and grandchild
    before it returns: both carry the parent's error and a closed channel. *)
Theorem cancel_propagates e r fuel p c g w ap ac ks kc :
  sane w → quiescent w → I1 w → I2 w →
  cctx w p = Some ap → cc_children ap = Some ks → c ∈ ks →
  cctx w c = Some ac → cc_children ac = Some kc → g ∈ kc →
  length (heap w) < fuel →
  ∃ w', cancel fuel p r (Some e) w = Ok (tt, w') ∧
    (∃ a, cctx w' p = Some a ∧ cc_err a = Some e) ∧
    (∃ a d, cctx w' c = Some a ∧ cc_err a = Some e ∧ cc_done a = Some d ∧ d ∈ closed w') ∧
    (∃ a d, cctx w' g = Some a ∧ cc_err a = Some e ∧ cc_done a = Some d ∧ d ∈ closed w').
Proof.
  intros Sw Q H1 H2 Hp Hks Hc Hac Hkc Hg Hfuel.
  assert (Hpl : cc_err ap = None).
  { destruct (cc_err ap) eqn:He; [|done]. rewrite (H1 p ap Hp) in Hks; [done|congruence]. }
  assert (Hcl : cc_err ac = None).
  { destruct (H2 p ap ks c Hp Hks Hc) as (b & Hb & ?). congruence. }
  destruct (H2 c ac kc g Hac Hkc Hg) as (ag & Hag & Hgl).
  destruct (cctx_inv _ _ _ Hp) as (o & Ho & Hoa).
  destruct (cancel_reaches e r fuel p w o ap Sw Q Ho Hoa Hfuel)
    as (w1 & w' & Hrun & F & Hdp & S' & Q' & D & Hkill).
  assert (Hdc : dead w1 c) by by eapply (fo_down _ _ _ _ F p ap ks c).
  assert (Hdg : dead w1 g) by by eapply (fo_down _ _ _ _ F c ac kc g).
  exists w'. split_and!; [done|..].
  - destruct (Hkill p ap Hp Hpl Hdp) as (? & _). eauto.
  - destruct (Hkill c ac Hac Hcl Hdc) as (? & ?). by eexists _, _.
  - destruct (Hkill g ag Hag Hgl Hdg) as (? & ?). by eexists _, _.
Qed.

(** ** The lock during the fan-out *)

(** C9, as the code has it.  While a node cancels its registered children it
    holds its own lock: the lock of every child is taken after the node took
    its own and before the node releases it, and in between the node's mutex
    is not touched. *)
Theorem fanout_holds_parent_lock e r fuel c w a ks k :
  sane w → quiescent w → I2 w →
  cctx w c = Some a → cc_err a = None → cc_children a = Some ks → k ∈ ks →
  length (heap w) < fuel →
  ∃ w' t1 t2 t3,
    cancel fuel c r (Some e) w = Ok (tt, w') ∧
    trace w' = trace w ++ EvLock c :: t1 ++ EvLock k :: t2 ++ EvUnlock c :: t3 ∧
    (∀ ev, ev ∈ t1 → ev_ptr ev ≠ c) ∧ (∀ ev, ev ∈ t2 → ev_ptr ev ≠ c).
Proof.
  intros Sw Q H2 Ha He Hks Hk Hfuel. destruct fuel as [|fuel]; [lia|].
  destruct (cctx_inv _ _ _ Ha) as (o & Ho & Hoa).
  destruct (cancel_top e fuel c r w o a Sw Q Ho Hoa) as (w1 & Hrun & F & Hd & _ & Htr); [lia|].
  rewrite He in Htr. destruct Htr as (t & Htr & Hev).
  destruct (H2 c a ks k Ha Hks Hk) as (b & Hb & Hbl).
  destruct (sane_children _ Sw c a ks k Ha Hks Hk) as [Hck _].
  assert (Hdk : dead w1 k) by by eapply (fo_down _ _ _ _ F c a ks k).
  pose proof (fo_locks _ _ _ _ F k b _ Hb Hbl Hdk Htr) as Hin.
  apply elem_of_cons in Hin as [[= ?]|Hin]; [lia|].
  apply elem_of_app in Hin as [Hin|Hin]; [|by apply list_elem_of_singleton in Hin].
  apply list_elem_of_split in Hin as (t1 & t2 & ->).
  destruct (detached_finish fuel c r o w1) as (_ & _ & _ & _ & _ & _ & _ & _ & (t3 & Ht3) & _).
  exists (finish fuel c r o w1), t1, t2, t3. split_and!; [done|..].
  - rewrite Ht3, Htr. repeat (rewrite <- app_assoc || rewrite <- app_comm_cons). done.
  - intros ev Hin. assert (c < ev_ptr ev); [|lia]. apply Hev. apply elem_of_app. by left.
  - intros ev Hin. assert (c < ev_ptr ev); [|lia]. apply Hev. apply elem_of_app. right. by right.
Qed.

(** ** Allocation *)

Lemma alloc_run o w : alloc o w = Ok (length (heap w), grown o w).
Proof. done. Qed.

Lemma grown_lookup o w i :
  heap (grown o w) !! i =
  if decide (i = length (heap w)) then Some o else heap w !! i.
Proof.
  simpl. destruct (decide (i = length (heap w))) as [->|Hi].
  - rewrite lookup_app_r by lia. by replace (_ - _) with 0 by lia.
  - destruct (decide (i < length (heap w))).
    + by rewrite lookup_app_l.
    + rewrite !lookup_ge_None_2; [done|lia|]. rewrite length_app. simpl. lia.
Qed.

Lemma grown_cctx o w i :
  cctx (grown o w) i =
  if decide (i = length (heap w)) then cancelCtx_of o else cctx w i.
Proof. unfold cctx. rewrite grown_lookup. by destruct (decide _). Qed.

Lemma grown_length o w : length (heap (grown o w)) = S (length (heap w)).
Proof. simpl. rewrite length_app. simpl. lia. Qed.

Lemma skel_grown o w : skel w (grown o w).
Proof. by apply (skel_app w _ o). Qed.

Lemma new_object_cctx w o a :
  new_object w o → cancelCtx_of o = Some a →
  a = newCancelCtx (cc_Context a) ∧ cc_Context a < length (heap w).
Proof.
  destruct o as [| |a0|t|]; simpl; intros Hn Ha; simplify_eq; try done.
  - by destruct Hn.
  - destruct Hn as (? & ? & _). done.
Qed.

Lemma sane_grown o w : sane w → new_object w o → sane (grown o w).
Proof.
  intros Sw Hn.
  assert (Hold : ∀ i x, cctx w i = Some x → i < length (heap w)) by (intros; by eapply cctx_lt).
  split.
  - intros i x p. rewrite grown_lookup. destruct (decide _) as [->|]; [|apply Sw].
    intros [= <-]. destruct o as [|p0 k0 v0|a0|t|]; simpl in *; intros; simplify_eq; try done.
    + by destruct Hn.
    + by destruct Hn.
    + by destruct Hn.
  - intros i p k v. rewrite grown_lookup. destruct (decide _) as [->|]; [|apply Sw].
    intros [= ->]. simpl in Hn. by destruct Hn as (_ & ? & ? & ?).
  - intros i x p. rewrite grown_lookup. destruct (decide _) as [->|].
    + intros [= ->]. done.
    + intros Hx Hv. destruct (sane_custom _ Sw i x p Hx Hv) as [? [a Ha]]. split; [done|].
      rewrite grown_cctx. rewrite decide_False; [eauto|]. pose proof (Hold _ _ Ha). lia.
  - intros i a ks k. rewrite grown_cctx. destruct (decide _) as [->|].
    + intros Ha. destruct (new_object_cctx w o a Hn Ha) as [-> _]. done.
    + intros Ha Hks Hk. destruct (sane_children _ Sw i a ks k Ha Hks Hk) as [? [x Hx]].
      split; [done|]. rewrite grown_cctx. rewrite decide_False; [eauto|].
      pose proof (Hold _ _ Hx). lia.
  - intros i a d. rewrite grown_cctx. destruct (decide _) as [->|]; [|apply Sw].
    intros Ha. destruct (new_object_cctx w o a Hn Ha) as [-> _]. done.
  - intros i a. rewrite grown_cctx. destruct (decide _) as [->|]; [|apply Sw].
    intros Ha. destruct (new_object_cctx w o a Hn Ha) as [-> _]. done.
  - intros i a d. rewrite grown_cctx. destruct (decide _) as [->|]; [|apply Sw].
    intros Ha. destruct (new_object_cctx w o a Hn Ha) as [-> _]. done.
  - intros i j a b d. rewrite !grown_cctx.
    destruct (decide (i = _)) as [->|], (decide (j = _)) as [->|]; auto.
    + intros Ha. destruct (new_object_cctx w o a Hn Ha) as [-> _]. done.
    + intros _ Hb. destruct (new_object_cctx w o b Hn Hb) as [-> _]. done.
    + apply Sw.
  - apply Sw.
  - apply Sw.
Qed.

Lemma unlocked_grown o w k :
  new_object w o → unlocked_from k w → unlocked_from k (grown o w).
Proof.
  intros Hn U i a Hi. rewrite grown_cctx. destruct (decide _) as [->|]; [|by apply U].
  intros Ha. by destruct (new_object_cctx w o a Hn Ha) as [-> _].
Qed.

Lemma sane_same w w' :
  heap w' = heap w → closed w' = closed w → nchan w' = nchan w → sane w → sane w'.
Proof.
  intros Hh Hc Hn Sw.
  assert (Hcc : ∀ i, cctx w' i = cctx w i) by (intros; unfold cctx; by rewrite Hh).
  destruct Sw. split; intros *; rewrite ?Hh, ?Hcc, ?Hc, ?Hn; eauto.
Qed.

(** ** Linking a new canceler *)

Lemma link_cc_refl c a : link_cc c a a.
Proof. unfold link_cc. auto 10. Qed.

Lemma native_contract w b a d :
  sane w → cctx w b = Some a → cc_done a = Some d → d ∈ closed w → cc_err a ≠ None.
Proof.
  intros Sw Ha Hd Hin He. by apply (sane_live _ Sw b a d Ha He Hd).
Qed.

Lemma done_of_cctx w b a : cctx w b = Some a → done_of w b = cc_done a.
Proof.
  intros Ha. destruct (cctx_inv _ _ _ Ha) as (o & Ho & Hoa). unfold done_of. rewrite Ho.
  destruct o; simpl in Hoa; by simplify_eq.
Qed.

Lemma done_of_other w b : cctx w b = None → done_of (materialize b w) b = done_of w b.
Proof.
  intros Hb. unfold materialize. unfold cctx in Hb.
  destruct (heap w !! b) as [o|]; [|done]. by rewrite Hb.
Qed.

Lemma err_of_materialize w b i : err_of (materialize b w) i = err_of w i.
Proof.
  unfold materialize. destruct (heap w !! b) as [o|] eqn:Ho; [|done].
  destruct (cancelCtx_of o) as [a|] eqn:Ha; [|done].
  destruct (cc_done a); [done|]. unfold err_of. simpl.
  destruct (decide (i = b)) as [->|].
  - rewrite list_lookup_insert_eq by by eapply lookup_lt_Some. rewrite Ho.
    destruct o; simpl in *; by simplify_eq.
  - by rewrite list_lookup_insert_ne.
Qed.

Lemma materialize_link c w b i a :
  cctx w i = Some a → ∃ a', cctx (materialize b w) i = Some a' ∧ link_cc c a a' ∧
                            cc_children a' = cc_children a.
Proof.
  intros Ha. rewrite materialize_cctx, Ha. eexists. split; [done|].
  destruct (decide (i = b)); [|split; [apply link_cc_refl|done]].
  unfold link_cc. simpl. split_and!; auto. destruct (cc_done a); simpl; auto.
Qed.

Lemma propagateCancel_new fuel parent o w :
  sane w → quiescent w → parent < length (heap w) → S (length (heap w)) ≤ fuel →
  new_object w o → is_Some (cancelCtx_of o) →
  (∀ b x d, base fuel parent w = Some b → heap w !! b = Some (customCtxObj x) →
     x_Done x = Some d → d ∈ closed w → x_Err x ≠ None) →
  ∃ w1, propagateCancel fuel parent (length (heap w)) (grown o w) = Ok (tt, w1) ∧
        sane w1 ∧ quiescent w1 ∧ linked (length (heap w)) (grown o w) w1 ∧
        link_result fuel parent (length (heap w)) o (grown o w) w1 ∧
        (heap w1 !! length (heap w) = Some o ∨
         ∃ e, heap w1 !! length (heap w) = Some (cancelled e o)).
Proof.
  intros Sw Q Hp Hfuel Hn [a Ha] Hcontract.
  set (c := length (heap w)). set (w0 := grown o w).
  assert (S0 : sane w0) by by apply sane_grown.
  assert (Q0 : quiescent w0) by by apply unlocked_grown.
  destruct (base_total w Sw fuel parent Hp) as (b & ob & Hb & Hbp & Hob & Hnv); [lia|].
  assert (Hb0 : base fuel parent w0 = Some b) by (eapply base_skel; [apply skel_grown|done]).
  assert (Ho0 : heap w0 !! c = Some o).
  { unfold w0. rewrite grown_lookup. by rewrite decide_True. }
  assert (Hlen0 : length (heap w0) = S c) by apply grown_length.
  assert (Hbc : b ≠ c) by (unfold c; lia).
  destruct (new_object_cctx w o a Hn Ha) as [Hanew HaC].
  assert (Hpc' : parent < c) by (unfold c; lia).
  assert (Hf0 : length (heap w0) ≤ fuel) by (rewrite Hlen0; unfold c; lia).
  pose proof (propagateCancel_spec fuel parent c w0 b o S0 Q0 Hb0 Ho0 (ex_intro _ a Ha) Hpc' Hf0)
    as Hspec.
  set (w1 := materialize b w0) in *.
  assert (S1 : sane w1) by by apply sane_materialize.
  assert (Q1 : quiescent w1) by by apply unlocked_materialize.
  destruct (materialize_proj w0 b) as (Hcl1 & Htm1 & Hnt1 & Hnow1 & Hg1 & Hsp1 & Hlen1 & Hn1 & _).
  fold w1 in Hcl1, Htm1, Hnt1, Hnow1, Hg1, Hsp1, Hlen1, Hn1.
  assert (Ho1 : heap w1 !! c = Some o) by (unfold w1; by rewrite materialize_lookup_ne).
  assert (L1 : linked c w0 w1).
  { unfold linked. split_and!; try done.
    - apply skel_materialize.
    - by rewrite Htm1.
    - intros d. by rewrite Hcl1.
    - intros i x _ Hx. destruct (materialize_link c w0 b i x Hx) as (x' & ? & ? & _). eauto. }
  destruct (done_of w1 b) as [d|] eqn:Hd.
  2:{ exists w1. split_and!; try done; [|by left]. by eapply link_none. }
  destruct (bool_decide (d ∈ closed w0)) eqn:Hcl.
  - apply bool_decide_eq_true in Hcl.
    assert (Hd0 : done_of w0 b = Some d).
    { destruct (cctx w0 b) as [ab|] eqn:Hab.
      - rewrite (done_of_cctx w0 b ab Hab).
        pose proof (materialize_cctx w0 b b) as Hm. rewrite Hab, decide_True in Hm by done.
        fold w1 in Hm. rewrite (done_of_cctx w1 b _ Hm) in Hd. simpl in Hd.
        destruct (cc_done ab) as [d'|]; [done|]. simpl in Hd. simplify_eq.
        pose proof (sane_closed _ S0 _ Hcl) as Hlt. by apply Nat.lt_irrefl in Hlt.
      - by rewrite <- (done_of_other w0 b Hab). }
    assert (∃ e, err_of w1 b = Some e) as [e He].
    { unfold w1. rewrite err_of_materialize.
      assert (Hob0 : heap w0 !! b = Some ob).
      { unfold w0. rewrite grown_lookup, decide_False by done. done. }
      unfold err_of, done_of in *. rewrite Hob0 in *.
      destruct ob as [|? ? ?|ab|tb|x]; try done.
      - destruct (cc_err ab) eqn:E; [eauto|].
        destruct (native_contract w0 b ab d S0); try done. by rewrite (cctx_heap _ _ _ Hob0).
      - destruct (cc_err (tc_cancelCtx tb)) eqn:E; [eauto|].
        destruct (native_contract w0 b (tc_cancelCtx tb) d S0); try done.
        by rewrite (cctx_heap _ _ _ Hob0).
      - destruct (x_Err x) eqn:E; [eauto|].
        exfalso. by apply (Hcontract b x d Hb Hob Hd0 Hcl). }
    rewrite He in Hspec. destruct Hspec as (w3 & Hrun & F & Hdc & Hfin).
    set (w2 := observed b w1) in *.
    assert (Hh2 : heap w2 = heap w1) by (unfold w2, observed; by destruct (cctx w1 b)).
    assert (F2 : fanout e 0 w1 w2).
    { unfold w2, observed. destruct (cctx w1 b); [|apply fanout_refl].
      eapply (fanout_quiet _ _ _ _ [EvLock b; EvUnlock b]); try done. intros; lia. }
    assert (Hcc2 : ∀ i, cctx w2 i = cctx w1 i) by (intros; unfold cctx; by rewrite Hh2).
    assert (S2 : sane w2) by by eapply sane_fanout.
    assert (Hlow : ∀ i, i ≠ c → cctx w3 i = cctx w1 i).
    { intros i Hi. rewrite <- Hcc2. unfold cctx.
      destruct (heap w2 !! i) as [x|] eqn:Hx.
      - destruct (fo_node _ _ _ _ F i x Hx) as (x' & -> & _ & Hlt). rewrite Hlt; [done|].
        apply lookup_lt_Some in Hx. rewrite Hh2, Hlen1, Hlen0 in Hx. lia.
      - rewrite lookup_ge_None_2; [done|]. apply lookup_ge_None_1 in Hx.
        rewrite (fo_length _ _ _ _ F). done. }
    exists w3. split_and!; try done.
    + by eapply sane_fanout.
    + eapply fanout_unlocked; [done|]. intros i x Hi. rewrite Hcc2. by apply Q1.
    + unfold linked. split_and!.
      * rewrite (fo_length _ _ _ _ F), Hh2. done.
      * eapply skel_trans; [apply skel_materialize|]. eapply skel_trans; [|by eapply skel_fanout].
        by apply skel_same.
      * rewrite (fo_ntimer _ _ _ _ F). unfold w2, observed. by destruct (cctx w1 b).
      * intros x Hx. apply (fo_timers _ _ _ _ F) in Hx. rewrite <- Htm1.
        unfold w2, observed in Hx. by destruct (cctx w1 b).
      * rewrite (fo_now _ _ _ _ F). unfold w2, observed. by destruct (cctx w1 b).
      * assert (Hcl2 : closed w2 = closed w0).
        { unfold w2, observed. by destruct (cctx w1 b). }
        intros x. split.
        -- intros Hx. destruct (fo_closed_new _ _ _ _ F x Hx) as [?|(i & ai & Hai & Hei & Hdi & Hxi)];
             [by rewrite <- Hcl2|].
           destruct (decide (i = c)) as [->|Hic].
           ++ rewrite Hcc2 in Hai. rewrite (cctx_heap _ _ _ Ho1), Ha in Hai. simplify_eq.
              by rewrite Hanew in Hdi.
           ++ destruct Hxi as (bi & Hbi & Hne). rewrite (Hlow i Hic), <- Hcc2 in Hbi. congruence.
        -- intros Hx. apply (fo_closed_old _ _ _ _ F). by rewrite Hcl2.
      * intros i x Hi Hx. rewrite (Hlow i Hi).
        destruct (materialize_link c w0 b i x Hx) as (x' & ? & ? & _). eauto.
    + eapply (link_cancelled _ _ _ _ _ _ b d e); try done.
      * by rewrite <- (err_of_materialize w0 b).
      * intros i x Hi Hx. rewrite (Hlow i Hi).
        destruct (materialize_link c w0 b i x Hx) as (x' & ? & _ & ?). eauto.
    + right. eauto.
  - apply bool_decide_eq_false in Hcl.
    destruct (parent_result w1 b) as [p|] eqn:Hp1.
    + destruct (parent_result_Some w1 b p S1 Hp1) as (Hpb & pc & d' & Hpcc & Hpd & _ & Hdd).
      assert (d' = d) as -> by congruence.
      assert (Hlive : cc_err pc = None).
      { eapply (sane_live_iff w1 p pc d); [done..|]. by rewrite Hcl1. }
      assert (Hpc : p ≠ c) by (unfold c; lia).
      assert (Hp0 : ∃ x, cctx w0 p = Some x ∧ cc_err x = None ∧ cc_children x = cc_children pc).
      { pose proof (materialize_cctx w0 b p) as Hm. fold w1 in Hm. rewrite Hpcc in Hm.
        destruct (cctx w0 p) as [x|]; [|done]. exists x. simplify_eq.
        destruct (decide (p = b)); done. }
      destruct Hp0 as (x0 & Hx0 & Hx0l & Hx0k).
      set (w3 := critical p (reg_cc c) w1).
      destruct (critical_proj p (reg_cc c) w1) as (Hcl3 & Hn3 & Htm3 & Hnt3 & Hnow3 & Hg3 & Hsp3).
      fold w3 in Hcl3, Hn3, Htm3, Hnt3, Hnow3, Hg3, Hsp3.
      exists w3. split_and!; try done.
      * apply sane_critical; [done|done|].
        intros a1 ks k Ha1 Hks Hk. assert (a1 = pc) as -> by congruence.
        simpl in Hks. injection Hks as <-. unfold add_child in Hk.
        assert (Hcase : k ∈ default [] (cc_children pc) ∨ k = c).
        { case_bool_decide; [by left|].
          apply elem_of_app in Hk as [?|Hk]; [by left|]. apply list_elem_of_singleton in Hk. by right. }
        destruct Hcase as [Hk'| ->].
        -- destruct (cc_children pc) as [ks|] eqn:Hks; [|by apply elem_of_nil in Hk'].
           by eapply (sane_children _ S1 p pc ks k).
        -- split; [lia|]. rewrite (cctx_heap _ _ _ Ho1). eauto.
      * by apply unlocked_critical.
      * unfold linked. split_and!.
        -- unfold w3. by rewrite critical_length.
        -- eapply skel_trans; [apply skel_materialize|]. by apply skel_critical.
        -- congruence.
        -- intros x. rewrite Htm3, Htm1. done.
        -- congruence.
        -- intros x. by rewrite Hcl3, Hcl1.
        -- intros i x Hi Hx. unfold w3. rewrite critical_cctx.
           destruct (materialize_link c w0 b i x Hx) as (x' & Hx' & Hl & Hk).
           destruct (decide (i = p)) as [->|]; [|eauto].
           fold w1 in Hx'. rewrite Hx'. simpl. eexists. split; [done|].
           destruct Hl as (? & ? & ? & ? & _). unfold link_cc, reg_cc. simpl.
           split_and!; try done. right. simplify_eq. split; [done|]. by rewrite Hk.
      * eapply (link_registered _ _ _ _ _ _ b d p); try done; [lia|]. eauto.
      * left. unfold w3. by rewrite critical_lookup_ne.
    + exists (spawn parent c w1). split_and!; try done.
      * by apply (sane_same w1).
      * by eapply link_spawned.
      * by left.
Qed.

Lemma shape_cctx o o' a' :
  shape o' = shape o → cancelCtx_of o' = Some a' →
  ∃ a, cancelCtx_of o = Some a ∧ cc_Context a = cc_Context a'.
Proof.
  destruct o, o'; simpl; intros Hs Ha; simplify_eq; eauto.
Qed.

Lemma skel_cctx_inv w w' i a' :
  skel w w' → length (heap w') = length (heap w) → cctx w' i = Some a' →
  ∃ a, cctx w i = Some a ∧ cc_Context a = cc_Context a'.
Proof.
  intros K L Ha'. destruct (cctx_inv _ _ _ Ha') as (o' & Ho' & Hoa).
  assert (is_Some (heap w !! i)) as [o Ho].
  { apply lookup_lt_is_Some. rewrite <- L. by eapply lookup_lt_Some. }
  destruct (K i o Ho) as (o2 & Ho2 & Hs). simplify_eq.
  unfold cctx. rewrite Ho. by eapply shape_cctx.
Qed.

Lemma skel_clear_timer c w : skel w (clear_timer c w).
Proof. eapply (skel_fanout Canceled c), fanout_clear_timer. Qed.

Lemma skel_finish fuel c r o w : skel w (finish fuel c r o w).
Proof.
  unfold finish. destruct o; try apply skel_refl.
  - destruct (r && _); [apply skel_detach|apply skel_refl].
  - eapply skel_trans; [|apply skel_clear_timer].
    destruct r; [apply skel_detach|apply skel_refl].
Qed.

(** [cancel] on a canceler of a sane world at rest: it returns, after a
    fan-out from [c] followed by the removal of [c] from its parent. *)
Lemma cancel_run e r fuel c w :
  sane w → quiescent w → is_Some (cctx w c) → length (heap w) < fuel →
  ∃ w1 w', cancel fuel c r (Some e) w = Ok (tt, w') ∧
           fanout e c w w1 ∧ detached c w1 w' ∧ skel w1 w' ∧ dead w1 c ∧
           sane w1 ∧ sane w' ∧ quiescent w' ∧
           cctx w' c = cctx w1 c ∧
           (dead w c → heap w1 = heap w ∧ closed w1 = closed w).
Proof.
  intros Sw Q [a Ha] Hfuel. destruct fuel as [|fuel]; [lia|].
  destruct (cctx_inv _ _ _ Ha) as (o & Ho & Hoa).
  assert (HC : cc_Context a < c).
  { apply (sane_parent _ Sw c o); [done|]. by apply parent_of_canceler. }
  destruct (cancel_top e fuel c r w o a Sw Q Ho Hoa) as (w1 & Hrun & F & Hd & Hfin & Hq); [lia|].
  assert (S1 : sane w1) by by eapply sane_fanout.
  exists w1, (finish fuel c r o w1). split_and!; try done.
  - apply detached_finish.
  - apply skel_finish.
  - by apply sane_finish.
  - by eapply unlocked_finish, fanout_unlocked.
  - by apply (finish_cctx_ge fuel c r o a w1 c).
  - intros (a' & Ha' & He). simplify_eq. destruct (cc_err a); [|done].
    by destruct Hq as (? & ? & _).
Qed.

(** ** Invariant I1 is kept by every step *)
Lemma I1_fanout e c w w' : I1 w → fanout e c w w' → I1 w'.
Proof.
  intros H F i b Hb He. destruct (fanout_cctx_inv F i b Hb) as (a & Ha & [-> | [_ ->]]).
  - by eapply H.
  - done.
Qed.

Lemma I1_detached c w w' : I1 w → detached c w w' → skel w w' → I1 w'.
Proof.
  intros H (L & _ & _ & _ & _ & _ & _ & _ & _ & D) K i b Hb He.
  destruct (skel_cctx_inv w w' i b K L Hb) as (a & Ha & _).
  destruct (D i a Ha) as (a' & Ha' & _ & _ & Hea & _ & Hk). simplify_eq.
  assert (cc_children a = None) as Hn by (apply (H i a Ha); congruence).
  destruct Hk as [-> | (ks & ? & _)]; congruence.
Qed.

Lemma I1_same w w' : heap w' = heap w → I1 w → I1 w'.
Proof. intros Hh H i a. unfold cctx. rewrite Hh. apply H. Qed.

Lemma I1_materialize b w : I1 w → I1 (materialize b w).
Proof.
  intros H i a. rewrite materialize_cctx.
  destruct (cctx w i) as [x|] eqn:Hx; [|done]. intros [= <-].
  destruct (decide (i = b)); [|by apply (H i x)].
  destruct (cc_done x); simpl; by apply (H i x).
Qed.

Lemma I1_observed b w : I1 w → I1 (observed b w).
Proof. intros H. apply (I1_same w); [|done]. unfold observed. by destruct (cctx w b). Qed.

Lemma I1_clear_timer c w : I1 w → I1 (clear_timer c w).
Proof. intros H i a. rewrite clear_timer_cctx. apply H. Qed.

Lemma I1_linked c w w' :
  I1 w → linked c w w' → length (heap w) = S c →
  (∀ a, cctx w' c = Some a → cc_err a ≠ None → cc_children a = None) → I1 w'.
Proof.
  intros H (L & K & _ & _ & _ & _ & Hl) Hc Hnew i b Hb He.
  destruct (decide (i = c)) as [->|Hi]; [by apply Hnew|].
  destruct (skel_cctx_inv w w' i b K L Hb) as (a & Ha & _).
  destruct (Hl i a Hi Ha) as (a' & Ha' & _ & _ & Hea & _ & Hk). simplify_eq.
  destruct Hk as [-> | [? _]]; [|congruence]. apply (H i a Ha). congruence.
Qed.

Lemma I1_grown o w : I1 w → new_object w o → I1 (grown o w).
Proof.
  intros H N i a. rewrite grown_cctx. case_decide; [|apply H].
  intros Ha He. destruct (new_object_cctx w o a N Ha) as [E _]. rewrite E in He. done.
Qed.

(** ** The constructors *)

Lemma set_mu_undo a : cc_mu a = false → set_mu false (set_mu true a) = a.
Proof. destruct a; simpl; by intros ->. Qed.

Lemma with_set_mu_undo o a :
  cancelCtx_of o = Some a → cc_mu a = false →
  with_cancelCtx (set_mu false) (with_cancelCtx (set_mu true) o) = o.
Proof.
  intros Ha Hm. destruct o; simpl in *; simplify_eq; try done.
  - by rewrite set_mu_undo.
  - rewrite set_mu_undo by done. by destruct t.
Qed.

Lemma arm_run {A} (x : A) c dur w o a :
  heap w !! c = Some o → cancelCtx_of o = Some a → cc_mu a = false →
  (Lock c ;;
   cc <- load_cancelCtx c ;;
   match cc_err cc with
   | None => t <- AfterFunc dur c ;; modify c (with_timer (Some t))
   | Some _ => ret tt
   end ;;
   Unlock c ;;
   ret x) w = Ok (x, arm c dur w).
Proof.
  intros Ho Ha Hmu.
  assert (Hp : c < length (heap w)) by by eapply lookup_lt_Some.
  rewrite (bind_run _ _ _ _ _ (Lock_run w c o a Ho Ha Hmu)).
  set (o1 := with_cancelCtx (set_mu true) o).
  set (w1 := logged (EvLock c) (put c o1 w)).
  assert (Ho1 : heap w1 !! c = Some o1) by by apply list_lookup_insert_eq.
  assert (Ha1 : cancelCtx_of o1 = Some (set_mu true a)) by by apply cancelCtx_of_with.
  rewrite (bind_run _ _ w1 (set_mu true a) w1)
    by (apply load_cancelCtx_run; by rewrite (cctx_heap _ _ _ Ho1)).
  change (cc_err (set_mu true a)) with (cc_err a).
  unfold arm. rewrite Ho, Ha.
  destruct (cc_err a) as [e|] eqn:He.
  - rewrite bind_ret.
    rewrite (bind_run _ _ _ _ _ (Unlock_run w1 c o1 _ Ho1 Ha1 eq_refl)).
    unfold ret. do 2 f_equal. unfold logged, put, w1, o1, set_trace, set_heap. simpl.
    rewrite list_insert_insert_eq, (with_set_mu_undo o a Ha Hmu), list_insert_id by done.
    rewrite <- app_assoc. by destruct w.
  - unfold AfterFunc at 1. unfold bind at 1. unfold bind at 1. simpl.
    set (w2 := set_ntimer _ _).
    assert (Ho2 : heap w2 !! c = Some o1) by done.
    rewrite (modify_run w2 c _ o1 Ho2).
    set (o3 := with_timer (Some (ntimer w)) o1). set (w3 := put c o3 w2).
    assert (Ho3 : heap w3 !! c = Some o3).
    { apply list_lookup_insert_eq. unfold w2. simpl. by rewrite length_insert. }
    assert (Ha3 : cancelCtx_of o3 = Some (set_mu true a)).
    { unfold o3. by rewrite cancelCtx_of_with_timer. }
    rewrite (bind_run _ _ _ _ _ (Unlock_run w3 c o3 _ Ho3 Ha3 eq_refl)).
    unfold ret. do 2 f_equal. unfold logged, put, w3, w2, o3, o1, set_trace, set_heap. simpl.
    rewrite !list_insert_insert_eq, <- app_assoc. f_equal. f_equal.
    destruct o; simpl in *; simplify_eq; try done.
    + by rewrite set_mu_undo.
    + by rewrite set_mu_undo.
Qed.

Lemma Deadline_total w : sane w → ∀ fuel c, c < length (heap w) → c < fuel →
  ∃ r, Deadline fuel c w = Ok r.
Proof.
  intros Sw. induction fuel as [|fuel IH]; intros c Hc Hf; [lia|]. simpl.
  destruct (lookup_lt_is_Some_2 _ _ Hc) as [o Ho]. rewrite Ho.
  destruct o as [|p k v|a|t|x]; eauto.
  - assert (p < c) by by apply (sane_parent _ Sw c _ p Ho). apply IH; lia.
  - assert (cc_Context a < c) by by apply (sane_parent _ Sw c _ _ Ho). apply IH; lia.
Qed.

Lemma arm_cctx c dur w i : cctx (arm c dur w) i = cctx w i.
Proof.
  unfold arm. destruct (heap w !! c) as [o|] eqn:Ho; [|done].
  destruct (cancelCtx_of o) as [a|] eqn:Ha; [|done].
  destruct (cc_err a); [done|]. unfold cctx at 1. simpl.
  destruct (decide (i = c)) as [->|].
  - rewrite list_lookup_insert_eq by by eapply lookup_lt_Some.
    by rewrite cancelCtx_of_with_timer, (cctx_heap _ _ _ Ho).
  - by rewrite list_lookup_insert_ne.
Qed.

Lemma arm_proj c dur w :
  length (heap (arm c dur w)) = length (heap w) ∧ closed (arm c dur w) = closed w ∧
  nchan (arm c dur w) = nchan w ∧ now (arm c dur w) = now w.
Proof.
  unfold arm. destruct (heap w !! c) as [o|]; [|done].
  destruct (cancelCtx_of o) as [a|]; [|done].
  destruct (cc_err a); [done|]. simpl. by rewrite length_insert.
Qed.

Lemma arm_lookup_ne c dur w i : i ≠ c → heap (arm c dur w) !! i = heap w !! i.
Proof.
  intros Hi. unfold arm. destruct (heap w !! c) as [o|]; [|done].
  destruct (cancelCtx_of o) as [a|]; [|done].
  destruct (cc_err a); [done|]. simpl. by rewrite list_lookup_insert_ne.
Qed.

Lemma arm_lookup c dur w o :
  heap w !! c = Some o →
  heap (arm c dur w) !! c = Some o ∨
  heap (arm c dur w) !! c = Some (with_timer (Some (ntimer w)) o).
Proof.
  intros Ho. unfold arm. rewrite Ho.
  destruct (cancelCtx_of o) as [a|]; [|by left].
  destruct (cc_err a); [by left|]. right. simpl.
  apply list_lookup_insert_eq. by eapply lookup_lt_Some.
Qed.

Lemma skel_arm c dur w : skel w (arm c dur w).
Proof.
  intros i o Ho. destruct (decide (i = c)) as [->|].
  - destruct (arm_lookup c dur w o Ho) as [-> | ->]; eexists; split; try done.
    apply shape_with_timer.
  - rewrite arm_lookup_ne by done. eauto.
Qed.

Lemma unlocked_arm c dur w k : unlocked_from k w → unlocked_from k (arm c dur w).
Proof. intros U i a Hi. rewrite arm_cctx. by apply U. Qed.

Lemma I1_arm c dur w : I1 w → I1 (arm c dur w).
Proof. intros H i a. rewrite arm_cctx. apply H. Qed.

(** Well-formedness looks at cancelers through their [cancelCtx] and at the
    other objects as they are. *)
Lemma sane_cctx w w' :
  sane w → length (heap w') = length (heap w) → skel w w' →
  (∀ i, cctx w' i = cctx w i) → closed w' = closed w → nchan w' = nchan w → sane w'.
Proof.
  intros Sw L K Hcc Hc Hn.
  assert (Hinv : ∀ i o', heap w' !! i = Some o' →
            ∃ o, heap w !! i = Some o ∧ shape o' = shape o).
  { intros i o' Ho'.
    assert (is_Some (heap w !! i)) as [o Ho].
    { apply lookup_lt_is_Some. rewrite <- L. by eapply lookup_lt_Some. }
    destruct (K i o Ho) as (o2 & ? & ?). simplify_eq. eauto. }
  split; intros *; rewrite ?Hcc, ?Hc, ?Hn.
  - intros Ho' Hp. destruct (Hinv _ _ Ho') as (o0 & Ho0 & Hs).
    apply (sane_parent _ Sw i o0 p Ho0).
    destruct o0, o; simpl in *; simplify_eq; try done; by rw_shape.
  - intros Ho'. destruct (Hinv _ _ Ho') as (o0 & Ho0 & Hs).
    assert (o0 = valueCtx p k v) as -> by (destruct o0; simpl in Hs; by simplify_eq).
    by eapply (sane_key _ Sw).
  - intros Ho' Hv. destruct (Hinv _ _ Ho') as (o0 & Ho0 & Hs).
    assert (o0 = customCtxObj x) as -> by (destruct o0; simpl in Hs; by simplify_eq).
    by eapply (sane_custom _ Sw).
  - apply (sane_children _ Sw).
  - apply (sane_live _ Sw).
  - apply (sane_dead _ Sw).
  - apply (sane_fresh _ Sw).
  - apply (sane_inj _ Sw).
  - apply (sane_closedchan _ Sw).
  - apply (sane_closed _ Sw).
Qed.

Lemma sane_arm c dur w : sane w → sane (arm c dur w).
Proof.
  intros Sw. destruct (arm_proj c dur w) as (? & ? & ? & _).
  apply (sane_cctx w); try done; [apply skel_arm|apply arm_cctx].
Qed.

Lemma contract_base w fuel parent :
  contract w →
  ∀ b x d, base fuel parent w = Some b → heap w !! b = Some (customCtxObj x) →
    x_Done x = Some d → d ∈ closed w → x_Err x ≠ None.
Proof. intros H b x d _. apply H. Qed.

Lemma WithCancel_run fuel parent w :
  sane w → quiescent w → parent < length (heap w) → S (length (heap w)) ≤ fuel →
  (∀ b x d, base fuel parent w = Some b → heap w !! b = Some (customCtxObj x) →
     x_Done x = Some d → d ∈ closed w → x_Err x ≠ None) →
  let c := length (heap w) in
  let o := cancelCtxObj (newCancelCtx parent) in
  ∃ w1, WithCancel fuel (Some parent) w = Ok ((c, mkCancelFunc c true Canceled), w1) ∧
        propagateCancel fuel parent c (grown o w) = Ok (tt, w1) ∧
        sane w1 ∧ quiescent w1 ∧ linked c (grown o w) w1 ∧
        link_result fuel parent c o (grown o w) w1 ∧
        (heap w1 !! c = Some o ∨ ∃ e, heap w1 !! c = Some (cancelled e o)).
Proof.
  intros Sw Q Hp Hf Hx c o.
  destruct (propagateCancel_new fuel parent o w Sw Q Hp Hf) as (w1 & Hrun & ?); [done|by eexists|done|].
  exists w1. split; [|by split].
  unfold WithCancel. rewrite (bind_run _ _ _ _ _ (alloc_run o w)).
  by rewrite (bind_run _ _ _ _ _ Hrun).
Qed.

Lemma WithDeadline_degraded fuel parent d w t :
  Deadline fuel parent w = Ok (t, true) → (t < d)%Z →
  WithDeadline fuel (Some parent) d w = WithCancel fuel (Some parent) w.
Proof.
  intros HD Hlt. unfold WithDeadline, read, bind. rewrite HD. simpl.
  by rewrite (proj2 (Z.ltb_lt t d) Hlt).
Qed.

Lemma WithDeadline_run fuel parent d w cur :
  sane w → quiescent w → parent < length (heap w) → S (length (heap w)) < fuel →
  (∀ b x d, base fuel parent w = Some b → heap w !! b = Some (customCtxObj x) →
     x_Done x = Some d → d ∈ closed w → x_Err x ≠ None) →
  Deadline fuel parent w = Ok cur → snd cur && (fst cur <? d)%Z = false →
  let c := length (heap w) in
  let o := timerCtxObj (mkTimerCtx (newCancelCtx parent) None d) in
  ∃ w1, propagateCancel fuel parent c (grown o w) = Ok (tt, w1) ∧
        sane w1 ∧ quiescent w1 ∧ linked c (grown o w) w1 ∧
        link_result fuel parent c o (grown o w) w1 ∧
        (heap w1 !! c = Some o ∨ ∃ e, heap w1 !! c = Some (cancelled e o)) ∧
        WithDeadline fuel (Some parent) d w =
          if (d - now w <=? 0)%Z
          then res_bind (cancel fuel c true (Some DeadlineExceeded) w1)
                 (fun r => Ok ((c, mkCancelFunc c false Canceled), snd r))
          else Ok ((c, mkCancelFunc c true Canceled), arm c (d - now w) w1).
Proof.
  intros Sw Q Hp Hf Hx HD Hnd c o.
  destruct (propagateCancel_new fuel parent o w Sw Q Hp) as (w1 & Hrun & S1 & Q1 & L & R & Ho1);
    [lia|done|by eexists|done|].
  exists w1. split_and!; try done.
  unfold WithDeadline, read. unfold bind at 1. rewrite HD, Hnd.
  rewrite (bind_run _ _ _ _ _ (alloc_run o w)).
  rewrite (bind_run _ _ _ _ _ Hrun).
  assert (Hnow : now w1 = now w) by (destruct L as (_ & _ & _ & _ & -> & _); done).
  unfold Until at 1. unfold bind at 1. rewrite Hnow.
  destruct (d - now w <=? 0)%Z.
  - unfold bind, res_bind. fold c. destruct (cancel fuel c true _ w1) as [[[] ?]| | |]; done.
  - destruct Ho1 as [Ho1 | [e Ho1]].
    + by apply (arm_run _ c _ w1 o (newCancelCtx parent)).
    + eapply (arm_run _ c _ w1 _ _ Ho1); [reflexivity|done].
Qed.

Lemma done_of_materialize w b d :
  sane w → done_of (materialize b w) b = Some d → d ∈ closed w → done_of w b = Some d.
Proof.
  intros Sw Hd Hin. destruct (cctx w b) as [a|] eqn:Ha.
  - rewrite (done_of_cctx w b a Ha).
    assert (Hm : cctx (materialize b w) b = Some (set_done (Some (default (nchan w) (cc_done a))) a)).
    { rewrite materialize_cctx, Ha. by rewrite decide_True. }
    rewrite (done_of_cctx _ _ _ Hm) in Hd. simpl in Hd.
    destruct (cc_done a) as [d0|]; [done|]. simpl in Hd. simplify_eq.
    pose proof (sane_closed _ Sw _ Hin). lia.
  - by rewrite <- (done_of_other w b Ha).
Qed.

Lemma done_of_materialize_Some w b d :
  done_of w b = Some d → done_of (materialize b w) b = Some d.
Proof.
  intros Hd. destruct (cctx w b) as [a|] eqn:Ha.
  - rewrite (done_of_cctx w b a Ha) in Hd.
    assert (Hm : cctx (materialize b w) b = Some (set_done (Some (default (nchan w) (cc_done a))) a)).
    { rewrite materialize_cctx, Ha. by rewrite decide_True. }
    rewrite (done_of_cctx _ _ _ Hm). simpl. by rewrite Hd.
  - by rewrite (done_of_other w b Ha).
Qed.

Lemma done_of_grown o w b : b < length (heap w) → done_of (grown o w) b = done_of w b.
Proof. intros Hb. unfold done_of. rewrite grown_lookup, decide_False by lia. done. Qed.

Lemma err_of_grown o w b : b < length (heap w) → err_of (grown o w) b = err_of w b.
Proof. intros Hb. unfold err_of. rewrite grown_lookup, decide_False by lia. done. Qed.

Lemma link_result_closed fuel parent c o w0 w1 b d e :
  sane w0 → link_result fuel parent c o w0 w1 →
  base fuel parent w0 = Some b → done_of w0 b = Some d → d ∈ closed w0 →
  err_of w0 b = Some e →
  heap w1 !! c = Some (cancelled e o) ∧
  ∀ i a, i ≠ c → cctx w0 i = Some a →
    ∃ a', cctx w1 i = Some a' ∧ cc_children a' = cc_children a.
Proof.
  intros S0 R Hb Hd Hin He. pose proof (done_of_materialize_Some w0 b d Hd) as Hm.
  destruct R as [b' Hb' Hn _ | b' d' e' Hb' Hd' _ He' Hc Hk
                | b' d' p Hb' Hd' Hout _ _ _ _ | b' d' Hb' Hd' Hout _ _];
    simplify_eq; try congruence. done.
Qed.

Lemma cancelled_new e o a :
  cancelCtx_of o = Some a → a = newCancelCtx (cc_Context a) →
  cancelCtx_of (cancelled e o) = Some (kill_cc e a).
Proof.
  intros Ha Hn. assert (He : cc_err a = None) by by rewrite Hn.
  unfold cancelled. rewrite Ha, He.
  rewrite cancelCtx_of_with_timer. by apply cancelCtx_of_with.
Qed.

Lemma born_cancelled_link fuel parent o w w1 b d e a :
  sane w → sane w1 → parent < length (heap w) →
  new_object w o → cancelCtx_of o = Some a →
  linked (length (heap w)) (grown o w) w1 →
  link_result fuel parent (length (heap w)) o (grown o w) w1 →
  base fuel parent w = Some b → done_of w b = Some d → d ∈ closed w → err_of w b = Some e →
  born_cancelled e (length (heap w)) w1.
Proof.
  intros Sw S1 Hp N Ha L R Hb Hd Hin He.
  assert (Hbl : b < length (heap w)).
  { pose proof (base_le w Sw fuel parent b Hb). lia. }
  destruct (link_result_closed fuel parent _ o _ w1 b d e (sane_grown o w Sw N) R) as [Hc Hk].
  { by apply (base_skel w _ fuel (skel_grown o w)). }
  { by rewrite done_of_grown. }
  { done. }
  { by rewrite err_of_grown. }
  destruct (new_object_cctx w o a N Ha) as [Hna _].
  assert (Hcc : cctx w1 (length (heap w)) = Some (kill_cc e a)).
  { rewrite (cctx_heap _ _ _ Hc). by apply cancelled_new. }
  split.
  - destruct (sane_dead _ S1 _ _ Hcc) as (d' & Hd' & Hin'); [done|].
    exists (kill_cc e a), d'. by split_and!.
  - intros i x ks Hx Hks Hmem. destruct (decide (i = length (heap w))) as [->|Hi].
    + rewrite Hcc in Hx. by simplify_eq.
    + destruct L as (Ll & K & _).
      destruct (skel_cctx_inv _ _ i x K Ll Hx) as (y & Hy & _).
      destruct (Hk i y Hi Hy) as (x' & Hx' & Hch). simplify_eq.
      rewrite grown_cctx, decide_False in Hy by done.
      rewrite Hch in Hks.
      destruct (sane_children _ Sw i y ks _ Hy Hks Hmem) as [_ [z Hz]].
      pose proof (cctx_lt _ _ _ Hz). lia.
Qed.

Lemma born_cancelled_same e c w w' :
  (∀ i, cctx w' i = cctx w i) → closed w' = closed w →
  born_cancelled e c w → born_cancelled e c w'.
Proof.
  intros Hcc Hcl [(a & d & Ha & ?) Hk]. split.
  - exists a, d. rewrite Hcc, Hcl. done.
  - intros i x ks. rewrite Hcc. apply Hk.
Qed.

Lemma born_cancelled_cancel e e' r fuel c w :
  sane w → quiescent w → length (heap w) < fuel → born_cancelled e c w →
  ∃ w', cancel fuel c r (Some e') w = Ok (tt, w') ∧ born_cancelled e c w' ∧
        sane w' ∧ quiescent w'.
Proof.
  intros Sw Q Hf [(a & d & Ha & He & Hch & Hd & Hin) Hk].
  destruct (cancel_run e' r fuel c w Sw Q) as (w1 & w' & Hrun & F & D & K & _ & S1 & S' & Q' & Hc & Hdead);
    [by eexists|done|].
  destruct Hdead as [Hh Hcl]; [exists a; split; [done|congruence]|].
  assert (Hcc : ∀ i, cctx w1 i = cctx w i) by (intros; unfold cctx; by rewrite Hh).
  exists w'. split_and!; try done. split.
  - exists a, d. rewrite Hc, Hcc, (detached_closed c w1 w' D), Hcl. done.
  - intros i x ks Hx Hks Hmem.
    destruct D as (L & _ & _ & _ & _ & _ & _ & _ & _ & D).
    destruct (skel_cctx_inv w1 w' i x K L Hx) as (y & Hy & _).
    destruct (D i y Hy) as (x' & Hx' & _ & _ & _ & _ & Hch'). simplify_eq.
    rewrite Hcc in Hy. destruct Hch' as [Hch' | (ks' & Hy' & Hch')].
    + rewrite Hch' in Hks. by eapply Hk.
    + rewrite Hch' in Hks. simplify_eq. apply list_elem_of_filter in Hmem as [_ Hmem].
      by eapply Hk.
Qed.

Lemma closed_parent_base fuel parent w d e w0 w0' :
  sane w → quiescent w → parent < length (heap w) → parent < fuel →
  Done fuel parent w = Ok (Some d, w0) → d ∈ closed w →
  Err fuel parent w = Ok (Some e, w0') →
  ∃ b, base fuel parent w = Some b ∧ done_of w b = Some d ∧ err_of w b = Some e.
Proof.
  intros Sw Q Hp Hf HD Hin HE.
  destruct (base_total w Sw fuel parent Hp Hf) as (b & o & Hb & _).
  rewrite (Done_run fuel parent w b Q Hb) in HD.
  rewrite (Err_run fuel parent w b Q Hb) in HE. simplify_eq.
  exists b. split_and!; try done. by apply done_of_materialize.
Qed.

(** C6.  When the done channel of the parent is closed at derivation time,
    the child that [WithCancel] or [WithDeadline] returns is cancelled with
    the error of the parent on return, and it is a member of no [children]
    set. *)
Theorem closed_parent_cancels_child fuel parent w d e dl w0 w0' :
  sane w → quiescent w → parent < length (heap w) → S (length (heap w)) < fuel →
  Done fuel parent w = Ok (Some d, w0) → d ∈ closed w →
  Err fuel parent w = Ok (Some e, w0') →
  (∃ c f w', WithCancel fuel (Some parent) w = Ok ((c, f), w') ∧
             born_cancelled e c w' ∧ ∃ w2, Err fuel c w' = Ok (Some e, w2)) ∧
  (∃ c f w', WithDeadline fuel (Some parent) dl w = Ok ((c, f), w') ∧
             born_cancelled e c w' ∧ ∃ w2, Err fuel c w' = Ok (Some e, w2)).
Proof.
  intros Sw Q Hp Hf HD Hin HE.
  destruct (closed_parent_base fuel parent w d e w0 w0' Sw Q Hp) as (b & Hb & Hd & He);
    [lia|done..|].
  assert (Hx : ∀ b x d, base fuel parent w = Some b → heap w !! b = Some (customCtxObj x) →
     x_Done x = Some d → d ∈ closed w → x_Err x ≠ None).
  { intros b' x d' Hb' Hx _ _. simplify_eq. unfold err_of in He. rewrite Hx in He. congruence. }
  assert (HErr : ∀ c w', quiescent w' → born_cancelled e c w' →
            ∃ w2, Err fuel c w' = Ok (Some e, w2)).
  { intros c w' Q' [(a & _ & Ha & Hea & _) _]. destruct fuel as [|fuel]; [lia|].
    eexists. rewrite (Err_canceler fuel c w' a Q' Ha). by rewrite Hea. }
  assert (HC : ∃ c f w', WithCancel fuel (Some parent) w = Ok ((c, f), w') ∧
             born_cancelled e c w' ∧ ∃ w2, Err fuel c w' = Ok (Some e, w2)).
  { destruct (WithCancel_run fuel parent w Sw Q Hp) as (w1 & Hrun & _ & S1 & Q1 & L & R & _);
      [lia|done|].
    assert (B : born_cancelled e (length (heap w)) w1).
    { eapply (born_cancelled_link fuel parent _ w w1 b d e); try done; [|reflexivity].
      simpl. by split. }
    eexists _, _, w1. split; [done|]. split; [done|]. by apply HErr. }
  split; [done|].
  assert (Hlen : S (length (heap w)) ≤ fuel) by lia.
  destruct (Deadline_total w Sw fuel parent Hp) as [[t ok] Hdl]; [lia|].
  destruct (ok && (t <? dl)%Z) eqn:Hdeg.
  - apply andb_prop in Hdeg as [-> Hlt]. apply Z.ltb_lt in Hlt.
    by rewrite (WithDeadline_degraded fuel parent dl w t Hdl Hlt).
  - destruct (WithDeadline_run fuel parent dl w (t, ok) Sw Q Hp Hf Hx Hdl Hdeg)
      as (w1 & _ & S1 & Q1 & L & R & _ & Hrun).
    assert (B : born_cancelled e (length (heap w)) w1).
    { eapply (born_cancelled_link fuel parent _ w w1 b d e); try done; [|reflexivity].
      simpl. by split_and!. }
    rewrite Hrun. destruct (dl - now w <=? 0)%Z.
    + destruct (born_cancelled_cancel e DeadlineExceeded true fuel (length (heap w)) w1 S1 Q1)
        as (w' & -> & B' & S' & Q'); [|done|].
      { destruct L as (-> & _). rewrite grown_length. lia. }
      simpl. eexists _, _, w'. split; [done|]. split; [done|]. by apply HErr.
    + eexists _, _, _. split; [done|].
      assert (B' : born_cancelled e (length (heap w)) (arm (length (heap w)) (dl - now w) w1)).
      { eapply born_cancelled_same; [apply arm_cctx| |done].
        by destruct (arm_proj (length (heap w)) (dl - now w) w1) as (_ & ? & _). }
      split; [done|]. apply HErr; [|done]. by apply unlocked_arm.
Qed.

Lemma finish_lookup fuel c r o a w1 o1 :
  sane w1 → cancelCtx_of o = Some a → cc_Context a < c → heap w1 !! c = Some o1 →
  (∀ t, o = timerCtxObj t → ∃ t1, o1 = timerCtxObj t1) →
  heap (finish fuel c r o w1) !! c =
    Some (match o with timerCtxObj _ => with_timer None o1 | _ => o1 end).
Proof.
  intros S1 Ha HC Ho1 Ht. unfold finish.
  destruct o as [| |a0|t|]; simpl in Ha; simplify_eq; try done.
  - destruct (r && _); [|done]. by rewrite detach_lookup_gt.
  - apply clear_timer_lookup. destruct r; [|done]. by rewrite detach_lookup_gt.
Qed.

(** [cancel] on the canceler [c], with the object that it leaves at [c]. *)
Lemma cancel_object e r fuel c w o a :
  sane w → quiescent w → heap w !! c = Some o → cancelCtx_of o = Some a →
  length (heap w) < fuel →
  ∃ w1 w', cancel fuel c r (Some e) w = Ok (tt, w') ∧
           fanout e c w w1 ∧ detached c w1 w' ∧ skel w1 w' ∧
           sane w' ∧ quiescent w' ∧ heap w' !! c = Some (cancelled e o).
Proof.
  intros Sw Q Ho Ha Hfuel. destruct fuel as [|fuel]; [lia|].
  assert (HC : cc_Context a < c).
  { apply (sane_parent _ Sw c o); [done|]. by apply parent_of_canceler. }
  destruct (cancel_top e fuel c r w o a Sw Q Ho Ha) as (w1 & Hrun & F & Hd & Hfin & _); [lia|].
  assert (S1 : sane w1) by by eapply sane_fanout.
  exists w1, (finish fuel c r o w1). split_and!; try done.
  - apply detached_finish.
  - apply skel_finish.
  - by apply sane_finish.
  - by eapply unlocked_finish, fanout_unlocked.
  - rewrite (finish_lookup fuel c r o a w1 _ S1 Ha HC Hfin).
    + unfold cancelled. rewrite Ha. destruct o; simpl in Ha; simplify_eq; try done.
      by destruct (cc_err a).
    + intros t ->. simpl in Ha. simplify_eq. destruct (cc_err (tc_cancelCtx t)); simpl; eauto.
Qed.

(** [cancel] on a canceler that is cancelled already changes no field of any
    canceler but the mutexes it takes and releases, closes no channel and
    arms no timer. *)
Lemma cancel_dead_noop e r fuel c w :
  sane w → quiescent w → dead w c → length (heap w) < fuel →
  ∃ w', cancel fuel c r (Some e) w = Ok (tt, w') ∧ sane w' ∧ quiescent w' ∧
        cctx w' c = cctx w c ∧ closed w' = closed w ∧ ntimer w' = ntimer w ∧
        (∀ x, x ∈ timers w' → x ∈ timers w) ∧
        ∀ i x, cctx w i = Some x → ∃ y, cctx w' i = Some y ∧ cc_err y = cc_err x.
Proof.
  intros Sw Q Hd Hf. pose proof Hd as (a & Ha & He).
  destruct (cancel_run e r fuel c w Sw Q) as (w1 & w' & Hrun & F & D & K & _ & S1 & S' & Q' & Hc & Hdead);
    [by eexists|done|].
  destruct (Hdead Hd) as [Hh Hcl].
  assert (Hcc : ∀ i, cctx w1 i = cctx w i) by (intros; unfold cctx; by rewrite Hh).
  exists w'. split_and!; try done.
  - by rewrite Hc, Hcc.
  - by rewrite (detached_closed c w1 w' D).
  - destruct D as (_ & _ & _ & -> & _). apply (fo_ntimer _ _ _ _ F).
  - intros x Hx. apply (fo_timers _ _ _ _ F). destruct D as (_ & _ & Ht & _). by apply Ht.
  - intros i x Hx. rewrite <- Hcc in Hx. by apply (detached_err c w1 w' i x D).
Qed.

Lemma link_result_open fuel parent o w w1 b :
  sane w → parent < length (heap w) → new_object w o →
  link_result fuel parent (length (heap w)) o (grown o w) w1 →
  base fuel parent w = Some b → (∀ ch, done_of w b = Some ch → ch ∉ closed w) →
  heap w1 !! length (heap w) = Some o.
Proof.
  intros Sw Hp N R Hb Hopen.
  assert (Hbl : b ≤ parent) by apply (base_le w Sw fuel parent b Hb).
  assert (Hb0 : base fuel parent (grown o w) = Some b)
    by by apply (base_skel w _ fuel (skel_grown o w)).
  assert (Hnew : heap (grown o w) !! length (heap w) = Some o).
  { by rewrite grown_lookup, decide_True. }
  destruct R as [b' Hb' _ -> | b' d' e' Hb' Hd' Hin _ _ _
                | b' d' p Hb' _ _ _ Hpp -> _ | b' d' Hb' _ _ _ ->]; simplify_eq.
  - rewrite materialize_lookup_ne by lia. done.
  - rewrite done_of_grown in Hd' by lia. by destruct (Hopen _ Hd').
  - rewrite critical_lookup_ne by lia. rewrite materialize_lookup_ne by lia. done.
  - simpl. rewrite materialize_lookup_ne by lia. done.
Qed.

Lemma open_parent_base fuel parent w b :
  quiescent w → base fuel parent w = Some b →
  (∀ ch w0, Done fuel parent w = Ok (Some ch, w0) → ch ∉ closed w) →
  ∀ ch, done_of w b = Some ch → ch ∉ closed w.
Proof.
  intros Q Hb Hopen ch Hch. apply (Hopen ch (materialize b w)).
  rewrite (Done_run fuel parent w b Q Hb). by rewrite (done_of_materialize_Some w b ch Hch).
Qed.

Lemma open_parent_contract fuel parent w b :
  base fuel parent w = Some b → (∀ ch, done_of w b = Some ch → ch ∉ closed w) →
  ∀ b' x d, base fuel parent w = Some b' → heap w !! b' = Some (customCtxObj x) →
    x_Done x = Some d → d ∈ closed w → x_Err x ≠ None.
Proof.
  intros Hb Hopen b' x d Hb' Hx Hd Hin. simplify_eq.
  destruct (Hopen d); [|done]. unfold done_of. by rewrite Hx.
Qed.

(** C5, amended.  When the parent is not cancelled and has no earlier
    deadline, [WithDeadline] with a deadline that has passed returns a
    [timerCtx] that is cancelled with [DeadlineExceeded], without a timer,
    and none was armed; it returns a [CancelFunc] as well, and calling it
    changes no canceler, closes no channel and arms no timer. *)
Theorem expired_deadline_cancels fuel parent d w cur :
  sane w → quiescent w → parent < length (heap w) → S (length (heap w)) < fuel →
  Deadline fuel parent w = Ok cur → snd cur && (fst cur <? d)%Z = false →
  (∀ ch w0, Done fuel parent w = Ok (Some ch, w0) → ch ∉ closed w) →
  (d <= now w)%Z →
  ∃ c f w' t ch,
    WithDeadline fuel (Some parent) d w = Ok ((c, f), w') ∧
    heap w' !! c = Some (timerCtxObj t) ∧ tc_timer t = None ∧
    cc_err (tc_cancelCtx t) = Some DeadlineExceeded ∧
    cc_done (tc_cancelCtx t) = Some ch ∧ ch ∈ closed w' ∧
    (∃ w2, Err fuel c w' = Ok (Some DeadlineExceeded, w2)) ∧
    ntimer w' = ntimer w ∧ (∀ x, x ∈ timers w' → x ∈ timers w) ∧
    f = mkCancelFunc c false Canceled ∧
    ∃ w'', call fuel f w' = Ok (tt, w'') ∧
      cctx w'' c = cctx w' c ∧ closed w'' = closed w' ∧
      ntimer w'' = ntimer w' ∧ (∀ x, x ∈ timers w'' → x ∈ timers w') ∧
      (∀ i x, cctx w' i = Some x → ∃ y, cctx w'' i = Some y ∧ cc_err y = cc_err x) ∧
      ∃ w3, Err fuel c w'' = Ok (Some DeadlineExceeded, w3).
Proof.
  intros Sw Q Hp Hf Hdl Hnd Hopen Hpast.
  destruct (base_total w Sw fuel parent Hp) as (b & ob & Hb & _); [lia|].
  pose proof (open_parent_base fuel parent w b Q Hb Hopen) as Hopen'.
  pose proof (open_parent_contract fuel parent w b Hb Hopen') as Hx.
  set (c := length (heap w)).
  set (o := timerCtxObj (mkTimerCtx (newCancelCtx parent) None d)).
  assert (N : new_object w o) by (simpl; by split_and!).
  destruct (WithDeadline_run fuel parent d w cur Sw Q Hp Hf Hx Hdl Hnd)
    as (w1 & _ & S1 & Q1 & L & R & _ & Hrun).
  fold c o in L, R, Hrun.
  pose proof (link_result_open fuel parent o w w1 b Sw Hp N R Hb Hopen') as Ho1.
  fold c in Ho1.
  assert (Hlen1 : length (heap w1) < fuel).
  { destruct L as (-> & _). rewrite grown_length. lia. }
  destruct (cancel_object DeadlineExceeded true fuel c w1 o (newCancelCtx parent) S1 Q1 Ho1 eq_refl Hlen1)
    as (wk & w' & Hc & F & D & K & S' & Q' & Ho').
  rewrite (proj2 (Z.leb_le (d - now w) 0)) in Hrun by lia. rewrite Hc in Hrun. simpl in Hrun.
  assert (Hcc' : cctx w' c = Some (kill_cc DeadlineExceeded (newCancelCtx parent))).
  { by rewrite (cctx_heap _ _ _ Ho'). }
  assert (HErr : ∀ w2, quiescent w2 →
            cctx w2 c = Some (kill_cc DeadlineExceeded (newCancelCtx parent)) →
            ∃ w3, Err fuel c w2 = Ok (Some DeadlineExceeded, w3)).
  { intros w2 Q2 H2. destruct fuel as [|fuel]; [lia|].
    eexists. by rewrite (Err_canceler fuel c w2 _ Q2 H2). }
  assert (Hlen' : length (heap w') < fuel).
  { destruct D as (-> & _). by rewrite (fo_length _ _ _ _ F). }
  destruct (cancel_dead_noop Canceled false fuel c w' S' Q') as (w'' & Hcall & S'' & Q'' & Hcc'' & Hcl'' & Hnt'' & Ht'' & He'');
    [by eexists; split|done|].
  eexists c, _, w', _, closedchan. split; [exact Hrun|].
  split; [exact Ho'|]. split_and!; try done.
  - apply S'.
  - by apply HErr.
  - destruct D as (_ & _ & _ & -> & _). rewrite (fo_ntimer _ _ _ _ F).
    by destruct L as (_ & _ & -> & _).
  - intros x Hx'. destruct D as (_ & _ & Ht & _). apply Ht in Hx'.
    apply (fo_timers _ _ _ _ F) in Hx'. destruct L as (_ & _ & _ & Hl & _). by apply Hl in Hx'.
  - exists w''. split_and!; try done. apply HErr; [done|]. by rewrite Hcc''.
Qed.

Lemma fanout_reach e c w w' x y :
  I1 w → fanout e c w w' → reach w x y → dead w' x → dead w' y.
Proof.
  intros H1 F R Hx. induction R as [|y a ks z R IH Ha Hks Hz]; [done|].
  apply (fo_down _ _ _ _ F y a ks z); try done.
  destruct (cc_err a) eqn:He; [|done].
  rewrite (H1 y a Ha) in Hks; [done|congruence].
Qed.

Lemma reach_grow w w' x y :
  (∀ i a ks, cctx w i = Some a → cc_children a = Some ks →
     ∃ a' ks', cctx w' i = Some a' ∧ cc_children a' = Some ks' ∧ ∀ k, k ∈ ks → k ∈ ks') →
  reach w x y → reach w' x y.
Proof.
  intros H R. induction R as [|y a ks z R IH Ha Hks Hz]; [constructor|].
  destruct (H y a ks Ha Hks) as (a' & ks' & Ha' & Hks' & Hsub).
  eapply reach_child; eauto.
Qed.

Lemma elem_of_add_child c ks k : k ∈ add_child c ks ↔ k = c ∨ k ∈ ks.
Proof.
  unfold add_child. case_bool_decide.
  - split; [auto|]. intros [->|]; done.
  - rewrite elem_of_app, list_elem_of_singleton. tauto.
Qed.

(** A live canceler as base of the parent: the new canceler is registered
    with it. *)
Lemma link_result_registered fuel parent o w w1 b ab :
  sane w → parent < length (heap w) → new_object w o →
  link_result fuel parent (length (heap w)) o (grown o w) w1 →
  base fuel parent w = Some b → cctx w b = Some ab → cc_err ab = None →
  w1 = critical b (reg_cc (length (heap w))) (materialize b (grown o w)).
Proof.
  intros Sw Hp N R Hb Hab He.
  assert (Hbl : b ≤ parent) by apply (base_le w Sw fuel parent b Hb).
  set (w0 := grown o w) in *.
  assert (S0 : sane w0) by by apply sane_grown.
  assert (Hb0 : base fuel parent w0 = Some b)
    by by apply (base_skel w _ fuel (skel_grown o w)).
  assert (Hab0 : cctx w0 b = Some ab).
  { unfold w0. rewrite grown_cctx, decide_False by lia. done. }
  assert (Hm : cctx (materialize b w0) b =
               Some (set_done (Some (default (nchan w0) (cc_done ab))) ab)).
  { rewrite materialize_cctx, Hab0. by rewrite decide_True. }
  pose proof (done_of_cctx _ _ _ Hm) as Hdm. simpl in Hdm.
  pose proof (parent_result_canceler _ _ _ Hm) as Hpr. simpl in Hpr.
  destruct R as [b' Hb' Hn _ | b' d' e' Hb' Hd' Hin _ _ _
                | b' d' p Hb' Hd' Hout Hpp _ -> _ | b' d' Hb' Hd' Hout Hpp _]; simplify_eq.
  - rewrite (done_of_cctx _ _ _ Hab0) in Hd'.
    destruct (sane_live _ S0 b' ab d' Hab0 He Hd' Hin).
  - rewrite Hpp in Hpr. case_bool_decide; by simplify_eq.
  - rewrite Hpp in Hpr. case_bool_decide as Hcc; [|done].
    destruct Hout. rewrite Hcc. apply S0.
Qed.

Lemma fire_due fuel tm w k ar :
  list_find (fun a => a_id a = tm) (timers w) = Some (k, ar) → (a_when ar <= now w)%Z →
  fire fuel tm w =
    cancel fuel (a_ctx ar) true (Some DeadlineExceeded)
      (set_timers (filter (fun a => a_id a ≠ tm) (timers w)) w).
Proof.
  intros Hfind Hdue. unfold fire. rewrite Hfind.
  by rewrite (proj2 (Z.leb_le _ _) Hdue).
Qed.

Lemma linked_Deadline fuel parent c o w w1 a r :
  linked c (grown o w) w1 → c = length (heap w) → cancelCtx_of o = Some a →
  cc_Context a = parent →
  (heap w1 !! c = Some o ∨ ∃ e, heap w1 !! c = Some (cancelled e o)) →
  (∀ t, o ≠ timerCtxObj t) →
  Deadline fuel parent w = Ok r → Deadline (S fuel) c w1 = Ok r.
Proof.
  intros (_ & K & _) -> Ha HC Ho Hnt HD.
  assert (HD1 : Deadline fuel parent w1 = Ok r).
  { eapply Deadline_skel; [|done]. eapply skel_trans; [apply skel_grown|done]. }
  simpl. destruct Ho as [-> | [e ->]].
  - destruct o; simpl in Ha; simplify_eq; try done. by destruct (Hnt t).
  - unfold cancelled. rewrite Ha.
    destruct o; simpl in Ha; simplify_eq; try done; [|by destruct (Hnt t)].
    by destruct (cc_err a).
Qed.

(** The world in which the new canceler [c] was registered with [b]. *)
Lemma registered_facts b o w :
  sane w → b < length (heap w) → is_Some (cctx w b) →
  let c := length (heap w) in
  let w' := critical b (reg_cc c) (materialize b (grown o w)) in
  heap w' !! c = Some o ∧ timers w' = timers w ∧ now w' = now w ∧
  (∃ a ks, cctx w' b = Some a ∧ cc_children a = Some ks ∧ c ∈ ks) ∧
  ∀ i a ks, cctx w i = Some a → cc_children a = Some ks →
    ∃ a' ks', cctx w' i = Some a' ∧ cc_children a' = Some ks' ∧ ∀ k, k ∈ ks → k ∈ ks'.
Proof.
  intros Sw Hb [ab Hab] c w'.
  assert (Hcc : ∀ i x, cctx w i = Some x →
            ∃ x', cctx w' i = Some x' ∧
                  cc_children x' = if decide (i = b)
                                   then Some (add_child c (default [] (cc_children x)))
                                   else cc_children x).
  { intros i x Hx. pose proof (cctx_lt _ _ _ Hx) as Hi.
    assert (Hx0 : cctx (grown o w) i = Some x) by (rewrite grown_cctx, decide_False by lia; done).
    assert (Hb0 : cctx (grown o w) b = Some ab) by (rewrite grown_cctx, decide_False by lia; done).
    unfold w'. rewrite critical_cctx, !materialize_cctx, Hb0, Hx0.
    destruct (decide (i = b)) as [->|]; simpl; eauto. simplify_eq.
    rewrite decide_True by done. eauto. }
  split_and!.
  - unfold w'. rewrite critical_lookup_ne, materialize_lookup_ne by (unfold c; lia).
    by rewrite grown_lookup, decide_True.
  - unfold w'. destruct (critical_proj b (reg_cc c) (materialize b (grown o w))) as (_ & _ & -> & _).
    by destruct (materialize_proj (grown o w) b) as (_ & -> & _).
  - unfold w'. destruct (critical_proj b (reg_cc c) (materialize b (grown o w))) as (_ & _ & _ & _ & -> & _).
    by destruct (materialize_proj (grown o w) b) as (_ & _ & _ & -> & _).
  - destruct (Hcc b ab Hab) as (x' & Hx' & Hk). rewrite decide_True in Hk by done.
    eexists _, _. split_and!; [done..|]. apply elem_of_add_child. by left.
  - intros i a ks Ha Hks. destruct (Hcc i a Ha) as (x' & Hx' & Hk).
    rewrite Hks in Hk. simpl in Hk. destruct (decide (i = b)).
    + eexists _, _. split_and!; [done..|]. intros k Hkk. apply elem_of_add_child. by right.
    + eexists _, _. split_and!; [done..|]. done.
Qed.

Lemma unlocked_same k w w' : heap w' = heap w → unlocked_from k w → unlocked_from k w'.
Proof. intros Hh U i a. unfold cctx. rewrite Hh. apply U. Qed.

Lemma reach_same w w' x y : heap w' = heap w → reach w x y → reach w' x y.
Proof.
  intros Hh. apply reach_grow. intros i a ks Ha Hks. exists a, ks.
  unfold cctx in *. rewrite Hh. done.
Qed.

(** When the parent has a deadline [t1] earlier than the requested [t2],
    [WithDeadline] is [WithCancel]: the result is a [cancelCtx], no timer is
    armed, [Deadline] of the result reports [t1]; and when the timer of the
    [timerCtx] that owns [t1] fires at [t1], the result is cancelled with
    [DeadlineExceeded]. *)
Lemma WithDeadline_earlier_parent fuel parent t1 t2 w :
  sane w → quiescent w → I1 w → contract w →
  parent < length (heap w) → S (length (heap w)) < fuel →
  Deadline fuel parent w = Ok (t1, true) → (t1 < t2)%Z →
  ∃ c f w' a,
    WithDeadline fuel (Some parent) t2 w = Ok ((c, f), w') ∧
    WithCancel fuel (Some parent) w = Ok ((c, f), w') ∧
    heap w' !! c = Some (cancelCtxObj a) ∧ cc_Context a = parent ∧
    ntimer w' = ntimer w ∧ (∀ x, x ∈ timers w' → x ∈ timers w) ∧
    Deadline (S fuel) c w' = Ok (t1, true) ∧
    ∀ T tT tm k ar b ab dt,
      heap w !! T = Some (timerCtxObj tT) → tc_deadline tT = t1 → tc_timer tT = Some tm →
      list_find (fun x => a_id x = tm) (timers w) = Some (k, ar) →
      a_ctx ar = T → a_when ar = t1 →
      base fuel parent w = Some b → cctx w b = Some ab → cc_err ab = None → reach w T b →
      (t1 <= now w + dt)%Z →
      ∃ w'' a' ch, (tick dt ;; fire fuel tm) w' = Ok (tt, w'') ∧
                   cctx w'' c = Some a' ∧ cc_err a' = Some DeadlineExceeded ∧
                   cc_done a' = Some ch ∧ ch ∈ closed w''.
Proof.
  intros Sw Q H1 Hx Hp Hf HD Hlt.
  set (c := length (heap w)). set (o := cancelCtxObj (newCancelCtx parent)).
  assert (N : new_object w o) by (simpl; by split).
  destruct (WithCancel_run fuel parent w Sw Q Hp) as (w1 & Hrun & _ & S1 & Q1 & L & R & Ho1);
    [lia|by apply contract_base|].
  fold c o in Hrun, L, R, Ho1.
  assert (Hobj : ∃ a, heap w1 !! c = Some (cancelCtxObj a) ∧ cc_Context a = parent).
  { destruct Ho1 as [-> | [e ->]]; eauto. }
  destruct Hobj as (a & Ha & HCa).
  exists c, (mkCancelFunc c true Canceled), w1, a. split_and!; try done.
  - by rewrite (WithDeadline_degraded fuel parent t2 w t1 HD Hlt).
  - by destruct L as (_ & _ & -> & _).
  - intros x Hin. destruct L as (_ & _ & _ & Ht & _). by apply (Ht x).
  - by apply (linked_Deadline fuel parent c o w w1 (newCancelCtx parent)).
  - intros T tT tm k ar b ab dt HT Hdl Htm Hfind Hctx Hwhen Hb Hab He HR Hnow.
    assert (Hbl : b < length (heap w)) by by eapply cctx_lt.
    pose proof (link_result_registered fuel parent o w w1 b ab Sw Hp N R Hb Hab He) as Hw1.
    destruct (registered_facts b o w Sw Hbl) as (Hoc & Htim & Hnw & (pb & pks & Hpb & Hpks & Hcin) & Hgrow);
      [by eexists|].
    fold c in Hw1, Hoc, Htim, Hnw, Hpb, Hcin, Hgrow. rewrite <- Hw1 in *.
    set (ws := set_timers (filter (fun x => a_id x ≠ tm) (timers w1))
                 (set_now (now w1 + dt)%Z w1)).
    assert (Hrunf : (tick dt ;; fire fuel tm) w1 =
                    cancel fuel T true (Some DeadlineExceeded) ws).
    { change ((tick dt ;; fire fuel tm) w1) with (fire fuel tm (set_now (now w1 + dt)%Z w1)).
      rewrite (fire_due fuel tm _ k ar); [by rewrite Hctx| |].
      - simpl. by rewrite Htim.
      - simpl. rewrite Hnw. lia. }
    assert (Ss : sane ws) by by apply (sane_same w1).
    assert (Qs : quiescent ws) by by apply (unlocked_same 0 w1).
    assert (I1s : I1 ws).
    { apply (I1_same w1); [done|].
      apply (I1_linked c (grown o w) w1); [by apply I1_grown|done|apply grown_length|].
      intros x Hxc. rewrite (cctx_heap _ _ _ Hoc) in Hxc. unfold o in Hxc. simpl in Hxc.
      by simplify_eq. }
    assert (HTs : ∃ oT aT, heap ws !! T = Some oT ∧ cancelCtx_of oT = Some aT).
    { destruct L as (_ & _ & _ & _ & _ & _ & Hl).
      destruct (Hl T (tc_cancelCtx tT)) as (aT & HaT & _).
      - pose proof (lookup_lt_Some _ _ _ HT). unfold c. lia.
      - rewrite grown_cctx, decide_False by (pose proof (lookup_lt_Some _ _ _ HT); lia).
        by rewrite (cctx_heap _ _ _ HT).
      - destruct (cctx_inv _ _ _ HaT) as (oT & ? & ?). by exists oT, aT. }
    destruct HTs as (oT & aT & HoT & HaT).
    destruct (cancel_reaches DeadlineExceeded true fuel T ws oT aT Ss Qs HoT HaT)
      as (wk & w'' & Hcan & F & HdT & _ & _ & _ & Hkill).
    { simpl. destruct L as (-> & _). rewrite grown_length. lia. }
    assert (Rs : reach ws T c).
    { apply (reach_same w1); [done|]. eapply reach_child; [|exact Hpb|exact Hpks|exact Hcin].
      by apply (reach_grow w). }
    pose proof (fanout_reach DeadlineExceeded T ws wk T c I1s F Rs HdT) as Hdc.
    destruct (Hkill c (newCancelCtx parent)) as [Hc'' Hcl'']; [|done|done|].
    { change (cctx ws c) with (cctx w1 c). by rewrite (cctx_heap _ _ _ Hoc). }
    exists w'', (kill_cc DeadlineExceeded (newCancelCtx parent)), closedchan.
    rewrite Hrunf. by split_and!.
Qed.

Lemma stable_refl w : stable w w.
Proof. intros i a Ha _. eauto. Qed.

Lemma stable_trans w1 w2 w3 : stable w1 w2 → stable w2 w3 → stable w1 w3.
Proof.
  intros H12 H23 i a Ha He. destruct (H12 i a Ha He) as (b & Hb & Heb).
  destruct (H23 i b Hb) as (c & Hc & Hec); [congruence|]. exists c. split; [done|congruence].
Qed.

Lemma stable_same w w' : (∀ i, cctx w' i = cctx w i) → stable w w'.
Proof. intros Hcc i a Ha _. rewrite Hcc. eauto. Qed.

Lemma stable_fanout e c w w' : fanout e c w w' → stable w w'.
Proof.
  intros F i a Ha He. destruct (fanout_cctx F i a Ha) as (b & Hb & Hs & _).
  exists b. split; [done|]. by rewrite (cc_step_dead _ _ _ Hs He).
Qed.

Lemma stable_detached c w w' : detached c w w' → stable w w'.
Proof. intros D i a Ha _. by apply (detached_err c w w' i a D). Qed.

Lemma stable_grown o w : stable w (grown o w).
Proof.
  intros i a Ha _. exists a. split; [|done]. rewrite grown_cctx, decide_False; [done|].
  pose proof (cctx_lt _ _ _ Ha). lia.
Qed.

Lemma stable_materialize b w : stable w (materialize b w).
Proof.
  intros i a Ha _. rewrite materialize_cctx, Ha. eexists. split; [done|].
  by destruct (decide (i = b)).
Qed.

Lemma stable_linked c w w' : linked c w w' → length (heap w) = S c → cctx w c = None ∨
  (∃ a, cctx w c = Some a ∧ cc_err a = None) → stable w w'.
Proof.
  intros (_ & _ & _ & _ & _ & _ & Hl) _ Hc i a Ha He.
  destruct (decide (i = c)) as [->|Hi].
  - destruct Hc as [Hc | (a0 & Hc & Hn)]; congruence.
  - destruct (Hl i a Hi Ha) as (a' & Ha' & _ & _ & Hea & _). eauto.
Qed.

(** Linking a new canceler keeps the invariant, the shape of the store and
    the cancelled cancelers. *)
Lemma linked_step o a w w1 :
  sane w → I1 w → new_object w o → cancelCtx_of o = Some a →
  linked (length (heap w)) (grown o w) w1 →
  (heap w1 !! length (heap w) = Some o ∨
   ∃ e, heap w1 !! length (heap w) = Some (cancelled e o)) →
  I1 w1 ∧ skel w w1 ∧ stable w w1.
Proof.
  intros Sw H1 N Ha L Ho. destruct (new_object_cctx w o a N Ha) as [Hna _].
  split_and!.
  - apply (I1_linked (length (heap w)) (grown o w) w1); [by apply I1_grown|done|apply grown_length|].
    intros x Hx He. destruct Ho as [Ho | [e Ho]]; rewrite (cctx_heap _ _ _ Ho) in Hx.
    + simplify_eq. by rewrite Hna.
    + rewrite (cancelled_new e o a Ha Hna) in Hx. by simplify_eq.
  - eapply skel_trans; [apply skel_grown|]. by destruct L as (_ & ? & _).
  - eapply stable_trans; [apply stable_grown|].
    apply (stable_linked (length (heap w))); [done|apply grown_length|].
    right. exists a. rewrite grown_cctx, decide_True by done. split; [done|]. by rewrite Hna.
Qed.

(** A cancellation keeps them as well. *)
Lemma cancel_step e r fuel c w :
  sane w → quiescent w → I1 w → is_Some (cctx w c) → length (heap w) < fuel →
  ∃ w', cancel fuel c r (Some e) w = Ok (tt, w') ∧
        sane w' ∧ quiescent w' ∧ I1 w' ∧ skel w w' ∧ stable w w' ∧
        length (heap w') = length (heap w).
Proof.
  intros Sw Q H1 Hc Hf.
  destruct (cancel_run e r fuel c w Sw Q Hc Hf)
    as (w1 & w' & Hrun & F & D & K & _ & S1 & S' & Q' & _).
  exists w'. split_and!; try done.
  - apply (I1_detached c w1); [|done..]. by apply (I1_fanout e c w).
  - eapply skel_trans; [by eapply skel_fanout|done].
  - eapply stable_trans; [by eapply stable_fanout|by eapply stable_detached].
  - destruct D as (-> & _). apply (fo_length _ _ _ _ F).
Qed.

Lemma kept_same w w' :
  sane w → quiescent w → I1 w →
  heap w' = heap w → closed w' = closed w → nchan w' = nchan w → kept w w'.
Proof.
  intros Sw Q H1 Hh Hc Hn.
  assert (Hcc : ∀ i, cctx w' i = cctx w i) by (intros; unfold cctx; by rewrite Hh).
  split_and!.
  - by apply (sane_same w).
  - by apply (unlocked_same 0 w).
  - by apply (I1_same w).
  - by apply skel_same.
  - by apply stable_same.
  - rewrite Hh. lia.
  - rewrite Hh. lia.
Qed.

Lemma WithCancel_step fuel parent w :
  sane w → quiescent w → I1 w → contract w →
  parent < length (heap w) → S (length (heap w)) < fuel →
  ∃ r w', WithCancel fuel (Some parent) w = Ok (r, w') ∧ kept w w'.
Proof.
  intros Sw Q H1 Hx Hp Hf.
  destruct (WithCancel_run fuel parent w Sw Q Hp) as (w1 & Hrun & _ & S1 & Q1 & L & _ & Ho);
    [lia|by apply contract_base|].
  destruct (linked_step (cancelCtxObj (newCancelCtx parent)) (newCancelCtx parent) w w1 Sw H1)
    as (? & ? & ?); try done.
  eexists _, w1. split; [done|]. split_and!; try done.
  - destruct L as (-> & _). rewrite grown_length. lia.
  - destruct L as (-> & _). rewrite grown_length. lia.
Qed.

Lemma WithDeadline_step fuel parent d w :
  sane w → quiescent w → I1 w → contract w →
  parent < length (heap w) → S (length (heap w)) < fuel →
  ∃ r w', WithDeadline fuel (Some parent) d w = Ok (r, w') ∧ kept w w'.
Proof.
  intros Sw Q H1 Hx Hp Hf.
  destruct (Deadline_total w Sw fuel parent Hp) as [[t ok] Hdl]; [lia|].
  destruct (ok && (t <? d)%Z) eqn:Hdeg.
  { apply andb_prop in Hdeg as [-> Hlt]. apply Z.ltb_lt in Hlt.
    rewrite (WithDeadline_degraded fuel parent d w t Hdl Hlt). by apply WithCancel_step. }
  destruct (WithDeadline_run fuel parent d w (t, ok) Sw Q Hp Hf (contract_base w fuel parent Hx) Hdl Hdeg)
    as (w1 & _ & S1 & Q1 & L & _ & Ho & Hrun).
  destruct (linked_step (timerCtxObj (mkTimerCtx (newCancelCtx parent) None d))
              (newCancelCtx parent) w w1 Sw H1) as (I1' & K1 & St1); try done.
  assert (Hlen1 : length (heap w1) = S (length (heap w))).
  { destruct L as (-> & _). apply grown_length. }
  rewrite Hrun. destruct (d - now w <=? 0)%Z.
  - destruct (cancel_step DeadlineExceeded true fuel (length (heap w)) w1 S1 Q1 I1')
      as (w' & -> & S' & Q' & I' & K' & St' & Hlen'); [|lia|].
    { destruct Ho as [Ho | [e Ho]]; rewrite (cctx_heap _ _ _ Ho).
      - by eexists.
      - erewrite cancelled_new; [by eexists|reflexivity|done]. }
    simpl. eexists _, w'. split; [done|]. split_and!; try done.
    + by eapply skel_trans.
    + by eapply stable_trans.
    + lia.
    + lia.
  - eexists _, _. split; [done|].
    destruct (arm_proj (length (heap w)) (d - now w) w1) as (Hl & _).
    split_and!.
    + by apply sane_arm.
    + by apply unlocked_arm.
    + by apply I1_arm.
    + eapply skel_trans; [done|apply skel_arm].
    + eapply stable_trans; [done|]. apply stable_same, arm_cctx.
    + lia.
    + lia.
Qed.

(** ** Sequences of operations *)

(** The outcome of an operation: a world, or the panic of [WithValue]. *)
Lemma exec_spec fuel o w :
  sane w → quiescent w → I1 w → contract w → op_ok w o → S (length (heap w)) < fuel →
  (∃ w', exec fuel o w = Ok (tt, w') ∧ kept w w') ∨
  (∃ parent key val msg, o = OpWithValue parent key val ∧ exec fuel o w = Panic msg ∧
     (key = nil_any ∨ Comparable key = false)).
Proof.
  intros Sw Q H1 Hx Hok Hf. destruct o as [p|p d|p t|p k v|f|c|c|t|dt]; simpl in Hok.
  - left. destruct (WithCancel_step fuel p w) as (r & w' & Hrun & Hk); try done.
    exists w'. split; [|done]. simpl. by rewrite (bind_run _ _ _ _ _ Hrun).
  - left. destruct (WithDeadline_step fuel p d w) as (r & w' & Hrun & Hk); try done.
    exists w'. split; [|done]. simpl. by rewrite (bind_run _ _ _ _ _ Hrun).
  - left. destruct (WithDeadline_step fuel p (now w + t)%Z w) as (r & w' & Hrun & Hk); try done.
    exists w'. split; [|done]. simpl.
    assert (HT : WithTimeout fuel (Some p) t w = WithDeadline fuel (Some p) (now w + t)%Z w)
      by reflexivity.
    rewrite <- HT in Hrun. by rewrite (bind_run _ _ _ _ _ Hrun).
  - destruct Hok as [Hp Hkey]. simpl. unfold WithValue.
    destruct (bool_decide (k = nil_any)) eqn:Hnil.
    { right. apply bool_decide_eq_true in Hnil. eexists p, k, v, _. split_and!; [done..|by left]. }
    apply bool_decide_eq_false in Hnil.
    destruct (Comparable k) eqn:Hcmp; simpl.
    2:{ right. eexists p, k, v, _. split_and!; [done..|by right]. }
    left. rewrite (bind_run _ _ _ _ _ (alloc_run (valueCtx p k v) w)).
    assert (N : new_object w (valueCtx p k v)) by (simpl; split_and!; auto).
    eexists. split; [done|]. split_and!.
    + by apply sane_grown.
    + by apply unlocked_grown.
    + by apply I1_grown.
    + apply skel_grown.
    + apply stable_grown.
    + rewrite grown_length. lia.
    + rewrite grown_length. lia.
  - left. destruct f as [c r e]. simpl in *.
    destruct (cancel_step e r fuel c w Sw Q H1 Hok) as (w' & Hrun & ? & ? & ? & ? & ? & Hl); [lia|].
    exists w'. split; [done|]. split_and!; try done; lia.
  - left. destruct (base_total w Sw fuel c Hok) as (b & ob & Hb & _); [lia|].
    simpl. rewrite (bind_run _ _ _ _ _ (Done_run fuel c w b Q Hb)).
    eexists. split; [done|].
    destruct (materialize_proj w b) as (_ & _ & _ & _ & _ & _ & Hl & _).
    split_and!.
    + by apply sane_materialize.
    + by apply unlocked_materialize.
    + by apply I1_materialize.
    + apply skel_materialize.
    + apply stable_materialize.
    + lia.
    + lia.
  - left. destruct (base_total w Sw fuel c Hok) as (b & ob & Hb & _); [lia|].
    simpl. rewrite (bind_run _ _ _ _ _ (Err_run fuel c w b Q Hb)).
    eexists. split; [done|].
    apply kept_same; try done; unfold observed; by destruct (cctx w b).
  - left. simpl. unfold fire.
    destruct (list_find (fun a => a_id a = t) (timers w)) as [[k a]|] eqn:Hfind.
    2:{ exists w. split; [done|]. by apply kept_same. }
    destruct (a_when a <=? now w)%Z.
    2:{ exists w. split; [done|]. by apply kept_same. }
    set (ws := set_timers (filter (fun a => a_id a ≠ t) (timers w)) w).
    destruct (cancel_step DeadlineExceeded true fuel (a_ctx a) ws)
      as (w' & Hrun & ? & ? & ? & ? & ? & Hl).
    { by apply (sane_same w). }
    { by apply (unlocked_same 0 w). }
    { by apply (I1_same w). }
    { by apply (Hok k a). }
    { simpl. lia. }
    exists w'. split; [done|]. split_and!; try done; simpl in Hl; lia.
  - left. simpl. eexists. split; [done|]. by apply kept_same.
Qed.

(** Well-formedness does not look at the mutexes. *)
Lemma sane_relock w w' :
  sane w → length (heap w') = length (heap w) → skel w w' →
  (∀ i a, cctx w i = Some a →
     ∃ a', cctx w' i = Some a' ∧ cc_done a' = cc_done a ∧ cc_err a' = cc_err a ∧
           cc_children a' = cc_children a) →
  closed w' = closed w → nchan w' = nchan w → sane w'.
Proof.
  intros Sw L K Hcc Hc Hn.
  assert (Hinv : ∀ i o', heap w' !! i = Some o' →
            ∃ o, heap w !! i = Some o ∧ shape o' = shape o).
  { intros i o' Ho'.
    assert (is_Some (heap w !! i)) as [o Ho].
    { apply lookup_lt_is_Some. rewrite <- L. by eapply lookup_lt_Some. }
    destruct (K i o Ho) as (o2 & ? & ?). simplify_eq. eauto. }
  assert (Hback : ∀ i a', cctx w' i = Some a' →
            ∃ a, cctx w i = Some a ∧ cc_done a' = cc_done a ∧ cc_err a' = cc_err a ∧
                 cc_children a' = cc_children a).
  { intros i a' Ha'. destruct (skel_cctx_inv w w' i a' K L Ha') as (a & Ha & _).
    destruct (Hcc i a Ha) as (a2 & Ha2 & ?). simplify_eq. eauto. }
  assert (Hsome : ∀ i, is_Some (cctx w i) → is_Some (cctx w' i)).
  { intros i [a Ha]. destruct (Hcc i a Ha) as (a' & ? & _). eauto. }
  split.
  - intros i o p Ho' Hp. destruct (Hinv _ _ Ho') as (o0 & Ho0 & Hs).
    apply (sane_parent _ Sw i o0 p Ho0).
    destruct o0, o; simpl in *; simplify_eq; try done; by rw_shape.
  - intros i p k v Ho'. destruct (Hinv _ _ Ho') as (o0 & Ho0 & Hs).
    assert (o0 = valueCtx p k v) as -> by (destruct o0; simpl in Hs; by simplify_eq).
    by eapply (sane_key _ Sw).
  - intros i x p Ho' Hv. destruct (Hinv _ _ Ho') as (o0 & Ho0 & Hs).
    assert (o0 = customCtxObj x) as -> by (destruct o0; simpl in Hs; by simplify_eq).
    destruct (sane_custom _ Sw i x p Ho0 Hv). auto.
  - intros i a' ks k Ha' Hks Hk. destruct (Hback i a' Ha') as (a & Ha & _ & _ & Hch).
    rewrite Hch in Hks. destruct (sane_children _ Sw i a ks k Ha Hks Hk). auto.
  - intros i a' d Ha' He Hd. destruct (Hback i a' Ha') as (a & Ha & Hdn & Her & _).
    rewrite Hc. apply (sane_live _ Sw i a d Ha); congruence.
  - intros i a' Ha' He. destruct (Hback i a' Ha') as (a & Ha & Hdn & Her & _).
    rewrite Hc, Hdn. apply (sane_dead _ Sw i a Ha). congruence.
  - intros i a' d Ha' Hd. destruct (Hback i a' Ha') as (a & Ha & Hdn & _).
    rewrite Hn. apply (sane_fresh _ Sw i a d Ha). congruence.
  - intros i j a1 a2 d H1 H2 Hd1 Hd2.
    destruct (Hback i a1 H1) as (b1 & Hb1 & Hdn1 & _).
    destruct (Hback j a2 H2) as (b2 & Hb2 & Hdn2 & _).
    apply (sane_inj _ Sw i j b1 b2 d); congruence.
  - rewrite Hc. apply Sw.
  - rewrite Hc, Hn. apply Sw.
Qed.

Lemma relock_cctx b m ev w i :
  cctx (relock b m ev w) i = if decide (i = b) then set_mu m <$> cctx w b else cctx w i.
Proof.
  unfold relock. destruct (heap w !! b) as [o|] eqn:Ho.
  - unfold cctx at 1. simpl. destruct (decide (i = b)) as [->|].
    + rewrite list_lookup_insert_eq by by eapply lookup_lt_Some.
      rewrite (cctx_heap _ _ _ Ho). by destruct o.
    + by rewrite list_lookup_insert_ne.
  - destruct (decide (i = b)) as [->|]; [|done]. unfold cctx. by rewrite Ho.
Qed.

Lemma relock_lookup_ne b m ev w i : i ≠ b → heap (relock b m ev w) !! i = heap w !! i.
Proof.
  intros Hi. unfold relock. destruct (heap w !! b); [|done]. simpl.
  by rewrite list_lookup_insert_ne.
Qed.

Lemma relock_proj b m ev w :
  length (heap (relock b m ev w)) = length (heap w) ∧
  closed (relock b m ev w) = closed w ∧ nchan (relock b m ev w) = nchan w.
Proof. unfold relock. destruct (heap w !! b); [|done]. simpl. by rewrite length_insert. Qed.

Lemma skel_relock b m ev w : skel w (relock b m ev w).
Proof.
  unfold relock. destruct (heap w !! b) as [o|] eqn:Ho; [|apply skel_refl].
  eapply skel_insert; [done|done|]. by apply shape_with_cancelCtx.
Qed.

Lemma sane_relock_at b m ev w : sane w → sane (relock b m ev w).
Proof.
  intros Sw. destruct (relock_proj b m ev w) as (L & C & N).
  apply (sane_relock w); try done; [apply skel_relock|].
  intros i a Ha. rewrite relock_cctx. destruct (decide (i = b)) as [->|]; [|eauto].
  rewrite Ha. simpl. eauto.
Qed.

Lemma I1_relock b m ev w : I1 w → I1 (relock b m ev w).
Proof.
  intros H i a. rewrite relock_cctx. destruct (decide (i = b)) as [->|]; [|apply H].
  destruct (cctx w b) as [x|] eqn:Hx; [|done]. simpl. intros [= <-]. by apply (H b x).
Qed.

Lemma materialize_id w b a d :
  cctx w b = Some a → cc_done a = Some d → materialize b w = w.
Proof.
  intros Ha Hd. destruct (cctx_inv _ _ _ Ha) as (o & Ho & Hoa).
  unfold materialize. by rewrite Ho, Hoa, Hd.
Qed.

(** The second check of [propagateCancel], under the lock of the parent:
    when the parent canceler [b] turns out to be cancelled, the child is
    cancelled with the error of [b] and [b] is left as it was, without
    children. *)
Lemma propagateCancel_link_dead fuel parent child w b ab e d oc :
  sane w → quiescent w → I1 w →
  base fuel parent w = Some b → cctx w b = Some ab →
  cc_err ab = Some e → cc_done ab = Some d → d ≠ closedchan →
  b < child → heap w !! child = Some oc → is_Some (cancelCtx_of oc) →
  length (heap w) < fuel →
  ∃ w', propagateCancel_link fuel parent child w = Ok (tt, w') ∧
        sane w' ∧ quiescent w' ∧ I1 w' ∧
        cctx w' b = Some ab ∧ heap w' !! child = Some (cancelled e oc).
Proof.
  intros Sw Q H1 Hb Hab He Hd Hdc Hlt Hoc Hcc Hf.
  destruct (cctx_inv _ _ _ Hab) as (ob & Hob & Hoba).
  assert (Hmu : cc_mu ab = false) by (apply (Q b ab); [lia|done]).
  unfold propagateCancel_link.
  rewrite (bind_run _ _ _ _ _ (parentCancelCtx_run fuel parent w b Sw Q Hb)).
  rewrite (materialize_id w b ab d Hab Hd).
  rewrite (parent_result_canceler w b ab Hab), Hd, bool_decide_eq_false_2 by done.
  rewrite (bind_run _ _ _ _ _ (Lock_run w b ob ab Hob Hoba Hmu)).
  set (w1 := logged (EvLock b) (put b (with_cancelCtx (set_mu true) ob) w)).
  assert (Hw1 : w1 = relock b true (EvLock b) w) by (unfold relock; by rewrite Hob).
  assert (Hb1 : cctx w1 b = Some (set_mu true ab)).
  { rewrite Hw1, relock_cctx, decide_True, Hab by done. done. }
  rewrite (bind_run _ _ w1 (set_mu true ab) w1) by by apply load_cancelCtx_run.
  change (cc_err (set_mu true ab)) with (cc_err ab). rewrite He.
  assert (S1 : sane w1) by (rewrite Hw1; by apply sane_relock_at).
  assert (U1 : unlocked_from child w1).
  { intros i a Hi. rewrite Hw1, relock_cctx, decide_False by lia. apply Q. lia. }
  assert (Hoc1 : heap w1 !! child = Some oc).
  { rewrite Hw1, relock_lookup_ne by lia. done. }
  destruct (cancel_spec e fuel child w1 oc S1 U1 Hoc1 Hcc) as (w2 & Hrun & F & Hdead & Hfin).
  { rewrite Hw1. destruct (relock_proj b true (EvLock b) w) as (-> & _). lia. }
  rewrite (bind_run _ _ _ _ _ Hrun).
  assert (Hob1 : heap w1 !! b = Some (with_cancelCtx (set_mu true) ob)).
  { apply list_lookup_insert_eq. by eapply lookup_lt_Some. }
  assert (Hob2 : heap w2 !! b = Some (with_cancelCtx (set_mu true) ob)).
  { destruct (fo_node _ _ _ _ F b _ Hob1) as (o' & Ho' & _ & Hsame). by rewrite Ho', Hsame. }
  rewrite (Unlock_run w2 b _ (set_mu true ab) Hob2 (cancelCtx_of_with _ _ _ Hoba) eq_refl).
  set (w3 := logged (EvUnlock b) _).
  assert (Hw3 : w3 = relock b false (EvUnlock b) w2) by (unfold relock; by rewrite Hob2).
  assert (S2 : sane w2) by by eapply sane_fanout.
  exists w3. split; [done|]. rewrite Hw3. split_and!.
  - by apply sane_relock_at.
  - intros i a _. rewrite relock_cctx. destruct (decide (i = b)) as [->|Hi].
    + destruct (cctx w2 b); simpl; [|done]. by intros [= <-].
    + intros Ha. destruct (fanout_cctx_inv F i a Ha) as (a0 & Ha0 & Hs).
      rewrite (cc_step_mu _ _ _ Hs). rewrite Hw1, relock_cctx, decide_False in Ha0 by done.
      apply (Q i a0); [lia|done].
  - apply I1_relock. apply (I1_fanout e child w1); [|done]. rewrite Hw1. by apply I1_relock.
  - rewrite relock_cctx, decide_True by done. rewrite (cctx_heap _ _ _ Hob2).
    rewrite (cancelCtx_of_with _ _ _ Hoba). simpl. by rewrite set_mu_undo.
  - rewrite relock_lookup_ne by lia. done.
Qed.

Lemma run_kept fuel w os w' :
  sane w → quiescent w → I1 w → run fuel w os w' →
  sane w' ∧ quiescent w' ∧ I1 w' ∧ skel w w' ∧ stable w w'.
Proof.
  intros Sw Q H1 R. induction R as [w|w o w1 os w2 Hx Hok Hf Hrun R IH].
  - split_and!; [done..|apply skel_refl|apply stable_refl].
  - destruct (exec_spec fuel o w Sw Q H1 Hx Hok Hf) as [(w' & Hrun' & K)|(? & ? & ? & ? & _ & Hp & _)];
      [|congruence].
    rewrite Hrun in Hrun'. simplify_eq.
    destruct K as (S' & Q' & I' & K' & St' & _).
    destruct (IH S' Q' I') as (? & ? & ? & ? & ?).
    split_and!; [done..| |]; [by eapply skel_trans|by eapply stable_trans].
Qed.

(** C3.  A cancelled [cancelCtx] has no children, and gets none: [cancel]
    leaves the canceler with [err] set and [children] nil; every operation
    of the package keeps invariant I1 and the error of every cancelled
    canceler; and the check of [err] that [propagateCancel] makes under the
    lock of the parent cancels the child, and registers nothing, when the
    parent is cancelled. *)
Theorem cancelled_has_no_children fuel w :
  sane w → quiescent w → I1 w → S (length (heap w)) < fuel →
  (∀ c r e, is_Some (cctx w c) →
     ∃ w' a, cancel fuel c r (Some e) w = Ok (tt, w') ∧ cctx w' c = Some a ∧
             cc_err a ≠ None ∧ cc_children a = None ∧ I1 w') ∧
  (∀ o, contract w → op_ok w o →
     (∃ w', exec fuel o w = Ok (tt, w') ∧ run fuel w [o] w') ∨
     (∃ parent key val msg, o = OpWithValue parent key val ∧ exec fuel o w = Panic msg ∧
        (key = nil_any ∨ Comparable key = false))) ∧
  (∀ os w', run fuel w os w' →
     I1 w' ∧
     ∀ i a, cctx w i = Some a → cc_err a ≠ None →
       ∃ a', cctx w' i = Some a' ∧ cc_err a' = cc_err a ∧ cc_children a' = None) ∧
  (∀ parent child b ab e d oc,
     base fuel parent w = Some b → cctx w b = Some ab →
     cc_err ab = Some e → cc_done ab = Some d → d ≠ closedchan →
     b < child → heap w !! child = Some oc → is_Some (cancelCtx_of oc) →
     ∃ w', propagateCancel_link fuel parent child w = Ok (tt, w') ∧ I1 w' ∧
           cctx w' b = Some ab ∧ cc_children ab = None ∧
           heap w' !! child = Some (cancelled e oc)).
Proof.
  intros Sw Q H1 Hf. split_and!.
  - intros c r e Hc.
    destruct (cancel_run e r fuel c w Sw Q Hc) as (w1 & w' & Hrun & F & D & K & Hd & S1 & S' & Q' & Hcc & _);
      [lia|].
    destruct Hd as (a & Ha & He).
    assert (I' : I1 w').
    { apply (I1_detached c w1); [|done..]. by apply (I1_fanout e c w). }
    exists w', a. rewrite Hcc. split_and!; try done. apply (I' c a); [by rewrite Hcc|done].
  - intros o Hx Hok.
    destruct (exec_spec fuel o w Sw Q H1 Hx Hok Hf) as [(w' & Hrun & K)|Hpanic].
    + left. exists w'. split; [done|]. eapply run_cons; [done..|constructor].
    + by right.
  - intros os w' R. destruct (run_kept fuel w os w' Sw Q H1 R) as (_ & _ & I' & _ & St).
    split; [done|]. intros i a Ha He. destruct (St i a Ha He) as (a' & Ha' & He').
    exists a'. split_and!; [done..|]. apply (I' i a' Ha'). congruence.
  - intros parent child b ab e d oc Hb Hab He Hd Hdc Hlt Hoc Hcc.
    destruct (propagateCancel_link_dead fuel parent child w b ab e d oc Sw Q H1)
      as (w' & Hrun & _ & _ & I' & Hb' & Hc'); try done; [lia|].
    exists w'. split_and!; try done. apply (H1 b ab Hab). congruence.
Qed.

Lemma skel_timer w w' c t :
  skel w w' → heap w !! c = Some (timerCtxObj t) →
  ∃ t', heap w' !! c = Some (timerCtxObj t') ∧ tc_deadline t' = tc_deadline t.
Proof.
  intros K Ho. destruct (K c _ Ho) as (o' & Ho' & Hs).
  destruct o'; simpl in Hs; simplify_eq. eauto.
Qed.

Lemma cancelled_timer e t :
  ∃ t', cancelled e (timerCtxObj t) = timerCtxObj t' ∧ tc_timer t' = None ∧
        tc_deadline t' = tc_deadline t.
Proof. unfold cancelled. simpl. destruct (cc_err (tc_cancelCtx t)); simpl; eauto. Qed.

Lemma Deadline_timer fuel c w t :
  heap w !! c = Some (timerCtxObj t) → Deadline (S fuel) c w = Ok (tc_deadline t, true).
Proof. intros Ho. simpl. by rewrite Ho. Qed.

(** C10.  The [timerCtx] that [WithDeadline] returns on the path that is
    not degraded reports the requested deadline, with the flag set, and goes
    on doing so whatever operations follow: cancelling it, in particular,
    clears its timer and leaves the deadline. *)
Theorem timerCtx_Deadline_is_fixed fuel parent d w cur :
  sane w → quiescent w → I1 w → contract w →
  parent < length (heap w) → S (S (length (heap w))) < fuel →
  Deadline fuel parent w = Ok cur → snd cur && (fst cur <? d)%Z = false →
  ∃ c f w' t,
    WithDeadline fuel (Some parent) d w = Ok ((c, f), w') ∧
    heap w' !! c = Some (timerCtxObj t) ∧ tc_deadline t = d ∧
    Deadline fuel c w' = Ok (d, true) ∧
    (∀ os w'', run fuel w' os w'' →
       ∃ t', heap w'' !! c = Some (timerCtxObj t') ∧ tc_deadline t' = d ∧
             Deadline fuel c w'' = Ok (d, true)) ∧
    (∀ r e, ∃ w'' t', cancel fuel c r (Some e) w' = Ok (tt, w'') ∧
       heap w'' !! c = Some (timerCtxObj t') ∧ tc_timer t' = None ∧ tc_deadline t' = d ∧
       Deadline fuel c w'' = Ok (d, true)).
Proof.
  intros Sw Q H1 Hx Hp Hf Hdl Hnd.
  destruct fuel as [|fuel]; [lia|].
  set (c := length (heap w)).
  set (o := timerCtxObj (mkTimerCtx (newCancelCtx parent) None d)).
  destruct (WithDeadline_step (S fuel) parent d w Sw Q H1 Hx Hp) as ([c' f] & w' & Hrun & K);
    [lia|].
  destruct K as (S' & Q' & I' & _ & _ & _ & Hlen').
  destruct (WithDeadline_run (S fuel) parent d w cur Sw Q Hp) as (w1 & _ & S1 & Q1 & L & _ & Ho1 & Hrun1);
    [lia|by apply contract_base|done..|].
  fold c o in L, Ho1, Hrun1.
  assert (Ht1 : ∃ t1, heap w1 !! c = Some (timerCtxObj t1) ∧ tc_deadline t1 = d).
  { destruct Ho1 as [-> | [e ->]]; [by eexists|]. unfold o.
    destruct (cancelled_timer e (mkTimerCtx (newCancelCtx parent) None d)) as (t' & -> & _ & ?).
    eauto. }
  destruct Ht1 as (t1 & Ht1 & Hd1).
  assert (Hc' : c' = c ∧ skel w1 w').
  { rewrite Hrun in Hrun1. destruct (d - now w <=? 0)%Z.
    - destruct (cancel_step DeadlineExceeded true (S fuel) c w1 S1 Q1) as (w2 & Hc2 & _ & _ & _ & K2 & _).
      { destruct (linked_step o (newCancelCtx parent) w w1 Sw H1) as (? & _); try done. }
      { rewrite (cctx_heap _ _ _ Ht1). by eexists. }
      { destruct L as (-> & _). rewrite grown_length. lia. }
      rewrite Hc2 in Hrun1. simpl in Hrun1. by simplify_eq.
    - simplify_eq. split; [done|]. apply skel_arm. }
  destruct Hc' as [-> K1].
  destruct (skel_timer w1 w' c t1 K1 Ht1) as (t & Ht & Hd).
  exists c, f, w', t. split_and!; try done.
  - congruence.
  - rewrite (Deadline_timer fuel c w' t Ht). congruence.
  - intros os w'' R. destruct (run_kept (S fuel) w' os w'' S' Q' I' R) as (_ & _ & _ & K'' & _).
    destruct (skel_timer w' w'' c t K'' Ht) as (t' & Ht' & Hd').
    exists t'. split_and!; [done|congruence|].
    rewrite (Deadline_timer fuel c w'' t' Ht'). congruence.
  - intros r e.
    destruct (cancel_object e r (S fuel) c w' (timerCtxObj t) (tc_cancelCtx t) S' Q' Ht eq_refl)
      as (wk & w'' & Hcan & _ & _ & _ & _ & _ & Ho''); [lia|].
    destruct (cancelled_timer e t) as (t' & Heq & Htm & Hd').
    rewrite Heq in Ho''. exists w'', t'. split_and!; try done; [congruence|].
    rewrite (Deadline_timer fuel c w'' t' Ho''). congruence.
Qed.

(** ** Soundness of the boolean invariants *)

Lemma all_objects_spec P w i o :
  all_objects P w = true → heap w !! i = Some o → P i o = true.
Proof.
  unfold all_objects. rewrite forallb_forall. intros H Ho.
  apply (H (i, o)). apply list_elem_of_In. by apply (elem_of_lookup_imap_2 pair).
Qed.

Lemma all_cctx_spec P w i a :
  all_cctx P w = true → cctx w i = Some a → P i a = true.
Proof.
  intros H Ha. destruct (cctx_inv _ _ _ Ha) as (o & Ho & Hoa).
  pose proof (all_objects_spec _ w i o H Ho) as HP. simpl in HP. by rewrite Hoa in HP.
Qed.

Lemma forallb_elem_of {A} (f : A → bool) l x : forallb f l = true → x ∈ l → f x = true.
Proof. rewrite forallb_forall. intros H Hx. by apply H, list_elem_of_In. Qed.

Lemma sane_b_sound w : sane_b w = true → sane w.
Proof.
  unfold sane_b. rewrite !andb_true_iff. intros ((((Hp & Hk) & Hc) & Hcc) & Hcl).
  assert (Hca : ∀ i a, cctx w i = Some a →
    (∀ k, k ∈ default [] (cc_children a) → i < k ∧ is_Some (cctx w k)) ∧
    match cc_done a with
    | Some d => d < nchan w ∧ (d ∈ closed w ↔ cc_err a ≠ None) ∧
                ∀ j b, cctx w j = Some b → cc_done b = Some d → i = j ∨ d = closedchan
    | None => cc_err a = None
    end).
  { intros i a Ha. pose proof (all_cctx_spec _ w i a Hc Ha) as H. simpl in H.
    apply andb_true_iff in H as [Hks Hd]. split.
    - intros k Hin. pose proof (forallb_elem_of _ _ k Hks Hin) as Hkk.
      apply andb_true_iff in Hkk as [?%Nat.ltb_lt ?%bool_decide_eq_true]. done.
    - destruct (cc_done a) as [d|]; [|by apply bool_decide_eq_true in Hd].
      apply andb_true_iff in Hd as [Hd Hinj]. apply andb_true_iff in Hd as [Hlt Hiff].
      apply Nat.ltb_lt in Hlt. apply bool_decide_eq_true in Hiff. split_and!; [done..|].
      intros j b Hb Hdb. pose proof (all_cctx_spec _ w j b Hinj Hb) as Hj. simpl in Hj.
      apply bool_decide_eq_true in Hj. by apply Hj. }
  split.
  - intros i o p Ho Hpo. pose proof (all_objects_spec _ w i o Hp Ho) as H. simpl in H.
    rewrite Hpo in H. by apply Nat.ltb_lt.
  - intros i p k v Ho. pose proof (all_objects_spec _ w i _ Hk Ho) as H. simpl in H.
    apply andb_true_iff in H as [H H3]. apply andb_true_iff in H as [H1 H2].
    apply bool_decide_eq_true in H2, H3. done.
  - intros i x p Ho Hv. pose proof (all_objects_spec _ w i _ Hk Ho) as H. simpl in H.
    rewrite Hv in H. apply andb_true_iff in H as [?%Nat.ltb_lt ?%bool_decide_eq_true]. done.
  - intros i a ks k Ha Hks Hin. destruct (Hca i a Ha) as [H _]. apply H. by rewrite Hks.
  - intros i a d Ha He Hd. destruct (Hca i a Ha) as [_ H]. rewrite Hd in H.
    destruct H as (_ & Hiff & _). intros Hin. by apply Hiff in Hin.
  - intros i a Ha He. destruct (Hca i a Ha) as [_ H].
    destruct (cc_done a) as [d|]; [|done]. destruct H as (_ & Hiff & _).
    exists d. split; [done|]. by apply Hiff.
  - intros i a d Ha Hd. destruct (Hca i a Ha) as [_ H]. rewrite Hd in H. by destruct H.
  - intros i j a b d Ha Hb Hda Hdb. destruct (Hca i a Ha) as [_ H]. rewrite Hda in H.
    destruct H as (_ & _ & H). by apply (H j b).
  - by apply bool_decide_eq_true in Hcc.
  - intros d Hin. by apply Nat.ltb_lt, (forallb_elem_of _ _ d Hcl).
Qed.

Lemma quiescent_b_sound w : quiescent_b w = true → quiescent w.
Proof.
  intros H i a _ Ha. pose proof (all_cctx_spec _ w i a H Ha) as Hm. simpl in Hm.
  by destruct (cc_mu a).
Qed.

Lemma I1_b_sound w : I1_b w = true → I1 w.
Proof.
  intros H i a Ha. pose proof (all_cctx_spec _ w i a H Ha) as Hm. simpl in Hm.
  by apply bool_decide_eq_true in Hm.
Qed.

Lemma I2_b_sound w : I2_b w = true → I2 w.
Proof.
  intros H i a ks k Ha Hks Hin. pose proof (all_cctx_spec _ w i a H Ha) as Hm. simpl in Hm.
  rewrite Hks in Hm. simpl in Hm. pose proof (forallb_elem_of _ _ k Hm Hin) as Hk.
  simpl in Hk. destruct (cctx w k) as [b|]; [|done]. apply bool_decide_eq_true in Hk. eauto.
Qed.

Lemma contract_b_sound w : contract_b w = true → contract w.
Proof.
  intros H i x d Ho Hd Hin. pose proof (all_objects_spec _ w i _ H Ho) as Hm. simpl in Hm.
  rewrite Hd in Hm. apply bool_decide_eq_true in Hm. by apply Hm.
Qed.

(** ** The properties on concrete worlds *)

Lemma cancel_idempotent_witness :
  ∃ w1 w2 a,
    cancel 9 2 true (Some Canceled) w_chain = Ok (tt, w1) ∧ cctx w1 2 = Some a ∧
    cancel 9 2 false (Some DeadlineExceeded) w1 = Ok (tt, w2) ∧ cctx w2 2 = Some a ∧
    cc_err a = Some Canceled.
Proof.
  destruct (cancel_idempotent Canceled DeadlineExceeded true false 9 2 w_chain)
    as (w1 & w2 & a & H1 & H2 & _ & _ & H5 & H6 & H7 & _).
  - by_check sane_b_sound.
  - by_check quiescent_b_sound.
  - eexists. by_run.
  - by_run.
  - exists w1, w2, a. repeat split; try assumption.
    eapply H5; by_run.
Defined.

Lemma cancel_propagates_witness :
  ∃ w', cancel 9 2 true (Some Canceled) w_chain = Ok (tt, w') ∧
    (∃ a, cctx w' 3 = Some a ∧ cc_err a = Some Canceled) ∧
    (∃ a, cctx w' 4 = Some a ∧ cc_err a = Some Canceled).
Proof.
  destruct (cancel_propagates Canceled true 9 2 3 4 w_chain
              (mkCancelCtx 0 false (Some 1) (Some [3]) None)
              (mkCancelCtx 2 false (Some 2) (Some [4]) None) [3] [4])
    as (w' & H1 & _ & (a & d & Ha & Hea & _) & (b & d' & Hb & Heb & _)).
  - by_check sane_b_sound.
  - by_check quiescent_b_sound.
  - by_check I1_b_sound.
  - by_check I2_b_sound.
  - by_run.
  - by_run.
  - constructor.
  - by_run.
  - by_run.
  - constructor.
  - by_run.
  - exists w'. split; [assumption|].
    split; [exists a; exact (conj Ha Hea)|exists b; exact (conj Hb Heb)].
Defined.

Lemma fanout_holds_parent_lock_witness :
  ∃ w' t1 t2 t3,
    cancel 9 2 true (Some Canceled) w_chain = Ok (tt, w') ∧
    trace w' = trace w_chain ++ EvLock 2 :: t1 ++ EvLock 3 :: t2 ++ EvUnlock 2 :: t3.
Proof.
  destruct (fanout_holds_parent_lock Canceled true 9 2 w_chain
              (mkCancelCtx 0 false (Some 1) (Some [3]) None) [3] 3)
    as (w' & t1 & t2 & t3 & H1 & H2 & _).
  - by_check sane_b_sound.
  - by_check quiescent_b_sound.
  - by_check I2_b_sound.
  - by_run.
  - by_run.
  - by_run.
  - constructor.
  - by_run.
  - exists w', t1, t2, t3. exact (conj H1 H2).
Defined.

Lemma value_shadowing_and_fallthrough_witness :
  ∃ c1 w1 c2 w2,
    WithValue (Some background) (string_any "user") (int_any 1) init_world = Ok (c1, w1) ∧
    WithValue (Some c1) (string_any "user") (int_any 2) w1 = Ok (c2, w2) ∧
    Value 9 c2 (string_any "user") w2 = Ok (int_any 2).
Proof.
  destruct (proj1 value_shadowing_and_fallthrough 9 background (string_any "user")
              (int_any 1) (int_any 2) init_world) as (c1 & w1 & c2 & w2 & H1 & H2 & H3 & _).
  - discriminate.
  - reflexivity.
  - exists c1, w1, c2, w2. exact (conj H1 (conj H2 (H3 eq_refl))).
Defined.

Lemma closed_parent_cancels_child_witness :
  ∃ c f w', WithDeadline 9 (Some 2) 7 w_cancelled = Ok ((c, f), w') ∧
            born_cancelled Canceled c w'.
Proof.
  destruct (closed_parent_cancels_child 9 2 w_cancelled 0 Canceled 7
              (world_after (Done 9 2) w_cancelled) (world_after (Err 9 2) w_cancelled))
    as [_ (c & f & w' & H1 & H2 & _)].
  - by_check sane_b_sound.
  - by_check quiescent_b_sound.
  - by_run.
  - by_run.
  - by_run.
  - vm_compute. constructor.
  - by_run.
  - exists c, f, w'. exact (conj H1 H2).
Defined.

Lemma expired_deadline_cancels_witness :
  ∃ c f w' w2,
    WithDeadline 9 (Some 2) (-1) w_chain = Ok ((c, f), w') ∧
    Err 9 c w' = Ok (Some DeadlineExceeded, w2) ∧ ntimer w' = ntimer w_chain.
Proof.
  destruct (expired_deadline_cancels 9 2 (-1) w_chain (0%Z, false))
    as (c & f & w' & t & ch & H1 & _ & _ & _ & _ & _ & (w2 & H2) & H3 & _).
  - by_check sane_b_sound.
  - by_check quiescent_b_sound.
  - by_run.
  - by_run.
  - by_run.
  - by_run.
  - intros ch w0 H. vm_compute in H. injection H as <- _.
    apply (bool_decide_eq_true_1 (1 ∉ closed w_chain)). vm_compute. reflexivity.
  - by_run.
  - exists c, f, w', w2. exact (conj H1 (conj H2 H3)).
Defined.


Lemma timerCtx_Deadline_is_fixed_witness :
  ∃ c f w' w'',
    WithDeadline 9 (Some background) 5 init_world = Ok ((c, f), w') ∧
    Deadline 9 c w' = Ok (5%Z, true) ∧
    cancel 9 c true (Some Canceled) w' = Ok (tt, w'') ∧
    Deadline 9 c w'' = Ok (5%Z, true).
Proof.
  destruct (timerCtx_Deadline_is_fixed 9 background 5 init_world (0%Z, false))
    as (c & f & w' & t & H1 & _ & _ & H2 & _ & H3).
  - by_check sane_b_sound.
  - by_check quiescent_b_sound.
  - by_check I1_b_sound.
  - by_check contract_b_sound.
  - by_run.
  - by_run.
  - by_run.
  - by_run.
  - destruct (H3 true Canceled) as (w'' & t' & H4 & _ & _ & _ & H5).
    exists c, f, w', w''. exact (conj H1 (conj H2 (conj H4 H5))).
Defined.

Lemma cancelled_has_no_children_witness :
  ∃ w', propagateCancel_link 9 2 3 w_race = Ok (tt, w') ∧ I1 w' ∧
        heap w' !! 3 = Some (cancelled Canceled (cancelCtxObj (newCancelCtx 2))).
Proof.
  destruct (cancelled_has_no_children 9 w_race) as (_ & _ & _ & H).
  - by_check sane_b_sound.
  - by_check quiescent_b_sound.
  - by_check I1_b_sound.
  - by_run.
  - destruct (H 2 3 2 (mkCancelCtx 0 false (Some 1) None (Some Canceled)) Canceled 1
                (cancelCtxObj (newCancelCtx 2)))
      as (w' & H1 & H2 & _ & _ & H3).
    + by_run.
    + by_run.
    + by_run.
    + by_run.
    + by_run.
    + by_run.
    + by_run.
    + eexists. by_run.
    + exists w'. exact (conj H1 (conj H2 H3)).
Defined.

Lemma expired_deadline_always_exceeded_counterexample :
  (∃ c f w' w2, WithDeadline 9 (Some 2) (-1) w_cancelled = Ok ((c, f), w') ∧
                Err 9 c w' = Ok (Some Canceled, w2)) ∧
  (∃ c f w' w2, WithDeadline 9 (Some 2) 7 w_late = Ok ((c, f), w') ∧
                Err 9 c w' = Ok (None, w2)) ∧
  ¬ expired_deadline_always_exceeded.
Proof.
  split; [|split].
  - eexists _, _, _, _. split; vm_compute; reflexivity.
  - eexists _, _, _, _. split; vm_compute; reflexivity.
  - intros H.
    assert (E : Some Canceled = Some DeadlineExceeded); [|discriminate E].
    eapply (H 9 2 (-1)%Z w_cancelled).
    + by_check sane_b_sound.
    + by_check quiescent_b_sound.
    + by_run.
    + by_run.
    + vm_compute. reflexivity.
    + vm_compute. reflexivity.
Qed.

Lemma children_cancelled_after_unlock_counterexample :
  (∃ w', cancel 9 2 true (Some Canceled) w_chain = Ok (tt, w') ∧
         trace w' = trace w_chain ++
           [EvLock 2; EvLock 3; EvLock 4; EvUnlock 4; EvUnlock 3; EvUnlock 2]) ∧
  ¬ children_cancelled_after_unlock.
Proof.
  split.
  - eexists. split; vm_compute; reflexivity.
  - intros H.
    assert (E : EvUnlock 2 ∈ [EvLock 2]).
    { eapply (H 9 2 true Canceled w_chain _
                (mkCancelCtx 0 false (Some 1) (Some [3]) None) [3] 3).
      - by_check sane_b_sound.
      - by_check quiescent_b_sound.
      - by_run.
      - by_run.
      - by_run.
      - constructor.
      - vm_compute. reflexivity.
      - vm_compute. reflexivity. }
    apply list_elem_of_singleton in E. discriminate E.
Qed.

Lemma inner_binding_always_shadows_counterexample :
  (∃ c1 w1 c2 w2,
     WithValue (Some background) nan_any (int_any 1) init_world = Ok (c1, w1) ∧
     WithValue (Some c1) nan_any (int_any 2) w1 = Ok (c2, w2) ∧
     Value 9 c2 nan_any w2 = Ok nil_any) ∧
  (∃ c1 w1 c2 w2,
     WithValue (Some background) (struct_any (slice_any [])) (int_any 1) init_world
     = Ok (c1, w1) ∧
     WithValue (Some c1) (struct_any (slice_any [])) (int_any 2) w1 = Ok (c2, w2) ∧
     Value 9 c2 (struct_any (slice_any [])) w2
     = Panic "runtime error: comparing uncomparable type []int") ∧
  ¬ inner_binding_always_shadows.
Proof.
  split; [|split].
  - exists 2, (grown (valueCtx background nan_any (int_any 1)) init_world),
      3, (grown (valueCtx 2 nan_any (int_any 2))
            (grown (valueCtx background nan_any (int_any 1)) init_world)).
    split; [|split]; vm_compute; reflexivity.
  - exists 2, (grown (valueCtx background (struct_any (slice_any [])) (int_any 1)) init_world),
      3, (grown (valueCtx 2 (struct_any (slice_any [])) (int_any 2))
            (grown (valueCtx background (struct_any (slice_any [])) (int_any 1)) init_world)).
    split; [|split]; vm_compute; reflexivity.
  - intros H.
    assert (E : Ok nil_any = Ok (int_any 2)); [|discriminate E].
    rewrite <- (H 9 background nan_any (int_any 1) (int_any 2) init_world
                  2 (grown (valueCtx background nan_any (int_any 1)) init_world)
                  3 (grown (valueCtx 2 nan_any (int_any 2))
                       (grown (valueCtx background nan_any (int_any 1)) init_world))).
    + vm_compute. reflexivity.
    + vm_compute. reflexivity.
    + vm_compute. reflexivity.
Qed.

(** ** Further properties of package [context] *)

Lemma skel_emptyCtx w w' c :
  skel w w' → heap w !! c = Some emptyCtx → heap w' !! c = Some emptyCtx.
Proof.
  intros K H. destruct (K c _ H) as (o' & Ho' & Hs). by destruct o'.
Qed.

(** X17.  A root context ([Background], [TODO]) is never cancelled: whatever
    operations run, [Done] answers nil, [Err] nil, [Deadline] no deadline
    and [Value] nil for every key, and asking changes nothing. *)
Theorem emptyCtx_is_never_cancelled fuel n os w w' c key :
  sane w → quiescent w → I1 w → heap w !! c = Some emptyCtx → run fuel w os w' →
  Done (S n) c w' = Ok (None, w') ∧ Err (S n) c w' = Ok (None, w') ∧
  Deadline (S n) c w' = Ok (0%Z, false) ∧ Value n c key w' = Ok nil_any.
Proof.
  intros Sw Q H1 Hc R.
  destruct (run_kept fuel w os w' Sw Q H1 R) as (_ & _ & _ & K & _).
  pose proof (skel_emptyCtx w w' c K Hc) as Hc'.
  split_and!.
  - simpl. unfold bind. by rewrite (load_run _ _ _ Hc').
  - simpl. unfold bind. by rewrite (load_run _ _ _ Hc').
  - simpl. by rewrite Hc'.
  - unfold Value. by rewrite Hc'.
Qed.

(** X18.  [Done] of a context over a canceler returns one channel, the same
    on every call, and after the first call asking changes nothing; the
    channel is closed exactly when [Err] is not nil. *)
Theorem Done_closed_iff_Err fuel c w b a :
  sane w → quiescent w → base fuel c w = Some b → cctx w b = Some a →
  ∃ d w1,
    Done fuel c w = Ok (Some d, w1) ∧
    Done fuel c w1 = Ok (Some d, w1) ∧
    (∃ w2, Err fuel c w1 = Ok (cc_err a, w2)) ∧
    closed w1 = closed w ∧
    (d ∈ closed w1 ↔ cc_err a ≠ None).
Proof.
  intros Sw Q Hb Ha.
  set (d := default (nchan w) (cc_done a)).
  set (w1 := materialize b w).
  assert (Hcc1 : cctx w1 b = Some (set_done (Some d) a)).
  { unfold w1. rewrite materialize_cctx, Ha. by rewrite decide_True. }
  assert (Hd1 : done_of w1 b = Some d) by by rewrite (done_of_cctx _ _ _ Hcc1).
  assert (Q1 : quiescent w1) by by apply unlocked_materialize.
  assert (Hb1 : base fuel c w1 = Some b).
  { apply (base_skel w); [apply skel_materialize|done]. }
  assert (Hcl : closed w1 = closed w) by apply materialize_proj.
  exists d, w1. split_and!.
  - rewrite (Done_run fuel c w b Q Hb). fold w1. by rewrite Hd1.
  - rewrite (Done_run fuel c w1 b Q1 Hb1). unfold w1. rewrite materialize_idem.
    fold w1. by rewrite Hd1.
  - eexists. rewrite (Err_run fuel c w1 b Q1 Hb1). unfold w1 at 1.
    by rewrite err_of_materialize, (err_of_cctx _ _ _ Ha).
  - done.
  - rewrite Hcl. unfold d. destruct (cc_done a) as [d0|] eqn:Hd0; simpl.
    + split.
      * intros Hin. by apply (native_contract w b a d0).
      * intros He. destruct (sane_dead _ Sw b a Ha He) as (d' & Hd' & Hin').
        by simplify_eq.
    + split.
      * intros Hin. apply (sane_closed _ Sw) in Hin. lia.
      * intros He. destruct (sane_dead _ Sw b a Ha He) as (d' & Hd' & _). congruence.
Qed.

Lemma native_base_contract fuel parent w b ab :
  base fuel parent w = Some b → cctx w b = Some ab →
  ∀ b' x d, base fuel parent w = Some b' → heap w !! b' = Some (customCtxObj x) →
    x_Done x = Some d → d ∈ closed w → x_Err x ≠ None.
Proof.
  intros Hb Hab b' x d Hb' Hx. simplify_eq.
  by rewrite (cctx_heap _ _ _ Hx) in Hab.
Qed.

Lemma base_any_fuel w fuel fuel' parent b :
  sane w → parent < length (heap w) → parent < fuel' →
  base fuel parent w = Some b → base fuel' parent w = Some b.
Proof.
  intros Sw Hp Hf Hb.
  destruct (base_total w Sw fuel' parent Hp Hf) as (b' & o & Hb' & _).
  destruct (decide (fuel ≤ fuel')) as [Hle|Hle].
  - by apply (base_mono w fuel parent b fuel').
  - pose proof (base_mono w fuel' parent b' fuel Hb' ltac:(lia)). congruence.
Qed.

(** X19.  [WithCancel] on a parent whose canceler is not cancelled returns a
    new context that is not cancelled and adds it to the children of that
    canceler, and of no other.  The [CancelFunc] cancels the new context
    with [Canceled], takes it out of the children again, and leaves the
    canceler of the parent not cancelled. *)
Theorem WithCancel_registers_CancelFunc_removes fuel parent w b ab :
  sane w → quiescent w → parent < length (heap w) → S (length (heap w)) < fuel →
  base fuel parent w = Some b → cctx w b = Some ab → cc_err ab = None →
  ∃ f w1 a1 ks1 w2 a3 ks3,
    let c := length (heap w) in
    WithCancel fuel (Some parent) w = Ok ((c, f), w1) ∧
    cctx w1 c = Some (newCancelCtx parent) ∧
    cctx w1 b = Some a1 ∧ cc_err a1 = None ∧ cc_children a1 = Some ks1 ∧
    (∀ k, k ∈ ks1 ↔ k = c ∨ k ∈ default [] (cc_children ab)) ∧
    call fuel f w1 = Ok (tt, w2) ∧
    cctx w2 c = Some (kill_cc Canceled (newCancelCtx parent)) ∧
    closedchan ∈ closed w2 ∧
    cctx w2 b = Some a3 ∧ cc_err a3 = None ∧ cc_children a3 = Some ks3 ∧
    (∀ k, k ∈ ks3 ↔ k ∈ default [] (cc_children ab)).
Proof.
  intros Sw Q Hp Hf Hb Hab He.
  set (c := length (heap w)). set (o := cancelCtxObj (newCancelCtx parent)).
  assert (N : new_object w o) by (simpl; by split).
  assert (Hbl : b < length (heap w)) by by eapply cctx_lt.
  destruct (WithCancel_run fuel parent w Sw Q Hp) as (w1 & Hrun & _ & S1 & Q1 & L & R & _);
    [lia|by apply (native_base_contract fuel parent w b ab)|].
  fold c o in Hrun, L, R.
  pose proof (link_result_registered fuel parent o w w1 b ab Sw Hp N R Hb Hab He) as Hw1.
  fold c in Hw1.
  set (d := default (nchan w) (cc_done ab)).
  set (a1 := reg_cc c (set_done (Some d) ab)).
  assert (Hbc : b ≠ c) by (unfold c; lia).
  assert (Hcb1 : cctx w1 b = Some a1).
  { rewrite Hw1, critical_cctx, decide_True by done.
    rewrite materialize_cctx, grown_cctx, decide_False by done.
    rewrite Hab. simpl. rewrite decide_True by done. done. }
  assert (Hcc1 : cctx w1 c = Some (newCancelCtx parent)).
  { rewrite Hw1, critical_cctx, decide_False by done.
    rewrite materialize_cctx, grown_cctx, decide_True by done. simpl.
    by rewrite decide_False by done. }
  destruct (cctx_inv _ _ _ Hcc1) as (oc & Hoc & Hoca).
  assert (Hlen1 : length (heap w1) = S (length (heap w))).
  { destruct L as (-> & _). apply grown_length. }
  destruct fuel as [|fuel']; [lia|].
  destruct (cancel_top Canceled fuel' c true w1 oc (newCancelCtx parent) S1 Q1 Hoc Hoca)
    as (wk & Hcan & F & Hdk & Hok & _); [lia|].
  simpl in Hok.
  assert (Hocs : oc = cancelCtxObj (newCancelCtx parent)).
  { destruct L as (_ & K & _).
    destruct (K c o) as (o' & Ho' & Hsh).
    - rewrite grown_lookup. by rewrite decide_True.
    - rewrite Hoc in Ho'. simplify_eq. destruct o'; simpl in *; by simplify_eq. }
  subst oc.
  assert (Hfin : finish fuel' c true (cancelCtxObj (newCancelCtx parent)) wk
                 = detach fuel' parent c wk) by done.
  rewrite Hfin in Hcan.
  assert (Sk : sane wk) by by apply (sane_fanout Canceled c w1).
  assert (Kw : skel w wk).
  { apply (skel_trans _ (grown o w)); [apply skel_grown|].
    apply (skel_trans _ w1); [by destruct L as (_ & K & _)|by apply (skel_fanout Canceled c)]. }
  assert (Hbk : base fuel' parent wk = Some b).
  { apply (base_skel w); [done|].
    apply (base_any_fuel w (S fuel')); [done|done|lia|done]. }
  assert (Hcbk : cctx wk b = Some a1).
  { destruct (fanout_cctx F b a1 Hcb1) as (x & Hx & _ & Hsame).
    rewrite Hx. f_equal. apply Hsame. unfold c. lia. }
  assert (Hd1 : d ≠ closedchan).
  { intros Hd. apply (sane_live _ S1 b a1 d Hcb1); [done|done|].
    rewrite Hd. apply S1. }
  assert (Hmk : materialize b wk = wk) by by apply (materialize_id wk b a1 d).
  assert (Hdet : detach fuel' parent c wk = critical b (unreg_cc c) wk).
  { unfold detach. rewrite Hbk, Hmk, (parent_result_canceler wk b a1 Hcbk). simpl.
    by rewrite bool_decide_eq_false_2. }
  rewrite Hdet in Hcan.
  set (ks0 := default [] (cc_children ab)).
  assert (Hks0 : ∀ k, k ∈ ks0 → k ≠ c).
  { intros k Hk. unfold ks0 in Hk. destruct (cc_children ab) as [ks|] eqn:Hks; simpl in Hk.
    - destruct (sane_children _ Sw b ab ks k Hab Hks Hk) as (_ & (x & Hx)).
      apply cctx_lt in Hx. unfold c. lia.
    - by apply elem_of_nil in Hk. }
  exists (mkCancelFunc c true Canceled), w1, a1, (add_child c ks0),
    (critical b (unreg_cc c) wk), (unreg_cc c a1),
    (filter (fun k => k ≠ c) (add_child c ks0)).
  cbv zeta. split_and!; try done.
  - intros k. apply elem_of_add_child.
  - rewrite critical_cctx, decide_False by done.
    by rewrite (cctx_heap _ _ _ Hok).
  - destruct (critical_proj b (unreg_cc c) wk) as (-> & _).
    apply (fo_closed_old _ _ _ _ F). apply S1.
  - by rewrite critical_cctx, decide_True, Hcbk by done.
  - intros k. rewrite list_elem_of_filter, elem_of_add_child. split.
    + by intros (Hne & [-> | Hin]).
    + intros Hin. split; [by apply Hks0|by right].
Qed.

Lemma list_find_app_new (l : list armed) (x : armed) :
  (∀ y, y ∈ l → a_id y ≠ a_id x) →
  list_find (fun a => a_id a = a_id x) (l ++ [x]) = Some (length l, x).
Proof.
  intros Hl. apply list_find_Some. split_and!.
  - by rewrite lookup_app_r, Nat.sub_diag by lia.
  - done.
  - intros j y Hj Hlt. rewrite lookup_app_l in Hj by done.
    apply Hl. by eapply list_elem_of_lookup_2.
Qed.


Lemma emptyCtx_is_never_cancelled_witness :
  ∃ w', run 9 init_world [OpWithCancel background; OpTick 3] w' ∧
        Done 3 background w' = Ok (None, w') ∧ Err 3 background w' = Ok (None, w') ∧
        Deadline 3 background w' = Ok (0%Z, false) ∧
        Value 2 background (cancelCtx_ptr 2) w' = Ok nil_any.
Proof.
  set (w1 := world_after (exec 9 (OpWithCancel background)) init_world).
  set (w2 := world_after (exec 9 (OpTick 3)) w1).
  assert (R : run 9 init_world [OpWithCancel background; OpTick 3] w2).
  { apply (run_cons 9 init_world (OpWithCancel background) w1 [OpTick 3] w2).
    - by_check contract_b_sound.
    - by_run.
    - by_run.
    - vm_compute. reflexivity.
    - apply (run_cons 9 w1 (OpTick 3) w2 [] w2).
      + by_check contract_b_sound.
      + exact I.
      + by_run.
      + vm_compute. reflexivity.
      + apply run_nil. }
  exists w2. split; [exact R|].
  apply (emptyCtx_is_never_cancelled 9 2 [OpWithCancel background; OpTick 3]
           init_world w2 background (cancelCtx_ptr 2)).
  - by_check sane_b_sound.
  - by_check quiescent_b_sound.
  - by_check I1_b_sound.
  - reflexivity.
  - exact R.
Defined.

Lemma Done_closed_iff_Err_witness :
  ∃ d w1, Done 9 3 w_chain = Ok (Some d, w1) ∧ Done 9 3 w1 = Ok (Some d, w1) ∧
          (∃ w2, Err 9 3 w1 = Ok (None, w2)) ∧ closed w1 = closed w_chain.
Proof.
  destruct (Done_closed_iff_Err 9 3 w_chain 3 (mkCancelCtx 2 false (Some 2) (Some [4]) None))
    as (d & w1 & H1 & H2 & H3 & H4 & _).
  - by_check sane_b_sound.
  - by_check quiescent_b_sound.
  - vm_compute. reflexivity.
  - vm_compute. reflexivity.
  - exists d, w1. exact (conj H1 (conj H2 (conj H3 H4))).
Defined.

Lemma WithCancel_registers_CancelFunc_removes_witness :
  ∃ f w1 w2 a1 a3,
    WithCancel 9 (Some 3) w_chain = Ok ((5, f), w1) ∧
    cctx w1 3 = Some a1 ∧ (∀ k, k ∈ default [] (cc_children a1) ↔ k = 5 ∨ k ∈ [4]) ∧
    call 9 f w1 = Ok (tt, w2) ∧
    cctx w2 5 = Some (kill_cc Canceled (newCancelCtx 3)) ∧
    cctx w2 3 = Some a3 ∧ cc_err a3 = None ∧
    (∀ k, k ∈ default [] (cc_children a3) ↔ k ∈ [4]).
Proof.
  destruct (WithCancel_registers_CancelFunc_removes 9 3 w_chain 3
              (mkCancelCtx 2 false (Some 2) (Some [4]) None))
    as (f & w1 & a1 & ks1 & w2 & a3 & ks3 & H1 & _ & H2 & _ & H3 & H4 & H5 & H6 & _ & H7 & H8 & H9 & H10).
  - by_check sane_b_sound.
  - by_check quiescent_b_sound.
  - by_run.
  - by_run.
  - vm_compute. reflexivity.
  - vm_compute. reflexivity.
  - reflexivity.
  - exists f, w1, w2, a1, a3. rewrite H3, H9.
    exact (conj H1 (conj H2 (conj H4 (conj H5 (conj H6 (conj H7 (conj H8 H10))))))).
Defined.


(** *** Deadline dominance *)

Lemma custom_object_kept w w' i x :
  skel w w' → length (heap w') = length (heap w) →
  heap w' !! i = Some (customCtxObj x) → heap w !! i = Some (customCtxObj x).
Proof.
  intros K Hlen Hi.
  assert (Hlt : i < length (heap w)) by (rewrite <- Hlen; by eapply lookup_lt_Some).
  destruct (lookup_lt_is_Some_2 _ _ Hlt) as [o Ho].
  destruct (K i o Ho) as (o' & Ho' & Hs). rewrite Hi in Ho'. simplify_eq.
  destruct o; simpl in Hs; by simplify_eq.
Qed.

Lemma WithDeadline_armed fuel s t1 w cur :
  sane w → quiescent w → I1 w → contract w →
  s < length (heap w) → S (length (heap w)) < fuel →
  Deadline fuel s w = Ok cur → snd cur && (fst cur <? t1)%Z = false →
  (∀ ch w0, Done fuel s w = Ok (Some ch, w0) → ch ∉ closed w) →
  (∀ x, x ∈ timers w → a_id x < ntimer w) →
  (now w < t1)%Z →
  ∃ w1 k,
    WithDeadline fuel (Some s) t1 w
    = Ok ((length (heap w), mkCancelFunc (length (heap w)) true Canceled), w1) ∧
    sane w1 ∧ quiescent w1 ∧ I1 w1 ∧ contract w1 ∧
    length (heap w1) = S (length (heap w)) ∧
    heap w1 !! length (heap w)
    = Some (timerCtxObj (mkTimerCtx (newCancelCtx s) (Some (ntimer w)) t1)) ∧
    list_find (fun x => a_id x = ntimer w) (timers w1)
    = Some (k, mkArmed (ntimer w) t1 (length (heap w))) ∧
    now w1 = now w.
Proof.
  intros Sw Q H1 Hx Hp Hf Hdl Hnd Hopen Hfresh Hfut.
  destruct (base_total w Sw fuel s Hp) as (b & ob & Hb & _); [lia|].
  pose proof (open_parent_base fuel s w b Q Hb Hopen) as Hopen'.
  set (c := length (heap w)).
  set (o := timerCtxObj (mkTimerCtx (newCancelCtx s) None t1)).
  assert (N : new_object w o) by (simpl; by split_and!).
  destruct (WithDeadline_run fuel s t1 w cur Sw Q Hp Hf (contract_base w fuel s Hx) Hdl Hnd)
    as (wl & _ & S1 & Q1 & L & R & Hol & Hrun).
  fold c o in L, R, Hol, Hrun.
  pose proof (link_result_open fuel s o w wl b Sw Hp N R Hb Hopen') as Ho1.
  fold c in Ho1.
  destruct (linked_step o (newCancelCtx s) w wl Sw H1 N eq_refl L Hol) as (I1l & Kl & _).
  rewrite (proj2 (Z.leb_gt (t1 - now w) 0)) in Hrun by lia.
  destruct L as (Hlen1 & K1 & Hnt1 & Htm1 & Hnow1 & Hcl1 & _).
  simpl in Hnt1, Hnow1. rewrite grown_length in Hlen1.
  set (w1 := arm c (t1 - now w) wl) in *.
  set (t := mkTimerCtx (newCancelCtx s) (Some (ntimer w)) t1).
  assert (Harm : w1 = mkWorld (<[c := timerCtxObj t]> (heap wl)) (closed wl) (nchan wl)
                   (timers wl ++ [mkArmed (ntimer w) t1 c]) (S (ntimer w)) (now wl)
                   (goroutines wl) (spawned wl) (trace wl ++ [EvLock c; EvUnlock c])).
  { unfold w1, arm. rewrite Ho1. simpl. rewrite Hnt1, Hnow1.
    by replace (now w + (t1 - now w))%Z with t1 by lia. }
  assert (Hc1 : c < length (heap wl)) by by eapply lookup_lt_Some.
  assert (Hold : ∀ y, y ∈ timers wl → a_id y ≠ ntimer w).
  { intros y Hy. apply Htm1 in Hy. simpl in Hy. apply Hfresh in Hy. lia. }
  exists w1, (length (timers wl)). split_and!.
  - exact Hrun.
  - by apply sane_arm.
  - by apply unlocked_arm.
  - by apply I1_arm.
  - intros i x d Hi Hd Hin.
    assert (Hic : i ≠ c).
    { intros ->. rewrite Harm in Hi. simpl in Hi.
      by rewrite list_lookup_insert_eq in Hi by done. }
    assert (Hil : heap wl !! i = Some (customCtxObj x)).
    { rewrite Harm in Hi. simpl in Hi. by rewrite list_lookup_insert_ne in Hi by done. }
    assert (Hig : heap (grown o w) !! i = Some (customCtxObj x)).
    { apply (custom_object_kept (grown o w) wl); [done| |done].
      by rewrite Hlen1, grown_length. }
    rewrite grown_lookup, decide_False in Hig by done.
    apply (Hx i x d Hig Hd).
    rewrite Harm in Hin. simpl in Hin. by apply Hcl1 in Hin.
  - rewrite Harm. simpl. by rewrite length_insert.
  - rewrite Harm. simpl. by rewrite list_lookup_insert_eq.
  - rewrite Harm. simpl.
    apply (list_find_app_new (timers wl) (mkArmed (ntimer w) t1 c)). exact Hold.
  - rewrite Harm. simpl. exact Hnow1.
Qed.




(** ** The environment variables *)

(** *** Strings *)
Lemma append_equals k v : k +:+ "=" +:+ v = k +:+ String "="%char v.
Proof. done. Qed.

Lemma first_index_app_hit p k c v :
  first_index p k = None → p c = true →
  first_index p (k +:+ String c v) = Some (String.length k).
Proof.
  intros Hk Hc. induction k as [|a k IH]; simpl in *; [by rewrite Hc|].
  destruct (p a); [done|]. destruct (first_index p k); [done|]. by rewrite IH.
Qed.

Lemma slice_to_app k r : slice_to (String.length k) (k +:+ r) = k.
Proof.
  unfold slice_to. induction k as [|a k IH]; simpl; [by destruct r|]. by rewrite IH.
Qed.

Lemma substring_all s : String.substring 0 (String.length s) s = s.
Proof. induction s as [|a s IH]; simpl; [done|]. by rewrite IH. Qed.

Lemma length_append k r : String.length (k +:+ r) = String.length k + String.length r.
Proof. induction k as [|a k IH]; simpl; [done|]. by rewrite IH. Qed.

Lemma slice_from_app k c v : slice_from (String.length k + 1) (k +:+ String c v) = v.
Proof.
  unfold slice_from. rewrite length_append. simpl.
  replace (String.length k + S (String.length v) - (String.length k + 1))
    with (String.length v) by lia.
  induction k as [|a k IH]; simpl; [apply substring_all|done].
Qed.

Lemma first_index_split p s j :
  first_index p s = Some j →
  ∃ c v, s = slice_to j s +:+ String c v ∧ p c = true ∧
         first_index p (slice_to j s) = None ∧ String.length (slice_to j s) = j.
Proof.
  revert j. induction s as [|a s IH]; intros j; simpl; [done|].
  destruct (p a) eqn:Ha.
  - intros [= <-]. exists a, s. unfold slice_to. simpl. by split_and!.
  - destruct (first_index p s) as [j'|]; [|done]. simpl. intros [= <-].
    destruct (IH j' eq_refl) as (c & v & Hs & Hc & Hn & Hl).
    exists c, v. unfold slice_to in *. simpl. rewrite Ha, Hn. simpl.
    split_and!; [|done|done|by f_equal].
    change (String a s = String a (String.substring 0 j' s +:+ String c v)).
    by rewrite <- Hs.
Qed.

Lemma first_index_None_app p k r :
  first_index p (k +:+ r) = None → first_index p k = None.
Proof.
  induction k as [|a k IH]; simpl; [done|]. destruct (p a); [done|].
  destruct (first_index p (k +:+ r)); [done|]. intros _. by rewrite IH.
Qed.

Lemma first_index_or_None p q s :
  first_index (fun c => p c || q c) s = None → first_index p s = None.
Proof.
  induction s as [|a s IH]; simpl; [done|]. destruct (p a); [done|]. simpl.
  destruct (q a); [done|]. destruct (first_index _ s); [done|]. intros _. by rewrite IH.
Qed.

Lemma entry_key k v :
  first_index is_equals k = None →
  first_index is_equals (k +:+ "=" +:+ v) = Some (String.length k).
Proof. intros Hk. rewrite append_equals. by apply first_index_app_hit. Qed.

Lemma entry_inj k v k' v' :
  first_index is_equals k = None → first_index is_equals k' = None →
  k +:+ "=" +:+ v = k' +:+ "=" +:+ v' → k = k' ∧ v = v'.
Proof.
  intros Hk Hk' E.
  assert (Hlen : String.length k = String.length k').
  { pose proof (entry_key k v Hk) as H1. rewrite E, (entry_key k' v' Hk') in H1.
    by injection H1. }
  assert (k = k') as <-.
  { transitivity (slice_to (String.length k) (k +:+ "=" +:+ v)).
    - symmetry. apply slice_to_app.
    - rewrite E, Hlen. apply slice_to_app. }
  split; [done|].
  transitivity (slice_from (String.length k + 1) (k +:+ "=" +:+ v)).
  - symmetry. apply slice_from_app.
  - rewrite E. apply slice_from_app.
Qed.

Lemma entry_nonempty k v : k +:+ "=" +:+ v ≠ "".
Proof. by destruct k. Qed.

Lemma is_equals_true c : is_equals c = true → c = "="%char.
Proof. unfold is_equals. by intros ?%Ascii.eqb_eq. Qed.

Lemma first_index_entry s j :
  first_index is_equals s = Some j →
  first_index is_equals (slice_to j s) = None ∧
  ∃ v, s = slice_to j s +:+ "=" +:+ v ∧ slice_from (j + 1) s = v.
Proof.
  intros Hj. destruct (first_index_split _ _ _ Hj) as (c & v & Hs & Hc & Hn & Hl).
  apply is_equals_true in Hc as ->. split; [done|]. exists v. split; [done|].
  transitivity (slice_from (String.length (slice_to j s) + 1)
                  (slice_to j s +:+ String "="%char v)); [|apply slice_from_app].
  rewrite Hl. by rewrite <- Hs.
Qed.

(** *** [copyenv] *)

Lemma copyenv_body_inv l i s st :
  copyenv_inv l i st → envs st !! i = Some s →
  copyenv_inv l (S i) (copyenv_body i s st) ∧
  ccalls (copyenv_body i s st) = ccalls st ∧ envOnce (copyenv_body i s st) = envOnce st.
Proof.
  intros [HL HR HE HS HP] Hs.
  assert (Hl : l !! i = Some s) by (rewrite <- HR; [done|lia]).
  assert (Hi : i < length (envs st)) by by eapply lookup_lt_Some.
  unfold copyenv_body. destruct (first_index is_equals s) as [j|] eqn:Hj.
  2:{ split; [|done]. split; try done.
      - intros idx ?. apply HR. lia.
      - intros k idx Hk. destruct (HE k idx Hk) as (? & ?). split; [lia|done].
      - intros idx s' j' Hidx Hs' Hj'. destruct (decide (idx = i)) as [->|]; [congruence|].
        apply (HS idx s' j'); [lia|done..].
      - intros idx s' Hidx Hs' Hn. destruct (decide (idx = i)) as [->|].
        + by rewrite Hs, <- Hl.
        + apply HP; [lia|done..]. }
  destruct (first_index_entry s j Hj) as (Hn & v & Hsv & _).
  set (key := slice_to j s) in *.
  destruct (env st !! key) as [i0|] eqn:Hkey.
  - destruct (HE key i0 Hkey) as (Hi0 & _).
    split; [|done]. split; simpl.
    + by rewrite length_insert.
    + intros idx ?. rewrite list_lookup_insert_ne by lia. apply HR. lia.
    + intros k idx Hk. destruct (HE k idx Hk) as (? & ? & ? & ? & ?).
      split_and!; [lia|done..| |done]. rewrite list_lookup_insert_ne by lia. done.
    + intros idx s' j' Hidx Hs' Hj'. destruct (decide (idx = i)) as [->|].
      * simplify_eq. exists i0. split_and!; [lia|done|].
        intros _. by apply list_lookup_insert_eq.
      * destruct (HS idx s' j') as (idx0 & ? & ? & ?); [lia|done..|].
        exists idx0. split_and!; [done..|]. rewrite list_lookup_insert_ne by done. done.
    + intros idx s' Hidx Hs' Hn'. destruct (decide (idx = i)) as [->|]; [congruence|].
      rewrite list_lookup_insert_ne by done. apply HP; [lia|done..].
  - split; [|done]. split; simpl; try done.
    + intros idx ?. apply HR. lia.
    + intros k idx. destruct (decide (k = key)) as [->|Hne].
      * rewrite lookup_insert_eq. intros [= <-]. split_and!; [lia|done| | |].
        -- exists v. by rewrite Hl, Hsv at 1.
        -- by rewrite Hs.
        -- intros idx' s' j' Hidx' Hs' Hj' Heq.
           destruct (HS idx' s' j' Hidx' Hs' Hj') as (idx0 & _ & Hin & _).
           rewrite Heq in Hin. congruence.
      * rewrite lookup_insert_ne by done. intros Hk.
        destruct (HE k idx Hk) as (? & ?). split; [lia|done].
    + intros idx s' j' Hidx Hs' Hj'. destruct (decide (idx = i)) as [->|].
      * simplify_eq. exists i. split_and!; [lia| |lia]. fold key. by rewrite lookup_insert_eq.
      * destruct (HS idx s' j') as (idx0 & ? & Hin & ?); [lia|done..|].
        exists idx0. split_and!; [done| |done].
        rewrite lookup_insert_ne; [done|]. intros Heq. rewrite <- Heq in Hin. congruence.
    + intros idx s' Hidx Hs' Hn'. destruct (decide (idx = i)) as [->|]; [congruence|].
      apply HP; [lia|done..].
Qed.

Lemma copyenv_range_inv l n : ∀ i st,
  copyenv_inv l i st → i + n = length l →
  copyenv_inv l (length l) (copyenv_range n i st) ∧
  ccalls (copyenv_range n i st) = ccalls st ∧ envOnce (copyenv_range n i st) = envOnce st.
Proof.
  induction n as [|n IH]; intros i st Hinv Hn; simpl.
  - replace (length l) with i by lia. done.
  - assert (is_Some (envs st !! i)) as [s Hs].
    { apply lookup_lt_is_Some. rewrite (ci_length _ _ _ Hinv). lia. }
    rewrite Hs. destruct (copyenv_body_inv l i s st Hinv Hs) as (Hinv' & Hc & Ho).
    destruct (IH (S i) _ Hinv') as (? & ? & ?); [lia|]. split_and!; [done|congruence..].
Qed.

Lemma copyenv_spec st :
  copyenv_inv (envs st) (length (envs st)) (copyenv st) ∧
  ccalls (copyenv st) = ccalls st ∧ envOnce (copyenv st) = envOnce st.
Proof.
  unfold copyenv.
  apply (copyenv_range_inv (envs st) (length (envs st)) 0 (set_env ∅ st)); [|done].
  split; simpl; try done; intros; lia.
Qed.

Lemma copyenv_inv_wf l st : copyenv_inv l (length l) st → env_wf st.
Proof.
  intros [HL HR HE HS HP]. split.
  - intros k i Hk. destruct (HE k i Hk) as (_ & Hn & (v & Hv) & He & _).
    split; [done|]. exists v. by rewrite He.
  - intros i s j Hs Hj.
    assert (Hi : i < length l) by (rewrite <- HL; by eapply lookup_lt_Some).
    destruct (lookup_lt_is_Some_2 l i Hi) as [s0 Hs0].
    destruct (first_index is_equals s0) as [j0|] eqn:Hj0.
    + destruct (HS i s0 j0 Hi Hs0 Hj0) as (idx0 & Hle & Hin & Hclr).
      destruct (decide (idx0 = i)) as [->|].
      * destruct (HE _ _ Hin) as (_ & _ & _ & He & _). rewrite He, Hs0 in Hs. by simplify_eq.
      * rewrite Hclr in Hs by lia. by simplify_eq.
    + rewrite (HP i s0 Hi Hs0 Hj0) in Hs. by simplify_eq.
Qed.

(** *** The state after [envOnce.Do(copyenv)] *)
Lemma envOnce_Do_spec st :
  env_ok st →
  envOnce (envOnce_Do copyenv st) = true ∧ env_wf (envOnce_Do copyenv st) ∧
  ccalls (envOnce_Do copyenv st) = ccalls st ∧
  (envOnce st = true → envOnce_Do copyenv st = st).
Proof.
  intros Hok. unfold envOnce_Do. destruct (envOnce st) eqn:Ho.
  - split_and!; [done|by apply Hok|done|done].
  - destruct (copyenv_spec st) as (Hinv & Hc & _). split_and!; [done| |done|done].
    destruct (copyenv_inv_wf _ _ Hinv) as [H1 H2]. split; simpl; done.
Qed.

Lemma envOnce_Do_idem st :
  envOnce st = true → envOnce_Do copyenv st = st.
Proof. intros Ho. unfold envOnce_Do. by rewrite Ho. Qed.

Lemma env_wf_inj st k k' i :
  env_wf st → env st !! k = Some i → env st !! k' = Some i → k = k'.
Proof.
  intros [H1 _] Hk Hk'. destruct (H1 k i Hk) as (Hn & v & Hv).
  destruct (H1 k' i Hk') as (Hn' & v' & Hv'). rewrite Hv in Hv'. simplify_eq.
  by destruct (entry_inj k v k' v' Hn Hn' Hv').
Qed.

Lemma env_wf_lt st k i : env_wf st → env st !! k = Some i → i < length (envs st).
Proof.
  intros [H1 _] Hk. destruct (H1 k i Hk) as (_ & v & Hv). by eapply lookup_lt_Some.
Qed.

Lemma length_zero_iff (s : string) : (String.length s =? 0) = true ↔ s = "".
Proof. destruct s; simpl; split; done. Qed.

(** *** [Getenv] *)
Lemma Getenv_found key st i v :
  env_ok st → key ≠ "" →
  env (envOnce_Do copyenv st) !! key = Some i →
  envs (envOnce_Do copyenv st) !! i = Some (key +:+ "=" +:+ v) →
  Getenv key st = Ok (v, true, envOnce_Do copyenv st).
Proof.
  intros Hok Hne Hk Hi. destruct (envOnce_Do_spec st Hok) as (_ & [H1 _] & _).
  unfold Getenv. destruct (String.length key =? 0) eqn:Hlen.
  { by apply length_zero_iff in Hlen. }
  rewrite Hk, Hi. destruct (H1 key i Hk) as (Hn & _).
  rewrite (entry_key key v Hn). rewrite append_equals. by rewrite slice_from_app.
Qed.

Lemma Getenv_missing key st :
  key = "" ∨ env (envOnce_Do copyenv st) !! key = None →
  Getenv key st = Ok ("", false, envOnce_Do copyenv st).
Proof.
  intros H. unfold Getenv. destruct (String.length key =? 0) eqn:Hlen; [done|].
  destruct H as [-> | ->]; done.
Qed.

Lemma Getenv_spec key st :
  env_ok st →
  ∃ v b, Getenv key st = Ok (v, b, envOnce_Do copyenv st) ∧
    (b = true ↔ key ≠ "" ∧ ∃ i, env (envOnce_Do copyenv st) !! key = Some i ∧
                                 envs (envOnce_Do copyenv st) !! i = Some (key +:+ "=" +:+ v)) ∧
    (b = false → v = "").
Proof.
  intros Hok. destruct (envOnce_Do_spec st Hok) as (_ & [H1 _] & _).
  destruct (decide (key = "")) as [->|Hne].
  { exists "", false. rewrite Getenv_missing by by left. split_and!; [done| |done].
    split; [done|]. by intros [? _]. }
  destruct (env (envOnce_Do copyenv st) !! key) as [i|] eqn:Hk.
  - destruct (H1 key i Hk) as (Hn & v & Hv). exists v, true.
    rewrite (Getenv_found key st i v) by done. split_and!; [done| |done].
    split; [|done]. intros _. split; [done|]. by exists i.
  - exists "", false. rewrite Getenv_missing by by right. split_and!; [done| |done].
    split; [done|]. by intros (_ & i & ? & _).
Qed.

(** *** [Setenv] *)

Lemma Setenv_invalid plan9 key value st :
  ¬ valid_setenv plan9 key value →
  Setenv plan9 key value st = Ok (Some EINVAL, envOnce_Do copyenv st).
Proof.
  intros Hinv. unfold Setenv. destruct (String.length key =? 0) eqn:Hlen; [done|].
  case_bool_decide as Hk; [done|].
  destruct (negb plan9 && bool_decide (is_Some (first_index is_nul value))) eqn:Hv; [done|].
  destruct Hinv. split_and!.
  - intros ->. done.
  - destruct (first_index _ key); [|done]. destruct Hk. eauto.
  - intros ->. simpl in Hv. apply bool_decide_eq_false in Hv.
    destruct (first_index is_nul value); [|done]. destruct Hv. eauto.
Qed.

Lemma Setenv_valid plan9 key value st :
  env_ok st → valid_setenv plan9 key value →
  let st0 := envOnce_Do copyenv st in
  ∃ st1 i,
    Setenv plan9 key value st = Ok (None, st1) ∧
    envOnce st1 = true ∧ env_wf st1 ∧
    env st1 = <[key := i]> (env st0) ∧
    envs st1 !! i = Some (key +:+ "=" +:+ value) ∧
    (∀ i', i' ≠ i → envs st1 !! i' = envs st0 !! i') ∧
    (env st0 !! key = None → envs st1 = envs st0 ++ [key +:+ "=" +:+ value]) ∧
    (∀ i0, env st0 !! key = Some i0 → i = i0 ∧ length (envs st1) = length (envs st0)) ∧
    ccalls st1 = ccalls st ++ [setenv_c key value].
Proof.
  intros Hok (Hne & Hkey & Hval) st0.
  destruct (envOnce_Do_spec st Hok) as (Ho & Hwf & Hcc & _). fold st0 in Ho, Hwf, Hcc.
  pose proof Hwf as [H1 H2].
  assert (Hn : first_index is_equals key = None) by by eapply first_index_or_None.
  unfold Setenv. fold st0.
  destruct (String.length key =? 0) eqn:Hlen; [by apply length_zero_iff in Hlen|].
  rewrite Hkey. rewrite bool_decide_eq_false_2 by by intros [? ?].
  assert (negb plan9 && bool_decide (is_Some (first_index is_nul value)) = false) as ->.
  { destruct plan9; [done|]. simpl. rewrite Hval by done. apply bool_decide_eq_false_2.
    by intros [? ?]. }
  set (kv := key +:+ "=" +:+ value).
  destruct (env st0 !! key) as [i0|] eqn:Hk.
  - pose proof (env_wf_lt st0 key i0 Hwf Hk) as Hlt.
    unfold store_envs. rewrite bool_decide_eq_true_2 by done. simpl.
    eexists _, i0. split; [done|]. simpl. rewrite Hcc. split_and!; try done.
    + split; simpl.
      * intros k idx. destruct (decide (k = key)) as [->|Hkk].
        -- rewrite lookup_insert_eq. intros [= <-]. split; [done|]. exists value.
           by apply list_lookup_insert_eq.
        -- rewrite lookup_insert_ne by done. intros Hk'.
           destruct (H1 k idx Hk') as (? & v & Hv). split; [done|]. exists v.
           rewrite list_lookup_insert_ne; [done|]. intros <-.
           by destruct Hkk; apply (env_wf_inj st0 k key i0).
      * intros idx s j. destruct (decide (idx = i0)) as [->|Hidx].
        -- rewrite list_lookup_insert_eq by done. intros [= <-].
           unfold kv. rewrite (entry_key key value Hn). intros [= <-].
           rewrite slice_to_app. by rewrite lookup_insert_eq.
        -- rewrite list_lookup_insert_ne by done. intros Hs Hj.
           pose proof (H2 idx s j Hs Hj) as Hin.
           rewrite lookup_insert_ne; [done|]. intros Heq. rewrite <- Heq in Hin. congruence.
    + by apply list_lookup_insert_eq.
    + intros i' Hi'. by rewrite list_lookup_insert_ne.
    + intros i1 [= <-]. split; [done|]. by rewrite length_insert.
  - simpl. eexists _, (length (envs st0)). split; [done|]. simpl. rewrite Hcc.
    split_and!; try done.
    + split; simpl.
      * intros k idx. destruct (decide (k = key)) as [->|Hkk].
        -- rewrite lookup_insert_eq. intros [= <-]. split; [done|]. exists value.
           rewrite lookup_app_r by done. by rewrite Nat.sub_diag.
        -- rewrite lookup_insert_ne by done. intros Hk'.
           destruct (H1 k idx Hk') as (? & v & Hv). split; [done|]. exists v.
           by apply lookup_app_l_Some.
      * intros idx s j Hs Hj. apply lookup_app_Some in Hs as [Hs|[Hge Hs]].
        -- pose proof (H2 idx s j Hs Hj) as Hin.
           rewrite lookup_insert_ne; [done|]. intros Heq. rewrite <- Heq in Hin. congruence.
        -- apply list_lookup_singleton_Some in Hs as [Hz <-].
           unfold kv in *. rewrite (entry_key key value Hn) in Hj. simplify_eq.
           rewrite slice_to_app. rewrite lookup_insert_eq. f_equal. lia.
    + rewrite lookup_app_r by done. by rewrite Nat.sub_diag.
    + intros i' Hi'. destruct (decide (i' < length (envs st0))).
      * by rewrite lookup_app_l.
      * rewrite !lookup_ge_None_2; [done|lia|]. rewrite length_app. simpl. lia.
Qed.

(** *** [Unsetenv], [Clearenv], [Environ] *)
Lemma Unsetenv_spec key st :
  env_ok st →
  let st0 := envOnce_Do copyenv st in
  ∃ st1,
    Unsetenv key st = Ok (None, st1) ∧
    envOnce st1 = true ∧ env_wf st1 ∧
    env st1 = delete key (env st0) ∧
    length (envs st1) = length (envs st0) ∧
    (∀ i, env st0 !! key = Some i → envs st1 = <[i := ""]> (envs st0)) ∧
    (env st0 !! key = None → envs st1 = envs st0) ∧
    ccalls st1 = ccalls st ++ [unsetenv_c key].
Proof.
  intros Hok st0.
  destruct (envOnce_Do_spec st Hok) as (Ho & Hwf & Hcc & _). fold st0 in Ho, Hwf, Hcc.
  pose proof Hwf as [H1 H2]. unfold Unsetenv. fold st0.
  destruct (env st0 !! key) as [i|] eqn:Hk.
  - pose proof (env_wf_lt st0 key i Hwf Hk) as Hlt.
    unfold store_envs. rewrite bool_decide_eq_true_2 by done. simpl.
    eexists. split; [done|]. simpl. rewrite Hcc. split_and!; try done.
    + split; simpl.
      * intros k idx Hk'. apply lookup_delete_Some in Hk' as [Hne Hk'].
        destruct (H1 k idx Hk') as (? & v & Hv). split; [done|]. exists v.
        rewrite list_lookup_insert_ne; [done|]. intros <-.
        by destruct Hne; apply (env_wf_inj st0 key k i).
      * intros idx s j. destruct (decide (idx = i)) as [->|Hidx].
        -- rewrite list_lookup_insert_eq by done. by intros [= <-].
        -- rewrite list_lookup_insert_ne by done. intros Hs Hj.
           pose proof (H2 idx s j Hs Hj) as Hin. apply lookup_delete_Some. split; [|done].
           intros Heq. rewrite <- Heq in Hin. congruence.
    + by rewrite length_insert.
    + by intros i' [= <-].
  - simpl. eexists. split; [done|]. simpl. rewrite Hcc. split_and!; try done.
    symmetry. by apply delete_id.
Qed.

Lemma Clearenv_wf st : envOnce (Clearenv st) = true → env_wf (Clearenv st).
Proof. intros _. split; simpl; [intros k i; by rewrite lookup_empty|done]. Qed.

Lemma env_exec_ok o st :
  env_ok st → ∃ st', env_exec o st = Ok st' ∧ envOnce st' = true ∧ env_wf st'.
Proof.
  intros Hok. destruct (envOnce_Do_spec st Hok) as (Ho & Hwf & _).
  destruct o as [key|plan9 key value|key| |]; simpl.
  - destruct (Getenv_spec key st Hok) as (v & b & -> & _). simpl. eauto.
  - destruct (decide (valid_setenv plan9 key value)) as [Hv|Hv].
    + destruct (Setenv_valid plan9 key value st Hok Hv) as (st1 & i & -> & ? & ? & _).
      simpl. eauto.
    + rewrite (Setenv_invalid plan9 key value st Hv). simpl. eauto.
  - destruct (Unsetenv_spec key st Hok) as (st1 & -> & ? & ? & _). simpl. eauto.
  - eexists. split; [done|]. split; [done|]. by apply Clearenv_wf.
  - eexists. split; [done|]. done.
Qed.

Lemma env_execs_ok os : ∀ st,
  env_ok st → ∃ st', env_execs os st = Ok st' ∧ env_ok st'.
Proof.
  induction os as [|o os IH]; intros st Hok; simpl; [eauto|].
  destruct (env_exec_ok o st Hok) as (st1 & -> & Ho & Hwf). simpl.
  apply IH. by intros _.
Qed.

Lemma runtime_envs_ok l : env_ok (runtime_envs l).
Proof. by intros ?. Qed.

Lemma env_execs_reaches l os st :
  env_execs os (runtime_envs l) = Ok st → env_ok st.
Proof.
  intros H. destruct (env_execs_ok os (runtime_envs l) (runtime_envs_ok l)) as (st' & H' & ?).
  rewrite H in H'. by simplify_eq.
Qed.

(** X1.  From whatever list the runtime provides, every sequence of calls
    of [Getenv], [Setenv], [Unsetenv], [Clearenv] and [Environ] returns, no
    index into [envs] is ever out of range, and afterwards [env] maps each
    key to the index of its ["key=value"] entry in [envs] while every entry
    with a ['='] is indexed under its key. *)
Theorem environ_index_is_kept (l : list string) (os : list env_op) :
  ∃ st, env_execs os (runtime_envs l) = Ok st ∧
        (envOnce st = true →
         (∀ k i, env st !! k = Some i →
            first_index is_equals k = None ∧
            ∃ v, envs st !! i = Some (k +:+ "=" +:+ v)) ∧
         (∀ i s j, envs st !! i = Some s → first_index is_equals s = Some j →
            env st !! slice_to j s = Some i)).
Proof.
  destruct (env_execs_ok os (runtime_envs l) (runtime_envs_ok l)) as (st & H & Hok).
  exists st. split; [done|]. intros Ho. apply (Hok Ho).
Qed.

(** X2.  What [Setenv] stored, [Getenv] returns. *)
Theorem Setenv_then_Getenv plan9 key value st :
  env_ok st → valid_setenv plan9 key value →
  ∃ st1, Setenv plan9 key value st = Ok (None, st1) ∧
         Getenv key st1 = Ok (value, true, st1).
Proof.
  intros Hok Hv. pose proof Hv as (Hne & _).
  destruct (Setenv_valid plan9 key value st Hok Hv)
    as (st1 & i & Hrun & Ho & Hwf & Henv & Hi & _).
  exists st1. split; [done|].
  assert (Hok1 : env_ok st1) by by intros _.
  pose proof (envOnce_Do_idem st1 Ho) as Hid.
  rewrite (Getenv_found key st1 i value Hok1 Hne); rewrite Hid; try done.
  rewrite Henv. by rewrite lookup_insert_eq.
Qed.

(** X3.  [Setenv] returns [EINVAL], and stores nothing, exactly for an empty
    key, a key with a ['='] or a NUL byte, and (except on Plan 9) a value
    with a NUL byte. *)
Theorem Setenv_EINVAL plan9 key value st :
  env_ok st →
  ∃ e st1, Setenv plan9 key value st = Ok (e, st1) ∧
    (e = Some EINVAL ↔
       key = "" ∨ is_Some (first_index (fun c => is_equals c || is_nul c) key) ∨
       (plan9 = false ∧ is_Some (first_index is_nul value))) ∧
    (e = Some EINVAL → st1 = envOnce_Do copyenv st ∧ ccalls st1 = ccalls st) ∧
    (e ≠ Some EINVAL → e = None).
Proof.
  intros Hok. destruct (envOnce_Do_spec st Hok) as (_ & _ & Hcc & _).
  destruct (decide (valid_setenv plan9 key value)) as [Hv|Hv].
  - destruct (Setenv_valid plan9 key value st Hok Hv) as (st1 & i & Hrun & _).
    exists None, st1. split_and!; [done| |done|done].
    split; [done|]. destruct Hv as (Hne & Hk & Hval).
    intros [->|[[? Hx]|[-> [? Hx]]]]; [done|congruence|]. rewrite Hval in Hx; done.
  - rewrite (Setenv_invalid plan9 key value st Hv).
    exists (Some EINVAL), (envOnce_Do copyenv st). split_and!; [done| |done|done].
    split; [|done]. intros _.
    destruct (decide (key = "")) as [|Hne]; [by left|].
    destruct (first_index (fun c => is_equals c || is_nul c) key) eqn:Hk; [right; left; eauto|].
    destruct plan9; [destruct Hv; by split_and!|].
    destruct (first_index is_nul value) eqn:Hval; [right; right; eauto|].
    destruct Hv; by split_and!.
Qed.

(** X4.  After [Unsetenv], [Getenv] does not find the key, and no entry of
    [Environ] carries it: a duplicate that the runtime had provided for the
    key does not come back. *)
Theorem Unsetenv_then_Getenv key st :
  env_ok st →
  ∃ st1, Unsetenv key st = Ok (None, st1) ∧
         Getenv key st1 = Ok ("", false, st1) ∧
         (first_index is_equals key = None →
          ∀ v, key +:+ "=" +:+ v ∉ fst (Environ st1)).
Proof.
  intros Hok. destruct (Unsetenv_spec key st Hok) as (st1 & Hrun & Ho & Hwf & Henv & _).
  exists st1. split; [done|].
  pose proof (envOnce_Do_idem st1 Ho) as Hid.
  assert (Hnone : env st1 !! key = None) by (rewrite Henv; apply lookup_delete_eq).
  split.
  - rewrite Getenv_missing; rewrite Hid; [done|by right].
  - intros Hn v Hin. unfold Environ in Hin. rewrite Hid in Hin. simpl in Hin.
    apply list_elem_of_filter in Hin as [_ Hin].
    apply list_elem_of_lookup in Hin as [i Hi].
    destruct Hwf as [_ H2]. pose proof (H2 i _ _ Hi (entry_key key v Hn)) as Hk.
    rewrite slice_to_app in Hk. congruence.
Qed.

Lemma getenv_result_value key st :
  env_ok st → getenv_result key st = Some (lookup_value (envOnce_Do copyenv st) key).
Proof.
  intros Hok. destruct (envOnce_Do_spec st Hok) as (_ & [H1 _] & _).
  unfold getenv_result, lookup_value. case_bool_decide as Hk.
  - rewrite Getenv_missing by by left. done.
  - destruct (env (envOnce_Do copyenv st) !! key) as [i|] eqn:Hi.
    + destruct (H1 key i Hi) as (Hn & v & Hv).
      rewrite (Getenv_found key st i v) by done. rewrite Hv, append_equals.
      by rewrite slice_from_app.
    + rewrite Getenv_missing by by right. done.
Qed.

(** X5.  [Setenv] and [Unsetenv] on one key leave what [Getenv] answers for
    every other key. *)
Theorem other_keys_untouched plan9 key value key' st :
  env_ok st → key' ≠ key →
  (∀ e st1, Setenv plan9 key value st = Ok (e, st1) →
     getenv_result key' st1 = getenv_result key' st) ∧
  (∀ e st1, Unsetenv key st = Ok (e, st1) →
     getenv_result key' st1 = getenv_result key' st).
Proof.
  intros Hok Hne.
  destruct (envOnce_Do_spec st Hok) as (Ho & Hwf & _).
  set (st0 := envOnce_Do copyenv st) in *.
  assert (Hok0 : env_ok st0) by by intros _.
  assert (Hst0 : getenv_result key' st0 = getenv_result key' st).
  { rewrite !getenv_result_value by done. by rewrite (envOnce_Do_idem st0 Ho). }
  split.
  - intros e st1 Hrun. destruct (decide (valid_setenv plan9 key value)) as [Hv|Hv].
    + destruct (Setenv_valid plan9 key value st Hok Hv)
        as (st1' & i & Hrun' & Ho1 & Hwf1 & Henv & Hi & Hother & Hnew & Hold & _).
      rewrite Hrun in Hrun'. simplify_eq. fold st0 in Henv, Hother, Hnew, Hold.
      assert (Hok1 : env_ok st1') by by intros _.
      rewrite !getenv_result_value by done. rewrite (envOnce_Do_idem st1' Ho1).
      fold st0. unfold lookup_value. case_bool_decide; [done|].
      rewrite Henv, lookup_insert_ne by done.
      destruct (env st0 !! key') as [i'|] eqn:Hi'; [|done].
      rewrite Hother; [done|]. intros ->.
      destruct (env st0 !! key) as [i0|] eqn:Hk.
      * destruct (Hold i0 eq_refl) as [-> _]. by destruct Hne; apply (env_wf_inj st0 key' key i0).
      * destruct Hwf as [H1 _]. destruct (H1 key' i Hi') as (Hn' & v' & Hv').
        rewrite Hnew in Hi by done. rewrite (lookup_app_l_Some _ _ _ _ Hv') in Hi.
        destruct Hv as (_ & Hkey & _).
        assert (Hn : first_index is_equals key = None) by by eapply first_index_or_None.
        simplify_eq. by destruct (entry_inj key' v' key value Hn' Hn).
    + rewrite (Setenv_invalid plan9 key value st Hv) in Hrun. by simplify_eq.
  - intros e st1 Hrun.
    destruct (Unsetenv_spec key st Hok) as (st1' & Hrun' & Ho1 & Hwf1 & Henv & Hlen & Hset & Hnone & _).
    rewrite Hrun in Hrun'. simplify_eq. fold st0 in Henv, Hlen, Hset, Hnone.
    assert (Hok1 : env_ok st1') by by intros _.
    rewrite !getenv_result_value by done. rewrite (envOnce_Do_idem st1' Ho1).
    fold st0. unfold lookup_value. case_bool_decide; [done|].
    rewrite Henv, lookup_delete_ne by done.
    destruct (env st0 !! key') as [i'|] eqn:Hi'; [|done].
    destruct (env st0 !! key) as [i0|] eqn:Hk.
    + rewrite (Hset i0 eq_refl). rewrite list_lookup_insert_ne; [done|]. intros ->.
      by destruct Hne; apply (env_wf_inj st0 key' key i').
    + by rewrite Hnone.
Qed.

(** X6.  Of the entries that the runtime provides for a key, the first one
    is the one that [Getenv] returns; a key without an entry is not found. *)
Theorem Getenv_first_occurrence (l : list string) key :
  key ≠ "" → first_index is_equals key = None →
  (∀ i v, l !! i = Some (key +:+ "=" +:+ v) →
     (∀ i' v', i' < i → l !! i' ≠ Some (key +:+ "=" +:+ v')) →
     ∃ st, Getenv key (runtime_envs l) = Ok (v, true, st)) ∧
  ((∀ i v, l !! i ≠ Some (key +:+ "=" +:+ v)) →
     ∃ st, Getenv key (runtime_envs l) = Ok ("", false, st)).
Proof.
  intros Hne Hn. pose proof (runtime_envs_ok l) as Hok.
  destruct (copyenv_spec (runtime_envs l)) as ([_ _ HE HS _] & _). simpl in HE, HS.
  assert (Heq : env (envOnce_Do copyenv (runtime_envs l)) = env (copyenv (runtime_envs l))
              ∧ envs (envOnce_Do copyenv (runtime_envs l)) = envs (copyenv (runtime_envs l)))
    by done.
  destruct Heq as [Heq1 Heq2]. split.
  - intros i v Hi Hfirst. eexists.
    destruct (HS i _ _ (lookup_lt_Some _ _ _ Hi) Hi (entry_key key v Hn))
      as (idx0 & Hle & Hin & _).
    rewrite slice_to_app in Hin.
    destruct (HE key idx0 Hin) as (_ & _ & (v0 & Hv0) & Hsame & _).
    assert (idx0 = i) as ->.
    { destruct (decide (idx0 = i)); [done|]. destruct (Hfirst idx0 v0); [lia|done]. }
    apply (Getenv_found key _ i v Hok Hne); [by rewrite Heq1|].
    rewrite Heq2, Hsame. done.
  - intros Hnone. eexists. apply Getenv_missing. right. rewrite Heq1.
    destruct (env (copyenv (runtime_envs l)) !! key) as [idx|] eqn:Hk; [|done].
    destruct (HE key idx Hk) as (_ & _ & (v & Hv) & _). by destruct (Hnone idx v).
Qed.

(** X7.  [Environ] and [Getenv] agree: ["key=value"] is listed exactly when
    [Getenv] finds [value] for [key]. *)
Theorem Environ_agrees_with_Getenv key value st :
  env_ok st → key ≠ "" → first_index is_equals key = None →
  key +:+ "=" +:+ value ∈ fst (Environ st) ↔
  Getenv key st = Ok (value, true, envOnce_Do copyenv st).
Proof.
  intros Hok Hne Hn. destruct (envOnce_Do_spec st Hok) as (_ & [H1 H2] & _).
  unfold Environ. simpl. split.
  - intros Hin. apply list_elem_of_filter in Hin as [_ Hin].
    apply list_elem_of_lookup in Hin as [i Hi].
    pose proof (H2 i _ _ Hi (entry_key key value Hn)) as Hk. rewrite slice_to_app in Hk.
    by apply (Getenv_found key st i value).
  - intros Hget. destruct (Getenv_spec key st Hok) as (v & b & Hrun & Hiff & _).
    rewrite Hget in Hrun. simplify_eq. destruct (proj1 Hiff eq_refl) as (_ & i & _ & Hi).
    apply list_elem_of_filter. split; [apply entry_nonempty|]. by eapply list_elem_of_lookup_2.
Qed.

(** X8.  After [Clearenv] no key is found and [Environ] is empty; every key
    that was set has been passed to [unsetenv_c], and nothing else; a
    [Setenv] that follows makes its entry the only one. *)
Theorem Clearenv_clears plan9 key value st :
  (∀ k, Getenv k (Clearenv st) = Ok ("", false, Clearenv st)) ∧
  fst (Environ (Clearenv st)) = [] ∧
  (∃ cs, ccalls (Clearenv st) = ccalls (envOnce_Do copyenv st) ++ cs ∧
         ∀ c, c ∈ cs ↔ ∃ k, c = unsetenv_c k ∧ is_Some (env (envOnce_Do copyenv st) !! k)) ∧
  (valid_setenv plan9 key value →
   ∃ st1, Setenv plan9 key value (Clearenv st) = Ok (None, st1) ∧
          fst (Environ st1) = [key +:+ "=" +:+ value]).
Proof.
  assert (Ho : envOnce (Clearenv st) = true).
  { unfold Clearenv, envOnce_Do. simpl. by destruct (envOnce st) eqn:E. }
  pose proof (envOnce_Do_idem _ Ho) as Hid.
  assert (Hok : env_ok (Clearenv st)) by (intros _; by apply Clearenv_wf).
  split_and!.
  - intros k. rewrite Getenv_missing; rewrite Hid; [done|right; apply lookup_empty].
  - unfold Environ. by rewrite Hid.
  - eexists. split; [done|]. intros c. rewrite list_elem_of_fmap. split.
    + intros ([k i] & -> & Hin). apply elem_of_map_to_list in Hin. exists k. eauto.
    + intros (k & -> & [i Hi]). exists (k, i). split; [done|]. by apply elem_of_map_to_list.
  - intros Hv. destruct (Setenv_valid plan9 key value _ Hok Hv)
      as (st1 & i & Hrun & Ho1 & _ & _ & _ & _ & Hnew & _).
    rewrite Hid in Hnew. exists st1. split; [done|].
    unfold Environ. rewrite (envOnce_Do_idem st1 Ho1). simpl.
    rewrite Hnew by done. change (envs (Clearenv st)) with (@nil string).
    rewrite app_nil_l, filter_cons_True by apply entry_nonempty. done.
Qed.

Lemma filter_at_most_one {A} (P : A → Prop) `{!∀ x, Decision (P x)} (l : list A) :
  (∀ i j x y, l !! i = Some x → l !! j = Some y → P x → P y → i = j) →
  length (filter P l) ≤ 1.
Proof.
  induction l as [|a l IH]; intros Huniq; simpl; [lia|].
  rewrite filter_cons. destruct (decide (P a)) as [Ha|Ha].
  - destruct (filter P l) as [|y r] eqn:Hf; [simpl; lia|].
    assert (Hy : y ∈ filter P l) by (rewrite Hf; left).
    apply list_elem_of_filter in Hy as [Hpy Hy]. apply list_elem_of_lookup in Hy as [j Hj].
    by specialize (Huniq 0 (S j) a y eq_refl Hj Ha Hpy).
  - apply IH. intros i j x y Hi Hj Hx Hy.
    by specialize (Huniq (S i) (S j) x y Hi Hj Hx Hy) as [= ->].
Qed.

(** X9.  [Environ] lists at most one entry for a key, however many the
    runtime had provided. *)
Theorem Environ_one_entry_per_key key st :
  env_ok st →
  length (filter (fun s => entry_key_of s = Some key) (fst (Environ st))) ≤ 1.
Proof.
  intros Hok. destruct (envOnce_Do_spec st Hok) as (_ & [_ H2] & _).
  unfold Environ. simpl. rewrite list_filter_filter.
  apply filter_at_most_one. intros i j x y Hi Hj [Hx _] [Hy _].
  unfold entry_key_of in Hx, Hy.
  destruct (first_index is_equals x) as [jx|] eqn:Hjx; [|done].
  destruct (first_index is_equals y) as [jy|] eqn:Hjy; [|done].
  simpl in Hx, Hy. simplify_eq.
  pose proof (H2 i x jx Hi Hjx) as H. pose proof (H2 j y jy Hj Hjy) as H'. congruence.
Qed.

Lemma Setenv_then_Getenv_witness :
  ∃ st1, Setenv false "HOME" "/root" (runtime_envs ["A=1"; "B=2"; "A=3"]) = Ok (None, st1) ∧
         Getenv "HOME" st1 = Ok ("/root", true, st1).
Proof.
  apply (Setenv_then_Getenv false "HOME" "/root" (runtime_envs ["A=1"; "B=2"; "A=3"])).
  - apply runtime_envs_ok.
  - split; [discriminate|]. split; [reflexivity|]. intros _. reflexivity.
Defined.

Lemma Setenv_EINVAL_witness :
  ∃ e st1, Setenv false "A=B" "v" (runtime_envs ["A=1"]) = Ok (e, st1) ∧
    (e = Some EINVAL ↔
       "A=B" = "" ∨ is_Some (first_index (fun c => is_equals c || is_nul c) "A=B") ∨
       (false = false ∧ is_Some (first_index is_nul "v"))) ∧
    (e = Some EINVAL →
       st1 = envOnce_Do copyenv (runtime_envs ["A=1"]) ∧
       ccalls st1 = ccalls (runtime_envs ["A=1"])) ∧
    (e ≠ Some EINVAL → e = None).
Proof.
  apply (Setenv_EINVAL false "A=B" "v" (runtime_envs ["A=1"])).
  apply runtime_envs_ok.
Defined.

Lemma Unsetenv_then_Getenv_witness :
  ∃ st1, Unsetenv "A" (runtime_envs ["A=1"; "B=2"; "A=3"]) = Ok (None, st1) ∧
         Getenv "A" st1 = Ok ("", false, st1) ∧
         (first_index is_equals "A" = None →
          ∀ v, "A" +:+ "=" +:+ v ∉ fst (Environ st1)).
Proof.
  apply (Unsetenv_then_Getenv "A" (runtime_envs ["A=1"; "B=2"; "A=3"])).
  apply runtime_envs_ok.
Defined.

Lemma other_keys_untouched_witness :
  (∀ e st1, Setenv false "A" "9" (runtime_envs ["A=1"; "B=2"]) = Ok (e, st1) →
     getenv_result "B" st1 = getenv_result "B" (runtime_envs ["A=1"; "B=2"])) ∧
  (∀ e st1, Unsetenv "A" (runtime_envs ["A=1"; "B=2"]) = Ok (e, st1) →
     getenv_result "B" st1 = getenv_result "B" (runtime_envs ["A=1"; "B=2"])).
Proof.
  apply (other_keys_untouched false "A" "9" "B" (runtime_envs ["A=1"; "B=2"])).
  - apply runtime_envs_ok.
  - discriminate.
Defined.

Lemma Getenv_first_occurrence_witness :
  ∃ st, Getenv "A" (runtime_envs ["B=2"; "A=1"; "A=3"]) = Ok ("1", true, st).
Proof.
  destruct (Getenv_first_occurrence ["B=2"; "A=1"; "A=3"] "A") as [H _].
  - discriminate.
  - reflexivity.
  - apply (H 1 "1").
    + reflexivity.
    + intros i' v' Hi'. assert (i' = 0) as -> by lia. simpl. intros [= Heq].
Defined.

Lemma Environ_agrees_with_Getenv_witness :
  "A" +:+ "=" +:+ "1" ∈ fst (Environ (runtime_envs ["A=1"; "B=2"; "A=3"])) ↔
  Getenv "A" (runtime_envs ["A=1"; "B=2"; "A=3"])
  = Ok ("1", true, envOnce_Do copyenv (runtime_envs ["A=1"; "B=2"; "A=3"])).
Proof.
  apply (Environ_agrees_with_Getenv "A" "1" (runtime_envs ["A=1"; "B=2"; "A=3"])).
  - apply runtime_envs_ok.
  - discriminate.
  - reflexivity.
Defined.

Lemma Environ_one_entry_per_key_witness :
  length (filter (fun s => entry_key_of s = Some "A")
            (fst (Environ (runtime_envs ["A=1"; "B=2"; "A=3"])))) ≤ 1.
Proof.
  apply (Environ_one_entry_per_key "A" (runtime_envs ["A=1"; "B=2"; "A=3"])).
  apply runtime_envs_ok.
Defined.

(** ** [Unwrap], [Is] and [As] *)

Lemma chain_None `{ErrorValues E T} n : chain n None = None.
Proof. induction n; simpl; auto. Qed.

Lemma matches_cases `{ErrorValues E T} (e t : E) :
  (∃ b, matches e t = Ok b) ∨
  (matches e t = Panic "runtime error: comparing uncomparable type" ∧
   TypeComparable (TypeOf t) = true ∧ TypeOf e = TypeOf t ∧ value_eq e t = None).
Proof.
  unfold matches. destruct (TypeComparable (TypeOf t)) eqn:Hc; simpl; [|by left; eexists].
  case_bool_decide as Ht; [|by left; eexists].
  destruct (value_eq e t) as [[|]|] eqn:Hv; [by left; eexists..|by right].
Qed.

Lemma Is_loop_step `{ErrorValues E T} fuel (e t : E) :
  Is_loop (S fuel) (TypeComparable (TypeOf t)) (Some e) (Some t) =
    res_bind (matches e t) (fun m =>
      if m then Ok true
      else match Unwrap (Some e) with
           | None => Ok false
           | Some e' => Is_loop fuel (TypeComparable (TypeOf t)) (Some e') (Some t)
           end).
Proof.
  unfold matches. cbn [Is_loop interface_eq].
  destruct (TypeComparable (TypeOf t)) eqn:Hc; cbn [andb res_bind]; [|done].
  destruct (decide (TypeOf e = TypeOf t)) as [Heq|Hne].
  - rewrite Heq, Hc. rewrite bool_decide_eq_true_2 by done.
    by destruct (value_eq e t) as [[|]|].
  - by rewrite bool_decide_eq_false_2 by done.
Qed.

Lemma Is_loop_nil `{ErrorValues E T} fuel c (t : E) : Is_loop (S fuel) c None (Some t) = Ok false.
Proof. cbn. by destruct c. Qed.

Lemma none_before_0 `{ErrorValues E T} (err : option E) (t : E) : none_before 0 err t.
Proof. intros m x Hm. lia. Qed.

Lemma none_before_S `{ErrorValues E T} n (e : E) (t : E) :
  none_before (S n) (Some e) t ↔ matches e t = Ok false ∧ none_before n (Unwrap (Some e)) t.
Proof.
  split.
  - intros Hall. split; [by apply (Hall 0 e); [lia|]|].
    intros m x Hm Hx. apply (Hall (S m) x); [lia|done].
  - intros [H0 Hall] m x Hm Hx. destruct m as [|m].
    + cbn in Hx. by simplify_eq.
    + apply (Hall m x); [lia|done].
Qed.

Lemma Is_outcome_shift `{ErrorValues E T} fuel (e : E) t r :
  matches e t = Ok false →
  Is_outcome fuel (Unwrap (Some e)) t r → is_Some (Unwrap (Some e)) →
  Is_outcome (S fuel) (Some e) t r.
Proof.
  intros Hm Ho Hu. destruct Ho as [n x Hn Hc Hx Hb|n Hn Hc Hb|n x msg Hn Hc Hx Hb|Hc Hb].
  - apply (Is_found _ _ _ (S n) x); [lia|done|done|]. by apply none_before_S.
  - apply (Is_exhausted _ _ _ (S n)); [lia|done|]. by apply none_before_S.
  - apply (Is_panicked _ _ _ (S n) x); [lia|done|done|]. by apply none_before_S.
  - apply Is_unfinished; [|by apply none_before_S].
    intros n Hn. destruct n as [|n]; [done|]. apply (Hc n). lia.
Qed.

Lemma Is_loop_outcome `{ErrorValues E T} fuel : ∀ (err : option E) (t : E),
  Is_outcome fuel err t (Is_loop fuel (TypeComparable (TypeOf t)) err (Some t)).
Proof.
  induction fuel as [|fuel IH]; intros err t.
  - cbn. apply Is_unfinished; [intros n Hn; lia|apply none_before_0].
  - destruct err as [e|].
    + rewrite Is_loop_step.
      destruct (matches_cases e t) as [[[|] Hm]|(Hm & _)]; rewrite Hm; cbn [res_bind].
      * apply (Is_found _ _ _ 0 e); [lia|done|done|apply none_before_0].
      * destruct (Unwrap (Some e)) as [e'|] eqn:Hu.
        -- apply Is_outcome_shift; [done| |by rewrite Hu]. rewrite Hu. apply IH.
        -- apply (Is_exhausted _ _ _ 0); [lia|done|].
           intros m x Hm' Hx. assert (m = 0) as -> by lia. cbn in Hx. by simplify_eq.
      * apply (Is_panicked _ _ _ 0 e); [lia|done|done|apply none_before_0].
    + rewrite Is_loop_nil. apply (Is_exhausted _ _ _ 0); [lia|done|].
      intros m x _ Hx. by rewrite chain_None in Hx.
Qed.

Lemma chain_add `{ErrorValues E T} a b (z : option E) : chain (a + b) z = chain a (chain b z).
Proof.
  revert z. induction b as [|b IHb]; intros z; [by rewrite Nat.add_0_r|].
  rewrite Nat.add_succ_r. cbn [chain]. apply IHb.
Qed.

Lemma chain_ended `{ErrorValues E T} n m (err : option E) :
  chain n err = None → n ≤ m → chain m err = None.
Proof.
  intros Hn Hle. replace m with ((m - n) + n) by lia.
  by rewrite chain_add, Hn, chain_None.
Qed.

Lemma decisive_unique `{ErrorValues E T} (err : option E) t n1 n2 e1 e2 :
  chain n1 err = Some e1 → matches e1 t ≠ Ok false → none_before n1 err t →
  chain n2 err = Some e2 → matches e2 t ≠ Ok false → none_before n2 err t →
  e1 = e2.
Proof.
  intros Hc1 Hx1 Hb1 Hc2 Hx2 Hb2.
  destruct (Nat.lt_trichotomy n1 n2) as [Hlt|[Heq|Hlt]].
  - destruct Hx1. by apply (Hb2 n1 e1).
  - subst. congruence.
  - destruct Hx2. by apply (Hb1 n2 e2).
Qed.

Lemma decisive_not_exhausted `{ErrorValues E T} (err : option E) t n e m :
  chain n err = Some e → matches e t ≠ Ok false →
  chain (S m) err = None → none_before (S m) err t → False.
Proof.
  intros Hc Hx Hn Hb. destruct (decide (n < S m)) as [Hlt|Hge].
  - destruct Hx. by apply (Hb n e).
  - rewrite (chain_ended (S m) n err Hn) in Hc by lia. done.
Qed.

Lemma Is_outcome_unique `{ErrorValues E T} fuel (err : option E) t r1 r2 :
  Is_outcome fuel err t r1 → Is_outcome fuel err t r2 → r1 = r2.
Proof.
  intros H1 H2.
  destruct H1 as [n1 e1 Hn1 Hc1 Hx1 Hb1|n1 Hn1 Hc1 Hb1|n1 e1 msg1 Hn1 Hc1 Hx1 Hb1|Hc1 Hb1];
    destruct H2 as [n2 e2 Hn2 Hc2 Hx2 Hb2|n2 Hn2 Hc2 Hb2|n2 e2 msg2 Hn2 Hc2 Hx2 Hb2|Hc2 Hb2].
  - done.
  - exfalso; apply (decisive_not_exhausted err t n1 e1 n2 Hc1); [by rewrite Hx1|done|done].
  - assert (e1 = e2) by (apply (decisive_unique err t n1 n2 e1 e2 Hc1); [by rewrite Hx1|done|done|by rewrite Hx2|done]). congruence.
  - pose proof (Hb2 n1 e1 Hn1 Hc1). congruence.
  - exfalso; apply (decisive_not_exhausted err t n2 e2 n1 Hc2); [by rewrite Hx2|done|done].
  - done.
  - exfalso; apply (decisive_not_exhausted err t n2 e2 n1 Hc2); [by rewrite Hx2|done|done].
  - destruct (Hc2 n1 Hn1) as [x Hx]. congruence.
  - assert (e1 = e2) by (apply (decisive_unique err t n1 n2 e1 e2 Hc1); [by rewrite Hx1|done|done|by rewrite Hx2|done]). congruence.
  - exfalso; apply (decisive_not_exhausted err t n1 e1 n2 Hc1); [by rewrite Hx1|done|done].
  - assert (e1 = e2) by (apply (decisive_unique err t n1 n2 e1 e2 Hc1); [by rewrite Hx1|done|done|by rewrite Hx2|done]). congruence.
  - pose proof (Hb2 n1 e1 Hn1 Hc1). congruence.
  - pose proof (Hb1 n2 e2 Hn2 Hc2). congruence.
  - destruct (Hc1 n2 Hn2) as [x Hx]. congruence.
  - pose proof (Hb1 n2 e2 Hn2 Hc2). congruence.
  - done.
Qed.

Lemma Is_loop_iff `{ErrorValues E T} fuel (err : option E) (t : E) r :
  Is_loop fuel (TypeComparable (TypeOf t)) err (Some t) = r ↔ Is_outcome fuel err t r.
Proof.
  split.
  - intros <-. apply Is_loop_outcome.
  - intros Ho. apply (Is_outcome_unique fuel err t); [apply Is_loop_outcome|done].
Qed.

Lemma chain_Unwrap `{ErrorValues E T} n (err : option E) : chain (S n) err = chain n (Unwrap err).
Proof. done. Qed.



Lemma As_loop_first `{ErrorValues E T} fuel : ∀ n (err : option E) e tt stored,
  chain n err = Some e → AssignableTo (TypeOf e) tt = true →
  (∀ m x, m < n → chain m err = Some x →
     AssignableTo (TypeOf x) tt = false ∧ fst (As_by_method x tt) = false) →
  n < fuel →
  As_loop fuel err tt stored = Ok (true, Some e).
Proof.
  induction fuel as [|fuel IH]; intros n err e tt stored Hc Ha Hall Hn; [lia|].
  destruct n as [|n].
  - cbn in Hc. subst err. cbn. by rewrite Ha.
  - destruct err as [x|]; [|by rewrite chain_None in Hc].
    destruct (Hall 0 x ltac:(lia) eq_refl) as [Hx1 Hx2].
    cbn [As_loop]. rewrite Hx1. cbv zeta. rewrite Hx2.
    apply (IH n); [done|done| |lia].
    intros m y Hm Hy. apply (Hall (S m) y); [lia|done].
Qed.

Lemma As_loop_none `{ErrorValues E T} fuel : ∀ n (err : option E) tt stored,
  chain n err = None →
  (∀ m x, m < n → chain m err = Some x →
     AssignableTo (TypeOf x) tt = false ∧ As_by_method x tt = (false, None)) →
  n < fuel →
  As_loop fuel err tt stored = Ok (false, stored).
Proof.
  induction fuel as [|fuel IH]; intros n err tt stored Hc Hall Hn; [lia|].
  destruct err as [x|]; [|done].
  destruct n as [|n]; [done|].
  destruct (Hall 0 x ltac:(lia) eq_refl) as [Hx1 Hx2].
  cbn [As_loop]. rewrite Hx1. cbv zeta. rewrite Hx2. cbn [fst snd].
  apply (IH n); [done| |lia].
  intros m y Hm Hy. apply (Hall (S m) y); [lia|done].
Qed.




(** ** The [fdMutex] *)

(** *** Masks as division and remainder *)
Lemma land_shifted_mask s m k :
  (0 <= k)%Z → Z.land s (Z.shiftl m k) = Z.shiftl (Z.land (Z.shiftr s k) m) k.
Proof.
  intros Hk. apply Z.bits_inj'. intros i Hi.
  rewrite Z.land_spec. destruct (Z.lt_ge_cases i k).
  - rewrite !Z.shiftl_spec_low by done. apply andb_false_r.
  - rewrite !Z.shiftl_spec by done. rewrite Z.land_spec, Z.shiftr_spec by lia.
    by replace (i - k + k)%Z with i by lia.
Qed.

Lemma land_field s n k :
  (0 <= n)%Z → (0 <= k)%Z →
  Z.land s (Z.shiftl (Z.shiftl 1 n - 1) k) = ((s / 2 ^ k) mod 2 ^ n * 2 ^ k)%Z.
Proof.
  intros Hn Hk. rewrite land_shifted_mask by done.
  rewrite Z.shiftl_1_l. replace (2 ^ n - 1)%Z with (Z.ones n)
    by (rewrite Z.ones_equiv; lia).
  rewrite Z.land_ones by done. rewrite Z.shiftr_div_pow2, Z.shiftl_mul_pow2 by done. done.
Qed.

Lemma land_bit s k :
  (0 <= k)%Z → Z.land s (Z.shiftl 1 k) = ((s / 2 ^ k) mod 2 * 2 ^ k)%Z.
Proof. intros Hk. by apply (land_field s 1 k). Qed.

Lemma lor_disjoint a b : Z.land a b = 0%Z → Z.lor a b = (a + b)%Z.
Proof.
  intros H. rewrite <- Z.lxor_lor by done. symmetry. by apply Z.add_nocarry_lxor.
Qed.

Lemma ldiff_minus a b : Z.ldiff a b = (a - Z.land a b)%Z.
Proof.
  assert (Z.ldiff a b + Z.land a b = a)%Z; [|lia].
  rewrite Z.add_nocarry_lxor.
  - rewrite Z.lxor_lor.
    + apply Z.lor_ldiff_and.
    + apply Z.bits_inj'. intros i Hi.
      rewrite !Z.land_spec, Z.ldiff_spec, Z.bits_0. by destruct (Z.testbit a i), (Z.testbit b i).
  - apply Z.bits_inj'. intros i Hi.
    rewrite !Z.land_spec, Z.ldiff_spec, Z.bits_0. by destruct (Z.testbit a i), (Z.testbit b i).
Qed.

Lemma land_two_masks a b c :
  Z.land b c = 0%Z → Z.land a (Z.lor b c) = (Z.land a b + Z.land a c)%Z.
Proof.
  intros H. rewrite Z.land_lor_distr_r. apply lor_disjoint.
  apply Z.bits_inj'. intros i Hi. rewrite !Z.land_spec, Z.bits_0.
  assert (Hb : Z.testbit (Z.land b c) i = false) by (rewrite H; apply Z.bits_0).
  rewrite Z.land_spec in Hb.
  by destruct (Z.testbit a i), (Z.testbit b i), (Z.testbit c i).
Qed.

(** The masks of the state, as arithmetic. *)
Lemma land_mutexClosed s : Z.land s mutexClosed = (s mod 2)%Z.
Proof. unfold mutexClosed. rewrite land_bit by done. change (2 ^ 0)%Z with 1%Z.
  rewrite Z.div_1_r. lia. Qed.

Lemma land_mutexRLock s : Z.land s mutexRLock = ((s / 2) mod 2 * 2)%Z.
Proof. unfold mutexRLock. by rewrite land_bit. Qed.

Lemma land_mutexWLock s : Z.land s mutexWLock = ((s / 4) mod 2 * 4)%Z.
Proof. unfold mutexWLock. by rewrite land_bit. Qed.

Lemma land_mutexRefMask s : Z.land s mutexRefMask = ((s / 8) mod 2 ^ 20 * 8)%Z.
Proof. unfold mutexRefMask. by rewrite land_field. Qed.

Lemma land_mutexRMask s : Z.land s mutexRMask = ((s / 2 ^ 23) mod 2 ^ 20 * 2 ^ 23)%Z.
Proof. unfold mutexRMask. by rewrite land_field. Qed.

Lemma land_mutexWMask s : Z.land s mutexWMask = ((s / 2 ^ 43) mod 2 ^ 20 * 2 ^ 43)%Z.
Proof. unfold mutexWMask. by rewrite land_field. Qed.

Lemma land_closed_refs s :
  Z.land s (Z.lor mutexClosed mutexRefMask) = (s mod 2 + (s / 8) mod 2 ^ 20 * 8)%Z.
Proof.
  rewrite land_two_masks by done. by rewrite land_mutexClosed, land_mutexRefMask.
Qed.

Lemma ldiff_waiters s :
  Z.ldiff s (Z.lor mutexRMask mutexWMask)
  = (s - (s / 2 ^ 23) mod 2 ^ 20 * 2 ^ 23 - (s / 2 ^ 43) mod 2 ^ 20 * 2 ^ 43)%Z.
Proof.
  rewrite ldiff_minus, land_two_masks by done.
  rewrite land_mutexRMask, land_mutexWMask. lia.
Qed.

Lemma lor_bit s b : Z.lor s b = (s + b - Z.land s b)%Z.
Proof.
  assert (Z.lor s b = Z.lor (Z.ldiff s b) b) as ->.
  { apply Z.bits_inj'. intros i Hi. rewrite !Z.lor_spec, Z.ldiff_spec.
    by destruct (Z.testbit s i), (Z.testbit b i). }
  rewrite lor_disjoint.
  - rewrite ldiff_minus. lia.
  - apply Z.bits_inj'. intros i Hi. rewrite Z.land_spec, Z.ldiff_spec, Z.bits_0.
    by destruct (Z.testbit s i), (Z.testbit b i).
Qed.

Lemma lor_mutexClosed s : Z.lor s mutexClosed = (s + 1 - s mod 2)%Z.
Proof. rewrite lor_bit, land_mutexClosed. change mutexClosed with 1%Z. lia. Qed.

Lemma pack_range f : in_range f → (0 <= pack f < 2 ^ 63)%Z.
Proof.
  intros H. destruct f as [[] [] [] r rw ww]; unfold pack, in_range in *; simpl in *;
    change (2 ^ 63)%Z with 9223372036854775808%Z; powers; lia.
Qed.

Lemma pack_closed f : in_range f → (pack f mod 2 = Z.b2z (f_closed f))%Z.
Proof. intros H. destruct f as [[] [] [] r rw ww]; fields_arith. Qed.

Lemma pack_refs f : in_range f → ((pack f / 8) mod 2 ^ 20 = f_refs f)%Z.
Proof. intros H. destruct f as [[] [] [] r rw ww]; fields_arith. Qed.

Lemma pack_rwait f : in_range f → ((pack f / 2 ^ 23) mod 2 ^ 20 = f_rwait f)%Z.
Proof. intros H. destruct f as [[] [] [] r rw ww]; fields_arith. Qed.

Lemma pack_wwait f : in_range f → ((pack f / 2 ^ 43) mod 2 ^ 20 = f_wwait f)%Z.
Proof. intros H. destruct f as [[] [] [] r rw ww]; fields_arith. Qed.

Lemma pack_rlock f : in_range f → ((pack f / 2) mod 2 = Z.b2z (f_rlock f))%Z.
Proof. intros H. destruct f as [[] [] [] r rw ww]; fields_arith. Qed.

Lemma pack_wlock f : in_range f → ((pack f / 4) mod 2 = Z.b2z (f_wlock f))%Z.
Proof. intros H. destruct f as [[] [] [] r rw ww]; fields_arith. Qed.

Lemma pack_inj f g : in_range f → in_range g → pack f = pack g → f = g.
Proof.
  intros Hf Hg E.
  pose proof (pack_closed f Hf) as H1. pose proof (pack_closed g Hg) as H1'.
  pose proof (pack_rlock f Hf) as H2. pose proof (pack_rlock g Hg) as H2'.
  pose proof (pack_wlock f Hf) as H3. pose proof (pack_wlock g Hg) as H3'.
  pose proof (pack_refs f Hf) as H4. pose proof (pack_refs g Hg) as H4'.
  pose proof (pack_rwait f Hf) as H5. pose proof (pack_rwait g Hg) as H5'.
  pose proof (pack_wwait f Hf) as H6. pose proof (pack_wwait g Hg) as H6'.
  rewrite E in *. destruct f as [c r w n rw ww], g as [c' r' w' n' rw' ww']. simpl in *.
  assert (c = c') by (destruct c, c'; simpl in *; congruence).
  assert (r = r') by (destruct r, r'; simpl in *; congruence).
  assert (w = w') by (destruct w, w'; simpl in *; congruence).
  congruence.
Qed.

(** *** The methods on the fields *)
Lemma incref_fields f :
  in_range f →
  fdMutex_incref (pack f) =
    if f_closed f then Ok (false, pack f)
    else if bool_decide (f_refs f = 2 ^ 20 - 1)%Z then Panic overflowMsg
    else Ok (true, pack (set_refs (f_refs f + 1) f)).
Proof.
  intros H. unfold fdMutex_incref. rewrite land_mutexClosed, land_mutexRefMask.
  change mutexRef with 8%Z. rewrite (pack_closed f H).
  destruct f as [c r w n rw ww]; simpl.
  destruct c; simpl; [done|]. case_bool_decide as Hn; eqb_cases; try done.
  - exfalso. destruct r, w; fields_arith.
  - exfalso. destruct r, w; fields_arith.
  - do 2 f_equal. destruct r, w; fields_arith.
Qed.

Lemma decref_fields f :
  in_range f →
  fdMutex_decref (pack f) =
    if bool_decide (f_refs f = 0)%Z then Panic inconsistentMsg
    else Ok (f_closed f && bool_decide (f_refs f = 1)%Z, pack (set_refs (f_refs f - 1) f)).
Proof.
  intros H. unfold fdMutex_decref. rewrite land_mutexRefMask, land_closed_refs.
  change mutexRef with 8%Z. change mutexClosed with 1%Z. rewrite (pack_refs f H).
  case_bool_decide as Hn.
  { rewrite Hn. done. }
  destruct (Z.eqb_spec (f_refs f * 8) 0); [lia|].
  assert (Hnew : uint64 (pack f - 8) = pack (set_refs (f_refs f - 1) f)).
  { destruct f as [[] [] [] n' rw ww]; fields_arith. }
  rewrite Hnew.
  assert (Hr : in_range (set_refs (f_refs f - 1) f)).
  { destruct f; unfold in_range in *; simpl in *. lia. }
  rewrite (pack_closed _ Hr), (pack_refs _ Hr). simpl. f_equal. f_equal.
  destruct (f_closed f); simpl.
  - case_bool_decide; eqb_cases; try done; lia.
  - eqb_cases; [lia|done].
Qed.

Lemma land_mutexBit read s :
  Z.land s (mutexBit read) =
  if read then ((s / 2) mod 2 * 2)%Z else ((s / 4) mod 2 * 4)%Z.
Proof. destruct read; [apply land_mutexRLock|apply land_mutexWLock]. Qed.

Lemma land_mutexMask read s :
  Z.land s (mutexMask read) =
  if read then ((s / 2 ^ 23) mod 2 ^ 20 * 2 ^ 23)%Z
  else ((s / 2 ^ 43) mod 2 ^ 20 * 2 ^ 43)%Z.
Proof. destruct read; [apply land_mutexRMask|apply land_mutexWMask]. Qed.

Lemma rwlock_iter_fields read f :
  in_range f →
  rwlock_iter read (pack f) =
    if f_closed f then Ok Refused
    else if negb (f_lock read f) then
      if bool_decide (f_refs f = 2 ^ 20 - 1)%Z then Panic overflowMsg
      else Ok (Locked (pack (set_refs (f_refs f + 1) (set_lock read true f))))
    else
      if bool_decide (f_wait read f = 2 ^ 20 - 1)%Z then Panic overflowMsg
      else Ok (Parked (pack (set_wait read (f_wait read f + 1) f))).
Proof.
  intros H. unfold rwlock_iter.
  rewrite land_mutexClosed, (pack_closed f H), lor_bit, !land_mutexRefMask, !land_mutexMask,
    !land_mutexBit.
  change mutexRef with 8%Z.
  destruct f as [c r w n rw ww]. destruct c; simpl; [done|].
  destruct read; simpl.
  - change mutexRLock with 2%Z. change mutexRWait with (2 ^ 23)%Z.
    destruct r; simpl.
    + case_bool_decide as Hn; eqb_cases; try done; try (exfalso; destruct w; fields_arith).
      do 2 f_equal. destruct w; fields_arith.
    + case_bool_decide as Hn; eqb_cases; try done; try (exfalso; destruct w; fields_arith).
      do 2 f_equal. destruct w; fields_arith.
  - change mutexWLock with 4%Z. change mutexWWait with (2 ^ 43)%Z.
    destruct w; simpl.
    + case_bool_decide as Hn; eqb_cases; try done; try (exfalso; destruct r; fields_arith).
      do 2 f_equal. destruct r; fields_arith.
    + case_bool_decide as Hn; eqb_cases; try done; try (exfalso; destruct r; fields_arith).
      do 2 f_equal. destruct r; fields_arith.
Qed.

Lemma rwunlock_fields read f :
  in_range f →
  rwunlock read (pack f) =
    if negb (f_lock read f) || bool_decide (f_refs f = 0)%Z then Panic inconsistentMsg
    else Ok (f_closed f && bool_decide (f_refs f = 1)%Z,
             pack (set_wait read (if bool_decide (f_wait read f = 0)%Z then 0
                                  else f_wait read f - 1)%Z
                     (set_refs (f_refs f - 1) (set_lock read false f))),
             if bool_decide (f_wait read f = 0)%Z then []
             else [runtime_Semrelease (mutexSema read)]).
Proof.
  intros H. unfold rwunlock.
  rewrite !land_mutexBit, !land_mutexMask, land_mutexRefMask, (pack_refs f H), ldiff_minus,
    land_mutexBit.
  change mutexRef with 8%Z. change mutexClosed with 1%Z.
  assert (Hlock : (if read then ((pack f / 2) mod 2 * 2)%Z else ((pack f / 4) mod 2 * 4)%Z)
                  = (Z.b2z (f_lock read f) * (if read then 2 else 4))%Z).
  { destruct read; simpl; [by rewrite (pack_rlock f H)|by rewrite (pack_wlock f H)]. }
  rewrite Hlock.
  assert (Hwait : (if read then ((pack f / 2 ^ 23) mod 2 ^ 20 * 2 ^ 23)%Z
                   else ((pack f / 2 ^ 43) mod 2 ^ 20 * 2 ^ 43)%Z)
                  = (f_wait read f * (if read then 2 ^ 23 else 2 ^ 43))%Z).
  { destruct read; simpl; [by rewrite (pack_rwait f H)|by rewrite (pack_wwait f H)]. }
  rewrite Hwait.
  destruct (f_lock read f) eqn:Hl; simpl.
  2:{ destruct (Z.eqb_spec 0 0); [done|lia]. }
  destruct (Z.eqb_spec (1 * (if read then 2 else 4)) 0); [destruct read; lia|]. simpl.
  case_bool_decide as Hn.
  { rewrite Hn. done. }
  destruct (Z.eqb_spec (f_refs f * 8) 0); [lia|].
  set (g := set_wait read (if bool_decide (f_wait read f = 0)%Z then 0
                           else f_wait read f - 1)%Z
              (set_refs (f_refs f - 1) (set_lock read false f))).
  assert (Hg : in_range g).
  { unfold g. destruct f, read; unfold in_range in *; simpl in *; case_bool_decide; lia. }
  assert (Hnew :
    (if negb (f_wait read f * (if read then 2 ^ 23 else 2 ^ 43) =? 0)%Z
     then uint64 (uint64 (pack f - 1 * (if read then 2 else 4) - 8) - mutexWait read)
     else uint64 (pack f - 1 * (if read then 2 else 4) - 8)) = pack g).
  { unfold g. destruct f as [c r w n' rw ww], read; simpl in Hl; subst; simpl.
    - change mutexRWait with (2 ^ 23)%Z. case_bool_decide as Hw.
      + rewrite Hw. simpl. destruct c, w; fields_arith.
      + destruct (Z.eqb_spec (rw * 2 ^ 23) 0); [unfold in_range in H; simpl in H; lia|].
        simpl. destruct c, w; fields_arith.
    - change mutexWWait with (2 ^ 43)%Z. case_bool_decide as Hw.
      + rewrite Hw. simpl. destruct c, r; fields_arith.
      + destruct (Z.eqb_spec (ww * 2 ^ 43) 0); [unfold in_range in H; simpl in H; lia|].
        simpl. destruct c, r; fields_arith. }
  rewrite Hnew, land_closed_refs, (pack_closed g Hg), (pack_refs g Hg).
  f_equal. f_equal; [f_equal|].
  - assert (f_closed g = f_closed f ∧ f_refs g = (f_refs f - 1)%Z) as [-> ->].
    { unfold g. by destruct f, read. }
    destruct (f_closed f); simpl.
    + case_bool_decide; eqb_cases; try done; lia.
    + eqb_cases; [lia|done].
  - case_bool_decide as Hw.
    + rewrite Hw. done.
    + destruct (Z.eqb_spec (f_wait read f * (if read then 2 ^ 23 else 2 ^ 43)) 0); [|done].
      destruct read; lia.
Qed.

Lemma set_wait_same read f : set_wait read (f_wait read f) f = f.
Proof. by destruct f, read. Qed.

Lemma wake_all_fields read fuel : ∀ n f,
  in_range f → f_wait read f = Z.of_nat n → n < fuel →
  wake_all fuel (mutexMask read) (mutexWait read) (mutexSema read) (pack f)
  = Ok (pack (set_wait read 0 f), replicate n (runtime_Semrelease (mutexSema read))).
Proof.
  induction fuel as [|fuel IH]; intros n f H Hn Hfuel; [lia|]. simpl.
  rewrite land_mutexMask.
  assert (Hwait : (if read then ((pack f / 2 ^ 23) mod 2 ^ 20 * 2 ^ 23)%Z
                   else ((pack f / 2 ^ 43) mod 2 ^ 20 * 2 ^ 43)%Z)
                  = (f_wait read f * (if read then 2 ^ 23 else 2 ^ 43))%Z).
  { destruct read; simpl; [by rewrite (pack_rwait f H)|by rewrite (pack_wwait f H)]. }
  rewrite Hwait, Hn. destruct n as [|n].
  - assert (E : set_wait read 0 f = f).
    { change (Z.of_nat 0) with 0%Z in Hn. rewrite <- Hn. apply set_wait_same. }
    rewrite E. done.
  - destruct (Z.eqb_spec (Z.of_nat (S n) * (if read then 2 ^ 23 else 2 ^ 43)) 0);
      [destruct read; lia|]. simpl.
    assert (Hstep : uint64 (pack f - mutexWait read)
                    = pack (set_wait read (Z.of_nat n) f)).
    { destruct f as [c r w n' rw ww], read; simpl in Hn; subst.
      - change (mutexWait true) with (2 ^ 23)%Z. destruct c, r, w; fields_arith.
      - change (mutexWait false) with (2 ^ 43)%Z. destruct c, r, w; fields_arith. }
    rewrite Hstep. rewrite (IH n (set_wait read (Z.of_nat n) f)).
    + simpl. do 2 f_equal. by destruct f, read.
    + destruct f, read; unfold in_range in *; simpl in *; lia.
    + by destruct f, read.
    + lia.
Qed.

Lemma increfAndClose_fields fuel f :
  in_range f →
  Z.to_nat (f_rwait f) < fuel → Z.to_nat (f_wwait f) < fuel →
  increfAndClose fuel (pack f) =
    if f_closed f then Ok (false, pack f, [])
    else if bool_decide (f_refs f = 2 ^ 20 - 1)%Z then Panic overflowMsg
    else Ok (true, pack (closed_fields f),
             replicate (Z.to_nat (f_rwait f)) (runtime_Semrelease rsema)
             ++ replicate (Z.to_nat (f_wwait f)) (runtime_Semrelease wsema)).
Proof.
  intros H Hr Hw. unfold increfAndClose.
  rewrite land_mutexClosed, (pack_closed f H), lor_mutexClosed, (pack_closed f H),
    land_mutexRefMask, ldiff_waiters.
  change mutexRef with 8%Z.
  destruct (f_closed f) eqn:Hc; simpl; [done|].
  case_bool_decide as Hn.
  { destruct (Z.eqb_spec ((uint64 (pack f + 1 - 0 + 8) / 8) mod 2 ^ 20 * 8) 0); [done|].
    exfalso. destruct f as [c r w n' rw ww]. simpl in *. subst. destruct r, w; fields_arith. }
  destruct (Z.eqb_spec ((uint64 (pack f + 1 - 0 + 8) / 8) mod 2 ^ 20 * 8) 0).
  { exfalso. destruct f as [c r w n' rw ww]. simpl in *. subst. destruct r, w; fields_arith. }
  change (wake_all fuel mutexRMask mutexRWait rsema)
    with (wake_all fuel (mutexMask true) (mutexWait true) (mutexSema true)).
  change (wake_all fuel mutexWMask mutexWWait wsema)
    with (wake_all fuel (mutexMask false) (mutexWait false) (mutexSema false)).
  rewrite (wake_all_fields true fuel (Z.to_nat (f_rwait f)) f H); [|unfold in_range in H; simpl; lia|done].
  cbn [res_bind fst snd].
  rewrite (wake_all_fields false fuel (Z.to_nat (f_wwait f)) (set_wait true 0 f)).
  - cbn [res_bind fst snd]. do 2 f_equal. f_equal.
    destruct f as [c r w n' rw ww]. simpl in *. subst. unfold closed_fields. simpl.
    destruct r, w; fields_arith.
  - destruct f; unfold in_range in *; simpl in *; lia.
  - destruct f; unfold in_range in *; simpl in *; lia.
  - done.
Qed.

(** X10.  [incref] adds one reference and [decref] removes one, and neither
    touches another field of the state; [incref] refuses a closed mutex,
    panics rather than overflow the 20 bits of the count, and [decref]
    panics on a count of zero and reports the last reference of a closed
    mutex. *)
Theorem incref_decref_count f :
  in_range f →
  fdMutex_incref (pack f) =
    (if f_closed f then Ok (false, pack f)
     else if bool_decide (f_refs f = 2 ^ 20 - 1)%Z then Panic overflowMsg
     else Ok (true, pack (set_refs (f_refs f + 1) f))) ∧
  fdMutex_decref (pack f) =
    (if bool_decide (f_refs f = 0)%Z then Panic inconsistentMsg
     else Ok (f_closed f && bool_decide (f_refs f = 1)%Z,
              pack (set_refs (f_refs f - 1) f))).
Proof. intros H. split; [by apply incref_fields|by apply decref_fields]. Qed.

(** X11.  An iteration of [rwlock] refuses a closed mutex; takes a free lock
    and a reference; and on a held lock it only adds a waiter and parks.
    [rwunlock] panics unless the lock is held with a reference; otherwise it
    drops the lock and a reference, takes one waiter off the count and wakes
    it, and reports the last reference of a closed mutex.  The lock and the
    waiters of the other kind are never touched. *)
Theorem rwlock_rwunlock_fields read f :
  in_range f →
  rwlock_iter read (pack f) =
    (if f_closed f then Ok Refused
     else if negb (f_lock read f) then
       if bool_decide (f_refs f = 2 ^ 20 - 1)%Z then Panic overflowMsg
       else Ok (Locked (pack (set_refs (f_refs f + 1) (set_lock read true f))))
     else
       if bool_decide (f_wait read f = 2 ^ 20 - 1)%Z then Panic overflowMsg
       else Ok (Parked (pack (set_wait read (f_wait read f + 1) f)))) ∧
  rwunlock read (pack f) =
    (if negb (f_lock read f) || bool_decide (f_refs f = 0)%Z then Panic inconsistentMsg
     else Ok (f_closed f && bool_decide (f_refs f = 1)%Z,
              pack (set_wait read (if bool_decide (f_wait read f = 0)%Z then 0
                                   else f_wait read f - 1)%Z
                      (set_refs (f_refs f - 1) (set_lock read false f))),
              if bool_decide (f_wait read f = 0)%Z then []
              else [runtime_Semrelease (mutexSema read)])).
Proof. intros H. split; [by apply rwlock_iter_fields|by apply rwunlock_fields]. Qed.

(** X12.  [increfAndClose] refuses a closed mutex; otherwise it sets the
    closed bit, adds a reference, zeroes both waiter counts and releases
    each semaphore once per waiter that was counted. *)
Theorem increfAndClose_wakes_all fuel f :
  in_range f → Z.to_nat (f_rwait f) < fuel → Z.to_nat (f_wwait f) < fuel →
  increfAndClose fuel (pack f) =
    if f_closed f then Ok (false, pack f, [])
    else if bool_decide (f_refs f = 2 ^ 20 - 1)%Z then Panic overflowMsg
    else Ok (true, pack (closed_fields f),
             replicate (Z.to_nat (f_rwait f)) (runtime_Semrelease rsema)
             ++ replicate (Z.to_nat (f_wwait f)) (runtime_Semrelease wsema)).
Proof. apply increfAndClose_fields. Qed.

(** X13.  Round trips: [decref] undoes [incref], and [rwunlock] undoes the
    [rwlock] that took a free lock on which nobody waits; neither reports a
    last reference on an open mutex, and no semaphore is touched. *)
Theorem reference_round_trips read f :
  in_range f → f_closed f = false → (f_refs f < 2 ^ 20 - 1)%Z →
  (∃ s, fdMutex_incref (pack f) = Ok (true, s) ∧
        fdMutex_decref s = Ok (false, pack f)) ∧
  (f_lock read f = false → f_wait read f = 0%Z →
   ∃ s, rwlock read (pack f) [] = Ok (true, s, []) ∧
        rwunlock read s = Ok (false, pack f, [])).
Proof.
  intros H Hc Hn. split.
  - eexists. rewrite (incref_fields f H), Hc, bool_decide_eq_false_2 by lia.
    split; [done|].
    assert (Hr : in_range (set_refs (f_refs f + 1) f)).
    { destruct f; unfold in_range in *; simpl in *; lia. }
    rewrite (decref_fields _ Hr).
    assert (f_refs (set_refs (f_refs f + 1) f) = (f_refs f + 1)%Z) as -> by by destruct f.
    assert (f_closed (set_refs (f_refs f + 1) f) = false) as -> by by destruct f.
    rewrite bool_decide_eq_false_2 by (unfold in_range in H; lia). simpl.
    do 3 f_equal. destruct f; unfold set_refs; simpl. f_equal. lia.
  - intros Hl Hw.
    set (g := set_refs (f_refs f + 1) (set_lock read true f)).
    assert (Hg : in_range g).
    { unfold g. destruct f, read; unfold in_range in *; simpl in *; lia. }
    exists (pack g). split.
    + destruct read; simpl; rewrite (rwlock_iter_fields _ f H), Hc, Hl; simpl;
        by rewrite bool_decide_eq_false_2 by lia.
    + rewrite (rwunlock_fields read g Hg).
      assert (f_lock read g = true) as -> by (unfold g; by destruct f, read).
      assert (f_refs g = (f_refs f + 1)%Z) as -> by (unfold g; by destruct f, read).
      assert (f_wait read g = 0%Z) as -> by (unfold g; destruct f, read; simpl in *; done).
      assert (f_closed g = false) as -> by (unfold g; destruct f, read; simpl in *; done).
      simpl. rewrite bool_decide_eq_false_2 by (unfold in_range in H; lia).
      rewrite ?bool_decide_eq_true_2 by done. simpl. do 3 f_equal.
      unfold g. destruct f as [c r w n rw ww], read; simpl in *; subst; unfold set_refs; simpl.
      all: by replace (n + 1 - 1)%Z with n by lia.
Qed.

#[local] Arguments pack : simpl never.

(** X14.  Closing is final.  On a closed mutex [incref], [increfAndClose]
    and [rwlock] return false and store nothing, and [decref] and
    [rwunlock] keep it closed and only lower the count.  When one of them
    reports the last reference, the count is zero, so that a further
    [decref] or [rwunlock] panics: the last reference is reported once. *)
Theorem closed_is_final fuel f :
  in_range f → f_closed f = true →
  fdMutex_incref (pack f) = Ok (false, pack f) ∧
  increfAndClose fuel (pack f) = Ok (false, pack f, []) ∧
  (∀ read later, rwlock read (pack f) later = Ok (false, pack f, [])) ∧
  (∀ b s, fdMutex_decref (pack f) = Ok (b, s) ∨
          (∃ read c, rwunlock read (pack f) = Ok (b, s, c)) →
     ∃ g, s = pack g ∧ in_range g ∧ f_closed g = true ∧
          f_refs g = (f_refs f - 1)%Z ∧
          (b = true ↔ f_refs g = 0%Z) ∧
          (b = true →
             fdMutex_decref s = Panic inconsistentMsg ∧
             ∀ read, rwunlock read s = Panic inconsistentMsg)).
Proof.
  intros H Hc. split_and!.
  - by rewrite (incref_fields f H), Hc.
  - destruct f as [c r w n rw ww]; simpl in Hc; subst c.
    unfold increfAndClose. rewrite land_mutexClosed.
    replace (pack _ mod 2)%Z with 1%Z; [done|].
    unfold pack; simpl. unfold in_range in H; simpl in H.
    Z.to_euclidean_division_equations; lia.
  - intros read later. destruct later; simpl;
      by rewrite (rwlock_iter_fields read f H), Hc.
  - intros b s Hs.
    assert (Hlast : ∀ g, in_range g → f_refs g = 0%Z →
              fdMutex_decref (pack g) = Panic inconsistentMsg ∧
              ∀ read, rwunlock read (pack g) = Panic inconsistentMsg).
    { intros g Hg Hz. split.
      - rewrite (decref_fields g Hg). by rewrite bool_decide_eq_true_2.
      - intros read. rewrite (rwunlock_fields read g Hg).
        rewrite (bool_decide_eq_true_2 _ Hz). by rewrite orb_true_r. }
    destruct Hs as [Hs|(read & c & Hs)].
    + rewrite (decref_fields f H) in Hs. case_bool_decide as Hz; [done|].
      injection Hs as <- <-. rewrite Hc. simpl.
      exists (set_refs (f_refs f - 1) f).
      assert (Hg : in_range (set_refs (f_refs f - 1) f)).
      { destruct f; unfold in_range in *; simpl in *; lia. }
      split_and!; [done|done|by destruct f|by destruct f| |].
      * destruct f; simpl. rewrite bool_decide_eq_true. lia.
      * intros Hb. apply bool_decide_eq_true in Hb. apply Hlast; [done|].
        destruct f; simpl in *; lia.
    + rewrite (rwunlock_fields read f H) in Hs.
      destruct (negb (f_lock read f) || bool_decide (f_refs f = 0%Z)) eqn:E; [done|].
      apply orb_false_iff in E as [_ Hz]. apply bool_decide_eq_false in Hz.
      injection Hs as <- <- <-. rewrite Hc. simpl.
      eexists. split; [reflexivity|].
      split_and!.
      * destruct f, read; unfold in_range in *; simpl in *;
          case_bool_decide; simpl; lia.
      * by destruct f, read.
      * by destruct f, read.
      * destruct f, read; simpl in *; rewrite bool_decide_eq_true; lia.
      * intros Hb. apply bool_decide_eq_true in Hb. apply Hlast.
        -- destruct f, read; unfold in_range in *; simpl in *;
             case_bool_decide; simpl; lia.
        -- destruct f, read; simpl in *; lia.
Qed.

(** X15.  Hand over of a lock.  While one goroutine holds the lock, a second
    [rwlock] counts itself as a waiter and parks; the [rwunlock] of the
    holder takes the waiter off the count and releases the semaphore once;
    the woken goroutine then takes the lock, and the state is the one in
    which the first goroutine held it. *)
Theorem rwlock_hand_over read f :
  in_range f → f_closed f = false → f_lock read f = false →
  f_wait read f = 0%Z → (f_refs f < 2 ^ 20 - 1)%Z →
  ∃ held parked,
    rwlock read (pack f) [] = Ok (true, held, []) ∧
    rwlock_iter read held = Ok (Parked parked) ∧
    rwlock read held [] = Deadlock ∧
    rwunlock read parked = Ok (false, pack f, [runtime_Semrelease (mutexSema read)]) ∧
    rwlock read held [pack f] = Ok (true, held, [runtime_Semacquire (mutexSema read)]).
Proof.
  intros H Hc Hl Hw Hn.
  set (g := set_refs (f_refs f + 1) (set_lock read true f)).
  set (p := set_wait read 1 g).
  assert (Hfree : rwlock_iter read (pack f) = Ok (Locked (pack g))).
  { rewrite (rwlock_iter_fields read f H), Hc, Hl. simpl.
    by rewrite ?bool_decide_eq_false_2 by lia. }
  assert (Hg : in_range g).
  { unfold g. destruct f, read; unfold in_range in *; simpl in *; lia. }
  assert (Hp : in_range p).
  { unfold p, g. destruct f, read; unfold in_range in *; simpl in *; lia. }
  assert (Hpark : rwlock_iter read (pack g) = Ok (Parked (pack p))).
  { rewrite (rwlock_iter_fields read g Hg).
    assert (f_closed g = false) as -> by (unfold g; by destruct f, read).
    assert (f_lock read g = true) as -> by (unfold g; by destruct f, read).
    assert (f_wait read g = 0%Z) as -> by (unfold g; by destruct f, read).
    simpl. by rewrite ?bool_decide_eq_false_2 by lia. }
  exists (pack g), (pack p). split_and!.
  - simpl. by rewrite Hfree.
  - done.
  - simpl. by rewrite Hpark.
  - rewrite (rwunlock_fields read p Hp).
    assert (f_closed p = false) as -> by (unfold p, g; by destruct f, read).
    assert (f_lock read p = true) as -> by (unfold p, g; by destruct f, read).
    assert (f_wait read p = 1%Z) as -> by (unfold p, g; by destruct f, read).
    assert (f_refs p = (f_refs f + 1)%Z) as -> by (unfold p, g; by destruct f, read).
    simpl. rewrite ?bool_decide_eq_false_2 by (unfold in_range in H; lia).
    rewrite ?bool_decide_eq_false_2 by lia. simpl. do 3 f_equal.
    unfold p, g. destruct f as [c r w n rw ww], read; simpl in *; subst;
      unfold set_refs; simpl; by replace (n + 1 - 1)%Z with n by lia.
  - simpl. rewrite Hpark. simpl. by rewrite Hfree.
Qed.

(** X16.  Closing under a parked waiter.  When the lock is held and a second
    goroutine is parked on it, [increfAndClose] releases the semaphore for
    it; the woken [rwlock] then returns false; the [rwunlock] of the holder
    wakes nobody and does not report the last reference, which the closing
    goroutine still holds; and the [decref] of the closing goroutine reports
    it exactly when no other reference was there. *)
Theorem close_under_waiter read fuel f :
  in_range f → f_closed f = false → f_lock read f = false →
  f_rwait f = 0%Z → f_wwait f = 0%Z → (f_refs f < 2 ^ 20 - 2)%Z → 1 < fuel →
  ∃ held parked closed unlocked final,
    rwlock read (pack f) [] = Ok (true, held, []) ∧
    rwlock_iter read held = Ok (Parked parked) ∧
    increfAndClose fuel parked = Ok (true, closed, [runtime_Semrelease (mutexSema read)]) ∧
    rwlock read held [closed] = Ok (false, closed, [runtime_Semacquire (mutexSema read)]) ∧
    rwunlock read closed = Ok (false, unlocked, []) ∧
    fdMutex_decref unlocked = Ok (bool_decide (f_refs f = 0%Z), final) ∧
    fdMutex_incref final = Ok (false, final).
Proof.
  intros H Hc Hl Hrw Hww Hn Hfuel.
  destruct f as [c r w n rw ww]; simpl in *; subst c rw ww.
  assert (Hn0 : (0 <= n)%Z) by (unfold in_range in H; simpl in H; lia).
  set (g := set_refs (n + 1) (set_lock read true (mkFields false r w n 0 0))).
  set (p := set_wait read 1 g).
  set (cl := closed_fields p).
  set (u := set_refs (n + 1) (set_lock read false cl)).
  set (fin := set_refs n u).
  assert (Hfree : rwlock_iter read (pack (mkFields false r w n 0 0)) = Ok (Locked (pack g))).
  { rewrite (rwlock_iter_fields read _ H). simpl. rewrite Hl. simpl.
    by rewrite ?bool_decide_eq_false_2 by lia. }
  assert (Hg : in_range g) by (unfold g; destruct read; unfold in_range; simpl; lia).
  assert (Hp : in_range p) by (unfold p, g; destruct read; unfold in_range; simpl; lia).
  assert (Hcl : in_range cl) by (unfold cl, p, g; destruct read; unfold in_range; simpl; lia).
  assert (Hu : in_range u) by (unfold u, cl, p, g; destruct read; unfold in_range; simpl; lia).
  assert (Hfin : in_range fin) by (unfold fin, u, cl, p, g; destruct read; unfold in_range; simpl; lia).
  assert (Hpark : rwlock_iter read (pack g) = Ok (Parked (pack p))).
  { rewrite (rwlock_iter_fields read g Hg).
    unfold g; destruct read; simpl in *; subst; simpl;
      by rewrite ?bool_decide_eq_false_2 by lia. }
  assert (Hrefused : rwlock_iter read (pack cl) = Ok Refused).
  { rewrite (rwlock_iter_fields read cl Hcl). by destruct read. }
  exists (pack g), (pack p), (pack cl), (pack u), (pack fin). split_and!.
  - simpl. by rewrite Hfree.
  - done.
  - rewrite (increfAndClose_fields fuel p Hp).
    + unfold p, g; destruct read; simpl in *; subst; simpl;
        by rewrite ?bool_decide_eq_false_2 by lia.
    + unfold p, g; destruct read; simpl; lia.
    + unfold p, g; destruct read; simpl; lia.
  - simpl. rewrite Hpark. simpl. by rewrite Hrefused.
  - rewrite (rwunlock_fields read cl Hcl).
    unfold u, cl, p, g; destruct read; simpl in *; subst; simpl;
      rewrite ?bool_decide_eq_false_2 by lia; simpl;
      by replace (n + 1 + 1 - 1)%Z with (n + 1)%Z by lia.
  - rewrite (decref_fields u Hu).
    unfold fin, u, cl, p, g; destruct read; simpl in *; subst; simpl;
      rewrite ?bool_decide_eq_false_2 by lia;
      replace (n + 1 - 1)%Z with n by lia; do 2 f_equal;
      apply bool_decide_ext; lia.
  - rewrite (incref_fields fin Hfin). by destruct read.
Qed.

Lemma incref_decref_count_witness :
  fdMutex_incref 26 = Ok (true, 34%Z) ∧ fdMutex_decref 26 = Ok (false, 18%Z).
Proof.
  destruct (incref_decref_count (mkFields false true false 3 0 0)) as [H1 H2].
  - fields_range.
  - split; [exact H1|exact H2].
Defined.

Lemma rwlock_rwunlock_fields_witness :
  rwlock_iter true 26 = Ok (Parked (26 + 2 ^ 23)%Z) ∧
  rwunlock true 26 = Ok (false, 16%Z, []).
Proof.
  destruct (rwlock_rwunlock_fields true (mkFields false true false 3 0 0)) as [H1 H2].
  - fields_range.
  - split; [exact H1|exact H2].
Defined.

Lemma increfAndClose_wakes_all_witness :
  increfAndClose 5 (24 + 2 * 2 ^ 23 + 2 ^ 43) =
    Ok (true, 33%Z, [runtime_Semrelease rsema; runtime_Semrelease rsema;
                     runtime_Semrelease wsema]).
Proof.
  refine (increfAndClose_wakes_all 5 (mkFields false false false 3 2 1) _ _ _).
  - fields_range.
  - simpl; lia.
  - simpl; lia.
Defined.

Lemma reference_round_trips_witness :
  (∃ s, fdMutex_incref 24 = Ok (true, s) ∧ fdMutex_decref s = Ok (false, 24%Z)) ∧
  (∃ s, rwlock false 24 [] = Ok (true, s, []) ∧ rwunlock false s = Ok (false, 24%Z, [])).
Proof.
  destruct (reference_round_trips false (mkFields false false false 3 0 0)) as [H1 H2].
  - fields_range.
  - reflexivity.
  - simpl; lia.
  - split; [exact H1|exact (H2 eq_refl eq_refl)].
Defined.

Lemma closed_is_final_witness :
  fdMutex_incref 9 = Ok (false, 9%Z) ∧
  increfAndClose 3 9 = Ok (false, 9%Z, []) ∧
  rwlock true 9 [] = Ok (false, 9%Z, []) ∧
  fdMutex_decref 1 = Panic inconsistentMsg.
Proof.
  destruct (closed_is_final 3 (mkFields true false false 1 0 0)) as (H1 & H2 & H3 & H4).
  - fields_range.
  - reflexivity.
  - destruct (H4 true 1%Z (or_introl eq_refl)) as (g & _ & _ & _ & _ & _ & H5).
    exact (conj H1 (conj H2 (conj (H3 true []) (proj1 (H5 eq_refl))))).
Defined.

Lemma rwlock_hand_over_witness :
  ∃ held parked,
    rwlock true 24 [] = Ok (true, held, []) ∧
    rwlock_iter true held = Ok (Parked parked) ∧
    rwlock true held [] = Deadlock ∧
    rwunlock true parked = Ok (false, 24%Z, [runtime_Semrelease rsema]) ∧
    rwlock true held [24%Z] = Ok (true, held, [runtime_Semacquire rsema]).
Proof.
  refine (rwlock_hand_over true (mkFields false false false 3 0 0) _ _ _ _ _).
  - fields_range.
  - reflexivity.
  - reflexivity.
  - reflexivity.
  - simpl; lia.
Defined.

Lemma close_under_waiter_witness :
  ∃ held parked closed unlocked final,
    rwlock false 0 [] = Ok (true, held, []) ∧
    rwlock_iter false held = Ok (Parked parked) ∧
    increfAndClose 2 parked = Ok (true, closed, [runtime_Semrelease wsema]) ∧
    rwlock false held [closed] = Ok (false, closed, [runtime_Semacquire wsema]) ∧
    rwunlock false closed = Ok (false, unlocked, []) ∧
    fdMutex_decref unlocked = Ok (true, final) ∧
    fdMutex_incref final = Ok (false, final).
Proof.
  refine (close_under_waiter false 2 (mkFields false false false 0 0 0) _ _ _ _ _ _ _).
  - fields_range.
  - reflexivity.
  - reflexivity.
  - reflexivity.
  - reflexivity.
  - simpl; lia.
  - lia.
Defined.
